(** * geojson-path-finder: a shallow embedding of the path finder facade,
      the phantom injector, the two searches, the worker pool and the
      worker script, with the properties stated by the specification and
      further properties of the code. *)

From Stdlib Require Import QArith Qround Qabs Lia Lqa List Permutation Sorted.
From stdpp Require Import base option gmap strings list fin_maps.

Local Open Scope Q_scope.
Set Warnings "-clear-no-such-hyp".

(** ** Numbers and coordinates

    JavaScript numbers are idealised as rationals.  A GeoJSON position has
    at least a longitude and a latitude; further components (elevation)
    follow. *)

Abbreviation Key := string.

Record Position := mkPosition {
  lon : Q;
  lat : Q;
  extra : list Q
}.

(** [Math.round]: the nearest integer, halves going up. *)
Definition Math_round (x : Q) : Z := Qfloor (x + (1 # 2)).

(** src/round-coord.ts *)
Definition roundCoord (coord : Position) (tolerance : Q) : Position :=
  {| lon := inject_Z (Math_round (lon coord / tolerance)) * tolerance;
     lat := inject_Z (Math_round (lat coord / tolerance)) * tolerance;
     extra := extra coord |}.

(** ** Exceptions

    A computation that can throw returns a [Result].  The errors are the
    library's own ambiguous-coordinate error, the [TypeError] the runtime
    raises on a property access through [undefined], and whatever a user
    callback throws. *)

Inductive Error :=
  | AmbiguousVertex (coordinate : Position) (matches : list Key)
  | TypeError
  | UserError (message : string).

Inductive Result (A : Type) :=
  | Ok (a : A)
  | Throw (e : Error).
Arguments Ok {A} a.
Arguments Throw {A} e.

Definition rbind {A B} (r : Result A) (k : A -> Result B) : Result B :=
  match r with
  | Ok a => k a
  | Throw e => Throw e
  end.

Declare Scope result_scope.
Delimit Scope result_scope with result.
Notation "'let!' x ':=' r 'in' k" := (rbind r (fun x => k))
  (at level 10, x pattern, r at level 100, k at level 200) : result_scope.
Local Open Scope result_scope.

(** A [forEach] whose body can throw: the accumulator is the state the
    body mutates. *)
Fixpoint forEach {A S} (body : S -> A -> Result S) (l : list A) (s : S) : Result S :=
  match l with
  | [] => Ok s
  | a :: l' => let! s' := body s a in forEach body l' s'
  end.

(** The number a bias callback returns: a finite one, or [Infinity], with
    which [newCost < Infinity] fails and [newCost >= Infinity] holds.
    [NaN] and [-Infinity] are left out. *)
Inductive jsnum :=
  | Finite (q : Q)
  | NonFinite.

(** ** The priority queue

    The searches use the [tinyqueue] package, a binary heap ordered by a
    comparator [(a, b) => prio a - prio b].  Only its contract is used:
    [pop] removes an item of least priority. *)

Class PriorityQueue (A : Type) (prio : A -> Q) := {
  pq : Type;
  pq_new : list A -> pq;
  pq_push : pq -> A -> pq;
  pq_pop : pq -> option (A * pq);
  pq_items : pq -> list A;
  pq_new_items : forall l, pq_items (pq_new l) ≡ₚ l;
  pq_push_items : forall q x, pq_items (pq_push q x) ≡ₚ x :: pq_items q;
  pq_pop_spec : forall q,
    match pq_pop q with
    | None => pq_items q = []
    | Some (x, q') =>
        pq_items q ≡ₚ x :: pq_items q' /\
        Forall (fun y => prio x <= prio y) (pq_items q)
    end
}.

(** An executable queue: an unordered list, [pop] takes out the first
    item of least priority. *)
Section ListQueue.
Context {A : Type} (prio : A -> Q).

Fixpoint take_min (x : A) (l : list A) : A * list A :=
  match l with
  | [] => (x, [])
  | y :: l' =>
      let '(m, rest) := take_min y l' in
      if Qle_bool (prio x) (prio m) then (x, y :: l') else (m, x :: rest)
  end.

Definition list_pop (l : list A) : option (A * list A) :=
  match l with
  | [] => None
  | x :: l' => Some (take_min x l')
  end.

Lemma take_min_spec (x : A) (l : list A) :
  x :: l ≡ₚ (take_min x l).1 :: (take_min x l).2 /\
  Forall (fun y => prio (take_min x l).1 <= prio y) (x :: l).
Proof.
  revert x. induction l as [|y l IH]; intros x; cbn [take_min].
  - split; [reflexivity |]. repeat constructor. apply Qle_refl.
  - destruct (IH y) as [Hp Hm]. destruct (take_min y l) as [m rest].
    cbn [fst snd] in *.
    destruct (Qle_bool (prio x) (prio m)) eqn:Hc; cbn [fst snd].
    + apply Qle_bool_iff in Hc. split; [reflexivity |].
      constructor; [apply Qle_refl |].
      eapply Forall_impl; [exact Hm |]. cbn. intros z Hz. lra.
    + assert (Hlt : prio m < prio x).
      { apply Qnot_le_lt. intros Hle. apply Qle_bool_iff in Hle. congruence. }
      split.
      * rewrite Hp. apply perm_swap.
      * constructor; [lra | exact Hm].
Qed.

#[refine] Instance ListQueue : PriorityQueue A prio := {|
  pq := list A;
  pq_new := fun l => l;
  pq_push := fun q x => q ++ [x];
  pq_pop := list_pop;
  pq_items := fun q => q
|}.
Proof.
  - reflexivity.
  - intros q x. symmetry. apply Permutation_cons_append.
  - intros [|x l]; cbn [list_pop]; [reflexivity |].
    pose proof (take_min_spec x l) as Hs.
    destruct (take_min x l) as [m rest]. exact Hs.
Defined.
End ListQueue.

(** ** The graph tables (src/types.ts)

    Objects used as maps are finite maps; [Object.keys] is [map_to_list],
    in the order of the map.  No property below depends on that order,
    and the worked searches have no two queue entries of equal
    priority. *)

Abbreviation Vertex := (gmap Key Q).
Abbreviation Vertices := (gmap Key (gmap Key Q)).
Abbreviation Coordinates := (gmap Key Position).

(** ** What the two searches share

    The argument objects of the callbacks, the state of the [while (true)]
    loop and the result of one turn of it.  [calls] is the sequence of
    [onNodeExpanded] invocations made so far, the only effect of a search
    that is visible outside it. *)

Record BiasInput := {
  bi_cost : Q;
  bi_from : Key;
  bi_to : Key;
  bi_path : list Key
}.

Record TurnInput := {
  ti_path : list Key;
  ti_from : Key;
  ti_to : Key
}.

(** [{ key, cost }] *)
Abbreviation Expansion := (Key * Q)%type.

Record Search (Qu : Type) := mkSearch {
  costs : gmap Key Q;
  queue : Qu;
  calls : list Expansion
}.
Arguments mkSearch {Qu} _ _ _.
Arguments costs {Qu} _.
Arguments queue {Qu} _.
Arguments calls {Qu} _.

Inductive Step (Qu : Type) :=
  | Continue (s : Search Qu)
  | Return (r : Result (option (Q * list Key))) (made : list Expansion).
Arguments Continue {Qu} s.
Arguments Return {Qu} r made.

(** [options.onNodeExpanded?.({ key: node, cost })] *)
Definition notify (onNodeExpanded : option (Expansion -> Result unit))
    (made : list Expansion) (node : Key) (cost : Q) : Result unit * list Expansion :=
  match onNodeExpanded with
  | None => (Ok tt, made)
  | Some f => (f (node, cost), made ++ [(node, cost)])
  end.

(** [!(n in costs) || newCost < costs[n]] *)
Definition improves (newCost : Q) (known : option Q) : bool :=
  match known with
  | None => true
  | Some c => if Qlt_le_dec newCost c then true else false
  end.

(** [cost > (costs[node] ?? Infinity)] *)
Definition stale (cost : Q) (known : option Q) : bool :=
  match known with
  | None => false
  | Some c => if Qlt_le_dec c cost then true else false
  end.

(** The loop, run for at most [fuel] turns; [None] when they do not
    suffice. *)
Fixpoint loop {Qu} (iteration : Search Qu -> Step Qu) (fuel : nat) (s : Search Qu)
    : option (Result (option (Q * list Key)) * list Expansion) :=
  match fuel with
  | O => None
  | S fuel' =>
      match iteration s with
      | Continue s' => loop iteration fuel' s'
      | Return r made => Some (r, made)
      end
  end.

(** ** Dijkstra (src/dijkstra.ts) *)

Module Dijkstra.

(** [[number, Key[], Key]] *)
Record State := mkState {
  cost : Q;
  path : list Key;
  node : Key
}.

Record Options := mkOptions {
  directionBias : option (BiasInput -> Result jsnum);
  isTurnAllowed : option (TurnInput -> Result bool);
  onNodeExpanded : option (Expansion -> Result unit)
}.

Section WithQueue.
Context `{PQ : PriorityQueue State cost}.

(** The body of [Object.keys(neighbours).forEach]. *)
Definition relax (options : Options) (state : State)
    (acc : gmap Key Q * pq) (nw : Key * Q) : Result (gmap Key Q * pq) :=
  let '(n, w) := nw in
  let! allowed :=
    match isTurnAllowed options with
    | Some f => f {| ti_path := path state; ti_from := node state; ti_to := n |}
    | None => Ok true
    end in
  if negb allowed then Ok acc else
  let! bias :=
    match directionBias options with
    | Some f => f {| bi_cost := cost state; bi_from := node state;
                     bi_to := n; bi_path := path state |}
    | None => Ok (Finite 0)
    end in
  match bias with
  | NonFinite => Ok acc
  | Finite b =>
      let newCost := cost state + w + b in
      if improves newCost (acc.1 !! n) then
        Ok (<[n := newCost]> acc.1,
            pq_push acc.2 (mkState newCost (path state ++ [n]) n))
      else Ok acc
  end.

(** One turn of the loop. *)
Definition iteration (graph : Vertices) (goal : Key) (options : Options)
    (s : Search pq) : Step pq :=
  match pq_pop (queue s) with
  | None => Return (Ok None) (calls s)
  | Some (state, rest) =>
      let '(r, made) := notify (onNodeExpanded options) (calls s) (node state) (cost state) in
      match r with
      | Throw e => Return (Throw e) made
      | Ok _ =>
          if decide (node state = goal) then
            Return (Ok (Some (cost state, path state))) made
          else
            match graph !! node state with
            | None => Return (Throw TypeError) made
            | Some neighbours =>
                match forEach (relax options state) (map_to_list neighbours) (costs s, rest) with
                | Throw e => Return (Throw e) made
                | Ok (costs', queue') => Continue (mkSearch costs' queue' made)
                end
            end
      end
  end.

Definition initial (start : Key) : Search pq :=
  mkSearch {[ start := 0 ]} (pq_new [mkState 0 [start] start]) [].

Definition findPath (fuel : nat) (graph : Vertices) (start goal : Key)
    (options : Options) : option (Result (option (Q * list Key)) * list Expansion) :=
  loop (iteration graph goal options) fuel (initial start).
End WithQueue.
End Dijkstra.

(** ** A* (src/a-star.ts)

    [distance] is [@turf/distance], the great-circle distance in
    kilometres between two positions. *)

Module AStar.

Record State := mkState {
  cost : Q;
  estimate : Q;
  path : list Key;
  node : Key
}.

Record Options := mkOptions {
  directionBias : option (BiasInput -> Result jsnum);
  coordinates : option Coordinates;
  onNodeExpanded : option (Expansion -> Result unit)
}.

Definition heuristic (distance : Position -> Position -> Q)
    (key goal : Key) (coordinates : option Coordinates) : Q :=
  match coordinates with
  | None => 0
  | Some coordinates =>
      match coordinates !! key, coordinates !! goal with
      | Some startCoordinate, Some goalCoordinate =>
          distance startCoordinate goalCoordinate
      | _, _ => 0
      end
  end.

Section WithQueue.
Context `{PQ : PriorityQueue State estimate}.
Variable distance : Position -> Position -> Q.

Definition relax (goal : Key) (options : Options) (state : State)
    (acc : gmap Key Q * pq) (nw : Key * Q) : Result (gmap Key Q * pq) :=
  let '(n, w) := nw in
  let! bias :=
    match directionBias options with
    | Some f => f {| bi_cost := cost state; bi_from := node state;
                     bi_to := n; bi_path := path state |}
    | None => Ok (Finite 0)
    end in
  match bias with
  | NonFinite => Ok acc
  | Finite b =>
      let newCost := cost state + w + b in
      if improves newCost (acc.1 !! n) then
        let estimate := newCost + heuristic distance n goal (coordinates options) in
        Ok (<[n := newCost]> acc.1,
            pq_push acc.2 (mkState newCost estimate (path state ++ [n]) n))
      else Ok acc
  end.

Definition iteration (graph : Vertices) (goal : Key) (options : Options)
    (s : Search pq) : Step pq :=
  match pq_pop (queue s) with
  | None => Return (Ok None) (calls s)
  | Some (state, rest) =>
      if stale (cost state) (costs s !! node state) then
        Continue (mkSearch (costs s) rest (calls s))
      else
        let '(r, made) := notify (onNodeExpanded options) (calls s) (node state) (cost state) in
        match r with
        | Throw e => Return (Throw e) made
        | Ok _ =>
            if decide (node state = goal) then
              Return (Ok (Some (cost state, path state))) made
            else
              match graph !! node state with
              | None => Return (Throw TypeError) made
              | Some neighbours =>
                  match forEach (relax goal options state) (map_to_list neighbours) (costs s, rest) with
                  | Throw e => Return (Throw e) made
                  | Ok (costs', queue') => Continue (mkSearch costs' queue' made)
                  end
              end
        end
  end.

Definition initial (start goal : Key) (options : Options) : Search pq :=
  let initialEstimate := heuristic distance start goal (coordinates options) in
  mkSearch {[ start := 0 ]} (pq_new [mkState 0 initialEstimate [start] start]) [].

Definition findPath (fuel : nat) (graph : Vertices) (start goal : Key)
    (options : Options) : option (Result (option (Q * list Key)) * list Expansion) :=
  loop (iteration graph goal options) fuel (initial start goal options).
End WithQueue.
End AStar.

(** ** The facade (src/index.ts) *)

Inductive Algorithm := dijkstra | astar.

(** [DirectionBiasContext], also the [TransitionGuardContext]. *)
Record DirectionBiasContext := mkContext {
  ctx_cost : Q;
  ctx_from : Position;
  ctx_to : Position;
  ctx_goal : Position;
  ctx_fromToVector : Q * Q;
  ctx_fromGoalVector : Q * Q;
  ctx_toGoalVector : Q * Q;
  ctx_previous : option Position;
  ctx_previousToFromVector : option (Q * Q);
  ctx_path : list Key
}.

(** [PathFinderSearchOptions].  A guard returns [boolean | void]:
    [Some b] for a boolean, [None] for [undefined]. *)
Record PathFinderSearchOptions := mkSearchOptions {
  directionBias : option (DirectionBiasContext -> Result jsnum);
  transitionGuard : option (DirectionBiasContext -> Result (option bool));
  algorithm : option Algorithm;
  onNodeExpanded : option (Expansion -> Result unit)
}.

(** The object literal [sharedOptions] of [findPathFromVertexKeys]. *)
Record SharedOptions := mkSharedOptions {
  shared_directionBias : option (BiasInput -> Result jsnum);
  shared_transitionGuard : option (BiasInput -> Result bool);
  shared_onNodeExpanded : option (Expansion -> Result unit)
}.

(** What src/dijkstra.ts reads of the options object it is given:
    [directionBias], [isTurnAllowed] and [onNodeExpanded].  The shared
    options have no [isTurnAllowed] property, and their [transitionGuard]
    property is not one that the search looks up. *)
Definition dijkstraOptions (sharedOptions : SharedOptions) : Dijkstra.Options :=
  Dijkstra.mkOptions (shared_directionBias sharedOptions) None
    (shared_onNodeExpanded sharedOptions).

(** What src/a-star.ts reads of [{ ...sharedOptions, coordinates }]:
    [directionBias], [coordinates] and [onNodeExpanded]. *)
Definition astarOptions (sharedOptions : SharedOptions) (coordinates : Coordinates)
    : AStar.Options :=
  AStar.mkOptions (shared_directionBias sharedOptions) (Some coordinates)
    (shared_onNodeExpanded sharedOptions).

(** [Path<TEdgeReduce>]; an array read at a missing key holds [undefined],
    here [None]. *)
Record Path (EdgeData : Type) := mkPath {
  path : list (option Position);
  weight : Q;
  edgeDatas : option (list (option EdgeData))
}.
Arguments mkPath {EdgeData} _ _ _.
Arguments path {EdgeData} _.
Arguments weight {EdgeData} _.
Arguments edgeDatas {EdgeData} _.

(** [PathFinderGraph<TEdgeData>] *)
Record PathFinderGraph (EdgeData : Type) := mkGraph {
  vertices : Vertices;
  edgeData : gmap Key (gmap Key (option EdgeData));
  sourceCoordinates : Coordinates;
  compactedVertices : Vertices;
  compactedCoordinates : gmap Key (gmap Key (list (option Position)));
  compactedEdges : gmap Key (gmap Key (option EdgeData))
}.
Arguments mkGraph {EdgeData} _ _ _ _ _ _.
Arguments vertices {EdgeData} _.
Arguments edgeData {EdgeData} _.
Arguments sourceCoordinates {EdgeData} _.
Arguments compactedVertices {EdgeData} _.
Arguments compactedCoordinates {EdgeData} _.
Arguments compactedEdges {EdgeData} _.

(** The object [compactNode] of src/compactor.ts returns. *)
Record CompactedNode (EdgeData : Type) := mkCompactedNode {
  edges : gmap Key Q;
  incomingEdges : gmap Key Q;
  coordinates : gmap Key (list (option Position));
  incomingCoordinates : gmap Key (list (option Position));
  reducedEdges : gmap Key (option EdgeData)
}.
Arguments mkCompactedNode {EdgeData} _ _ _ _ _.
Arguments edges {EdgeData} _.
Arguments incomingEdges {EdgeData} _.
Arguments coordinates {EdgeData} _.
Arguments incomingCoordinates {EdgeData} _.
Arguments reducedEdges {EdgeData} _.

(** The part of [PathFinderOptions] the facade reads after construction. *)
Record WorkerOptions := mkWorkerOptions {
  enabled : bool;
  poolSize : option nat
}.

Record PathFinderOptions := mkPathFinderOptions {
  tolerance : option Q;
  key : option (Position -> Key);
  worker : option WorkerOptions
}.

(** Statements that mutate [this.graph] and can throw: the graph is
    threaded through, and a throw keeps the mutations made before it. *)
Definition M (EdgeData A : Type) : Type :=
  PathFinderGraph EdgeData -> Result A * PathFinderGraph EdgeData.

Definition mret {EdgeData A} (a : A) : M EdgeData A := fun g => (Ok a, g).

Definition mthrow {EdgeData A} (e : Error) : M EdgeData A := fun g => (Throw e, g).

Definition mbind {EdgeData A B} (m : M EdgeData A) (k : A -> M EdgeData B)
    : M EdgeData B :=
  fun g =>
    match m g with
    | (Ok a, g') => k a g'
    | (Throw e, g') => (Throw e, g')
    end.

Definition mget {EdgeData} : M EdgeData (PathFinderGraph EdgeData) :=
  fun g => (Ok g, g).

Definition mput {EdgeData} (g : PathFinderGraph EdgeData) : M EdgeData unit :=
  fun _ => (Ok tt, g).

Declare Scope graph_scope.
Delimit Scope graph_scope with graph.
Notation "'do' x '<-' m ';' k" := (mbind m (fun x => k))
  (at level 10, x pattern, m at level 100, k at level 200) : graph_scope.
Notation "m ';;' k" := (mbind m (fun _ => k))
  (at level 100, k at level 200, right associativity) : graph_scope.

Fixpoint mforEach {EdgeData A} (body : A -> M EdgeData unit) (l : list A)
    : M EdgeData unit :=
  match l with
  | [] => mret tt
  | a :: l' => mbind (body a) (fun _ => mforEach body l')
  end.

(** [array.slice(0, -1)] *)
Definition slice_0_minus1 {A} (l : list A) : list A := removelast l.

(** The consecutive pairs [(vertexKeys[index - 1], vertexKey)] that the
    two [reduce] calls of the path reconstruction visit. *)
Fixpoint consecutive (vertexKeys : list Key) : list (Key * Key) :=
  match vertexKeys with
  | a :: (b :: _) as rest => (a, b) :: consecutive rest
  | _ => []
  end.

Section Facade.
Context {EdgeData : Type}.
Context `{PQD : PriorityQueue Dijkstra.State Dijkstra.cost}.
Context `{PQA : PriorityQueue AStar.State AStar.estimate}.

(** [defaultKey] of src/topology.ts, [@turf/distance], and
    [compactNode] of src/compactor.ts called with [trackIncoming = true]
    and the facade's options, on the four tables it is given. *)
Variable defaultKey : Position -> Key.
Variable distance : Position -> Position -> Q.
Variable compactNode :
  Key -> Vertices -> Vertices -> Coordinates ->
  gmap Key (gmap Key (option EdgeData)) -> CompactedNode EdgeData.

(** The fields of [this] that the methods read. *)
Variable options : PathFinderOptions.
Variable hasEdgeDataReducer : bool.

Local Open Scope graph_scope.
Local Abbreviation Graph := (PathFinderGraph EdgeData).
Local Abbreviation G := (M EdgeData).

Definition set_compactedVertices (v : Vertices) (g : Graph) : Graph :=
  mkGraph (vertices g) (edgeData g) (sourceCoordinates g) v
    (compactedCoordinates g) (compactedEdges g).

Definition set_compactedCoordinates
    (c : gmap Key (gmap Key (list (option Position)))) (g : Graph) : Graph :=
  mkGraph (vertices g) (edgeData g) (sourceCoordinates g) (compactedVertices g)
    c (compactedEdges g).

Definition set_compactedEdges
    (e : gmap Key (gmap Key (option EdgeData))) (g : Graph) : Graph :=
  mkGraph (vertices g) (edgeData g) (sourceCoordinates g) (compactedVertices g)
    (compactedCoordinates g) e.

Definition modify (f : Graph -> Graph) : G unit := fun g => (Ok tt, f g).

Definition update_compactedVertices (f : Vertices -> Vertices) : G unit :=
  modify (fun g => set_compactedVertices (f (compactedVertices g)) g).

Definition update_compactedCoordinates
    (f : gmap Key (gmap Key (list (option Position))) ->
         gmap Key (gmap Key (list (option Position)))) : G unit :=
  modify (fun g => set_compactedCoordinates (f (compactedCoordinates g)) g).

Definition update_compactedEdges
    (f : gmap Key (gmap Key (option EdgeData)) ->
         gmap Key (gmap Key (option EdgeData))) : G unit :=
  modify (fun g => set_compactedEdges (f (compactedEdges g)) g).

(** *** Endpoint resolution *)

Definition sameRounded (tolerance : Q) (coordinate sourceCoordinate : Position) : bool :=
  let roundedSource := roundCoord sourceCoordinate tolerance in
  Qeq_bool (lon roundedSource) (lon coordinate) &&
  Qeq_bool (lat roundedSource) (lat coordinate).

Definition matchesOf (g : Graph) (coordinate : Position) (tolerance : Q) : list Key :=
  (filter (fun entry => sameRounded tolerance coordinate entry.2 = true)
          (map_to_list (sourceCoordinates g))).*1.

Definition _resolveVertexKey (g : Graph) (coordinate : Position)
    (keyFn : Position -> Key) (tolerance : Q) : Result Key :=
  let directKey := keyFn coordinate in
  if decide (is_Some (vertices g !! directKey)) then Ok directKey else
  let matches := matchesOf g coordinate tolerance in
  match matches with
  | [only] => Ok only
  | _ =>
      if (1 <? length matches)%nat
      then Throw (AmbiguousVertex coordinate matches)
      else Ok directKey
  end.

(** *** The phantom injector *)

(** [table[neighbor][n] = value], on a row that exists. *)
Definition setCell {V} (neighbor n : Key) (value : V)
    (table : gmap Key (gmap Key V)) : gmap Key (gmap Key V) :=
  <[neighbor := <[n := value]> (default ∅ (table !! neighbor))]> table.

(** [if (!table[neighbor]) table[neighbor] = {}] *)
Definition ensureRow {V} (neighbor : Key)
    (table : gmap Key (gmap Key V)) : gmap Key (gmap Key V) :=
  match table !! neighbor with
  | Some _ => table
  | None => <[neighbor := ∅]> table
  end.

(** The body of [Object.keys(phantom.incomingEdges).forEach]; [incoming]
    is [phantom.incomingEdges[neighbor]]. *)
Definition registerIncoming (n : Key) (phantom : CompactedNode EdgeData)
    (entry : Key * Q) : G unit :=
  let '(neighbor, incoming) := entry in
  do g <- mget;
  match compactedVertices g !! neighbor with
  | None => mthrow TypeError
  | Some _ =>
      update_compactedVertices (setCell neighbor n incoming) ;;
      update_compactedCoordinates (ensureRow neighbor) ;;
      match incomingCoordinates phantom !! neighbor with
      | None => mthrow TypeError
      | Some reversed =>
          update_compactedCoordinates
            (setCell neighbor n
               ((sourceCoordinates g !! neighbor) :: slice_0_minus1 reversed)) ;;
          (** [if (this.graph.compactedEdges)]: the table is an object,
              which is truthy. *)
          update_compactedEdges (ensureRow neighbor) ;;
          update_compactedEdges
            (setCell neighbor n (mjoin (reducedEdges phantom !! neighbor)))
      end
  end.

Definition _createPhantom (n : Key) : G (option Key) :=
  do g <- mget;
  if decide (is_Some (compactedVertices g !! n)) then mret None else
  let phantom :=
    compactNode n (vertices g) (compactedVertices g) (sourceCoordinates g)
      (edgeData g) in
  update_compactedVertices (insert n (edges phantom)) ;;
  update_compactedCoordinates (insert n (coordinates phantom)) ;;
  (if hasEdgeDataReducer
   then update_compactedEdges (insert n (reducedEdges phantom))
   else mret tt) ;;
  mforEach (registerIncoming n phantom) (map_to_list (incomingEdges phantom)) ;;
  mret (Some n).

(** [Object.keys(table[n]).forEach((neighbor) => { delete table[neighbor][n]; })]
    on one of the three compacted tables. *)
Definition unlink {V} (table : Graph -> gmap Key (gmap Key V))
    (update : (gmap Key (gmap Key V) -> gmap Key (gmap Key V)) -> G unit)
    (n : Key) : G unit :=
  do g <- mget;
  match table g !! n with
  | None => mthrow TypeError
  | Some own =>
      mforEach (fun neighbor =>
                  do g' <- mget;
                  match table g' !! neighbor with
                  | None => mthrow TypeError
                  | Some row => update (insert neighbor (delete n row))
                  end)
               (map_to_list own).*1
  end.

(** [!n]: [undefined] and the empty string are falsy. *)
Definition falsy (n : option Key) : bool :=
  match n with
  | None => true
  | Some k => bool_decide (k = "")
  end.

Definition _removePhantom (n : option Key) : G unit :=
  match n with
  | None => mret tt
  | Some k =>
      if falsy n then mret tt else
      unlink compactedVertices update_compactedVertices k ;;
      unlink compactedCoordinates update_compactedCoordinates k ;;
      (if hasEdgeDataReducer
       then unlink compactedEdges update_compactedEdges k
       else mret tt) ;;
      update_compactedVertices (delete k) ;;
      update_compactedCoordinates (delete k) ;;
      (** [if (this.graph.compactedEdges)] *)
      update_compactedEdges (delete k)
  end.

(** *** The traversal context *)

Definition _resolveCompactedCoordinate (g : Graph) (from to : Key) : option Position :=
  match compactedCoordinates g !! from ≫= (fun row => row !! to) with
  | None => None
  | Some coordinates => mjoin (last coordinates)
  end.

(** [path.length > 1 ? path[path.length - 2] : undefined] *)
Definition previousKeyOf (path : list Key) : option Key :=
  if (1 <? length path)%nat then path !! (length path - 2)%nat else None.

Definition vector (a b : Position) : Q * Q := (lon b - lon a, lat b - lat a).

Definition buildTraversalContext (g : Graph) (finish : Key) (input : BiasInput)
    : option DirectionBiasContext :=
  let goalCoordinate := sourceCoordinates g !! finish in
  let previousKey := previousKeyOf (bi_path input) in
  let fromCoordinate :=
    match sourceCoordinates g !! bi_from input with
    | Some c => Some c
    | None =>
        match previousKey with
        | Some previous => _resolveCompactedCoordinate g previous (bi_from input)
        | None => None
        end
    end in
  let toCoordinate :=
    match sourceCoordinates g !! bi_to input with
    | Some c => Some c
    | None => _resolveCompactedCoordinate g (bi_from input) (bi_to input)
    end in
  match fromCoordinate, toCoordinate, goalCoordinate with
  | Some fromCoordinate, Some toCoordinate, Some goalCoordinate =>
      let previousCoordinate :=
        match previousKey with
        | None => None
        | Some previous =>
            match sourceCoordinates g !! previous with
            | Some c => Some c
            | None => _resolveCompactedCoordinate g previous (bi_from input)
            end
        end in
      Some {| ctx_cost := bi_cost input;
              ctx_from := fromCoordinate;
              ctx_to := toCoordinate;
              ctx_goal := goalCoordinate;
              ctx_fromToVector := vector fromCoordinate toCoordinate;
              ctx_fromGoalVector := vector fromCoordinate goalCoordinate;
              ctx_toGoalVector := vector toCoordinate goalCoordinate;
              ctx_previous := previousCoordinate;
              ctx_previousToFromVector :=
                (fun previous => vector previous fromCoordinate) <$> previousCoordinate;
              ctx_path := bi_path input |}
  | _, _, _ => None
  end.

(** The two wrappers and the shared options. *)
Definition sharedOptionsOf (g : Graph) (finish : Key)
    (searchOptions : PathFinderSearchOptions) : SharedOptions :=
  let goalCoordinate := sourceCoordinates g !! finish in
  {| shared_directionBias :=
       match directionBias searchOptions, goalCoordinate with
       | Some userBias, Some _ =>
           Some (fun input =>
                   match buildTraversalContext g finish input with
                   | None => Ok (Finite 0)
                   | Some context => userBias context
                   end)
       | _, _ => None
       end;
     shared_transitionGuard :=
       match transitionGuard searchOptions, goalCoordinate with
       | Some userGuard, Some _ =>
           Some (fun input =>
                   match buildTraversalContext g finish input with
                   | None => Ok true
                   | Some context =>
                       let! result := userGuard context in
                       Ok (match result with Some false => false | _ => true end)
                   end)
       | _, _ => None
       end;
     shared_onNodeExpanded := onNodeExpanded searchOptions |}.

(** *** Search and path reconstruction: the [try] block *)

Definition runSearch (fuel : nat) (g : Graph) (start finish : Key)
    (searchOptions : PathFinderSearchOptions)
    : option (Result (option (Q * list Key)) * list Expansion) :=
  let sharedOptions := sharedOptionsOf g finish searchOptions in
  match algorithm searchOptions with
  | Some astar =>
      AStar.findPath distance fuel (compactedVertices g) start finish
        (astarOptions sharedOptions (sourceCoordinates g))
  | _ =>
      Dijkstra.findPath fuel (compactedVertices g) start finish
        (dijkstraOptions sharedOptions)
  end.

(** [array.concat(x)]: the items of an array, or [x] itself when it is
    not one. *)
Definition concatValue {A} (l : list (option A)) (x : option (list (option A)))
    : list (option A) :=
  match x with
  | Some items => l ++ items
  | None => l ++ [None]
  end.

Definition geometryOf (g : Graph) (vertexKeys : list Key) (finish : Key)
    : Result (list (option Position)) :=
  let! coordinates :=
    forEach (fun coordinates '(previous, vertexKey) =>
               match compactedCoordinates g !! previous with
               | None => Throw TypeError
               | Some row => Ok (concatValue coordinates (row !! vertexKey))
               end)
            (consecutive vertexKeys) [] in
  Ok (coordinates ++ [sourceCoordinates g !! finish]).

Definition edgeDatasOf (g : Graph) (vertexKeys : list Key)
    : Result (list (option EdgeData)) :=
  forEach (fun edges '(previous, vertexKey) =>
             match compactedEdges g !! previous with
             | None => Throw TypeError
             | Some row => Ok (edges ++ [mjoin (row !! vertexKey)])
             end)
          (consecutive vertexKeys) [].

Definition reconstruct (g : Graph) (finish : Key)
    (pathResult : option (Q * list Key)) : Result (option (Path EdgeData)) :=
  match pathResult with
  | None => Ok None
  | Some (weight, path) =>
      let! geometry := geometryOf g path finish in
      let! edgeDatas :=
        if hasEdgeDataReducer
        then (let! edges := edgeDatasOf g path in Ok (Some edges))
        else Ok None in
      Ok (Some (mkPath geometry weight edgeDatas))
  end.

(** *** [findPathFromVertexKeys] and [findPath]

    [None] when the search loop does not finish within [fuel] turns;
    otherwise what the call returns or throws, the graph it leaves
    behind, and the [onNodeExpanded] invocations it made. *)
Definition findPathFromVertexKeys (fuel : nat) (start finish : Key)
    (searchOptions : PathFinderSearchOptions) (g : Graph)
    : option (Result (option (Path EdgeData)) * Graph * list Expansion) :=
  if decide (is_Some (vertices g !! start) /\ is_Some (vertices g !! finish)) then
    match _createPhantom start g with
    | (Throw e, g1) => Some (Throw e, g1, [])
    | (Ok phantomStart, g1) =>
        match _createPhantom finish g1 with
        | (Throw e, g2) => Some (Throw e, g2, [])
        | (Ok phantomEnd, g2) =>
            match runSearch fuel g2 start finish searchOptions with
            | None => None
            | Some (searched, made) =>
                let attempt := let! pathResult := searched in
                               reconstruct g2 finish pathResult in
                match (_removePhantom phantomStart ;; _removePhantom phantomEnd) g2 with
                | (Ok _, g3) => Some (attempt, g3, made)
                | (Throw e, g3) => Some (Throw e, g3, made)
                end
            end
        end
    end
  else Some (Ok None, g, []).

Definition keyOf : Position -> Key := default defaultKey (key options).
Definition toleranceOf : Q := default (1 # 100000) (tolerance options).

Definition findPath (fuel : nat) (a b : Position)
    (searchOptions : PathFinderSearchOptions) (g : Graph)
    : option (Result (option (Path EdgeData)) * Graph * list Expansion) :=
  match _resolveVertexKey g (roundCoord a toleranceOf) keyOf toleranceOf with
  | Throw e => Some (Throw e, g, [])
  | Ok start =>
      match _resolveVertexKey g (roundCoord b toleranceOf) keyOf toleranceOf with
      | Throw e => Some (Throw e, g, [])
      | Ok finish =>
          if decide (is_Some (vertices g !! start) /\ is_Some (vertices g !! finish))
          then findPathFromVertexKeys fuel start finish searchOptions g
          else Some (Ok None, g, [])
      end
  end.
End Facade.

(** ** The compacted node of a phantom, and when it fits

    [compactNode] (src/compactor.ts) is a parameter.  [phantomOf] is the
    node [_createPhantom] computes for [n]. *)

Section Phantom.
Context {EdgeData : Type}.
Variable compactNode :
  Key -> Vertices -> Vertices -> Coordinates ->
  gmap Key (gmap Key (option EdgeData)) -> CompactedNode EdgeData.
Variable hasEdgeDataReducer : bool.
Local Abbreviation Graph := (PathFinderGraph EdgeData).

Definition phantomOf (n : Key) (g : Graph) : CompactedNode EdgeData :=
  compactNode n (vertices g) (compactedVertices g) (sourceCoordinates g) (edgeData g).

(** The compacted node of [n] fits the compacted tables: the neighbours
    it names have the rows the injector and the removal index. *)
Definition phantomFits (n : Key) (g : Graph) : Prop :=
  let phantom := phantomOf n g in
  dom (incomingEdges phantom) ⊆ dom (compactedVertices g) /\
  dom (incomingEdges phantom) ⊆ dom (incomingCoordinates phantom) /\
  dom (edges phantom) ⊆ dom (compactedVertices g) /\
  dom (coordinates phantom) ⊆
    dom (compactedCoordinates g) ∪ dom (incomingEdges phantom) /\
  (hasEdgeDataReducer = true ->
   dom (reducedEdges phantom) ⊆ dom (compactedEdges g) ∪ dom (incomingEdges phantom)).

#[global] Instance phantomFits_dec n g : Decision (phantomFits n g).
Proof. unfold phantomFits. cbn zeta. apply _. Defined.

(** No compacted table mentions [n]: it has no row, and no row has an
    entry for it. *)
Definition phantomFresh (n : Key) (g : Graph) : Prop :=
  compactedVertices g !! n = None /\
  compactedCoordinates g !! n = None /\
  compactedEdges g !! n = None /\
  map_Forall (fun _ row => row !! n = None) (compactedVertices g) /\
  map_Forall (fun _ row => row !! n = None) (compactedCoordinates g) /\
  map_Forall (fun _ row => row !! n = None) (compactedEdges g).

(** Every neighbour the compacted node of [n] is reached from is one it
    reaches, in each of its three tables, and the neighbours it reaches
    have rows in the compacted tables. *)
Definition phantomSymmetric (n : Key) (g : Graph) : Prop :=
  let phantom := phantomOf n g in
  dom (incomingEdges phantom) ⊆ dom (incomingCoordinates phantom) /\
  dom (incomingEdges phantom) ⊆ dom (edges phantom) /\
  dom (incomingEdges phantom) ⊆ dom (coordinates phantom) /\
  dom (incomingEdges phantom) ⊆ dom (reducedEdges phantom) /\
  dom (edges phantom) ⊆ dom (compactedVertices g) /\
  dom (coordinates phantom) ⊆ dom (compactedCoordinates g) /\
  dom (reducedEdges phantom) ⊆ dom (compactedEdges g).

#[global] Instance phantomFresh_dec n g : Decision (phantomFresh n g).
Proof. unfold phantomFresh. apply _. Defined.

#[global] Instance phantomSymmetric_dec n g : Decision (phantomSymmetric n g).
Proof. unfold phantomSymmetric. cbn zeta. apply _. Defined.
(** The shape the specification gives the stored list of an edge
    [(u, v)]: without [u]'s coordinate, ending with [v]'s. *)
Definition IntermediatesThenTarget (g : Graph) (u v : Key)
    (stored : list (option Position)) : Prop :=
  ((sourceCoordinates g !! u) ∉ stored) /\
  last stored = Some (sourceCoordinates g !! v).

(** [compactedVertices[u][n]] *)
Definition cellOf (g : Graph) (u n : Key) : option Q :=
  compactedVertices g !! u ≫= (fun row => row !! n).
End Phantom.

(** ** [findPathAsync] (src/index.ts)

    [this.workerPool] is [null] (no pool, settled), [undefined] (not tried
    yet) or a pool.  The runtime says whether the worker-pool module can
    be loaded and whether worker threads are available.  The outcome of
    the call is the synchronous fallback, a rejection by endpoint
    resolution, [undefined], or a task handed to [pool.schedule]. *)

Inductive WorkerPoolField := PoolNull | PoolUndefined | PoolObject.

Record Runtime := mkRuntime {
  workerPoolModuleLoads : bool;
  workerThreadsAvailable : bool
}.

Inductive AsyncOutcome (EdgeData : Type) :=
  | RanSynchronously
      (r : option (Result (option (Path EdgeData)) * PathFinderGraph EdgeData
                   * list Expansion))
  | RejectedWith (e : Error)
  | ResolvedAbsent
  | Scheduled (start finish : Key) (workerSearchOptions : option Algorithm).
Arguments RanSynchronously {EdgeData} r.
Arguments RejectedWith {EdgeData} e.
Arguments ResolvedAbsent {EdgeData}.
Arguments Scheduled {EdgeData} start finish workerSearchOptions.

Definition supplied {A} (callback : option A) : bool :=
  match callback with
  | Some _ => true
  | None => false
  end.

Definition _hasWorkerSearchCallbacks (searchOptions : PathFinderSearchOptions) : bool :=
  supplied (directionBias searchOptions) ||
  supplied (transitionGuard searchOptions) ||
  supplied (onNodeExpanded searchOptions).

Definition _toWorkerSearchOptions (searchOptions : PathFinderSearchOptions)
    : option Algorithm :=
  algorithm searchOptions.

(** [this.workerOptions?.enabled] *)
Definition workerEnabled (options : PathFinderOptions) : bool :=
  match worker options with
  | Some workerOptions => enabled workerOptions
  | None => false
  end.

(** Whether a pool comes back, and the new value of [this.workerPool]. *)
Definition _ensureWorkerPool (options : PathFinderOptions) (hasEdgeDataReducer : bool)
    (runtime : Runtime) (workerPool : WorkerPoolField) : bool * WorkerPoolField :=
  match workerPool with
  | PoolNull => (false, PoolNull)
  | _ =>
      if negb (workerEnabled options) || hasEdgeDataReducer then (false, PoolNull)
      else
        match workerPool with
        | PoolObject => (true, PoolObject)
        | _ =>
            if negb (workerPoolModuleLoads runtime) then (false, PoolNull)
            else if negb (workerThreadsAvailable runtime) then (false, PoolNull)
            else (true, PoolObject)
        end
  end.

Section FacadeAsync.
Context {EdgeData : Type}.
Context `{PQD : PriorityQueue Dijkstra.State Dijkstra.cost}.
Context `{PQA : PriorityQueue AStar.State AStar.estimate}.
Variable defaultKey : Position -> Key.
Variable distance : Position -> Position -> Q.
Variable compactNode :
  Key -> Vertices -> Vertices -> Coordinates ->
  gmap Key (gmap Key (option EdgeData)) -> CompactedNode EdgeData.
Variable options : PathFinderOptions.
Variable hasEdgeDataReducer : bool.
Variable runtime : Runtime.

Definition findPathAsync (fuel : nat) (a b : Position)
    (searchOptions : PathFinderSearchOptions)
    (workerPool : WorkerPoolField) (g : PathFinderGraph EdgeData)
    : AsyncOutcome EdgeData * WorkerPoolField :=
  let '(pool, workerPool') :=
    _ensureWorkerPool options hasEdgeDataReducer runtime workerPool in
  if negb pool || _hasWorkerSearchCallbacks searchOptions then
    (RanSynchronously
       (findPath defaultKey distance compactNode options hasEdgeDataReducer
          fuel a b searchOptions g),
     workerPool')
  else
    match _resolveVertexKey g (roundCoord a (toleranceOf options))
            (keyOf defaultKey options) (toleranceOf options) with
    | Throw e => (RejectedWith e, workerPool')
    | Ok start =>
        match _resolveVertexKey g (roundCoord b (toleranceOf options))
                (keyOf defaultKey options) (toleranceOf options) with
        | Throw e => (RejectedWith e, workerPool')
        | Ok finish =>
            if decide (is_Some (vertices g !! start) /\ is_Some (vertices g !! finish))
            then (Scheduled start finish (_toWorkerSearchOptions searchOptions),
                  workerPool')
            else (ResolvedAbsent, workerPool')
        end
    end.
End FacadeAsync.

(** What the dispatch depends on: the pool is not settled as absent,
    [worker.enabled] is set, no edge-data reducer is configured, the pool
    exists or can be created, and the request has no callback. *)
Definition eligibleForWorker (options : PathFinderOptions) (hasEdgeDataReducer : bool)
    (runtime : Runtime) (workerPool : WorkerPoolField)
    (searchOptions : PathFinderSearchOptions) : bool :=
  match workerPool with
  | PoolNull => false
  | PoolObject => true
  | PoolUndefined => workerPoolModuleLoads runtime && workerThreadsAvailable runtime
  end
  && workerEnabled options
  && negb hasEdgeDataReducer
  && negb (supplied (directionBias searchOptions))
  && negb (supplied (transitionGuard searchOptions))
  && negb (supplied (onNodeExpanded searchOptions)).

(** ** The worker eligibility of the earlier facade (src/unnamed/part_001)

    That file holds an earlier [index.ts], whose facade takes a
    [concurrency] option instead of [worker], and decides at construction
    whether its options can be handed to workers. *)

Module Earlier.

(** [_normaliseConcurrency]; [concurrency] is [undefined] or a number. *)
Definition _normaliseConcurrency (concurrency : option jsnum) : Z :=
  match concurrency with
  | Some (Finite q) => if Qlt_le_dec q 2 then 1%Z else Z.max 1 (Qfloor q)
  | _ => 1%Z
  end.

(** [_createThreadSafeOptions]: [undefined], or an object with the
    tolerance. *)
Definition _createThreadSafeOptions (options : PathFinderOptions)
    (hasEdgeDataReducer : bool) : option (option Q) :=
  match key options with
  | Some _ => None
  | None => if hasEdgeDataReducer then None else Some (tolerance options)
  end.

Definition _searchOptionsContainCallbacks (searchOptions : PathFinderSearchOptions)
    : bool :=
  supplied (directionBias searchOptions) || supplied (onNodeExpanded searchOptions).

Definition _shouldUseWorker (concurrency : option jsnum) (options : PathFinderOptions)
    (hasEdgeDataReducer : bool) (searchOptions : PathFinderSearchOptions) : bool :=
  if (_normaliseConcurrency concurrency <=? 1)%Z
     || negb (supplied (_createThreadSafeOptions options hasEdgeDataReducer))
  then false
  else negb (_searchOptionsContainCallbacks searchOptions).

End Earlier.

(** ** The turn rule of the earlier facade (src/unnamed/part_001)

    The facade with the [concurrency] option hands [isTurnAllowed] to both
    searches; src/dijkstra.ts consults it, the A* search does not. *)

Module EarlierTurn.
Section WithGraph.
Context {EdgeData : Type}.

(** [this.options.tolerance] *)
Variable tolerance : option Q.
Variable g : PathFinderGraph EdgeData.

Definition _coordinatesEqual (a b : Position) : bool :=
  let tolerance := default (1 # 100000) tolerance in
  Qle_bool (Qabs (lon a - lon b)) tolerance &&
  Qle_bool (Qabs (lat a - lat b)) tolerance.

(** [Math.hypot(x, y) === 0]: the length of a vector vanishes exactly
    when both components do. *)
Definition hypotIsZero (v : Q * Q) : bool := Qeq_bool v.1 0 && Qeq_bool v.2 0.

Definition _isAngleObtuse (before middle after : Position) : bool :=
  let vectorToBefore := (lon before - lon middle, lat before - lat middle) in
  let vectorToAfter := (lon after - lon middle, lat after - lat middle) in
  if hypotIsZero vectorToBefore || hypotIsZero vectorToAfter then true else
  let dotProduct :=
    vectorToBefore.1 * vectorToAfter.1 + vectorToBefore.2 * vectorToAfter.2 in
  if Qlt_le_dec dotProduct 0 then true else false.

Definition _getCoordinateForKey (key : Key) (previousKey : option Key)
    : option Position :=
  match sourceCoordinates g !! key with
  | Some directCoordinate => Some directCoordinate
  | None =>
      match previousKey with
      | Some previous =>
          if falsy previousKey then None
          else _resolveCompactedCoordinate g previous key
      | None => None
      end
  end.

(** [if (!equal(c, forward[forward.length - 1])) forward.push(c)] *)
Definition pushUnlessEqual (forward : list Position) (c : Position) : list Position :=
  match last forward with
  | Some latest => if _coordinatesEqual c latest then forward else forward ++ [c]
  | None => forward ++ [c]
  end.

(** The loop over [i = 1 .. length - 2]. *)
Fixpoint interiorObtuse (forward : list Position) : bool :=
  match forward with
  | before :: ((middle :: after :: _) as rest) =>
      _isAngleObtuse before middle after && interiorObtuse rest
  | _ => true
  end.

(** [path.length > 2 ? path[path.length - 3] : undefined] *)
Definition beforePreviousKeyOf (path : list Key) : option Key :=
  if (2 <? length path)%nat then path !! (length path - 3)%nat else None.

Definition _isTurnObtuse (path : list Key) (from to : Key) : bool :=
  let prevKey := previousKeyOf path in
  let prevPrevKey := beforePreviousKeyOf path in
  match _getCoordinateForKey from prevKey, _getCoordinateForKey to (Some from) with
  | Some currentCoordinate, Some nextCoordinate =>
      let intermediateCoordinates :=
        default [] (compactedCoordinates g !! from ≫= (fun row => row !! to)) in
      let forwardCoordinates :=
        pushUnlessEqual
          (fold_left (fun forward coordinate =>
                        match coordinate with
                        | Some c => pushUnlessEqual forward c
                        | None => forward
                        end)
                     intermediateCoordinates [currentCoordinate])
          nextCoordinate in
      if (length forwardCoordinates <? 2)%nat then true else
      (match prevKey with
       | Some previous =>
           if falsy prevKey then true else
           match _getCoordinateForKey previous prevPrevKey,
                 forwardCoordinates with
           | Some prevCoordinate, first :: second :: _ =>
               _isAngleObtuse prevCoordinate first second
           | _, _ => false
           end
       | None => true
       end) && interiorObtuse forwardCoordinates
  | _, _ => false
  end.

(** The object literal [sharedOptions] of [findPath], as src/dijkstra.ts
    reads it. *)
Definition isTurnAllowed (input : TurnInput) : Result bool :=
  Ok (_isTurnObtuse (ti_path input) (ti_from input) (ti_to input)).

Definition sharedOptions (directionBias : option (BiasInput -> Result jsnum))
    (onNodeExpanded : option (Expansion -> Result unit)) : Dijkstra.Options :=
  Dijkstra.mkOptions directionBias (Some isTurnAllowed) onNodeExpanded.
End WithGraph.
End EarlierTurn.

(** ** The worker pool (src/worker-pool.ts) and the worker script
       (src/worker/pathfinder-worker.ts)

    A worker container is an object with an identity: containers are
    numbered in the order [_spawnWorker] creates them, and
    [container.currentTask] is a table from containers to tasks.  A
    pending task is its request; its [resolve] and [reject] closures are
    named by the id of the request, and [settled] lists the calls made to
    them, oldest first (of several calls for one id the first decides the
    promise).  [inbox] holds, per worker, the requests posted to it that
    it has not handled yet; [posted] lists all [postMessage] calls and
    [terminated] all [terminate] calls. *)

Module Pool.

Record WorkerRequest := mkRequest {
  request_id : nat;
  request_start : Key;
  request_finish : Key;
  request_searchOptions : option Algorithm
}.

Inductive PromiseState := Pending | Fulfilled | Rejected.

(** What a task is rejected with: the closing error, the error of a
    rejected [readyPromise], [new Error(message.error.message)], the value
    of an [error] event, and the error of an unexpected exit. *)
Inductive Reason :=
  | PoolClosed
  | NotAvailable
  | WorkerReported (message : string)
  | WorkerFailed (error : string)
  | TerminatedUnexpectedly.

Section WithEdgeData.
Context {EdgeData : Type}.

(** [{ id, path }] or [{ id, error: { message, stack } }] *)
Record WorkerResponse := mkResponse {
  response_id : nat;
  response_path : option (Path EdgeData);
  response_error : option string
}.

Inductive Settlement :=
  | Resolve (path : option (Path EdgeData))
  | Reject (reason : Reason).

(** [desiredSize && desiredSize > 0 ? desiredSize
     : Math.max(1, os.cpus()?.length ?? 1)] *)
Definition poolSizeOf (options : option WorkerOptions) (cpus : option nat) : nat :=
  match options ≫= poolSize with
  | Some desiredSize =>
      if (0 <? desiredSize)%nat then desiredSize else Nat.max 1 (default 1%nat cpus)
  | None => Nat.max 1 (default 1%nat cpus)
  end.

Record Pool := mkPool {
  workers : list nat;
  idleWorkers : list nat;
  queue : list WorkerRequest;
  tasks : gmap nat WorkerRequest;
  currentTask : gmap nat WorkerRequest;
  poolSize : nat;
  workerThreads : bool;
  readyPromise : PromiseState;
  nextId : nat;
  disposed : bool;
  created : nat;
  inbox : gmap nat (list WorkerRequest);
  posted : list (nat * WorkerRequest);
  settled : list (nat * Settlement);
  terminated : list nat
}.

Definition set_workers (v : list nat) (p : Pool) : Pool :=
  mkPool v (idleWorkers p) (queue p) (tasks p) (currentTask p) (poolSize p)
    (workerThreads p) (readyPromise p) (nextId p) (disposed p) (created p)
    (inbox p) (posted p) (settled p) (terminated p).

Definition set_idleWorkers (v : list nat) (p : Pool) : Pool :=
  mkPool (workers p) v (queue p) (tasks p) (currentTask p) (poolSize p)
    (workerThreads p) (readyPromise p) (nextId p) (disposed p) (created p)
    (inbox p) (posted p) (settled p) (terminated p).

Definition set_queue (v : list WorkerRequest) (p : Pool) : Pool :=
  mkPool (workers p) (idleWorkers p) v (tasks p) (currentTask p) (poolSize p)
    (workerThreads p) (readyPromise p) (nextId p) (disposed p) (created p)
    (inbox p) (posted p) (settled p) (terminated p).

Definition set_tasks (v : gmap nat WorkerRequest) (p : Pool) : Pool :=
  mkPool (workers p) (idleWorkers p) (queue p) v (currentTask p) (poolSize p)
    (workerThreads p) (readyPromise p) (nextId p) (disposed p) (created p)
    (inbox p) (posted p) (settled p) (terminated p).

Definition set_currentTask (v : gmap nat WorkerRequest) (p : Pool) : Pool :=
  mkPool (workers p) (idleWorkers p) (queue p) (tasks p) v (poolSize p)
    (workerThreads p) (readyPromise p) (nextId p) (disposed p) (created p)
    (inbox p) (posted p) (settled p) (terminated p).

Definition set_poolSize (v : nat) (p : Pool) : Pool :=
  mkPool (workers p) (idleWorkers p) (queue p) (tasks p) (currentTask p) v
    (workerThreads p) (readyPromise p) (nextId p) (disposed p) (created p)
    (inbox p) (posted p) (settled p) (terminated p).

Definition set_workerThreads (v : bool) (p : Pool) : Pool :=
  mkPool (workers p) (idleWorkers p) (queue p) (tasks p) (currentTask p)
    (poolSize p) v (readyPromise p) (nextId p) (disposed p) (created p)
    (inbox p) (posted p) (settled p) (terminated p).

Definition set_readyPromise (v : PromiseState) (p : Pool) : Pool :=
  mkPool (workers p) (idleWorkers p) (queue p) (tasks p) (currentTask p)
    (poolSize p) (workerThreads p) v (nextId p) (disposed p) (created p)
    (inbox p) (posted p) (settled p) (terminated p).

Definition set_nextId (v : nat) (p : Pool) : Pool :=
  mkPool (workers p) (idleWorkers p) (queue p) (tasks p) (currentTask p)
    (poolSize p) (workerThreads p) (readyPromise p) v (disposed p) (created
    p) (inbox p) (posted p) (settled p) (terminated p).

Definition set_disposed (v : bool) (p : Pool) : Pool :=
  mkPool (workers p) (idleWorkers p) (queue p) (tasks p) (currentTask p)
    (poolSize p) (workerThreads p) (readyPromise p) (nextId p) v (created p)
    (inbox p) (posted p) (settled p) (terminated p).

Definition set_created (v : nat) (p : Pool) : Pool :=
  mkPool (workers p) (idleWorkers p) (queue p) (tasks p) (currentTask p)
    (poolSize p) (workerThreads p) (readyPromise p) (nextId p) (disposed p)
    v (inbox p) (posted p) (settled p) (terminated p).

Definition set_inbox (v : gmap nat (list WorkerRequest)) (p : Pool) : Pool :=
  mkPool (workers p) (idleWorkers p) (queue p) (tasks p) (currentTask p)
    (poolSize p) (workerThreads p) (readyPromise p) (nextId p) (disposed p)
    (created p) v (posted p) (settled p) (terminated p).

Definition set_posted (v : list (nat * WorkerRequest)) (p : Pool) : Pool :=
  mkPool (workers p) (idleWorkers p) (queue p) (tasks p) (currentTask p)
    (poolSize p) (workerThreads p) (readyPromise p) (nextId p) (disposed p)
    (created p) (inbox p) v (settled p) (terminated p).

Definition set_settled (v : list (nat * Settlement)) (p : Pool) : Pool :=
  mkPool (workers p) (idleWorkers p) (queue p) (tasks p) (currentTask p)
    (poolSize p) (workerThreads p) (readyPromise p) (nextId p) (disposed p)
    (created p) (inbox p) (posted p) v (terminated p).

Definition set_terminated (v : list nat) (p : Pool) : Pool :=
  mkPool (workers p) (idleWorkers p) (queue p) (tasks p) (currentTask p)
    (poolSize p) (workerThreads p) (readyPromise p) (nextId p) (disposed p)
    (created p) (inbox p) (posted p) (settled p) v.

(** The fields after the constructor has run, the module still loading. *)
Definition create (options : option WorkerOptions) (cpus : option nat) : Pool :=
  mkPool [] [] [] ∅ ∅ (poolSizeOf options cpus) false Pending 0 false 0 ∅ [] [] [].

Definition inboxOf (p : Pool) (w : nat) : list WorkerRequest :=
  default [] (inbox p !! w).

(** [task.resolve(...)] and [task.reject(...)] *)
Definition settle (task : WorkerRequest) (s : Settlement) (p : Pool) : Pool :=
  set_settled (settled p ++ [(request_id task, s)]) p.

Definition _dispatch (container : nat) (task : WorkerRequest) (p : Pool) : Pool :=
  let p := set_currentTask (<[container := task]> (currentTask p)) p in
  set_posted (posted p ++ [(container, task)])
    (set_inbox (<[container := inboxOf p container ++ [task]]> (inbox p)) p).

Definition _release (container : nat) (p : Pool) : Pool :=
  let p := set_currentTask (delete container (currentTask p)) p in
  if disposed p then p else
  match queue p with
  | nextTask :: rest => _dispatch container nextTask (set_queue rest p)
  | [] => set_idleWorkers (idleWorkers p ++ [container]) p
  end.

(** [given] says whether the argument is present, as it is in the call
    from the constructor only: [threads = workerThreads ?? this.workerThreads]. *)
Definition _spawnWorker (given : bool) (p : Pool) : Pool :=
  if negb (given || workerThreads p) then p else
  let container := created p in
  let p := set_workers (workers p ++ [container]) (set_created (S container) p) in
  match queue p with
  | nextTask :: rest => _dispatch container nextTask (set_queue rest p)
  | [] => set_idleWorkers (idleWorkers p ++ [container]) p
  end.

(** [indexOf] and [splice(index, 1)] *)
Fixpoint spliceOut (container : nat) (l : list nat) : list nat :=
  match l with
  | [] => []
  | x :: l' => if decide (x = container) then l' else x :: spliceOut container l'
  end.

Definition _removeWorker (container : nat) (p : Pool) : Pool :=
  set_idleWorkers (spliceOut container (idleWorkers p))
    (set_workers (spliceOut container (workers p)) p).

Definition _handleMessage (container : nat) (message : WorkerResponse) (p : Pool)
    : Pool :=
  match tasks p !! response_id message with
  | None => _release container p
  | Some task =>
      let p := set_tasks (delete (response_id message) (tasks p)) p in
      let p :=
        match response_error message with
        | Some text => settle task (Reject (WorkerReported text)) p
        | None => settle task (Resolve (response_path message)) p
        end in
      _release container p
  end.

(** [tasks.delete(task.id); task.reject(reason)] for the current task of a
    container, if it has one. *)
Definition rejectCurrent (container : nat) (reason : Reason) (p : Pool) : Pool :=
  match currentTask p !! container with
  | Some task =>
      settle task (Reject reason) (set_tasks (delete (request_id task) (tasks p)) p)
  | None => p
  end.

Definition _handleError (container : nat) (error : string) (p : Pool) : Pool :=
  let p := rejectCurrent container (WorkerFailed error) p in
  let p := _removeWorker container p in
  if disposed p then p else _spawnWorker false p.

Definition _handleExit (container : nat) (code : Z) (p : Pool) : Pool :=
  let p := rejectCurrent container TerminatedUnexpectedly p in
  let p := _removeWorker container p in
  if negb (disposed p) && negb (code =? 0)%Z then _spawnWorker false p else p.

(** The callback of [workerThreadsPromise.then]; [loaded] says whether
    the module came. *)
Definition onWorkerThreads (loaded : bool) (p : Pool) : Pool :=
  if negb loaded then set_readyPromise Rejected p else
  if disposed p then set_readyPromise Fulfilled p else
  set_readyPromise Fulfilled
    (Nat.iter (poolSize p) (_spawnWorker true) (set_workerThreads true p)).

(** [schedule] from the point where [readyPromise] has settled: a
    rejection, or the id of the task whose promise is returned.  Before
    that point the call has only tested [disposed], as it does again
    after it; [None] while the promise is pending. *)
Definition schedule (start finish : Key) (searchOptions : option Algorithm)
    (p : Pool) : option ((Reason + nat) * Pool) :=
  if disposed p then Some (inl PoolClosed, p) else
  match readyPromise p with
  | Pending => None
  | Rejected => Some (inl NotAvailable, p)
  | Fulfilled =>
      let id := nextId p in
      let request := mkRequest id start finish searchOptions in
      let p := set_tasks (<[id := request]> (tasks p)) (set_nextId (S id) p) in
      match last (idleWorkers p) with
      | Some worker =>
          Some (inr id,
                _dispatch worker request
                  (set_idleWorkers (removelast (idleWorkers p)) p))
      | None => Some (inr id, set_queue (queue p ++ [request]) p)
      end
  end.

(** [close] in its three parts: up to the first [await], from there to
    the second, and the rest.  The first part says whether the call goes
    on. *)
Definition close_enter (p : Pool) : bool * Pool :=
  if disposed p then (false, p) else (true, set_disposed true p).

(** [this.tasks.delete(task.id); task.reject(closingError)] *)
Definition rejectTask (p : Pool) (task : WorkerRequest) : Pool :=
  settle task (Reject PoolClosed) (set_tasks (delete (request_id task) (tasks p)) p).

(** [this.queue.splice(0).forEach(...)] *)
Definition rejectQueued (p : Pool) : Pool :=
  fold_left rejectTask (queue p) (set_queue [] p).

(** The body of [for (const container of this.workers)]. *)
Definition rejectRunningAt (p : Pool) (container : nat) : Pool :=
  match currentTask p !! container with
  | Some current =>
      set_currentTask (delete container (currentTask p)) (rejectTask p current)
  | None => p
  end.

Definition rejectRunning (p : Pool) : Pool :=
  fold_left rejectRunningAt (workers p) p.

Definition close_ready (p : Pool) : Pool :=
  let p := rejectRunning (rejectQueued p) in
  let p := set_tasks ∅ p in
  set_terminated (terminated p ++ workers p) p.

Definition close_terminated (p : Pool) : Pool :=
  set_idleWorkers [] (set_workers [] p).

(** *** The pool among its workers

    What happens to a pool: the worker_threads module arrives or fails to,
    [schedule] and [close] are called, [close] resumes after each of its
    two [await]s, and a worker sends a message, raises an error or exits.
    A worker answers the requests it was sent, one at a time and in
    order, with the id of the request; it sends nothing after an [error]
    or [exit] event, raises at most one error, and exits once.  [closing]
    counts the parts of [close] that have run. *)
Inductive Event :=
  | WorkerThreads (loaded : bool)
  | Schedule (start finish : Key) (searchOptions : option Algorithm)
  | Close
  | CloseReady
  | CloseTerminated
  | Message (container : nat) (message : WorkerResponse)
  | WorkerError (container : nat) (error : string)
  | WorkerExit (container : nat) (code : Z).

Record World := mkWorld {
  pool : Pool;
  closing : nat;
  failed : gset nat;
  exited : gset nat
}.

Definition initial (options : option WorkerOptions) (cpus : option nat) : World :=
  mkWorld (create options cpus) 0 ∅ ∅.

Definition fire (event : Event) (x : World) : option World :=
  let p := pool x in
  match event with
  | WorkerThreads loaded =>
      match readyPromise p with
      | Pending => Some (mkWorld (onWorkerThreads loaded p) (closing x) (failed x) (exited x))
      | _ => None
      end
  | Schedule start finish searchOptions =>
      match schedule start finish searchOptions p with
      | Some (_, p') => Some (mkWorld p' (closing x) (failed x) (exited x))
      | None => None
      end
  | Close =>
      match close_enter p with
      | (true, p') => Some (mkWorld p' 1 (failed x) (exited x))
      | (false, _) => Some x
      end
  | CloseReady =>
      match closing x, readyPromise p with
      | 1%nat, Pending => None
      | 1%nat, _ => Some (mkWorld (close_ready p) 2 (failed x) (exited x))
      | _, _ => None
      end
  | CloseTerminated =>
      match closing x with
      | 2%nat => Some (mkWorld (close_terminated p) 3 (failed x) (exited x))
      | _ => None
      end
  | Message container message =>
      match inboxOf p container with
      | request :: rest =>
          if bool_decide ((container ∉ failed x) ∧ (container ∉ exited x) ∧
                          response_id message = request_id request)
          then Some (mkWorld
                       (_handleMessage container message
                          (set_inbox (<[container := rest]> (inbox p)) p))
                       (closing x) (failed x) (exited x))
          else None
      | [] => None
      end
  | WorkerError container error =>
      if bool_decide ((container < created p)%nat ∧ (container ∉ failed x) ∧
                      (container ∉ exited x))
      then Some (mkWorld (_handleError container error p) (closing x)
                   ({[container]} ∪ failed x) (exited x))
      else None
  | WorkerExit container code =>
      if bool_decide ((container < created p)%nat ∧ (container ∉ exited x))
      then Some (mkWorld (_handleExit container code p) (closing x)
                   (failed x) ({[container]} ∪ exited x))
      else None
  end.

Fixpoint run (events : list Event) (x : World) : option World :=
  match events with
  | [] => Some x
  | event :: later =>
      match fire event x with
      | Some x' => run later x'
      | None => None
      end
  end.
End WithEdgeData.
End Pool.

(** ** The worker script (src/worker/pathfinder-worker.ts)

    The worker builds its own facade from [workerData]: the graph, no
    options, the flag [hasEdgeDataReducer], and no pool.  [compactNode] is
    therefore the one the empty options give, and [messageOf] is
    [err.message], the text the runtime or the library gave the error. *)

Module Worker.
Section WithQueues.
Context {EdgeData : Type}.
Context `{PQD : PriorityQueue Dijkstra.State Dijkstra.cost}.
Context `{PQA : PriorityQueue AStar.State AStar.estimate}.
Variable distance : Position -> Position -> Q.
Variable compactNode :
  Key -> Vertices -> Vertices -> Coordinates ->
  gmap Key (gmap Key (option EdgeData)) -> CompactedNode EdgeData.
Variable hasEdgeDataReducer : bool.
Variable messageOf : Error -> string.

(** [message.searchOptions] read as search options: an algorithm at
    most. *)
Definition searchOptionsOf (message : Pool.WorkerRequest) : PathFinderSearchOptions :=
  mkSearchOptions None None (Pool.request_searchOptions message) None.

(** The [message] handler: the response it posts and the graph of the
    worker's facade afterwards; [None] when the search does not finish
    within [fuel] turns. *)
Definition onMessage (fuel : nat) (message : Pool.WorkerRequest)
    (g : PathFinderGraph EdgeData)
    : option (Pool.WorkerResponse (EdgeData := EdgeData) * PathFinderGraph EdgeData) :=
  match findPathFromVertexKeys distance compactNode hasEdgeDataReducer fuel
          (Pool.request_start message) (Pool.request_finish message)
          (searchOptionsOf message) g with
  | None => None
  | Some (Ok result, g', _) =>
      Some (Pool.mkResponse (Pool.request_id message) result None, g')
  | Some (Throw e, g', _) =>
      Some (Pool.mkResponse (Pool.request_id message) None (Some (messageOf e)), g')
  end.
End WithQueues.
End Worker.

(** ** The weight of a key sequence

    [replay] follows the keys [rest] from the key [from], reached along
    [pre] at cost [c], the way the relaxation does: it looks the edge up,
    asks the guard, asks the bias with the cost accumulated so far, and
    adds the edge weight and the bias.  It gives the cost at the end, the
    sum of the edge weights and the sum of the biases. *)

Definition edgeWeight (graph : Vertices) (from to : Key) : option Q :=
  graph !! from ≫= (fun row => row !! to).

Definition allowedAt (guard : option (TurnInput -> Result bool))
    (pre : list Key) (from to : Key) : Result bool :=
  match guard with
  | Some f => f {| ti_path := pre; ti_from := from; ti_to := to |}
  | None => Ok true
  end.

Definition biasAt (bias : option (BiasInput -> Result jsnum))
    (c : Q) (pre : list Key) (from to : Key) : Result jsnum :=
  match bias with
  | Some f => f {| bi_cost := c; bi_from := from; bi_to := to; bi_path := pre |}
  | None => Ok (Finite 0)
  end.

Fixpoint replay (graph : Vertices) (guard : option (TurnInput -> Result bool))
    (bias : option (BiasInput -> Result jsnum))
    (c : Q) (pre : list Key) (from : Key) (rest : list Key) : option (Q * Q * Q) :=
  match rest with
  | [] => Some (c, 0, 0)
  | to :: rest' =>
      match edgeWeight graph from to, allowedAt guard pre from to,
            biasAt bias c pre from to with
      | Some w, Ok true, Ok (Finite b) =>
          match replay graph guard bias (c + w + b) (pre ++ [to]) to rest' with
          | Some (total, ws, bs) => Some (total, w + ws, b + bs)
          | None => None
          end
      | _, _, _ => None
      end
  end.

(** The sum over the consecutive pairs of [graph[previous][key]]. *)
Fixpoint edgeWeightSum (graph : Vertices) (keys : list Key) : option Q :=
  match keys with
  | a :: (b :: _) as rest =>
      match edgeWeight graph a b, edgeWeightSum graph rest with
      | Some w, Some s => Some (w + s)
      | _, _ => None
      end
  | _ => Some 0
  end.

(** ** The loop both searches instantiate

    One turn of the loop over any kind of queue entry: [lazy] says whether
    a stale entry is dropped, [make] builds the entry that is pushed.  The
    two searches above are instances of it (see [dijkstra_iteration_core]
    and [astar_iteration_core]); what they have in common is proved
    once. *)

Section Core.
Context {Entry : Type}.
Variables (e_cost : Entry -> Q) (e_path : Entry -> list Key) (e_node : Entry -> Key).
Variable e_prio : Entry -> Q.
Context `{PQ : PriorityQueue Entry e_prio}.
Variable make : Q -> list Key -> Key -> Entry.
Variable lazy : bool.
Variable guard : option (TurnInput -> Result bool).
Variable bias : option (BiasInput -> Result jsnum).
Variable callback : option (Expansion -> Result unit).
Variable graph : Vertices.
Variable goal : Key.

Definition core_relax (state : Entry)
    (acc : gmap Key Q * pq) (nw : Key * Q) : Result (gmap Key Q * pq) :=
  let '(n, w) := nw in
  let! allowed := allowedAt guard (e_path state) (e_node state) n in
  if negb allowed then Ok acc else
  let! b := biasAt bias (e_cost state) (e_path state) (e_node state) n in
  match b with
  | NonFinite => Ok acc
  | Finite b =>
      let newCost := e_cost state + w + b in
      if improves newCost (acc.1 !! n) then
        Ok (<[n := newCost]> acc.1,
            pq_push acc.2 (make newCost (e_path state ++ [n]) n))
      else Ok acc
  end.

Definition core_iteration (s : Search pq) : Step pq :=
  match pq_pop (queue s) with
  | None => Return (Ok None) (calls s)
  | Some (state, rest) =>
      if lazy && stale (e_cost state) (costs s !! e_node state) then
        Continue (mkSearch (costs s) rest (calls s))
      else
        let '(r, made) := notify callback (calls s) (e_node state) (e_cost state) in
        match r with
        | Throw e => Return (Throw e) made
        | Ok _ =>
            if decide (e_node state = goal) then
              Return (Ok (Some (e_cost state, e_path state))) made
            else
              match graph !! e_node state with
              | None => Return (Throw TypeError) made
              | Some neighbours =>
                  match forEach (core_relax state) (map_to_list neighbours) (costs s, rest) with
                  | Throw e => Return (Throw e) made
                  | Ok (costs', queue') => Continue (mkSearch costs' queue' made)
                  end
              end
        end
  end.
End Core.

(** ** Walks, shortest answers and the bound on the turns of the loop *)

(** A walk along edges of the graph, with the keys after the first and
    the sum of the edge weights. *)
Inductive Walk (graph : Vertices) : Key -> list Key -> Key -> Q -> Prop :=
  | walk_here n : Walk graph n [] n 0
  | walk_step n m rest t w c :
      edgeWeight graph n m = Some w ->
      Walk graph m rest t c ->
      Walk graph n (m :: rest) t (w + c).

(** What a finished search may answer: nothing when the goal cannot be
    reached, and otherwise a walk from start to goal that no walk
    undercuts. *)
Definition Answer (graph : Vertices) (start goal : Key)
    (r : Result (option (Q * list Key))) : Prop :=
  match r with
  | Ok None => forall rest c, ~ Walk graph start rest goal c
  | Ok (Some (w, p)) =>
      (exists rest c, p = start :: rest /\ Walk graph start rest goal c /\ w == c) /\
      (forall rest c, Walk graph start rest goal c -> w <= c)
  | Throw _ => False
  end.

(** Every edge has a positive weight and leads to a key of the graph. *)
Definition positiveClosed (graph : Vertices) : bool :=
  forallb (fun row : Key * gmap Key Q =>
             forallb (fun edge : Key * Q =>
                        (if Qlt_le_dec 0 edge.2 then true else false) &&
                        bool_decide (is_Some (graph !! edge.1)))
                     (map_to_list row.2))
          (map_to_list graph).

(** An estimate that never drops by more than the weight of an edge and
    vanishes at the goal never exceeds the weight of a walk to the goal. *)
Definition consistent (distance : Position -> Position -> Q) (graph : Vertices)
    (goal : Key) (coordinates : option Coordinates) : bool :=
  (if Qlt_le_dec 0 (AStar.heuristic distance goal goal coordinates)
   then false else true) &&
  forallb (fun row : Key * gmap Key Q =>
             forallb (fun edge : Key * Q =>
                        if Qlt_le_dec
                             (edge.2 + AStar.heuristic distance edge.1 goal coordinates)
                             (AStar.heuristic distance row.1 goal coordinates)
                        then false else true)
                     (map_to_list row.2))
          (map_to_list graph).

(** All key sequences of length at most [n] over the keys [keys]. *)
Fixpoint sequences (keys : list Key) (n : nat) : list (list Key) :=
  match n with
  | O => [[]]
  | S n' => [] :: flat_map (fun k => map (cons k) (sequences keys n')) keys
  end.

(** A bound on the turns of the loop: the key sequences without
    repetition are the only ones that are ever pushed. *)
Definition keysOf (graph : Vertices) : list Key := (map_to_list graph).*1.

Definition candidatePaths (graph : Vertices) : list (list Key) :=
  sequences (keysOf graph) (length (keysOf graph)).

Definition searchBound (graph : Vertices) : nat :=
  (2 + 2 * length (candidatePaths graph))%nat.

(** ** What a turn of the loop reports *)

(** The invocations made once a turn of the loop is over. *)
Definition callsAfter {Qu} (step : Step Qu) : list Expansion :=
  match step with
  | Continue s => calls s
  | Return _ made => made
  end.

(** The invocations an accepted pop of [(node, cost)] adds: one, when a
    callback is configured. *)
Definition oneCall (callback : option (Expansion -> Result unit))
    (made : list Expansion) (node : Key) (cost : Q) : list Expansion :=
  match callback with
  | Some _ => made ++ [(node, cost)]
  | None => made
  end.

(** ** Worked networks

    [equatorKm] stands for [@turf/distance] between positions on the
    equator: 111 km for a degree of longitude. *)

Definition equatorKm (a b : Position) : Q := 111 * Qabs (lon a - lon b).

(** *** The chain

    Three vertices on a line, [A (0,0) - N (1,0) - B (3,0)], weighted by
    their distance in degrees, both ways.  [N] is interior to the chain:
    the compacted graph has the vertices [A] and [B] and one edge each way,
    and a search from or to [N] injects [N] as a phantom.  No edge-data
    reducer is configured, so the compacted edge table is empty.
    [chainCompactNode] is what compacting [N] gives. *)

Module Chain.

Definition pA : Position := mkPosition 0 0 [].
Definition pN : Position := mkPosition 1 0 [].
Definition pB : Position := mkPosition 3 0 [].
Definition pElsewhere : Position := mkPosition 7 7 [].

Definition graph : PathFinderGraph unit :=
  mkGraph
    {[ "A" := {[ "N" := 1 ]}; "N" := {[ "A" := 1; "B" := 2 ]}; "B" := {[ "N" := 2 ]} ]}
    ∅
    {[ "A" := pA; "N" := pN; "B" := pB ]}
    {[ "A" := {[ "B" := 3 ]}; "B" := {[ "A" := 3 ]} ]}
    {[ "A" := {[ "B" := [Some pA; Some pN] ]};
       "B" := {[ "A" := [Some pB; Some pN] ]} ]}
    ∅.

(** [compactNode] (src/compactor.ts) is not among the sources.  This is
    its result for [N] on this network, with the coordinate lists laid
    out the way src/index.ts reads them: an outgoing list starts at the
    node and leaves the neighbour out, an incoming list runs from the
    neighbour's side and ends with the node. *)
Definition chainCompactNode (n : Key) (v cv : Vertices) (sc : Coordinates)
    (ed : gmap Key (gmap Key (option unit))) : CompactedNode unit :=
  mkCompactedNode
    {[ "A" := 1; "B" := 2 ]}
    {[ "A" := 1; "B" := 2 ]}
    {[ "A" := [Some pN]; "B" := [Some pN] ]}
    {[ "A" := [Some pN]; "B" := [Some pN] ]}
    ∅.

(** The chain with an edge-data reducer configured: every edge carries a
    payload. *)
Definition taggedGraph : PathFinderGraph unit :=
  mkGraph (vertices graph)
    {[ "A" := {[ "N" := Some tt ]}; "N" := {[ "A" := Some tt; "B" := Some tt ]};
       "B" := {[ "N" := Some tt ]} ]}
    (sourceCoordinates graph) (compactedVertices graph) (compactedCoordinates graph)
    {[ "A" := {[ "B" := Some tt ]}; "B" := {[ "A" := Some tt ]} ]}.

Definition taggedCompactNode (n : Key) (v cv : Vertices) (sc : Coordinates)
    (ed : gmap Key (gmap Key (option unit))) : CompactedNode unit :=
  mkCompactedNode
    {[ "A" := 1; "B" := 2 ]}
    {[ "A" := 1; "B" := 2 ]}
    {[ "A" := [Some pN]; "B" := [Some pN] ]}
    {[ "A" := [Some pN]; "B" := [Some pN] ]}
    {[ "A" := Some tt; "B" := Some tt ]}.

(** A key function for the three positions. *)
Definition chainKey (p : Position) : Key :=
  if Qeq_bool (lat p) 0 then
    if Qeq_bool (lon p) 0 then "A"
    else if Qeq_bool (lon p) 1 then "N"
    else if Qeq_bool (lon p) 3 then "B"
    else "elsewhere"
  else "elsewhere".

Definition pathFinderOptions : PathFinderOptions :=
  mkPathFinderOptions None (Some chainKey) None.

Definition noSearchOptions : PathFinderSearchOptions :=
  mkSearchOptions None None None None.

Definition find (searchOptions : PathFinderSearchOptions) (a b : Position) :=
  findPath (PQD := ListQueue Dijkstra.cost) (PQA := ListQueue AStar.estimate)
    chainKey equatorKm chainCompactNode pathFinderOptions false
    10 a b searchOptions graph.

End Chain.

(** *** A one-way chain

    [U (0,0) -> N (1,0) -> V (3,0)], passable in that direction only, with
    an edge-data reducer configured.  [N] is interior: the compacted graph
    has the edge from [U] to [V].  Injected as a phantom, [N] reaches [V]
    and is reached from [U]. *)

Module OneWay.

Definition pU : Position := mkPosition 0 0 [].
Definition pN : Position := mkPosition 1 0 [].
Definition pV : Position := mkPosition 3 0 [].

Definition graph : PathFinderGraph unit :=
  mkGraph
    {[ "U" := {[ "N" := 1 ]}; "N" := {[ "V" := 2 ]}; "V" := ∅ ]}
    {[ "U" := {[ "N" := Some tt ]}; "N" := {[ "V" := Some tt ]} ]}
    {[ "U" := pU; "N" := pN; "V" := pV ]}
    {[ "U" := {[ "V" := 3 ]}; "V" := ∅ ]}
    {[ "U" := {[ "V" := [Some pU; Some pN] ]}; "V" := ∅ ]}
    {[ "U" := {[ "V" := Some tt ]}; "V" := ∅ ]}.

(** The result of [compactNode] for [N] on this network, laid out the
    same way: the outgoing edge to [V], the incoming edge from [U]. *)
Definition oneWayCompactNode (n : Key) (v cv : Vertices) (sc : Coordinates)
    (ed : gmap Key (gmap Key (option unit))) : CompactedNode unit :=
  mkCompactedNode
    {[ "V" := 2 ]}
    {[ "U" := 1 ]}
    {[ "V" := [Some pN] ]}
    {[ "U" := [Some pN] ]}
    {[ "V" := Some tt ]}.

Definition fromKeys (start finish : Key) (g : PathFinderGraph unit) :=
  findPathFromVertexKeys (PQD := ListQueue Dijkstra.cost)
    (PQA := ListQueue AStar.estimate)
    equatorKm oneWayCompactNode true 10 start finish
    (mkSearchOptions None None None None) g.

End OneWay.

(** *** Graphs for the searches

    [Detour]: the cheap way to [a] goes through [b], so the entry pushed
    for [a] from [s] (cost 5) is still queued when [a] has been reached at
    cost 2.  [Reopen]: positions on the equator and small weights, so that
    the great-circle estimate of [b] exceeds that of [a] by more than the
    edge from [b] to [a] weighs; [a] is reached at cost 10 first and at
    cost 2 later. *)

Module Detour.
Definition graph : Vertices :=
  {[ "s" := {[ "a" := 5; "b" := 1 ]};
     "b" := {[ "a" := 1 ]};
     "a" := {[ "t" := 10 ]};
     "t" := ∅ ]}.
End Detour.

Module Reopen.
Definition graph : Vertices :=
  {[ "s" := {[ "a" := 10; "b" := 1 ]};
     "b" := {[ "a" := 1 ]};
     "a" := {[ "t" := 400 ]};
     "t" := ∅ ]}.
Definition coordinates : Coordinates :=
  {[ "s" := mkPosition 2 0 [];
     "a" := mkPosition 1 0 [];
     "b" := mkPosition 3 0 [];
     "t" := mkPosition 0 0 [] ]}.
End Reopen.

(** [Shortcut]: a junction [a] with a dead end [x], and weights far below
    the great-circle distances.  The direct way from [s] to [t] weighs 10;
    the way over [a], which lies a degree further from [t] than [s] does,
    weighs 2.  [Equator]: weights no smaller than the distances. *)
Module Shortcut.
Definition graph : Vertices :=
  {[ "s" := {[ "a" := 1; "t" := 10 ]};
     "a" := {[ "s" := 1; "t" := 1; "x" := 5 ]};
     "t" := {[ "s" := 10; "a" := 1 ]};
     "x" := {[ "a" := 5 ]} ]}.
Definition coordinates : Coordinates :=
  {[ "s" := mkPosition 0 0 [];
     "a" := mkPosition (-1) 0 [];
     "t" := mkPosition 1 0 [];
     "x" := mkPosition (-2) 0 [] ]}.
End Shortcut.

Module Equator.
Definition graph : Vertices :=
  {[ "s" := {[ "m" := 111; "t" := 250 ]};
     "m" := {[ "t" := 111 ]};
     "t" := ∅ ]}.
Definition coordinates : Coordinates :=
  {[ "s" := mkPosition 0 0 [];
     "m" := mkPosition 1 0 [];
     "t" := mkPosition 2 0 [] ]}.
End Equator.

(** [A (0,0) - B (1,0) - C]: two segments that meet at the interior
    vertex [B], compacted to one edge each way between [A] and [C].  In
    [Bend] the line turns by a wide angle at [B]; in [Hairpin] it turns
    back on itself. *)
Module Bend.
Definition pA : Position := mkPosition 0 0 [].
Definition pB : Position := mkPosition 1 0 [].
Definition pC : Position := mkPosition 2 (1 # 2) [].
Definition graph : PathFinderGraph unit :=
  mkGraph
    {[ "A" := {[ "B" := 1 ]}; "B" := {[ "A" := 1; "C" := 1 ]}; "C" := {[ "B" := 1 ]} ]}
    ∅
    {[ "A" := pA; "B" := pB; "C" := pC ]}
    {[ "A" := {[ "C" := 2 ]}; "C" := {[ "A" := 2 ]} ]}
    {[ "A" := {[ "C" := [Some pA; Some pB] ]};
       "C" := {[ "A" := [Some pC; Some pB] ]} ]}
    ∅.
End Bend.

Module Hairpin.
Definition pC : Position := mkPosition (1 # 2) (1 # 2) [].
Definition graph : PathFinderGraph unit :=
  mkGraph
    (vertices Bend.graph)
    ∅
    {[ "A" := Bend.pA; "B" := Bend.pB; "C" := pC ]}
    (compactedVertices Bend.graph)
    {[ "A" := {[ "C" := [Some Bend.pA; Some Bend.pB] ]};
       "C" := {[ "A" := [Some pC; Some Bend.pB] ]} ]}
    ∅.
End Hairpin.

(** Callbacks for the worked searches: one that looks on, one that
    throws. *)
Definition observer : option (Expansion -> Result unit) := Some (fun _ => Ok tt).
Definition refuser : option (Expansion -> Result unit) :=
  Some (fun _ => Throw (UserError "stop")).

(** *** A pool of two workers

    The module arrives and two workers are created; three tasks are
    scheduled, the third of which has to wait; the second worker answers,
    the first fails and exits. *)
Module TwoWorkers.
Definition options : option WorkerOptions := Some (mkWorkerOptions true (Some 2%nat)).

Definition born : Pool.World (EdgeData := unit) := Pool.initial options None.

(** The pool once the two workers exist. *)
Definition staffed : Pool.World (EdgeData := unit) :=
  Pool.mkWorld
    (Pool.mkPool [0; 1]%nat [0; 1]%nat [] ∅ ∅ 2 true Pool.Fulfilled 0 false 2 ∅ [] [] [])
    0 ∅ ∅.

(** The same pool after [close] has been called. *)
Definition closing : Pool.World (EdgeData := unit) :=
  Pool.mkWorld (Pool.set_disposed true (Pool.pool staffed)) 1 ∅ ∅.

(** The staffed pool with one task accepted: it is with the worker that
    became idle last. *)
Definition request : Pool.WorkerRequest := Pool.mkRequest 0 "A" "B" None.

Definition working : Pool.World (EdgeData := unit) :=
  Pool.mkWorld
    (Pool.mkPool [0; 1]%nat [0%nat] [] {[ 0%nat := request ]} {[ 1%nat := request ]}
       2 true Pool.Fulfilled 1 false 2 {[ 1%nat := [request] ]} [(1%nat, request)] [] [])
    0 ∅ ∅.

Definition busy : list (Pool.Event (EdgeData := unit)) :=
  [Pool.WorkerThreads true;
   Pool.Schedule "A" "B" None;
   Pool.Schedule "B" "A" (Some astar);
   Pool.Schedule "A" "N" None].

Definition eventful : list (Pool.Event (EdgeData := unit)) :=
  busy ++
  [Pool.Message 1%nat (Pool.mkResponse 0 None None);
   Pool.WorkerError 0%nat "out of memory";
   Pool.WorkerExit 0%nat 1;
   Pool.Close;
   Pool.CloseReady].
End TwoWorkers.

(** * Properties *)

(** ** Rounding *)

Lemma Math_round_inject_Z (k : Z) : Math_round (inject_Z k) = k.
Proof.
  unfold Math_round.
  assert (Hle : (k <= Qfloor (inject_Z k + (1 # 2)))%Z).
  { rewrite <- (Qfloor_Z k) at 1. apply Qfloor_resp_le.
    generalize (inject_Z k). intros q. lra. }
  assert (Hlt : (Qfloor (inject_Z k + (1 # 2)) < k + 1)%Z).
  { rewrite Zlt_Qlt. eapply Qle_lt_trans; [apply Qfloor_le |].
    rewrite inject_Z_plus.
    generalize (inject_Z k). intros q. change (inject_Z 1) with 1. lra. }
  lia.
Qed.

Lemma Math_round_snap (k : Z) (t : Q) :
  ~ t == 0 -> Math_round (inject_Z k * t / t) = k.
Proof.
  intros Ht. unfold Math_round.
  rewrite (Qfloor_comp _ (inject_Z k + (1 # 2))).
  - apply Math_round_inject_Z.
  - rewrite Qdiv_mult_l by exact Ht. reflexivity.
Qed.



(** ** The two searches and the shared loop *)

Lemma dijkstra_iteration_core `{PQ : PriorityQueue Dijkstra.State Dijkstra.cost}
    (graph : Vertices) (goal : Key) (options : Dijkstra.Options) (s : Search pq) :
  Dijkstra.iteration graph goal options s =
  core_iteration Dijkstra.cost Dijkstra.path Dijkstra.node Dijkstra.cost
    Dijkstra.mkState false
    (Dijkstra.isTurnAllowed options) (Dijkstra.directionBias options)
    (Dijkstra.onNodeExpanded options) graph goal s.
Proof. reflexivity. Qed.

Lemma astar_iteration_core `{PQ : PriorityQueue AStar.State AStar.estimate}
    (distance : Position -> Position -> Q)
    (graph : Vertices) (goal : Key) (options : AStar.Options) (s : Search pq) :
  AStar.iteration distance graph goal options s =
  core_iteration AStar.cost AStar.path AStar.node AStar.estimate
    (fun c p n => AStar.mkState c
       (c + AStar.heuristic distance n goal (AStar.coordinates options)) p n)
    true None (AStar.directionBias options) (AStar.onNodeExpanded options)
    graph goal s.
Proof. reflexivity. Qed.

(** ** General lemmas *)

Lemma forEach_invariant {A S} (P : S -> Prop) (body : S -> A -> Result S)
    (l : list A) (s s' : S) :
  (forall s a s', a ∈ l -> P s -> body s a = Ok s' -> P s') ->
  P s -> forEach body l s = Ok s' -> P s'.
Proof.
  revert s. induction l as [|a l IH]; intros s Hstep Hs Hrun; cbn in Hrun.
  - congruence.
  - destruct (body s a) as [s1|e] eqn:Hb; cbn in Hrun; [|discriminate].
    apply (IH s1); [| |exact Hrun].
    + intros t b t' Hin. apply Hstep. now right.
    + apply (Hstep s a); [now left | exact Hs | exact Hb].
Qed.

Lemma replay_total graph guard bias c pre from rest total ws bs :
  replay graph guard bias c pre from rest = Some (total, ws, bs) ->
  total == c + ws + bs.
Proof.
  revert c pre from total ws bs.
  induction rest as [|to rest IH]; intros c pre from total ws bs H; cbn in H.
  - injection H as <- <- <-. lra.
  - destruct (edgeWeight graph from to) as [w|]; [|discriminate].
    destruct (allowedAt guard pre from to) as [[|]|]; try discriminate.
    destruct (biasAt bias c pre from to) as [[b|]|]; try discriminate.
    destruct (replay graph guard bias (c + w + b) (pre ++ [to]) to rest)
      as [[[t1 ws1] bs1]|] eqn:Hr; [|discriminate].
    injection H as <- <- <-. apply IH in Hr. lra.
Qed.

Lemma replay_edgeWeightSum graph guard bias c pre from rest total ws bs :
  replay graph guard bias c pre from rest = Some (total, ws, bs) ->
  edgeWeightSum graph (from :: rest) = Some ws.
Proof.
  revert c pre from total ws bs.
  induction rest as [|to rest IH]; intros c pre from total ws bs H; cbn in H.
  - injection H as <- <- <-. reflexivity.
  - destruct (edgeWeight graph from to) as [w|] eqn:Hw; [|discriminate].
    destruct (allowedAt guard pre from to) as [[|]|]; try discriminate.
    destruct (biasAt bias c pre from to) as [[b|]|]; try discriminate.
    destruct (replay graph guard bias (c + w + b) (pre ++ [to]) to rest)
      as [[[t1 ws1] bs1]|] eqn:Hr; [|discriminate].
    injection H as <- <- <-. apply IH in Hr.
    change (edgeWeightSum graph (from :: to :: rest))
      with (match edgeWeight graph from to, edgeWeightSum graph (to :: rest) with
            | Some w, Some s => Some (w + s)
            | _, _ => None
            end).
    now rewrite Hw, Hr.
Qed.

Lemma replay_snoc graph guard bias c pre from rest total ws bs n m w b :
  replay graph guard bias c pre from rest = Some (total, ws, bs) ->
  last (from :: rest) = Some n ->
  edgeWeight graph n m = Some w ->
  allowedAt guard (pre ++ rest) n m = Ok true ->
  biasAt bias total (pre ++ rest) n m = Ok (Finite b) ->
  exists ws' bs',
    replay graph guard bias c pre from (rest ++ [m]) = Some (total + w + b, ws', bs').
Proof.
  revert c pre from total ws bs.
  induction rest as [|to rest IH]; intros c pre from total ws bs H Hlast Hw Hg Hb.
  - cbn in H. injection H as <- <- <-. cbn in Hlast. injection Hlast as <-.
    rewrite app_nil_r in Hg, Hb. cbn. rewrite Hw, Hg, Hb. eauto.
  - cbn in H.
    destruct (edgeWeight graph from to) as [w1|] eqn:Hw1; [|discriminate].
    destruct (allowedAt guard pre from to) as [[|]|] eqn:Hg1; try discriminate.
    destruct (biasAt bias c pre from to) as [[b1|]|] eqn:Hb1; try discriminate.
    destruct (replay graph guard bias (c + w1 + b1) (pre ++ [to]) to rest)
      as [[[t1 ws1] bs1]|] eqn:Hr; [|discriminate].
    injection H as <- <- <-.
    assert (Hlast' : last (to :: rest) = Some n).
    { destruct rest; cbn in *; exact Hlast. }
    rewrite (cons_middle to), app_assoc in Hg, Hb.
    destruct (IH _ _ _ _ _ _ Hr Hlast' Hw Hg Hb) as (ws' & bs' & Hr').
    cbn. rewrite Hw1, Hg1, Hb1, Hr'. eauto.
Qed.

(** ** Every queue entry is a replayed key sequence *)

Section CoreSound.
Context {Entry : Type}.
Variables (e_cost : Entry -> Q) (e_path : Entry -> list Key) (e_node : Entry -> Key).
Variable e_prio : Entry -> Q.
Context `{PQ : PriorityQueue Entry e_prio}.
Variable make : Q -> list Key -> Key -> Entry.
Hypothesis make_cost : forall c p n, e_cost (make c p n) = c.
Hypothesis make_path : forall c p n, e_path (make c p n) = p.
Hypothesis make_node : forall c p n, e_node (make c p n) = n.
Variable lazy : bool.
Variable guard : option (TurnInput -> Result bool).
Variable bias : option (BiasInput -> Result jsnum).
Variable callback : option (Expansion -> Result unit).
Variable graph : Vertices.
Variables start goal : Key.

Definition Sound (e : Entry) : Prop :=
  exists rest ws bs,
    e_path e = start :: rest /\
    last (e_path e) = Some (e_node e) /\
    replay graph guard bias 0 [start] start rest = Some (e_cost e, ws, bs).

Local Abbreviation relax := (core_relax e_cost e_path e_node e_prio make guard bias).
Local Abbreviation iteration :=
  (core_iteration e_cost e_path e_node e_prio make lazy guard bias callback graph goal).

Lemma core_relax_sound state nb acc nw acc' :
  Sound state ->
  graph !! e_node state = Some nb ->
  nw ∈ map_to_list nb ->
  Forall Sound (pq_items acc.2) ->
  relax state acc nw = Ok acc' ->
  Forall Sound (pq_items acc'.2).
Proof.
  intros (rest & ws & bs & Hp & Hl & Hr) Hnb Hin Hacc Hrun.
  destruct nw as [n w]. apply elem_of_map_to_list in Hin.
  unfold core_relax in Hrun.
  destruct (allowedAt guard (e_path state) (e_node state) n) as [[|]|] eqn:Hg;
    cbn in Hrun; try congruence.
  destruct (biasAt bias (e_cost state) (e_path state) (e_node state) n)
    as [[b|]|] eqn:Hb; cbn in Hrun; try congruence.
  destruct (improves (e_cost state + w + b) (acc.1 !! n)); [|congruence].
  injection Hrun as <-. cbn [snd].
  rewrite pq_push_items. constructor; [|exact Hacc].
  assert (Hw : edgeWeight graph (e_node state) n = Some w).
  { unfold edgeWeight. rewrite Hnb. exact Hin. }
  rewrite Hp in Hl, Hg, Hb.
  destruct (replay_snoc graph guard bias 0 [start] start rest _ ws bs
              (e_node state) n w b Hr Hl Hw Hg Hb) as (ws' & bs' & Hr').
  exists (rest ++ [n]), ws', bs'.
  rewrite make_path, make_node, make_cost, Hp. repeat split.
  - change (start :: rest ++ [n]) with ((start :: rest) ++ [n]). apply last_snoc.
  - exact Hr'.
Qed.

Lemma core_iteration_sound s :
  Forall Sound (pq_items (queue s)) ->
  match iteration s with
  | Continue s' => Forall Sound (pq_items (queue s'))
  | Return (Ok (Some (w, p))) _ =>
      exists e, Sound e /\ e_node e = goal /\ e_cost e = w /\ e_path e = p
  | Return _ _ => True
  end.
Proof.
  intros Hs. unfold core_iteration.
  pose proof (pq_pop_spec (queue s)) as Hpop.
  destruct (pq_pop (queue s)) as [[state rest]|]; [|exact I].
  destruct Hpop as [Hperm _]. rewrite Hperm in Hs.
  apply Forall_cons in Hs as [Hstate Hrest].
  destruct (lazy && stale (e_cost state) (costs s !! e_node state)); [exact Hrest|].
  destruct (notify callback (calls s) (e_node state) (e_cost state)) as [[[]|e] made];
    [|exact I].
  destruct (decide (e_node state = goal)) as [Hgoal|Hgoal].
  { exists state. auto. }
  destruct (graph !! e_node state) as [nb|] eqn:Hnb; [|exact I].
  destruct (forEach (relax state) (map_to_list nb) (costs s, rest))
    as [[costs' queue']|e] eqn:Hrun; [|exact I].
  cbn [queue].
  change queue' with (costs', queue').2.
  eapply (forEach_invariant (fun acc => Forall Sound (pq_items acc.2))
            _ _ (costs s, rest)); [|exact Hrest|exact Hrun].
  intros acc nw acc' Hin Hacc Hb.
  exact (core_relax_sound state nb acc nw acc' Hstate Hnb Hin Hacc Hb).
Qed.

Lemma core_loop_sound fuel s w p made :
  Forall Sound (pq_items (queue s)) ->
  loop iteration fuel s = Some (Ok (Some (w, p)), made) ->
  exists e, Sound e /\ e_node e = goal /\ e_cost e = w /\ e_path e = p.
Proof.
  revert s. induction fuel as [|fuel IH]; intros s Hs Hrun; cbn in Hrun; [discriminate|].
  pose proof (core_iteration_sound s Hs) as Hstep.
  destruct (iteration s) as [s'|r made'].
  - exact (IH s' Hstep Hrun).
  - injection Hrun as -> ->. exact Hstep.
Qed.

(** What a search returns is a key sequence from [start] to [goal] along
    edges of the graph that the guard allowed, and its weight is the cost
    [replay] computes for it. *)
Lemma core_found fuel (e0 : Entry) c0 w p made :
  Sound e0 ->
  loop iteration fuel (mkSearch c0 (pq_new [e0]) []) = Some (Ok (Some (w, p)), made) ->
  exists rest ws bs,
    p = start :: rest /\ last p = Some goal /\
    replay graph guard bias 0 [start] start rest = Some (w, ws, bs) /\
    edgeWeightSum graph p = Some ws /\
    w == ws + bs.
Proof.
  intros H0 Hrun.
  assert (Hinit : Forall Sound (pq_items (queue (mkSearch c0 (pq_new [e0]) [])))).
  { cbn [queue]. rewrite pq_new_items. repeat constructor. exact H0. }
  destruct (core_loop_sound fuel _ w p made Hinit Hrun)
    as (e & (rest & ws & bs & Hp & Hl & Hr) & Hn & <- & <-).
  exists rest, ws, bs. rewrite Hn in Hl. repeat split; try assumption.
  - rewrite Hp. exact (replay_edgeWeightSum _ _ _ _ _ _ _ _ _ _ Hr).
  - apply replay_total in Hr. lra.
Qed.
End CoreSound.

Lemma replay_no_bias graph guard c pre from rest total ws bs :
  replay graph guard None c pre from rest = Some (total, ws, bs) -> bs == 0.
Proof.
  revert c pre from total ws bs.
  induction rest as [|to rest IH]; intros c pre from total ws bs H; cbn in H.
  - injection H as <- <- <-. reflexivity.
  - destruct (edgeWeight graph from to) as [w|]; [|discriminate].
    destruct (allowedAt guard pre from to) as [[|]|]; try discriminate.
    destruct (replay graph guard None (c + w + 0) (pre ++ [to]) to rest)
      as [[[t1 ws1] bs1]|] eqn:Hr; [|discriminate].
    injection H as <- <- <-. apply IH in Hr. lra.
Qed.

Lemma dijkstra_found `{PQ : PriorityQueue Dijkstra.State Dijkstra.cost}
    fuel graph start goal options w p made :
  Dijkstra.findPath fuel graph start goal options = Some (Ok (Some (w, p)), made) ->
  exists rest ws bs,
    p = start :: rest /\ last p = Some goal /\
    replay graph (Dijkstra.isTurnAllowed options) (Dijkstra.directionBias options)
      0 [start] start rest = Some (w, ws, bs) /\
    edgeWeightSum graph p = Some ws /\
    w == ws + bs.
Proof.
  intros Hrun.
  apply (core_found Dijkstra.cost Dijkstra.path Dijkstra.node Dijkstra.cost
           Dijkstra.mkState (fun _ _ _ => eq_refl) (fun _ _ _ => eq_refl)
           (fun _ _ _ => eq_refl) false _ _ (Dijkstra.onNodeExpanded options)
           graph start goal fuel (Dijkstra.mkState 0 [start] start) {[start := 0]}
           w p made).
  - exists [], 0, 0. repeat split.
  - exact Hrun.
Qed.

Lemma astar_found `{PQ : PriorityQueue AStar.State AStar.estimate}
    distance fuel graph start goal options w p made :
  AStar.findPath distance fuel graph start goal options = Some (Ok (Some (w, p)), made) ->
  exists rest ws bs,
    p = start :: rest /\ last p = Some goal /\
    replay graph None (AStar.directionBias options) 0 [start] start rest
      = Some (w, ws, bs) /\
    edgeWeightSum graph p = Some ws /\
    w == ws + bs.
Proof.
  intros Hrun.
  apply (core_found AStar.cost AStar.path AStar.node AStar.estimate
           (fun c p n => AStar.mkState c
              (c + AStar.heuristic distance n goal (AStar.coordinates options)) p n)
           (fun _ _ _ => eq_refl) (fun _ _ _ => eq_refl)
           (fun _ _ _ => eq_refl) true None _ (AStar.onNodeExpanded options)
           graph start goal fuel
           (AStar.mkState 0 (AStar.heuristic distance start goal (AStar.coordinates options))
              [start] start)
           {[start := 0]} w p made).
  - exists [], 0, 0. repeat split.
  - exact Hrun.
Qed.

(** ** Endpoint resolution *)

Section Resolution.
Context {EdgeData : Type}.
Context `{PQD : PriorityQueue Dijkstra.State Dijkstra.cost}.
Context `{PQA : PriorityQueue AStar.State AStar.estimate}.
Variable defaultKey : Position -> Key.
Variable distance : Position -> Position -> Q.
Variable compactNode :
  Key -> Vertices -> Vertices -> Coordinates ->
  gmap Key (gmap Key (option EdgeData)) -> CompactedNode EdgeData.
Variable options : PathFinderOptions.
Variable hasEdgeDataReducer : bool.

Local Abbreviation Graph := (PathFinderGraph EdgeData).
Local Abbreviation findPath' :=
  (findPath defaultKey distance compactNode options hasEdgeDataReducer).

(** The matches are the keys whose source coordinate rounds to the query
    coordinate. *)
Lemma matchesOf_spec (g : Graph) coordinate tolerance k :
  k ∈ matchesOf g coordinate tolerance <->
  exists sourceCoordinate,
    sourceCoordinates g !! k = Some sourceCoordinate /\
    lon (roundCoord sourceCoordinate tolerance) == lon coordinate /\
    lat (roundCoord sourceCoordinate tolerance) == lat coordinate.
Proof.
  unfold matchesOf. rewrite list_elem_of_fmap. split.
  - intros ([k' sc] & -> & Hin). apply list_elem_of_filter in Hin as [Hsame Hin].
    apply elem_of_map_to_list in Hin. exists sc. split; [exact Hin|].
    unfold sameRounded in Hsame. cbn in Hsame.
    apply andb_true_iff in Hsame as [H1 H2].
    split; now apply Qeq_bool_iff.
  - intros (sc & Hk & H1 & H2). exists (k, sc). split; [reflexivity|].
    apply list_elem_of_filter. split; [|now apply elem_of_map_to_list].
    unfold sameRounded. cbn. apply andb_true_iff.
    split; now apply Qeq_bool_iff.
Qed.

Lemma resolveVertexKey_throws (g : Graph) coordinate keyFn tolerance e :
  _resolveVertexKey g coordinate keyFn tolerance = Throw e ->
  vertices g !! keyFn coordinate = None /\
  (1 < length (matchesOf g coordinate tolerance))%nat /\
  e = AmbiguousVertex coordinate (matchesOf g coordinate tolerance).
Proof.
  unfold _resolveVertexKey.
  destruct (decide (is_Some (vertices g !! keyFn coordinate))) as [Hv|Hv];
    [discriminate|].
  assert (Hnone : vertices g !! keyFn coordinate = None).
  { destruct (vertices g !! keyFn coordinate); [exfalso; eauto | reflexivity]. }
  destruct (matchesOf g coordinate tolerance) as [|k [|k' l]] eqn:Hm; cbn;
    try discriminate.
  intros [= <-]. repeat split; [exact Hnone | lia].
Qed.

End Resolution.

(** ** Facts about the queue contract *)

Lemma pq_pop_singleton {A} {prio : A -> Q} `{PQ : PriorityQueue A prio} (x : A) :
  exists q', pq_pop (pq_new [x]) = Some (x, q') /\ pq_items q' = [].
Proof.
  pose proof (pq_pop_spec (pq_new [x])) as Hpop.
  pose proof (pq_new_items [x]) as Hnew.
  destruct (pq_pop (pq_new [x])) as [[y q']|].
  - destruct Hpop as [Hperm _]. rewrite Hnew in Hperm.
    apply Permutation_singleton_l in Hperm.
    injection Hperm as <- Hq'. exists q'. split; [reflexivity | now symmetry].
  - rewrite Hpop in Hnew. apply Permutation_nil_l in Hnew. discriminate.
Qed.

(** ** A search from a key to itself *)

Lemma dijkstra_same_key `{PQ : PriorityQueue Dijkstra.State Dijkstra.cost}
    fuel graph k options :
  (forall f, Dijkstra.onNodeExpanded options = Some f -> f (k, 0) = Ok tt) ->
  Dijkstra.findPath (S fuel) graph k k options
  = Some (Ok (Some (0, [k])),
          match Dijkstra.onNodeExpanded options with Some _ => [(k, 0)] | None => [] end).
Proof.
  intros Hcb. unfold Dijkstra.findPath, Dijkstra.initial. cbn [loop].
  unfold Dijkstra.iteration. cbn [queue calls costs].
  destruct (pq_pop_singleton (Dijkstra.mkState 0 [k] k)) as (q' & -> & _).
  cbn [Dijkstra.node Dijkstra.cost Dijkstra.path]. unfold notify.
  destruct (Dijkstra.onNodeExpanded options) as [f|].
  - rewrite (Hcb f eq_refl). rewrite decide_True by reflexivity. reflexivity.
  - rewrite decide_True by reflexivity. reflexivity.
Qed.

Lemma astar_same_key `{PQ : PriorityQueue AStar.State AStar.estimate}
    distance fuel graph k options :
  (forall f, AStar.onNodeExpanded options = Some f -> f (k, 0) = Ok tt) ->
  AStar.findPath distance (S fuel) graph k k options
  = Some (Ok (Some (0, [k])),
          match AStar.onNodeExpanded options with Some _ => [(k, 0)] | None => [] end).
Proof.
  intros Hcb. unfold AStar.findPath, AStar.initial. cbn [loop].
  unfold AStar.iteration. cbn [queue calls costs].
  destruct (pq_pop_singleton
              (AStar.mkState 0 (AStar.heuristic distance k k (AStar.coordinates options))
                 [k] k)) as (q' & -> & _).
  cbn [AStar.node AStar.cost AStar.path].
  rewrite lookup_singleton_eq. cbn [stale].
  destruct (Qlt_le_dec 0 0) as [Hlt|_]; [lra|].
  unfold notify.
  destruct (AStar.onNodeExpanded options) as [f|].
  - rewrite (Hcb f eq_refl). rewrite decide_True by reflexivity. reflexivity.
  - rewrite decide_True by reflexivity. reflexivity.
Qed.

(** ** The phantom injector: what it leaves alone *)

Section PhantomFacts.
Context {EdgeData : Type}.
Variable compactNode :
  Key -> Vertices -> Vertices -> Coordinates ->
  gmap Key (gmap Key (option EdgeData)) -> CompactedNode EdgeData.
Variable hasEdgeDataReducer : bool.
Local Abbreviation Graph := (PathFinderGraph EdgeData).

Lemma mforEach_invariant {A} (P : Graph -> Prop) (body : A -> M EdgeData unit)
    (l : list A) (g g' : Graph) r :
  (forall a g r g', a ∈ l -> P g -> body a g = (r, g') -> P g') ->
  P g -> mforEach body l g = (r, g') -> P g'.
Proof.
  revert g. induction l as [|a l IH]; intros g Hstep Hg Hrun; cbn in Hrun.
  - unfold mret in Hrun. congruence.
  - unfold mbind in Hrun. destruct (body a g) as [[[]|e] g1] eqn:Hb.
    + apply (IH g1); [| |exact Hrun].
      * intros b h r' h' Hin. apply Hstep. now right.
      * eapply (Hstep a g); [now left|exact Hg|exact Hb].
    + injection Hrun as <- <-. eapply (Hstep a g); [now left|exact Hg|exact Hb].
Qed.

(** [registerIncoming] in closed form. *)
Lemma registerIncoming_eq n phantom neighbor incoming (g : Graph) :
  registerIncoming n phantom (neighbor, incoming) g =
  match compactedVertices g !! neighbor with
  | None => (Throw TypeError, g)
  | Some _ =>
      match incomingCoordinates phantom !! neighbor with
      | None =>
          (Throw TypeError,
           mkGraph (vertices g) (edgeData g) (sourceCoordinates g)
             (setCell neighbor n incoming (compactedVertices g))
             (ensureRow neighbor (compactedCoordinates g))
             (compactedEdges g))
      | Some reversed =>
          (Ok tt,
           mkGraph (vertices g) (edgeData g) (sourceCoordinates g)
             (setCell neighbor n incoming (compactedVertices g))
             (setCell neighbor n
                (sourceCoordinates g !! neighbor :: slice_0_minus1 reversed)
                (ensureRow neighbor (compactedCoordinates g)))
             (setCell neighbor n (mjoin (reducedEdges phantom !! neighbor))
                (ensureRow neighbor (compactedEdges g))))
      end
  end.
Proof.
  unfold registerIncoming.
  cbv [mbind mget mthrow mret modify update_compactedVertices
       update_compactedCoordinates update_compactedEdges
       set_compactedVertices set_compactedCoordinates set_compactedEdges].
  cbn.
  destruct (compactedVertices g !! neighbor); [|reflexivity].
  destruct (incomingCoordinates phantom !! neighbor); reflexivity.
Qed.

(** The raw graph and the source coordinates are never written, and no
    row of the compacted vertex table disappears. *)
Definition Frame (g g' : Graph) : Prop :=
  vertices g' = vertices g /\ edgeData g' = edgeData g /\
  sourceCoordinates g' = sourceCoordinates g /\
  forall k, is_Some (compactedVertices g !! k) -> is_Some (compactedVertices g' !! k).

Lemma Frame_refl (g : Graph) : Frame g g.
Proof. repeat split; auto. Qed.

Lemma Frame_trans (g1 g2 g3 : Graph) : Frame g1 g2 -> Frame g2 g3 -> Frame g1 g3.
Proof.
  intros (H1 & H2 & H3 & H4) (K1 & K2 & K3 & K4).
  repeat split; try congruence. auto.
Qed.

Lemma setCell_is_Some {V} neighbor n (value : V) table k :
  is_Some (table !! k) -> is_Some (setCell neighbor n value table !! k).
Proof.
  intros Hk. unfold setCell.
  destruct (decide (neighbor = k)) as [->|Hne].
  - rewrite lookup_insert_eq. eauto.
  - now rewrite lookup_insert_ne.
Qed.

Lemma registerIncoming_frame n phantom entry (g g' : Graph) r :
  registerIncoming n phantom entry g = (r, g') -> Frame g g'.
Proof.
  destruct entry as [neighbor incoming]. rewrite registerIncoming_eq.
  destruct (compactedVertices g !! neighbor) as [row|].
  - destruct (incomingCoordinates phantom !! neighbor); intros [= <- <-];
      repeat split; cbn; auto using setCell_is_Some.
  - intros [= <- <-]. apply Frame_refl.
Qed.

Lemma createPhantom_present n (g : Graph) :
  is_Some (compactedVertices g !! n) ->
  _createPhantom compactNode hasEdgeDataReducer n g = (Ok None, g).
Proof.
  intros Hn. unfold _createPhantom, mbind, mget.
  now rewrite decide_True by exact Hn.
Qed.

(** [_createPhantom] in closed form. *)
Definition withPhantomRows (n : Key) (g : Graph) : Graph :=
  mkGraph (vertices g) (edgeData g) (sourceCoordinates g)
    (<[n := edges (phantomOf compactNode n g)]> (compactedVertices g))
    (<[n := coordinates (phantomOf compactNode n g)]> (compactedCoordinates g))
    (if hasEdgeDataReducer
     then <[n := reducedEdges (phantomOf compactNode n g)]> (compactedEdges g)
     else compactedEdges g).

Lemma createPhantom_eq n (g : Graph) :
  _createPhantom compactNode hasEdgeDataReducer n g =
  if decide (is_Some (compactedVertices g !! n)) then (Ok None, g) else
  match mforEach (registerIncoming n (phantomOf compactNode n g))
          (map_to_list (incomingEdges (phantomOf compactNode n g))) (withPhantomRows n g) with
  | (Ok _, g1) => (Ok (Some n), g1)
  | (Throw e, g1) => (Throw e, g1)
  end.
Proof.
  unfold _createPhantom, mbind at 1, mget.
  destruct (decide (is_Some (compactedVertices g !! n))); [reflexivity|].
  unfold withPhantomRows, phantomOf.
  cbv [mbind mret modify update_compactedVertices update_compactedCoordinates
       update_compactedEdges set_compactedVertices set_compactedCoordinates
       set_compactedEdges].
  destruct hasEdgeDataReducer; cbn;
    match goal with
    | |- context [mforEach ?b ?l ?h] => destruct (mforEach b l h) as [[[]|e] g1]
    end; reflexivity.
Qed.

Lemma createPhantom_frame n (g g' : Graph) r :
  _createPhantom compactNode hasEdgeDataReducer n g = (r, g') ->
  Frame g g' /\
  (r = Ok None -> g' = g) /\
  (forall m, r = Ok (Some m) -> m = n /\ is_Some (compactedVertices g' !! n)).
Proof.
  rewrite createPhantom_eq.
  destruct (decide (is_Some (compactedVertices g !! n))) as [Hn|Hn].
  { intros [= <- <-]. split; [apply Frame_refl|]. split; [reflexivity|discriminate]. }
  destruct (mforEach _ _ _) as [r1 g1] eqn:Hrun.
  assert (Hinv : Frame g g1 /\ is_Some (compactedVertices g1 !! n)).
  { eapply (mforEach_invariant
              (fun h => Frame g h /\ is_Some (compactedVertices h !! n)));
      [| |exact Hrun].
    - intros a h r' h' _ [HF Hp] Hb. apply registerIncoming_frame in Hb.
      split; [eapply Frame_trans; eassumption|]. now apply Hb.
    - split.
      + repeat split; cbn; try reflexivity. intros k Hk.
        destruct (decide (n = k)) as [->|Hne];
          [rewrite lookup_insert_eq; eauto | now rewrite lookup_insert_ne].
      + cbn. rewrite lookup_insert_eq. eauto. }
  destruct Hinv as [HF Hp].
  destruct r1 as [[]|e]; intros [= <- <-]; (split; [exact HF|]);
    (split; [discriminate|]); intros m [= <-]; auto.
Qed.
End PhantomFacts.

(** ** The facade *)

Section FacadeFacts.
Context {EdgeData : Type}.
Context `{PQD : PriorityQueue Dijkstra.State Dijkstra.cost}.
Context `{PQA : PriorityQueue AStar.State AStar.estimate}.
Variable defaultKey : Position -> Key.
Variable distance : Position -> Position -> Q.
Variable compactNode :
  Key -> Vertices -> Vertices -> Coordinates ->
  gmap Key (gmap Key (option EdgeData)) -> CompactedNode EdgeData.
Variable options : PathFinderOptions.
Variable hasEdgeDataReducer : bool.

Local Abbreviation Graph := (PathFinderGraph EdgeData).
Local Abbreviation createPhantom := (_createPhantom compactNode hasEdgeDataReducer).
Local Abbreviation removePhantom := (@_removePhantom EdgeData hasEdgeDataReducer).
Local Abbreviation fromKeys :=
  (findPathFromVertexKeys distance compactNode hasEdgeDataReducer).

Lemma runSearch_same_key fuel (g : Graph) k searchOptions :
  (forall f, onNodeExpanded searchOptions = Some f -> f (k, 0) = Ok tt) ->
  runSearch distance (S fuel) g k k searchOptions
  = Some (Ok (Some (0, [k])),
          match onNodeExpanded searchOptions with Some _ => [(k, 0)] | None => [] end).
Proof.
  intros Hcb. unfold runSearch.
  destruct (algorithm searchOptions) as [[|]|].
  - now rewrite dijkstra_same_key.
  - now rewrite astar_same_key.
  - now rewrite dijkstra_same_key.
Qed.

(** A search from a vertex key to itself, given what the phantom
    injection and the removal return. *)
Lemma same_endpoint_given (g g1 g3 : Graph) (k : Key) (phantom : option Key)
    (searchOptions : PathFinderSearchOptions) (fuel : nat) :
  is_Some (vertices g !! k) ->
  (forall f, onNodeExpanded searchOptions = Some f -> f (k, 0) = Ok tt) ->
  createPhantom k g = (Ok phantom, g1) ->
  removePhantom phantom g1 = (Ok tt, g3) ->
  let found :=
    Some (Ok (Some (mkPath [sourceCoordinates g !! k] 0
                      (if hasEdgeDataReducer then Some [] else None))),
          g3,
          match onNodeExpanded searchOptions with Some _ => [(k, 0)] | None => [] end) in
  fromKeys (S fuel) k k searchOptions g = found /\
  forall a b,
    _resolveVertexKey g (roundCoord a (toleranceOf options))
      (keyOf defaultKey options) (toleranceOf options) = Ok k ->
    _resolveVertexKey g (roundCoord b (toleranceOf options))
      (keyOf defaultKey options) (toleranceOf options) = Ok k ->
    findPath defaultKey distance compactNode options hasEdgeDataReducer
      (S fuel) a b searchOptions g = found.
Proof.
  intros Hv Hcb Hcreate Hremove found.
  assert (Hkeys : fromKeys (S fuel) k k searchOptions g = found).
  { unfold findPathFromVertexKeys.
    rewrite decide_True by (split; exact Hv).
    rewrite Hcreate.
    destruct (createPhantom_frame _ _ _ _ _ _ Hcreate) as ((_ & _ & Hsc & Hrows) & Hnone & Hsome).
    assert (Hpresent : is_Some (compactedVertices g1 !! k)).
    { destruct phantom as [m|].
      - now destruct (Hsome m eq_refl).
      - rewrite (Hnone eq_refl).
        rewrite createPhantom_eq in Hcreate.
        destruct (decide (is_Some (compactedVertices g !! k))) as [Hk|Hk]; [exact Hk|].
        destruct (mforEach _ _ _) as [[[]|e] h]; discriminate. }
    rewrite (createPhantom_present _ _ _ _ Hpresent).
    rewrite (runSearch_same_key fuel g1 k searchOptions Hcb).
    unfold mbind. rewrite Hremove. cbn [_removePhantom mret].
    unfold found. cbn [rbind reconstruct geometryOf edgeDatasOf consecutive forEach].
    rewrite Hsc. destruct hasEdgeDataReducer; reflexivity. }
  split; [exact Hkeys|].
  intros a b Ha Hb. unfold findPath. rewrite Ha, Hb.
  rewrite decide_True by (split; exact Hv). exact Hkeys.
Qed.
End FacadeFacts.

Section FacadeSearch.
Context {EdgeData : Type}.
Context `{PQD : PriorityQueue Dijkstra.State Dijkstra.cost}.
Context `{PQA : PriorityQueue AStar.State AStar.estimate}.
Variable defaultKey : Position -> Key.
Variable distance : Position -> Position -> Q.
Variable compactNode :
  Key -> Vertices -> Vertices -> Coordinates ->
  gmap Key (gmap Key (option EdgeData)) -> CompactedNode EdgeData.
Variable options : PathFinderOptions.
Variable hasEdgeDataReducer : bool.

Local Abbreviation Graph := (PathFinderGraph EdgeData).
Local Abbreviation createPhantom := (_createPhantom compactNode hasEdgeDataReducer).
Local Abbreviation fromKeys :=
  (findPathFromVertexKeys distance compactNode hasEdgeDataReducer).
Local Abbreviation resolve :=
  (fun (g : Graph) (p : Position) =>
     _resolveVertexKey g (roundCoord p (toleranceOf options)) (keyOf defaultKey options)
       (toleranceOf options)).

(** A path [findPath] returns is one [findPathFromVertexKeys] returns for
    the keys the endpoints resolve to. *)
Lemma findPath_fromKeys (g g' : Graph) fuel a b searchOptions found made :
  findPath defaultKey distance compactNode options hasEdgeDataReducer
    fuel a b searchOptions g = Some (Ok (Some found), g', made) ->
  exists start finish,
    resolve g a = Ok start /\ resolve g b = Ok finish /\
    fromKeys fuel start finish searchOptions g = Some (Ok (Some found), g', made).
Proof.
  unfold findPath.
  destruct (_resolveVertexKey g (roundCoord a _) _ _) as [start|e]; [|discriminate].
  destruct (_resolveVertexKey g (roundCoord b _) _ _) as [finish|e]; [|discriminate].
  destruct (decide _) as [_|_]; [|discriminate].
  intros Hrun. exists start, finish. repeat split. exact Hrun.
Qed.

(** The weight [findPathFromVertexKeys] returns is the weight the search
    found on the compacted graph with the phantoms in it. *)
Lemma fromKeys_weight (g g' : Graph) fuel start finish searchOptions found made :
  fromKeys fuel start finish searchOptions g = Some (Ok (Some found), g', made) ->
  exists phantomStart g1 phantomEnd g2 keys,
    createPhantom start g = (Ok phantomStart, g1) /\
    createPhantom finish g1 = (Ok phantomEnd, g2) /\
    runSearch distance fuel g2 start finish searchOptions
      = Some (Ok (Some (weight found, keys)), made).
Proof.
  unfold findPathFromVertexKeys.
  destruct (decide _) as [_|_]; [|discriminate].
  destruct (createPhantom start g) as [[phantomStart|e] g1] eqn:H1; [|discriminate].
  destruct (createPhantom finish g1) as [[phantomEnd|e] g2] eqn:H2; [|discriminate].
  destruct (runSearch distance fuel g2 start finish searchOptions)
    as [[searched made']|] eqn:Hsearch; [|discriminate].
  destruct (mbind _ _ g2) as [[[]|e] g3]; [|discriminate].
  intros [= Hattempt <- <-].
  exists phantomStart, g1, phantomEnd, g2.
  destruct searched as [[[w keys]|]|e]; cbn in Hattempt; try discriminate.
  exists keys. split; [reflexivity|]. split; [exact H2|].
  destruct (geometryOf g2 keys finish) as [geometry|e]; cbn in Hattempt; [|discriminate].
  match type of Hattempt with
  | context [rbind ?x _] => destruct x as [datas|e]
  end; cbn in Hattempt; [|discriminate].
  injection Hattempt as <-. exact Hsearch.
Qed.

Lemma runSearch_found fuel (g : Graph) start finish searchOptions w keys made :
  runSearch distance fuel g start finish searchOptions = Some (Ok (Some (w, keys)), made) ->
  exists rest ws bs,
    keys = start :: rest /\ last keys = Some finish /\
    replay (compactedVertices g) None
      (shared_directionBias (sharedOptionsOf g finish searchOptions))
      0 [start] start rest = Some (w, ws, bs) /\
    edgeWeightSum (compactedVertices g) keys = Some ws /\
    w == ws + bs.
Proof.
  unfold runSearch. intros Hrun.
  destruct (algorithm searchOptions) as [[|]|].
  - exact (dijkstra_found _ _ _ _ _ _ _ _ Hrun).
  - exact (astar_found _ _ _ _ _ _ _ _ _ Hrun).
  - exact (dijkstra_found _ _ _ _ _ _ _ _ Hrun).
Qed.

(** C6, amended. The weight of a path returned by [findPath] is the sum
    of the compacted edge weights along the key sequence the search found
    plus the sum of the values [directionBias] returned for its
    transitions; with no [directionBias] configured it is the sum of the
    edge weights alone.  The compacted graph is the one the search ran
    on, with the phantom endpoints in it. *)
Theorem returned_weight (g g' : Graph) fuel a b searchOptions found made :
  findPath defaultKey distance compactNode options hasEdgeDataReducer
    fuel a b searchOptions g = Some (Ok (Some found), g', made) ->
  exists start finish phantomStart g1 phantomEnd g2 keys rest ws bs,
    resolve g a = Ok start /\ resolve g b = Ok finish /\
    createPhantom start g = (Ok phantomStart, g1) /\
    createPhantom finish g1 = (Ok phantomEnd, g2) /\
    runSearch distance fuel g2 start finish searchOptions
      = Some (Ok (Some (weight found, keys)), made) /\
    keys = start :: rest /\ last keys = Some finish /\
    replay (compactedVertices g2) None
      (shared_directionBias (sharedOptionsOf g2 finish searchOptions))
      0 [start] start rest = Some (weight found, ws, bs) /\
    edgeWeightSum (compactedVertices g2) keys = Some ws /\
    weight found == ws + bs /\
    (directionBias searchOptions = None -> weight found == ws).
Proof.
  intros Hfind.
  destruct (findPath_fromKeys _ _ _ _ _ _ _ _ Hfind)
    as (start & finish & Ha & Hb & Hrun).
  destruct (fromKeys_weight _ _ _ _ _ _ _ _ Hrun)
    as (phantomStart & g1 & phantomEnd & g2 & keys & H1 & H2 & Hsearch).
  destruct (runSearch_found _ _ _ _ _ _ _ _ Hsearch)
    as (rest & ws & bs & Hk & Hl & Hr & Hsum & Hw).
  exists start, finish, phantomStart, g1, phantomEnd, g2, keys, rest, ws, bs.
  repeat split; try assumption.
  intros Hnone. unfold sharedOptionsOf in Hr. cbn in Hr. rewrite Hnone in Hr.
  apply replay_no_bias in Hr. lra.
Qed.
End FacadeSearch.

(** ** The geometry phantom injection stores *)

Section PhantomGeometry.
Context {EdgeData : Type}.
Variable compactNode :
  Key -> Vertices -> Vertices -> Coordinates ->
  gmap Key (gmap Key (option EdgeData)) -> CompactedNode EdgeData.
Variable hasEdgeDataReducer : bool.
Local Abbreviation Graph := (PathFinderGraph EdgeData).

Lemma ensureRow_lookup_ne {V} neighbor k (table : gmap Key (gmap Key V)) :
  neighbor <> k -> ensureRow neighbor table !! k = table !! k.
Proof.
  intros Hne. unfold ensureRow.
  destruct (table !! neighbor); [reflexivity | now rewrite lookup_insert_ne].
Qed.

Lemma setCell_lookup_ne {V} neighbor n (value : V) k table :
  neighbor <> k -> setCell neighbor n value table !! k = table !! k.
Proof. intros Hne. unfold setCell. now rewrite lookup_insert_ne. Qed.

Lemma setCell_lookup_eq {V} neighbor n (value : V) table :
  setCell neighbor n value table !! neighbor ≫= (fun row => row !! n) = Some value.
Proof. unfold setCell. rewrite lookup_insert_eq. cbn. apply lookup_insert_eq. Qed.

Lemma registerIncoming_other_row n phantom entry neighbor (g g' : Graph) r :
  entry.1 <> neighbor ->
  registerIncoming n phantom entry g = (r, g') ->
  compactedCoordinates g' !! neighbor = compactedCoordinates g !! neighbor.
Proof.
  destruct entry as [other incoming]. cbn [fst]. intros Hne.
  rewrite registerIncoming_eq.
  destruct (compactedVertices g !! other) as [row|]; [|now intros [= <- <-]].
  destruct (incomingCoordinates phantom !! other); intros [= <- <-]; cbn.
  - now rewrite setCell_lookup_ne, ensureRow_lookup_ne.
  - now rewrite ensureRow_lookup_ne.
Qed.

Lemma registerAll_other_row n phantom l neighbor (g g' : Graph) r :
  neighbor ∉ l.*1 ->
  mforEach (registerIncoming n phantom) l g = (r, g') ->
  compactedCoordinates g' !! neighbor = compactedCoordinates g !! neighbor.
Proof.
  intros Hnot Hrun.
  eapply (mforEach_invariant
            (fun h => compactedCoordinates h !! neighbor
                      = compactedCoordinates g !! neighbor));
    [|reflexivity|exact Hrun].
  intros entry h r' h' Hin Hh Hb. rewrite <- Hh.
  eapply registerIncoming_other_row; [|exact Hb].
  intros Heq. apply Hnot. apply list_elem_of_fmap. exists entry. auto.
Qed.

Lemma registerAll_cell n phantom l (g g' : Graph) neighbor incoming reversed :
  NoDup l.*1 ->
  mforEach (registerIncoming n phantom) l g = (Ok tt, g') ->
  (neighbor, incoming) ∈ l ->
  incomingCoordinates phantom !! neighbor = Some reversed ->
  compactedCoordinates g' !! neighbor ≫= (fun row => row !! n)
  = Some (sourceCoordinates g !! neighbor :: slice_0_minus1 reversed).
Proof.
  revert g. induction l as [|entry l IH]; intros g Hnodup Hrun Hin Hrev.
  - apply elem_of_nil in Hin. contradiction.
  - cbn in Hnodup. apply NoDup_cons in Hnodup as [Hfresh Hnodup].
    cbn in Hrun. unfold mbind in Hrun.
    destruct (registerIncoming n phantom entry g) as [[[]|e] g1] eqn:Hb;
      [|discriminate].
    apply elem_of_cons in Hin as [<-|Hin].
    + rewrite (registerAll_other_row n phantom l neighbor g1 g' _ Hfresh Hrun).
      rewrite registerIncoming_eq in Hb.
      destruct (compactedVertices g !! neighbor); [|discriminate].
      rewrite Hrev in Hb. injection Hb as <-. cbn.
      apply setCell_lookup_eq.
    + pose proof (registerIncoming_frame _ _ _ _ _ _ Hb) as (_ & _ & Hsc & _).
      rewrite <- Hsc. exact (IH g1 Hnodup Hrun Hin Hrev).
Qed.

End PhantomGeometry.

(** ** Phantoms that fit: injection and removal succeed *)

Lemma dom_setCell {V} neighbor n (value : V) (table : gmap Key (gmap Key V)) :
  dom (setCell neighbor n value table) = {[neighbor]} ∪ dom table.
Proof. unfold setCell. apply dom_insert_L. Qed.

Lemma dom_ensureRow {V} neighbor (table : gmap Key (gmap Key V)) :
  dom (ensureRow neighbor table) = {[neighbor]} ∪ dom table.
Proof.
  unfold ensureRow. destruct (table !! neighbor) eqn:Hrow.
  - apply (elem_of_dom_2 table) in Hrow. set_solver.
  - apply dom_insert_L.
Qed.

Section FitsFacts.
Context {EdgeData : Type}.
Variable compactNode :
  Key -> Vertices -> Vertices -> Coordinates ->
  gmap Key (gmap Key (option EdgeData)) -> CompactedNode EdgeData.
Variable hasEdgeDataReducer : bool.
Local Abbreviation Graph := (PathFinderGraph EdgeData).

(** What registering incoming edges on other rows keeps: the raw graph,
    the rows of [n], and every row there is. *)
Definition Grows (n : Key) (h h' : Graph) : Prop :=
  vertices h' = vertices h /\ edgeData h' = edgeData h /\
  sourceCoordinates h' = sourceCoordinates h /\
  compactedVertices h' !! n = compactedVertices h !! n /\
  compactedCoordinates h' !! n = compactedCoordinates h !! n /\
  compactedEdges h' !! n = compactedEdges h !! n /\
  dom (compactedVertices h) ⊆ dom (compactedVertices h') /\
  dom (compactedCoordinates h) ⊆ dom (compactedCoordinates h') /\
  dom (compactedEdges h) ⊆ dom (compactedEdges h').

Lemma Grows_refl n h : Grows n h h.
Proof. repeat split; set_solver. Qed.

Lemma Grows_trans n h1 h2 h3 : Grows n h1 h2 -> Grows n h2 h3 -> Grows n h1 h3.
Proof.
  intros (A1 & A2 & A3 & A4 & A5 & A6 & A7 & A8 & A9)
         (B1 & B2 & B3 & B4 & B5 & B6 & B7 & B8 & B9).
  repeat split; try congruence; set_solver.
Qed.

Lemma registerIncoming_fits n phantom neighbor incoming (h : Graph) :
  neighbor <> n ->
  neighbor ∈ dom (compactedVertices h) ->
  neighbor ∈ dom (incomingCoordinates phantom) ->
  exists h',
    registerIncoming n phantom (neighbor, incoming) h = (Ok tt, h') /\
    Grows n h h' /\
    neighbor ∈ dom (compactedCoordinates h') /\
    neighbor ∈ dom (compactedEdges h').
Proof.
  intros Hne Hrow Hrev.
  apply elem_of_dom in Hrow as [row Hrow]. apply elem_of_dom in Hrev as [reversed Hrev].
  rewrite registerIncoming_eq, Hrow, Hrev.
  eexists. split; [reflexivity|]. cbn.
  split.
  - repeat split; cbn;
      rewrite ?setCell_lookup_ne, ?ensureRow_lookup_ne by exact Hne;
      rewrite ?dom_setCell, ?dom_ensureRow; try reflexivity; set_solver.
  - rewrite !dom_setCell. set_solver.
Qed.

Lemma registerAll_fits n phantom l (h : Graph) :
  (forall entry, entry ∈ l ->
     entry.1 <> n /\ entry.1 ∈ dom (compactedVertices h) /\
     entry.1 ∈ dom (incomingCoordinates phantom)) ->
  exists h',
    mforEach (registerIncoming n phantom) l h = (Ok tt, h') /\
    Grows n h h' /\
    (forall entry, entry ∈ l ->
       entry.1 ∈ dom (compactedCoordinates h') /\ entry.1 ∈ dom (compactedEdges h')).
Proof.
  revert h. induction l as [|[neighbor incoming] l IH]; intros h Hall.
  - exists h. split; [reflexivity|]. split; [apply Grows_refl|].
    intros entry Hin. apply elem_of_nil in Hin. contradiction.
  - destruct (Hall (neighbor, incoming) (list_elem_of_here _ _)) as (Hne & Hrow & Hrev).
    destruct (registerIncoming_fits n phantom neighbor incoming h Hne Hrow Hrev)
      as (h1 & Hstep & Hgrow & HcC & HcE).
    destruct (IH h1) as (h' & Hrun & Hgrow' & Hrows).
    { intros entry Hin. destruct (Hall entry (list_elem_of_further _ _ _ Hin))
        as (H1 & H2 & H3).
      repeat split; try assumption.
      destruct Hgrow as (_ & _ & _ & _ & _ & _ & Hsub & _). set_solver. }
    exists h'. split.
    + cbn [mforEach]. unfold mbind at 1. rewrite Hstep. exact Hrun.
    + split; [eapply Grows_trans; eassumption|].
      intros entry Hin. apply elem_of_cons in Hin as [->|Hin]; [|now apply Hrows].
      destruct Hgrow' as (_ & _ & _ & _ & _ & _ & _ & HsubC & HsubE). cbn.
      split; set_solver.
Qed.

(** Injecting a phantom that fits succeeds, and the graph it gives has
    the rows the removal will index. *)
Lemma createPhantom_fits n (g : Graph) :
  compactedVertices g !! n = None ->
  phantomFits compactNode hasEdgeDataReducer n g ->
  exists g1,
    _createPhantom compactNode hasEdgeDataReducer n g = (Ok (Some n), g1) /\
    sourceCoordinates g1 = sourceCoordinates g /\
    (exists own, compactedVertices g1 !! n = Some own /\
                 dom own ⊆ dom (compactedVertices g1)) /\
    (exists own, compactedCoordinates g1 !! n = Some own /\
                 dom own ⊆ dom (compactedCoordinates g1)) /\
    (hasEdgeDataReducer = true ->
     exists own, compactedEdges g1 !! n = Some own /\
                 dom own ⊆ dom (compactedEdges g1)).
Proof.
  intros Hnone (Hin & Hrev & Hout & Hcoords & Hreduced).
  rewrite createPhantom_eq.
  rewrite decide_False by (rewrite Hnone; intros [? ?]; discriminate).
  set (phantom := phantomOf compactNode n g) in *.
  destruct (registerAll_fits n phantom (map_to_list (incomingEdges phantom))
              (withPhantomRows compactNode hasEdgeDataReducer n g))
    as (g1 & Hrun & Hgrow & Hrows).
  { intros [neighbor incoming] Hentry. apply elem_of_map_to_list in Hentry. cbn.
    apply (elem_of_dom_2 (incomingEdges phantom)) in Hentry.
    assert (Hrow : neighbor ∈ dom (compactedVertices g)) by set_solver.
    split.
    - intros ->. apply elem_of_dom in Hrow as [? Hrow]. congruence.
    - split; [|set_solver]. rewrite dom_insert_L. set_solver. }
  rewrite Hrun. exists g1. split; [reflexivity|].
  destruct Hgrow as (_ & _ & Hsc & HrowV & HrowC & HrowE & HsubV & HsubC & HsubE).
  cbn in HrowV, HrowC, HrowE, HsubV, HsubC, HsubE, Hsc.
  rewrite lookup_insert_eq in HrowV. rewrite lookup_insert_eq in HrowC.
  rewrite dom_insert_L in HsubV. rewrite dom_insert_L in HsubC.
  assert (Hregistered : forall neighbor, neighbor ∈ dom (incomingEdges phantom) ->
            neighbor ∈ dom (compactedCoordinates g1) /\ neighbor ∈ dom (compactedEdges g1)).
  { intros neighbor Hneighbor. apply elem_of_dom in Hneighbor as [incoming Hneighbor].
    apply elem_of_map_to_list in Hneighbor. exact (Hrows _ Hneighbor). }
  split; [exact Hsc|]. split; [|split].
  - exists (edges phantom). split; [exact HrowV|]. set_solver.
  - exists (coordinates phantom). split; [exact HrowC|].
    intros neighbor Hneighbor. apply Hcoords in Hneighbor.
    apply elem_of_union in Hneighbor as [Hold|Hnew]; [set_solver|].
    now apply Hregistered.
  - intros Hreducer. specialize (Hreduced Hreducer).
    rewrite Hreducer in HrowE, HsubE. rewrite lookup_insert_eq in HrowE.
    rewrite dom_insert_L in HsubE.
    exists (reducedEdges phantom). split; [exact HrowE|].
    intros neighbor Hneighbor. apply Hreduced in Hneighbor.
    apply elem_of_union in Hneighbor as [Hold|Hnew]; [set_solver|].
    now apply Hregistered.
Qed.
End FitsFacts.

Section Removal.
Context {EdgeData : Type}.
Variable hasEdgeDataReducer : bool.
Local Abbreviation Graph := (PathFinderGraph EdgeData).

(** [unlink] on a table whose row for [n] names rows of the table.  [Kept]
    is what an update of this table leaves alone. *)
Section Unlink.
Context {V : Type}.
Variable table : Graph -> gmap Key (gmap Key V).
Variable update : (gmap Key (gmap Key V) -> gmap Key (gmap Key V)) -> M EdgeData unit.
Variable Kept : Graph -> Graph -> Prop.
Hypothesis Kept_refl : forall g, Kept g g.
Hypothesis Kept_trans : forall g1 g2 g3, Kept g1 g2 -> Kept g2 g3 -> Kept g1 g3.
Hypothesis update_spec :
  forall f g, exists g', update f g = (Ok tt, g') /\ table g' = f (table g) /\ Kept g g'.

Lemma unlink_rows n (l : list Key) (g : Graph) :
  (forall neighbor, neighbor ∈ l -> neighbor ∈ dom (table g)) ->
  exists g',
    mforEach (fun neighbor =>
                mbind mget (fun h =>
                  match table h !! neighbor with
                  | None => mthrow TypeError
                  | Some row => update (insert neighbor (delete n row))
                  end)) l g = (Ok tt, g') /\
    dom (table g') = dom (table g) /\ Kept g g'.
Proof.
  revert g. induction l as [|neighbor l IH]; intros g Hall.
  - exists g. repeat split. apply Kept_refl.
  - assert (Hrow : neighbor ∈ dom (table g)) by (apply Hall; left).
    apply elem_of_dom in Hrow as [row Hrow].
    destruct (update_spec (insert neighbor (delete n row)) g) as (g1 & Hupd & Htable & Hkept).
    assert (Hdom : dom (table g1) = dom (table g)).
    { rewrite Htable, dom_insert_L. apply (elem_of_dom_2 (table g)) in Hrow. set_solver. }
    destruct (IH g1) as (g' & Hrun & Hdom' & Hkept').
    { intros other Hother. rewrite Hdom. apply Hall. now right. }
    exists g'. split.
    + cbn [mforEach]. unfold mbind at 1. unfold mbind at 1, mget. rewrite Hrow, Hupd.
      exact Hrun.
    + split; [congruence|]. eapply Kept_trans; eassumption.
Qed.

Lemma unlink_fits n own (g : Graph) :
  table g !! n = Some own ->
  dom own ⊆ dom (table g) ->
  exists g', unlink table update n g = (Ok tt, g') /\
             dom (table g') = dom (table g) /\ Kept g g'.
Proof.
  intros Hown Hsub. unfold unlink, mbind at 1, mget. rewrite Hown.
  apply unlink_rows. intros neighbor Hneighbor.
  apply Hsub. apply elem_of_dom.
  apply list_elem_of_fmap in Hneighbor as ([k row] & -> & Hin).
  apply elem_of_map_to_list in Hin. eauto.
Qed.
End Unlink.

(** Removing a phantom whose rows name rows of the tables succeeds. *)
Lemma removePhantom_fits k (g1 : Graph) :
  (exists own, compactedVertices g1 !! k = Some own /\
               dom own ⊆ dom (compactedVertices g1)) ->
  (exists own, compactedCoordinates g1 !! k = Some own /\
               dom own ⊆ dom (compactedCoordinates g1)) ->
  (hasEdgeDataReducer = true ->
   exists own, compactedEdges g1 !! k = Some own /\
               dom own ⊆ dom (compactedEdges g1)) ->
  exists g3, _removePhantom hasEdgeDataReducer (Some k) g1 = (Ok tt, g3).
Proof.
  intros (ownV & HownV & HsubV) (ownC & HownC & HsubC) Hreducer.
  unfold _removePhantom. destruct (falsy (Some k)); [eexists; reflexivity|].
  destruct (unlink_fits compactedVertices update_compactedVertices
              (fun g g' => compactedCoordinates g' = compactedCoordinates g /\
                           compactedEdges g' = compactedEdges g)
              ltac:(split; reflexivity)
              ltac:(intros ? ? ? [? ?] [? ?]; split; congruence)
              ltac:(intros f g; eexists; repeat split)
              k ownV g1 HownV HsubV)
    as (g2 & Hrun2 & _ & HkeptC & HkeptE).
  destruct (unlink_fits compactedCoordinates update_compactedCoordinates
              (fun g g' => compactedEdges g' = compactedEdges g)
              ltac:(reflexivity)
              ltac:(intros ? ? ? ? ?; congruence)
              ltac:(intros f g; eexists; repeat split)
              k ownC g2)
    as (g2' & Hrun2' & _ & HkeptE').
  { now rewrite HkeptC. }
  { now rewrite HkeptC. }
  unfold mbind at 1. rewrite Hrun2.
  unfold mbind at 1. rewrite Hrun2'.
  destruct hasEdgeDataReducer.
  - destruct (Hreducer eq_refl) as (ownE & HownE & HsubE).
    destruct (unlink_fits compactedEdges update_compactedEdges
                (fun _ _ => True) (fun _ => I) (fun _ _ _ _ _ => I)
                ltac:(intros f g; eexists; repeat split)
                k ownE g2')
      as (g2'' & Hrun2'' & _ & _).
    { now rewrite HkeptE', HkeptE. }
    { now rewrite HkeptE', HkeptE. }
    unfold mbind at 1. rewrite Hrun2''. eexists. reflexivity.
  - eexists. reflexivity.
Qed.
End Removal.

Section SameEndpoint.
Context {EdgeData : Type}.
Context `{PQD : PriorityQueue Dijkstra.State Dijkstra.cost}.
Context `{PQA : PriorityQueue AStar.State AStar.estimate}.
Variable defaultKey : Position -> Key.
Variable distance : Position -> Position -> Q.
Variable compactNode :
  Key -> Vertices -> Vertices -> Coordinates ->
  gmap Key (gmap Key (option EdgeData)) -> CompactedNode EdgeData.
Variable options : PathFinderOptions.
Variable hasEdgeDataReducer : bool.
Local Abbreviation Graph := (PathFinderGraph EdgeData).

(** C10, amended. When start and finish are the same vertex key of the
    network, the onNodeExpanded callback (if any) does not throw and the
    compacted node of the key, when the key is not a compacted vertex,
    fits the compacted tables, the call returns a path of weight 0 whose
    geometry is the single coordinate [sourceCoordinates[finish]], with an
    empty [edgeDatas] list when an edge-data reducer is configured: for
    both algorithms, and from [findPath] whenever both points resolve to
    that key. *)
Theorem same_endpoint (g : Graph) (k : Key)
    (searchOptions : PathFinderSearchOptions) (fuel : nat) :
  is_Some (vertices g !! k) ->
  (forall f, onNodeExpanded searchOptions = Some f -> f (k, 0) = Ok tt) ->
  (compactedVertices g !! k = None -> phantomFits compactNode hasEdgeDataReducer k g) ->
  exists g3,
    let found :=
      Some (Ok (Some (mkPath [sourceCoordinates g !! k] 0
                        (if hasEdgeDataReducer then Some [] else None))),
            g3,
            match onNodeExpanded searchOptions with
            | Some _ => [(k, 0)]
            | None => []
            end) in
    findPathFromVertexKeys distance compactNode hasEdgeDataReducer
      (S fuel) k k searchOptions g = found /\
    forall a b,
      _resolveVertexKey g (roundCoord a (toleranceOf options))
        (keyOf defaultKey options) (toleranceOf options) = Ok k ->
      _resolveVertexKey g (roundCoord b (toleranceOf options))
        (keyOf defaultKey options) (toleranceOf options) = Ok k ->
      findPath defaultKey distance compactNode options hasEdgeDataReducer
        (S fuel) a b searchOptions g = found.
Proof.
  intros Hv Hcb Hfits.
  destruct (compactedVertices g !! k) as [row|] eqn:Hrow.
  - exists g.
    apply (same_endpoint_given defaultKey distance compactNode options hasEdgeDataReducer
             g g g k None searchOptions fuel Hv Hcb).
    + apply createPhantom_present. rewrite Hrow. eauto.
    + reflexivity.
  - destruct (createPhantom_fits compactNode hasEdgeDataReducer k g Hrow (Hfits eq_refl))
      as (g1 & Hcreate & _ & HV & HC & HE).
    destruct (removePhantom_fits hasEdgeDataReducer k g1 HV HC HE) as (g3 & Hremove).
    exists g3.
    exact (same_endpoint_given defaultKey distance compactNode options hasEdgeDataReducer
             g g1 g3 k (Some k) searchOptions fuel Hv Hcb Hcreate Hremove).
Qed.
End SameEndpoint.

(** ** What the removal leaves behind *)

Section Residue.
Context {EdgeData : Type}.
Variable compactNode :
  Key -> Vertices -> Vertices -> Coordinates ->
  gmap Key (gmap Key (option EdgeData)) -> CompactedNode EdgeData.
Variable hasEdgeDataReducer : bool.
Local Abbreviation Graph := (PathFinderGraph EdgeData).

Definition rowWithin (g : Graph) (n : Key) (keys : gset Key) : Prop :=
  forall row, compactedVertices g !! n = Some row -> dom row ⊆ keys ∪ {[n]}.

Lemma registerIncoming_vertices n phantom neighbor incoming (g g' : Graph) r :
  registerIncoming n phantom (neighbor, incoming) g = (r, g') ->
  compactedVertices g' = compactedVertices g \/
  compactedVertices g' = setCell neighbor n incoming (compactedVertices g) /\
  is_Some (compactedVertices g !! neighbor).
Proof.
  rewrite registerIncoming_eq.
  destruct (compactedVertices g !! neighbor) as [row|]; [|intros [= <- <-]; now left].
  destruct (incomingCoordinates phantom !! neighbor); intros [= <- <-]; right; eauto.
Qed.

Lemma registerAll_rowWithin n phantom l keys (g g' : Graph) r :
  rowWithin g n keys ->
  mforEach (registerIncoming n phantom) l g = (r, g') ->
  rowWithin g' n keys.
Proof.
  intros Hg Hrun.
  eapply (mforEach_invariant (fun h => rowWithin h n keys)); [|exact Hg|exact Hrun].
  intros [neighbor incoming] h r' h' _ Hh Hb. unfold rowWithin in *.
  destruct (registerIncoming_vertices _ _ _ _ _ _ _ Hb) as [->|[-> [old Hold]]];
    [exact Hh|].
  intros row. unfold setCell. rewrite Hold. cbn.
  destruct (decide (neighbor = n)) as [->|Hne].
  - rewrite lookup_insert_eq. intros [= <-]. rewrite dom_insert_L.
    specialize (Hh old Hold). set_solver.
  - rewrite lookup_insert_ne by exact Hne. apply Hh.
Qed.

Lemma registerAll_vertices_other n phantom l u (g g' : Graph) r :
  u ∉ l.*1 ->
  mforEach (registerIncoming n phantom) l g = (r, g') ->
  compactedVertices g' !! u = compactedVertices g !! u.
Proof.
  intros Hnot Hrun.
  eapply (mforEach_invariant
            (fun h => compactedVertices h !! u = compactedVertices g !! u));
    [|reflexivity|exact Hrun].
  intros [neighbor incoming] h r' h' Hin Hh Hb. rewrite <- Hh.
  destruct (registerIncoming_vertices _ _ _ _ _ _ _ Hb) as [->|[-> _]]; [reflexivity|].
  unfold setCell. rewrite lookup_insert_ne; [reflexivity|].
  intros ->. apply Hnot. apply list_elem_of_fmap. exists (u, incoming). auto.
Qed.

Lemma registerAll_vertices_cell n phantom l (g g' : Graph) u w :
  NoDup l.*1 ->
  mforEach (registerIncoming n phantom) l g = (Ok tt, g') ->
  (u, w) ∈ l ->
  cellOf g' u n = Some w.
Proof.
  revert g. induction l as [|entry l IH]; intros g Hnodup Hrun Hin.
  - apply elem_of_nil in Hin. contradiction.
  - cbn in Hnodup. apply NoDup_cons in Hnodup as [Hfresh Hnodup].
    cbn [mforEach] in Hrun. unfold mbind at 1 in Hrun.
    destruct (registerIncoming n phantom entry g) as [[[]|e] g1] eqn:Hb; [|discriminate].
    apply elem_of_cons in Hin as [<-|Hin]; [|exact (IH g1 Hnodup Hrun Hin)].
    unfold cellOf.
    rewrite (registerAll_vertices_other n phantom l u g1 g' _ Hfresh Hrun).
    rewrite registerIncoming_eq in Hb.
    destruct (compactedVertices g !! u); [|discriminate].
    destruct (incomingCoordinates phantom !! u); [|discriminate].
    injection Hb as <-. cbn. apply setCell_lookup_eq.
Qed.

Lemma unlink_other {V} (table : Graph -> gmap Key (gmap Key V)) update
    (P : Graph -> Prop) n (g g' : Graph) r :
  (forall f h r' h', update f h = (r', h') -> P h -> P h') ->
  P g -> unlink table update n g = (r, g') -> P g'.
Proof.
  intros Hupdate Hg. unfold unlink, mbind at 1, mget.
  destruct (table g !! n) as [own|]; [|intros [= <- <-]; exact Hg].
  apply mforEach_invariant; [|exact Hg].
  intros neighbor h r' h' _ Hh. unfold mbind, mget.
  destruct (table h !! neighbor) as [row|]; [|intros [= <- <-]; exact Hh].
  intros Hb. exact (Hupdate _ _ _ _ Hb Hh).
Qed.

Lemma unlink_vertices_cell n u w (g g' : Graph) r :
  (forall row, compactedVertices g !! n = Some row -> u ∉ dom row) ->
  cellOf g u n = Some w ->
  unlink compactedVertices update_compactedVertices n g = (r, g') ->
  cellOf g' u n = Some w.
Proof.
  intros Hrow Hcell. unfold unlink, mbind at 1, mget.
  destruct (compactedVertices g !! n) as [own|] eqn:Hown;
    [|intros [= <- <-]; exact Hcell].
  intros Hrun.
  eapply (mforEach_invariant (fun h => cellOf h u n = Some w)); [|exact Hcell|exact Hrun].
  intros neighbor h r' h' Hin Hh. unfold mbind, mget.
  destruct (compactedVertices h !! neighbor) as [row|]; [|intros [= <- <-]; exact Hh].
  intros [= <- <-]. unfold cellOf in *. cbn.
  rewrite lookup_insert_ne; [exact Hh|].
  intros ->. apply (Hrow own eq_refl).
  apply list_elem_of_fmap in Hin as ([k cell] & -> & Hin).
  apply elem_of_map_to_list in Hin. apply elem_of_dom. eauto.
Qed.

(** A neighbour the compacted node of [n] reaches [n] from, but which [n]
    does not reach, keeps its edge to [n] after the removal: the removal
    walks the rows of the neighbours [n] reaches. *)
Lemma incoming_only_neighbour_kept (g g1 g3 : Graph) (n u : Key) (w : Q) :
  n <> "" -> u <> n ->
  incomingEdges (phantomOf compactNode n g) !! u = Some w ->
  edges (phantomOf compactNode n g) !! u = None ->
  _createPhantom compactNode hasEdgeDataReducer n g = (Ok (Some n), g1) ->
  _removePhantom hasEdgeDataReducer (Some n) g1 = (Ok tt, g3) ->
  cellOf g3 u n = Some w.
Proof.
  intros Hn Hu Hin Hout Hcreate Hremove.
  rewrite createPhantom_eq in Hcreate.
  destruct (decide _) as [|_]; [discriminate|].
  destruct (mforEach _ _ _) as [[[]|e] h] eqn:Hrun; [|discriminate].
  injection Hcreate as ->.
  assert (Hcell : cellOf g1 u n = Some w).
  { eapply registerAll_vertices_cell; [apply NoDup_fst_map_to_list|exact Hrun|].
    now apply elem_of_map_to_list. }
  assert (Hrow : rowWithin g1 n (dom (edges (phantomOf compactNode n g)))).
  { eapply registerAll_rowWithin; [|exact Hrun].
    intros row. cbn. rewrite lookup_insert_eq. intros [= <-]. set_solver. }
  unfold _removePhantom in Hremove.
  assert (Hfalsy : falsy (Some n) = false).
  { cbn. now apply bool_decide_eq_false. }
  rewrite Hfalsy in Hremove.
  unfold mbind at 1 in Hremove.
  destruct (unlink compactedVertices update_compactedVertices n g1)
    as [[[]|e] g2] eqn:H1; [|discriminate].
  apply (unlink_vertices_cell n u w) in H1; [|
    intros row Hr Hdom; apply (Hrow row Hr) in Hdom;
    apply elem_of_union in Hdom as [Hdom|Hdom];
    [apply elem_of_dom in Hdom as [? Hdom]; congruence | set_solver] | exact Hcell].
  unfold mbind at 1 in Hremove.
  destruct (unlink compactedCoordinates update_compactedCoordinates n g2)
    as [[[]|e] g2'] eqn:H2; [|discriminate].
  apply (unlink_other _ _ (fun h => cellOf h u n = Some w)) in H2;
    [|intros f h r' h' [= <- <-] Hh; exact Hh | exact H1].
  unfold mbind at 1 in Hremove.
  destruct hasEdgeDataReducer.
  - destruct (unlink compactedEdges update_compactedEdges n g2')
      as [[[]|e] g2''] eqn:H3; [|discriminate].
    apply (unlink_other _ _ (fun h => cellOf h u n = Some w)) in H3;
      [|intros f h r' h' [= <- <-] Hh; exact Hh | exact H2].
    injection Hremove as <-. unfold cellOf in *. cbn.
    now rewrite lookup_delete_ne by congruence.
  - injection Hremove as <-. unfold cellOf in *. cbn.
    now rewrite lookup_delete_ne by congruence.
Qed.
End Residue.

(** ** When the removal restores the graph *)

(** What registering edges to [n] on the rows [keys] does to a table. *)
Definition Touched {V} (n : Key) (keys : list Key) (T T' : gmap Key (gmap Key V)) : Prop :=
  forall k,
    if decide (k ∈ keys)
    then exists v row, T !! k = Some row /\ T' !! k = Some (<[n := v]> row)
    else T' !! k = T !! k.

Lemma Touched_nil {V} n (T : gmap Key (gmap Key V)) : Touched n [] T T.
Proof.
  intros k. destruct (decide (k ∈ [])) as [Hin|_]; [|reflexivity].
  apply elem_of_nil in Hin. contradiction.
Qed.

Lemma Touched_cons {V} n a (v : V) row keys (T T' : gmap Key (gmap Key V)) :
  a ∉ keys -> T !! a = Some row ->
  Touched n keys (setCell a n v T) T' ->
  Touched n (a :: keys) T T'.
Proof.
  intros Hfresh Hrow Hrest k. specialize (Hrest k).
  destruct (decide (k = a)) as [->|Hne].
  - rewrite decide_True by left.
    rewrite decide_False in Hrest by exact Hfresh.
    exists v, row. split; [exact Hrow|]. rewrite Hrest.
    unfold setCell. rewrite lookup_insert_eq, Hrow. reflexivity.
  - unfold setCell in Hrest. rewrite lookup_insert_ne in Hrest by congruence.
    destruct (decide (k ∈ keys)) as [Hin|Hout].
    + rewrite decide_True by (now right). exact Hrest.
    + rewrite decide_False; [exact Hrest|].
      intros Hin. apply elem_of_cons in Hin as [?|?]; contradiction.
Qed.

Lemma ensureRow_present {V} a (T : gmap Key (gmap Key V)) :
  a ∈ dom T -> ensureRow a T = T.
Proof.
  intros Ha. apply elem_of_dom in Ha as [row Hrow].
  unfold ensureRow. now rewrite Hrow.
Qed.

Section RoundTrip.
Context {EdgeData : Type}.
Variable compactNode :
  Key -> Vertices -> Vertices -> Coordinates ->
  gmap Key (gmap Key (option EdgeData)) -> CompactedNode EdgeData.
Local Abbreviation Graph := (PathFinderGraph EdgeData).

Lemma registerAll_touched n phantom l (h : Graph) :
  NoDup l.*1 ->
  (forall entry, entry ∈ l ->
     entry.1 <> n /\
     entry.1 ∈ dom (compactedVertices h) /\
     entry.1 ∈ dom (compactedCoordinates h) /\
     entry.1 ∈ dom (compactedEdges h) /\
     entry.1 ∈ dom (incomingCoordinates phantom)) ->
  exists h',
    mforEach (registerIncoming n phantom) l h = (Ok tt, h') /\
    vertices h' = vertices h /\ edgeData h' = edgeData h /\
    sourceCoordinates h' = sourceCoordinates h /\
    Touched n l.*1 (compactedVertices h) (compactedVertices h') /\
    Touched n l.*1 (compactedCoordinates h) (compactedCoordinates h') /\
    Touched n l.*1 (compactedEdges h) (compactedEdges h').
Proof.
  revert h. induction l as [|[a w] l IH]; intros h Hnodup Hall.
  - exists h. split; [reflexivity|]. repeat split; apply Touched_nil.
  - cbn in Hnodup. apply NoDup_cons in Hnodup as [Hfresh Hnodup].
    destruct (Hall (a, w) (list_elem_of_here _ _)) as (Hne & HV & HC & HE & HR).
    cbn in Hne, HV, HC, HE, HR.
    pose proof HV as HV'. pose proof HC as HC'. pose proof HE as HE'.
    apply elem_of_dom in HV' as [rowV HrowV].
    apply elem_of_dom in HC' as [rowC HrowC].
    apply elem_of_dom in HE' as [rowE HrowE].
    apply elem_of_dom in HR as [reversed Hreversed].
    pose proof (registerIncoming_eq n phantom a w h) as Hstep.
    rewrite HrowV, Hreversed in Hstep.
    rewrite (ensureRow_present a _ HC), (ensureRow_present a _ HE) in Hstep.
    match type of Hstep with _ = (Ok tt, ?g1) => set (h1 := g1) in Hstep end.
    destruct (IH h1 Hnodup) as (h' & Hrun & Hv & He & Hs & HTV & HTC & HTE).
    { intros entry Hin.
      destruct (Hall entry (list_elem_of_further _ _ _ Hin)) as (H1 & H2 & H3 & H4 & H5).
      split; [exact H1|]. subst h1. cbn. rewrite !dom_setCell.
      repeat split; try assumption; set_solver. }
    exists h'. split.
    { cbn [mforEach]. unfold mbind at 1. rewrite Hstep. exact Hrun. }
    subst h1. cbn in Hv, He, Hs, HTV, HTC, HTE.
    repeat split; try assumption; cbn [fmap list_fmap fst].
    + eapply Touched_cons; eassumption.
    + eapply Touched_cons; eassumption.
    + eapply Touched_cons; eassumption.
Qed.

(** [unlink] in closed form: the rows named by the row of [n] lose their
    entry for [n]. *)
Section UnlinkLookup.
Context {V : Type}.
Variable table : Graph -> gmap Key (gmap Key V).
Variable update : (gmap Key (gmap Key V) -> gmap Key (gmap Key V)) -> M EdgeData unit.
Variable Kept : Graph -> Graph -> Prop.
Hypothesis Kept_refl : forall g, Kept g g.
Hypothesis Kept_trans : forall g1 g2 g3, Kept g1 g2 -> Kept g2 g3 -> Kept g1 g3.
Hypothesis update_spec :
  forall f g, exists g', update f g = (Ok tt, g') /\ table g' = f (table g) /\ Kept g g'.

Lemma unlink_rows_lookup n (l : list Key) (g : Graph) :
  NoDup l ->
  (forall neighbor, neighbor ∈ l -> neighbor ∈ dom (table g)) ->
  exists g',
    mforEach (fun neighbor =>
                mbind mget (fun h =>
                  match table h !! neighbor with
                  | None => mthrow TypeError
                  | Some row => update (insert neighbor (delete n row))
                  end)) l g = (Ok tt, g') /\
    Kept g g' /\
    forall k, table g' !! k =
              if decide (k ∈ l) then delete n <$> table g !! k else table g !! k.
Proof.
  revert g. induction l as [|a l IH]; intros g Hnodup Hall.
  - exists g. split; [reflexivity|]. split; [apply Kept_refl|].
    intros k. rewrite decide_False; [reflexivity|]. apply not_elem_of_nil.
  - apply NoDup_cons in Hnodup as [Hfresh Hnodup].
    assert (Hrow : a ∈ dom (table g)) by (apply Hall; left).
    apply elem_of_dom in Hrow as [row Hrow].
    destruct (update_spec (insert a (delete n row)) g) as (g1 & Hupd & Htable & Hkept).
    destruct (IH g1 Hnodup) as (g' & Hrun & Hkept' & Hlookup).
    { intros other Hother. rewrite Htable, dom_insert_L.
      apply elem_of_union. right. apply Hall. now right. }
    exists g'. split.
    { cbn [mforEach]. unfold mbind at 1. unfold mbind at 1, mget.
      rewrite Hrow, Hupd. exact Hrun. }
    split; [eapply Kept_trans; eassumption|].
    intros k. rewrite Hlookup, Htable.
    destruct (decide (k = a)) as [->|Hne].
    + rewrite decide_False by exact Hfresh. rewrite decide_True by left.
      rewrite lookup_insert_eq, Hrow. reflexivity.
    + rewrite lookup_insert_ne by congruence.
      destruct (decide (k ∈ l)) as [Hin|Hout].
      * rewrite decide_True by (now right). reflexivity.
      * rewrite decide_False; [reflexivity|].
        intros Hin. apply elem_of_cons in Hin as [?|?]; contradiction.
Qed.

Lemma unlink_lookup n own (g : Graph) :
  table g !! n = Some own ->
  dom own ⊆ dom (table g) ->
  exists g',
    unlink table update n g = (Ok tt, g') /\ Kept g g' /\
    forall k, table g' !! k =
              if decide (k ∈ dom own) then delete n <$> table g !! k else table g !! k.
Proof.
  intros Hown Hsub. unfold unlink, mbind at 1, mget. rewrite Hown.
  destruct (unlink_rows_lookup n (map_to_list own).*1 g) as (g' & Hrun & Hkept & Hlookup).
  { apply NoDup_fst_map_to_list. }
  { intros neighbor Hneighbor. apply Hsub. apply elem_of_dom.
    apply list_elem_of_fmap in Hneighbor as ([k row] & -> & Hin).
    apply elem_of_map_to_list in Hin. eauto. }
  exists g'. split; [exact Hrun|]. split; [exact Hkept|].
  intros k. rewrite Hlookup.
  destruct (decide (k ∈ (map_to_list own).*1)) as [Hin|Hout].
  - rewrite decide_True; [reflexivity|].
    apply list_elem_of_fmap in Hin as ([k' row] & -> & Hin).
    apply elem_of_map_to_list in Hin. apply elem_of_dom. eauto.
  - rewrite decide_False; [reflexivity|].
    intros Hin. apply Hout. apply elem_of_dom in Hin as [cell Hcell].
    apply list_elem_of_fmap. exists (k, cell). split; [reflexivity|].
    now apply elem_of_map_to_list.
Qed.
End UnlinkLookup.

(** A table after the phantom's rows were written, the incoming edges
    registered, the rows named by the phantom's own row unlinked and the
    phantom's row deleted, is the table before. *)
Lemma table_restored {V} n (own : gmap Key V) (keys : list Key)
    (T T1 T2 : gmap Key (gmap Key V)) :
  T !! n = None ->
  (forall k row, T !! k = Some row -> row !! n = None) ->
  n ∉ keys ->
  (forall k, k ∈ keys -> k ∈ dom own) ->
  Touched n keys (<[n := own]> T) T1 ->
  (forall k, T2 !! k =
             if decide (k ∈ dom own) then delete n <$> T1 !! k else T1 !! k) ->
  delete n T2 = T.
Proof.
  intros Hfresh Hcells Hn Hsub Htouched Hunlinked.
  apply map_eq. intros k.
  destruct (decide (k = n)) as [->|Hne].
  { rewrite lookup_delete_eq. now rewrite Hfresh. }
  rewrite lookup_delete_ne by congruence. rewrite Hunlinked.
  specialize (Htouched k). rewrite lookup_insert_ne in Htouched by congruence.
  destruct (decide (k ∈ keys)) as [Hin|Hout].
  - destruct Htouched as (v & row & Hrow & ->).
    rewrite decide_True by (now apply Hsub). cbn.
    rewrite delete_insert_eq. rewrite Hrow. f_equal.
    apply delete_id. exact (Hcells k row Hrow).
  - rewrite Htouched.
    destruct (decide (k ∈ dom own)) as [_|_]; [|reflexivity].
    destruct (T !! k) as [row|] eqn:Hrow; [|reflexivity].
    cbn. f_equal. apply delete_id. exact (Hcells k row Hrow).
Qed.

Lemma Touched_is_Some {V} n keys (T T' : gmap Key (gmap Key V)) k :
  Touched n keys T T' -> is_Some (T !! k) -> is_Some (T' !! k).
Proof.
  intros Ht Hk. specialize (Ht k). destruct (decide (k ∈ keys)).
  - destruct Ht as (v & row & _ & ->). eauto.
  - now rewrite Ht.
Qed.

Lemma Touched_outside {V} n keys (T T' : gmap Key (gmap Key V)) k :
  Touched n keys T T' -> k ∉ keys -> T' !! k = T !! k.
Proof. intros Ht Hk. specialize (Ht k). now rewrite decide_False in Ht by exact Hk. Qed.

(** X3. With an edge-data reducer configured, injecting a phantom that no
    table mentions, whose incoming neighbours are among its outgoing
    ones, and removing it again gives the graph back. *)
Theorem phantom_round_trip n (g : Graph) :
  n <> "" ->
  phantomFresh n g ->
  phantomSymmetric compactNode n g ->
  exists g1,
    _createPhantom compactNode true n g = (Ok (Some n), g1) /\
    _removePhantom true (Some n) g1 = (Ok tt, g).
Proof.
  intros Hn (HfV & HfC & HfE & HcV & HcC & HcE)
         (Hrev & HinV & HinC & HinE & HsubV & HsubC & HsubE).
  set (phantom := phantomOf compactNode n g) in *.
  set (l := map_to_list (incomingEdges phantom)).
  assert (Hkeys : forall k, k ∈ l.*1 <-> k ∈ dom (incomingEdges phantom)).
  { intros k. unfold l. split.
    - intros Hin. apply list_elem_of_fmap in Hin as ([k' w] & -> & Hin).
      apply elem_of_map_to_list in Hin. apply elem_of_dom. eauto.
    - intros Hin. apply elem_of_dom in Hin as [w Hw].
      apply list_elem_of_fmap. exists (k, w). split; [reflexivity|].
      now apply elem_of_map_to_list. }
  assert (HnV : n ∉ dom (compactedVertices g)) by now apply not_elem_of_dom.
  assert (HnC : n ∉ dom (compactedCoordinates g)) by now apply not_elem_of_dom.
  assert (HnE : n ∉ dom (compactedEdges g)) by now apply not_elem_of_dom.
  assert (Hnl : n ∉ l.*1).
  { rewrite Hkeys. intros Hin. apply HnV. set_solver. }
  rewrite createPhantom_eq.
  rewrite decide_False by (rewrite HfV; intros [? ?]; discriminate).
  fold phantom. fold l.
  destruct (registerAll_touched n phantom l (withPhantomRows compactNode true n g))
    as (g1 & Hrun & Hv & He & Hs & HTV & HTC & HTE).
  { apply NoDup_fst_map_to_list. }
  { intros [k w] Hentry. cbn.
    assert (Hk : k ∈ dom (incomingEdges phantom)).
    { apply Hkeys. apply list_elem_of_fmap. exists (k, w). auto. }
    fold phantom. rewrite !dom_insert_L.
    split; [intros ->; apply HnV; set_solver|].
    repeat split; set_solver. }
  rewrite Hrun. exists g1. split; [reflexivity|].
  cbn in Hv, He, Hs, HTV, HTC, HTE. fold phantom in HTV, HTC, HTE.
  (* the removal *)
  unfold _removePhantom.
  assert (Hfalsy : falsy (Some n) = false) by (cbn; now apply bool_decide_eq_false).
  rewrite Hfalsy.
  (* compactedVertices *)
  assert (HownV : compactedVertices g1 !! n = Some (edges phantom)).
  { rewrite (Touched_outside _ _ _ _ _ HTV Hnl). apply lookup_insert_eq. }
  destruct (unlink_lookup compactedVertices update_compactedVertices
              (fun g g' => vertices g' = vertices g /\ edgeData g' = edgeData g /\
                           sourceCoordinates g' = sourceCoordinates g /\
                           compactedCoordinates g' = compactedCoordinates g /\
                           compactedEdges g' = compactedEdges g)
              ltac:(repeat split)
              ltac:(intros ? ? ? (?&?&?&?&?) (?&?&?&?&?); repeat split; congruence)
              ltac:(intros f h; eexists; repeat split)
              n (edges phantom) g1 HownV)
    as (g2 & Hrun2 & (K1 & K2 & K3 & K4 & K5) & HlookV).
  { intros k Hk. apply elem_of_dom. eapply Touched_is_Some; [exact HTV|].
    rewrite lookup_insert_ne by (intros ->; apply HnV; set_solver).
    apply elem_of_dom. set_solver. }
  unfold mbind at 1. rewrite Hrun2.
  (* compactedCoordinates *)
  assert (HownC : compactedCoordinates g2 !! n = Some (coordinates phantom)).
  { rewrite K4, (Touched_outside _ _ _ _ _ HTC Hnl). apply lookup_insert_eq. }
  destruct (unlink_lookup compactedCoordinates update_compactedCoordinates
              (fun g g' => vertices g' = vertices g /\ edgeData g' = edgeData g /\
                           sourceCoordinates g' = sourceCoordinates g /\
                           compactedVertices g' = compactedVertices g /\
                           compactedEdges g' = compactedEdges g)
              ltac:(repeat split)
              ltac:(intros ? ? ? (?&?&?&?&?) (?&?&?&?&?); repeat split; congruence)
              ltac:(intros f h; eexists; repeat split)
              n (coordinates phantom) g2 HownC)
    as (g3 & Hrun3 & (L1 & L2 & L3 & L4 & L5) & HlookC).
  { intros k Hk. rewrite K4. apply elem_of_dom. eapply Touched_is_Some; [exact HTC|].
    rewrite lookup_insert_ne by (intros ->; apply HnC; set_solver).
    apply elem_of_dom. set_solver. }
  unfold mbind at 1. rewrite Hrun3.
  (* compactedEdges *)
  assert (HownE : compactedEdges g3 !! n = Some (reducedEdges phantom)).
  { rewrite L5, K5, (Touched_outside _ _ _ _ _ HTE Hnl). apply lookup_insert_eq. }
  destruct (unlink_lookup compactedEdges update_compactedEdges
              (fun g g' => vertices g' = vertices g /\ edgeData g' = edgeData g /\
                           sourceCoordinates g' = sourceCoordinates g /\
                           compactedVertices g' = compactedVertices g /\
                           compactedCoordinates g' = compactedCoordinates g)
              ltac:(repeat split)
              ltac:(intros ? ? ? (?&?&?&?&?) (?&?&?&?&?); repeat split; congruence)
              ltac:(intros f h; eexists; repeat split)
              n (reducedEdges phantom) g3 HownE)
    as (g4 & Hrun4 & (M1 & M2 & M3 & M4 & M5) & HlookE).
  { intros k Hk. rewrite L5, K5. apply elem_of_dom. eapply Touched_is_Some; [exact HTE|].
    rewrite lookup_insert_ne by (intros ->; apply HnE; set_solver).
    apply elem_of_dom. set_solver. }
  unfold mbind at 1. rewrite Hrun4.
  (* the rows of the phantom *)
  cbv [mbind update_compactedVertices update_compactedCoordinates update_compactedEdges
       modify set_compactedVertices set_compactedCoordinates set_compactedEdges].
  cbn.
  f_equal. destruct g as [gv ged gsc gcv gcc gce]. cbn in *.
  f_equal; try congruence.
  - rewrite M4, L4.
    apply (table_restored n (edges phantom) l.*1 gcv (compactedVertices g1));
      try assumption.
    intros k Hk. apply Hkeys in Hk. set_solver.
  - rewrite M5.
    apply (table_restored n (coordinates phantom) l.*1 gcc (compactedCoordinates g1));
      try assumption.
    + intros k Hk. apply Hkeys in Hk. set_solver.
    + intros k. rewrite HlookC, K4. reflexivity.
  - apply (table_restored n (reducedEdges phantom) l.*1 gce (compactedEdges g1));
      try assumption.
    + intros k Hk. apply Hkeys in Hk. set_solver.
    + intros k. rewrite HlookE, L5, K5. reflexivity.
Qed.
End RoundTrip.

(** X1. When both endpoints are compacted vertices no phantom is
    injected, and whatever the call does (return a path, return absent,
    throw), the graph after it is the graph before it. *)
Theorem compacted_endpoints_keep_graph {EdgeData : Type}
    `{PQD : PriorityQueue Dijkstra.State Dijkstra.cost}
    `{PQA : PriorityQueue AStar.State AStar.estimate}
    distance compactNode hasEdgeDataReducer
    (g g' : PathFinderGraph EdgeData) fuel start finish searchOptions r made :
  is_Some (compactedVertices g !! start) ->
  is_Some (compactedVertices g !! finish) ->
  findPathFromVertexKeys distance compactNode hasEdgeDataReducer fuel start finish
    searchOptions g = Some (r, g', made) ->
  g' = g.
Proof.
  intros Hstart Hfinish. unfold findPathFromVertexKeys.
  destruct (decide _) as [_|_]; [|now intros [= <- <- <-]].
  rewrite (createPhantom_present compactNode hasEdgeDataReducer start g Hstart).
  rewrite (createPhantom_present compactNode hasEdgeDataReducer finish g Hfinish).
  destruct (runSearch distance fuel g start finish searchOptions)
    as [[searched made']|]; [|discriminate].
  cbn. now intros [= <- <- <-].
Qed.

(** ** Walks and their weight *)

Lemma replay_walk graph c0 pre from rest total ws bs t :
  replay graph None None c0 pre from rest = Some (total, ws, bs) ->
  last (from :: rest) = Some t ->
  Walk graph from rest t ws.
Proof.
  revert c0 pre from total ws bs.
  induction rest as [|to rest IH]; intros c0 pre from total ws bs H Hl; cbn in H.
  - injection H as <- <- <-. cbn in Hl. injection Hl as <-. constructor.
  - destruct (edgeWeight graph from to) as [w|] eqn:Hw; [|discriminate].
    cbn in H.
    destruct (replay graph None None (c0 + w + 0) (pre ++ [to]) to rest)
      as [[[t1 ws1] bs1]|] eqn:Hr; [|discriminate].
    injection H as <- <- <-.
    econstructor; [exact Hw|].
    eapply IH; [exact Hr|]. destruct rest; exact Hl.
Qed.

Lemma forEach_pure {A S} (f : S -> A -> S) (l : list A) (s : S) :
  forEach (fun s a => Ok (f s a)) l s = Ok (fold_left f l s).
Proof. revert s. induction l as [|a l IH]; intros s; cbn; [reflexivity | apply IH]. Qed.

Lemma improves_true_lt newCost c :
  improves newCost (Some c) = true -> newCost < c.
Proof. cbn. destruct (Qlt_le_dec newCost c); [auto | discriminate]. Qed.

Lemma improves_false_le newCost c :
  improves newCost (Some c) = false -> c <= newCost.
Proof. cbn. destruct (Qlt_le_dec newCost c); [discriminate | auto]. Qed.

Lemma stale_true cost known :
  stale cost known = true -> exists c, known = Some c /\ c < cost.
Proof.
  destruct known as [c|]; cbn; [|discriminate].
  destruct (Qlt_le_dec c cost); [eauto | discriminate].
Qed.

(** ** Counting *)

Lemma filter_length_mono {A} (P P' : A -> bool) (l : list A) :
  (forall x, x ∈ l -> P' x = true -> P x = true) ->
  (length (List.filter P' l) <= length (List.filter P l))%nat.
Proof.
  induction l as [|a l IH]; intros H; cbn; [lia|].
  assert (IH' := IH (fun x Hx => H x (list_elem_of_further _ _ _ Hx))).
  destruct (P' a) eqn:Ha.
  - rewrite (H a (list_elem_of_here _ _) Ha). cbn. lia.
  - destruct (P a); cbn; lia.
Qed.

Lemma filter_length_strict {A} (P P' : A -> bool) (l : list A) (a : A) :
  (forall x, x ∈ l -> P' x = true -> P x = true) ->
  a ∈ l -> P a = true -> P' a = false ->
  (length (List.filter P' l) < length (List.filter P l))%nat.
Proof.
  induction l as [|b l IH]; intros H Hin Ha Ha'.
  - apply elem_of_nil in Hin. contradiction.
  - assert (Hl : forall x, x ∈ l -> P' x = true -> P x = true)
      by (intros x Hx; apply H; now right).
    cbn. apply elem_of_cons in Hin as [<-|Hin].
    + rewrite Ha, Ha'. cbn. pose proof (filter_length_mono P P' l Hl). lia.
    + specialize (IH Hl Hin Ha Ha').
      destruct (P' b) eqn:Hb.
      * rewrite (H b (list_elem_of_here _ _) Hb). cbn. lia.
      * destruct (P b); cbn; lia.
Qed.

Lemma sequences_complete keys n p :
  (length p <= n)%nat -> (forall k, k ∈ p -> k ∈ keys) -> p ∈ sequences keys n.
Proof.
  revert p. induction n as [|n IH]; intros p Hlen Hin.
  - destruct p; [apply list_elem_of_here | cbn in Hlen; lia].
  - destruct p as [|k p]; [apply list_elem_of_here|].
    cbn. right. apply list_elem_of_In. apply in_flat_map.
    exists k. split.
    + apply list_elem_of_In. apply Hin. left.
    + apply in_map. apply list_elem_of_In. apply IH.
      * cbn in Hlen. lia.
      * intros k' Hk'. apply Hin. now right.
Qed.

Lemma NoDup_within_length (keys p : list Key) :
  NoDup p -> (forall k, k ∈ p -> k ∈ keys) -> (length p <= length keys)%nat.
Proof.
  intros Hnd Hin. apply NoDup_ListNoDup in Hnd.
  apply (List.NoDup_incl_length Hnd).
  intros k Hk. apply list_elem_of_In. apply Hin. now apply list_elem_of_In.
Qed.

(** ** Optimality and termination of the shared loop

    No bias, no guard, positive weights, every edge leading to a key of
    the graph, and an estimate [h] that is non-negative and never exceeds
    the weight of a walk to the goal (0 for Dijkstra).  Every queue entry
    replays a walk from the start without a repeated key ([EntryOk]); a
    key with a best-known cost still has a queue entry no more expensive,
    or has had its neighbours relaxed from that cost ([Front]); so when
    the goal is popped every walk to it weighs at least the popped cost.
    A turn takes an entry out of the queue, and a push records a cost
    that improves on one more of the finitely many key sequences without
    repetition ([measure]); so the loop ends. *)

Section CoreOptimal.
Context {Entry : Type}.
Variables (e_cost : Entry -> Q) (e_path : Entry -> list Key) (e_node : Entry -> Key).
Variable e_prio : Entry -> Q.
Context `{PQ : PriorityQueue Entry e_prio}.
Variable make : Q -> list Key -> Key -> Entry.
Hypothesis make_cost : forall c p n, e_cost (make c p n) = c.
Hypothesis make_path : forall c p n, e_path (make c p n) = p.
Hypothesis make_node : forall c p n, e_node (make c p n) = n.
Variable h : Key -> Q.
Hypothesis make_prio : forall c p n, e_prio (make c p n) == c + h n.
Variable lazy : bool.
Variable callback : option (Expansion -> Result unit).
Hypothesis callback_returns : forall f x, callback = Some f -> f x = Ok tt.
Variable graph : Vertices.
Variables start goal : Key.
Hypothesis positive : forall n m w, edgeWeight graph n m = Some w -> 0 < w.
Hypothesis closed : forall n m w, edgeWeight graph n m = Some w -> is_Some (graph !! m).
Hypothesis start_vertex : is_Some (graph !! start).
Hypothesis h_nonneg : forall n, 0 <= h n.
Hypothesis h_admissible : forall n rest c, Walk graph n rest goal c -> h n <= c.

Local Abbreviation relax := (core_relax e_cost e_path e_node e_prio make None None).
Local Abbreviation iteration :=
  (core_iteration e_cost e_path e_node e_prio make lazy None None callback graph goal).
Local Abbreviation SoundE := (Sound e_cost e_path e_node None None graph start).

Definition relaxPure (state : Entry) (acc : gmap Key Q * pq) (nw : Key * Q)
    : gmap Key Q * pq :=
  let newCost := e_cost state + nw.2 + 0 in
  if improves newCost (acc.1 !! nw.1) then
    (<[nw.1 := newCost]> acc.1,
     pq_push acc.2 (make newCost (e_path state ++ [nw.1]) nw.1))
  else acc.

Lemma relax_pure state l acc :
  forEach (relax state) l acc = Ok (fold_left (relaxPure state) l acc).
Proof.
  revert acc. induction l as [|[n w] l IH]; intros acc; cbn; [reflexivity|].
  unfold relaxPure at 2. cbn.
  destruct (improves (e_cost state + w + 0) (acc.1 !! n)); cbn; apply IH.
Qed.

(** The best-known costs only go down. *)
Definition Mono (c c' : gmap Key Q) : Prop :=
  forall k x, c !! k = Some x -> exists y, c' !! k = Some y /\ y <= x.

Lemma Mono_refl c : Mono c c.
Proof. intros k x Hk. exists x. split; [exact Hk | lra]. Qed.

Lemma Mono_trans c1 c2 c3 : Mono c1 c2 -> Mono c2 c3 -> Mono c1 c3.
Proof.
  intros H12 H23 k x Hk. destruct (H12 k x Hk) as (y & Hy & Hyx).
  destruct (H23 k y Hy) as (z & Hz & Hzy). exists z. split; [exact Hz | lra].
Qed.

Lemma Mono_insert c n v :
  improves v (c !! n) = true -> Mono c (<[n := v]> c).
Proof.
  intros Himp k x Hk. destruct (decide (n = k)) as [->|Hne].
  - rewrite lookup_insert_eq. exists v. split; [reflexivity|].
    rewrite Hk in Himp. apply improves_true_lt in Himp. lra.
  - rewrite lookup_insert_ne by exact Hne. exists x. split; [exact Hk | lra].
Qed.

(** The cost [replay] gives a key sequence, and whether pushing the
    sequence would still improve on the best-known cost of its end. *)
Definition pathCost (p : list Key) : option Q :=
  match p with
  | [] => None
  | k :: rest =>
      match replay graph None None 0 [k] k rest with
      | Some (c, _, _) => Some c
      | None => None
      end
  end.

Definition fresh (c : gmap Key Q) (p : list Key) : bool :=
  match pathCost p, last p with
  | Some x, Some m => improves x (c !! m)
  | _, _ => false
  end.

Variable candidates : list (list Key).
Hypothesis candidates_complete :
  forall p, NoDup p -> (forall k, k ∈ p -> is_Some (graph !! k)) -> p ∈ candidates.

Definition pending (c : gmap Key Q) : nat :=
  length (List.filter (fresh c) candidates).

Definition measure (c : gmap Key Q) (q : pq) : nat :=
  (length (pq_items q) + 2 * pending c)%nat.

Lemma fresh_mono c c' p : Mono c c' -> fresh c' p = true -> fresh c p = true.
Proof.
  unfold fresh. intros Hm.
  destruct (pathCost p) as [x|]; [|auto]. destruct (last p) as [m|]; [|auto].
  destruct (c !! m) as [y|] eqn:Hy; [|reflexivity].
  destruct (Hm m y Hy) as (z & -> & Hzy). intros Himp.
  apply improves_true_lt in Himp. cbn.
  destruct (Qlt_le_dec x y); [reflexivity | lra].
Qed.

Lemma pending_mono c c' : Mono c c' -> (pending c' <= pending c)%nat.
Proof.
  intros Hm. apply filter_length_mono. intros p _. now apply fresh_mono.
Qed.

(** What holds of every queue entry. *)
Definition EntryOk (c : gmap Key Q) (e : Entry) : Prop :=
  SoundE e /\
  e_prio e == e_cost e + h (e_node e) /\
  NoDup (e_path e) /\
  forall k, k ∈ e_path e ->
    is_Some (graph !! k) /\ exists y, c !! k = Some y /\ y <= e_cost e.

Lemma EntryOk_mono c c' e : Mono c c' -> EntryOk c e -> EntryOk c' e.
Proof.
  intros Hm (Hs & Hp & Hn & Hk). repeat split; try assumption.
  - now apply Hk.
  - destruct (Hk k H) as (_ & y & Hy & Hle).
    destruct (Hm k y Hy) as (z & Hz & Hzy). exists z. split; [exact Hz | lra].
Qed.

Lemma EntryOk_node c e : EntryOk c e -> e_node e ∈ e_path e.
Proof.
  intros ((rest & ws & bs & Hp & Hl & _) & _).
  apply last_Some in Hl as (l' & ->). apply elem_of_app. right. apply list_elem_of_here.
Qed.

Lemma EntryOk_pathCost c e : EntryOk c e -> pathCost (e_path e) = Some (e_cost e).
Proof.
  intros ((rest & ws & bs & Hp & Hl & Hr) & _).
  rewrite Hp. unfold pathCost. now rewrite Hr.
Qed.

(** The entry a relaxation pushes. *)
Lemma EntryOk_push c state nb n w :
  EntryOk c state ->
  graph !! e_node state = Some nb -> nb !! n = Some w ->
  improves (e_cost state + w + 0) (c !! n) = true ->
  EntryOk (<[n := e_cost state + w + 0]> c)
    (make (e_cost state + w + 0) (e_path state ++ [n]) n) /\
  n ∉ e_path state.
Proof.
  intros Hstate Hnb Hw Himp.
  assert (Hedge : edgeWeight graph (e_node state) n = Some w).
  { unfold edgeWeight. rewrite Hnb. exact Hw. }
  pose proof (positive _ _ _ Hedge) as Hpos.
  assert (Hfresh : n ∉ e_path state).
  { intros Hin. destruct Hstate as (_ & _ & _ & Hk).
    destruct (Hk n Hin) as (_ & y & Hy & Hle). rewrite Hy in Himp.
    apply improves_true_lt in Himp. lra. }
  split; [|exact Hfresh].
  pose proof (Mono_insert c n _ Himp) as Hm.
  destruct (EntryOk_mono _ _ _ Hm Hstate) as (Hs & Hp & Hn & Hk).
  repeat split.
  - destruct Hs as (rest & ws & bs & Hpath & Hl & Hr).
    rewrite Hpath in Hl.
    destruct (replay_snoc graph None None 0 [start] start rest _ ws bs
                (e_node state) n w 0 Hr Hl Hedge eq_refl eq_refl) as (ws' & bs' & Hr').
    exists (rest ++ [n]), ws', bs'.
    rewrite make_path, make_node, make_cost, Hpath. repeat split.
    + change (start :: rest ++ [n]) with ((start :: rest) ++ [n]). apply last_snoc.
    + exact Hr'.
  - rewrite make_prio, make_cost, make_node. reflexivity.
  - rewrite make_path. apply NoDup_app. repeat split; [exact Hn| |apply NoDup_singleton].
    intros k Hk1 Hk2. apply list_elem_of_singleton in Hk2. congruence.
  - rewrite make_path in H. apply elem_of_app in H as [H|H].
    + now apply Hk.
    + apply list_elem_of_singleton in H. subst k. exact (closed _ _ _ Hedge).
  - rewrite make_path in H. rewrite make_cost.
    apply elem_of_app in H as [H|H].
    + destruct (Hk k H) as (_ & y & Hy & Hle). exists y. split; [exact Hy | lra].
    + apply list_elem_of_singleton in H. subst k.
      rewrite lookup_insert_eq. eexists. split; [reflexivity | lra].
Qed.

Lemma pending_push c state nb n w :
  EntryOk c state ->
  graph !! e_node state = Some nb -> nb !! n = Some w ->
  improves (e_cost state + w + 0) (c !! n) = true ->
  (pending (<[n := (e_cost state + w + 0)%Q]> c) < pending c)%nat.
Proof.
  intros Hstate Hnb Hw Himp.
  destruct (EntryOk_push c state nb n w Hstate Hnb Hw Himp) as [Hnew _].
  pose proof (Mono_insert c n _ Himp) as Hm.
  apply (filter_length_strict _ _ _ (e_path state ++ [n])).
  - intros p _. now apply fresh_mono.
  - apply candidates_complete.
    + destruct Hnew as (_ & _ & Hn & _). now rewrite make_path in Hn.
    + intros k Hk. destruct Hnew as (_ & _ & _ & Hks).
      rewrite make_path in Hks. now apply Hks.
  - pose proof (EntryOk_pathCost _ _ Hnew) as Hc.
    rewrite make_path, make_cost in Hc.
    unfold fresh. rewrite Hc, last_snoc. exact Himp.
  - pose proof (EntryOk_pathCost _ _ Hnew) as Hc.
    rewrite make_path, make_cost in Hc.
    unfold fresh. rewrite Hc, last_snoc, lookup_insert_eq. cbn.
    destruct (Qlt_le_dec _ _); [lra | reflexivity].
Qed.

(** One relaxation, and all the relaxations of an expansion. *)
Definition Relaxed (state : Entry) (l : list (Key * Q))
    (acc acc' : gmap Key Q * pq) : Prop :=
  Mono acc.1 acc'.1 /\
  (forall e, e ∈ pq_items acc.2 -> e ∈ pq_items acc'.2) /\
  (forall n w, (n, w) ∈ l ->
     exists y, acc'.1 !! n = Some y /\ y <= e_cost state + w) /\
  (forall k, acc'.1 !! k = acc.1 !! k \/
     exists e, e ∈ pq_items acc'.2 /\ e_node e = k /\
       exists y, acc'.1 !! k = Some y /\ e_cost e <= y) /\
  Forall (EntryOk acc'.1) (pq_items acc'.2) /\
  (measure acc'.1 acc'.2 <= measure acc.1 acc.2)%nat.

Lemma relax_one state nb n w acc :
  graph !! e_node state = Some nb -> nb !! n = Some w ->
  EntryOk acc.1 state -> Forall (EntryOk acc.1) (pq_items acc.2) ->
  Relaxed state [(n, w)] acc (relaxPure state acc (n, w)).
Proof.
  intros Hnb Hw Hstate Hitems. unfold relaxPure. cbn [fst snd].
  destruct (improves (e_cost state + w + 0) (acc.1 !! n)) eqn:Himp.
  - pose proof (Mono_insert _ _ _ Himp) as Hm.
    destruct (EntryOk_push _ _ _ _ _ Hstate Hnb Hw Himp) as [Hnew _].
    pose proof (pending_push _ _ _ _ _ Hstate Hnb Hw Himp) as Hpend.
    repeat split; cbn [fst snd].
    + exact Hm.
    + intros e He. rewrite pq_push_items. now right.
    + intros n' w' Hin. apply list_elem_of_singleton in Hin. injection Hin as -> ->.
      rewrite lookup_insert_eq. eexists. split; [reflexivity | lra].
    + intros k. destruct (decide (n = k)) as [<-|Hne].
      * right. eexists. split; [rewrite pq_push_items; apply list_elem_of_here|].
        rewrite make_node, make_cost, lookup_insert_eq.
        split; [reflexivity|]. eexists. split; [reflexivity | lra].
      * left. now rewrite lookup_insert_ne.
    + rewrite pq_push_items. constructor; [exact Hnew|].
      eapply Forall_impl; [exact Hitems|]. intros e. now apply EntryOk_mono.
    + unfold measure. rewrite pq_push_items. cbn [length]. lia.
  - repeat split.
    + apply Mono_refl.
    + auto.
    + intros n' w' Hin. apply list_elem_of_singleton in Hin. injection Hin as -> ->.
      destruct (acc.1 !! n) as [y|]; [|discriminate].
      apply improves_false_le in Himp. exists y. split; [reflexivity | lra].
    + intros k. now left.
    + exact Hitems.
    + lia.
Qed.

Lemma relax_all state nb l acc :
  graph !! e_node state = Some nb ->
  (forall n w, (n, w) ∈ l -> nb !! n = Some w) ->
  EntryOk acc.1 state -> Forall (EntryOk acc.1) (pq_items acc.2) ->
  Relaxed state l acc (fold_left (relaxPure state) l acc).
Proof.
  intros Hnb. revert acc.
  induction l as [|[n w] l IH]; intros acc Hl Hstate Hitems; cbn [fold_left].
  - repeat split; auto using Mono_refl.
    + intros n w Hin. apply elem_of_nil in Hin. contradiction.
  - destruct (relax_one state nb n w acc Hnb (Hl n w (list_elem_of_here _ _))
                Hstate Hitems) as (Hm1 & Hp1 & Hs1 & Hc1 & Hi1 & Hmu1).
    set (acc1 := relaxPure state acc (n, w)) in *.
    destruct (IH acc1 (fun n' w' Hin => Hl n' w' (list_elem_of_further _ _ _ Hin))
                (EntryOk_mono _ _ _ Hm1 Hstate) Hi1)
      as (Hm2 & Hp2 & Hs2 & Hc2 & Hi2 & Hmu2).
    set (acc2 := fold_left (relaxPure state) l acc1) in *.
    repeat split.
    + eapply Mono_trans; eassumption.
    + auto.
    + intros n' w' Hin. apply elem_of_cons in Hin as [[= -> ->]|Hin].
      * destruct (Hs1 n w (list_elem_of_here _ _)) as (y & Hy & Hle).
        destruct (Hm2 n y Hy) as (z & Hz & Hzy). exists z. split; [exact Hz | lra].
      * now apply Hs2.
    + intros k. destruct (Hc2 k) as [Heq|Hwit]; [|now right].
      destruct (Hc1 k) as [Heq1|(e & He & Hn & y & Hy & Hle)].
      * left. congruence.
      * right. exists e. split; [now apply Hp2|]. split; [exact Hn|].
        exists y. split; [congruence | exact Hle].
    + exact Hi2.
    + lia.
Qed.

(** The frontier: a key with a best-known cost either still has a queue
    entry at most that expensive, or is not the goal and has had all its
    neighbours relaxed from that cost. *)
Definition Front (c : gmap Key Q) (items : list Entry) : Prop :=
  forall n x, c !! n = Some x ->
    (exists e, e ∈ items /\ e_node e = n /\ e_cost e <= x) \/
    (n <> goal /\
     forall m w, edgeWeight graph n m = Some w ->
       exists y, c !! m = Some y /\ y <= x + w).

Definition Inv (s : Search pq) : Prop :=
  Forall (EntryOk (costs s)) (pq_items (queue s)) /\
  (exists x, costs s !! start = Some x /\ x <= 0) /\
  Front (costs s) (pq_items (queue s)).

Lemma front_walk c items n rest t cw :
  Forall (EntryOk c) items -> Front c items ->
  Walk graph n rest t cw -> t = goal ->
  forall x, c !! n = Some x ->
  exists e, e ∈ items /\ e_prio e <= x + cw.
Proof.
  intros Hitems Hfront Hwalk.
  induction Hwalk as [n|n m rest t w c' Hedge Hwalk IH]; intros Ht x Hx.
  - destruct (Hfront n x Hx) as [(e & He & Hn & Hle)|[Hne _]]; [|congruence].
    exists e. split; [exact He|].
    rewrite Forall_forall in Hitems. destruct (Hitems e He) as (_ & Hp & _).
    pose proof (h_admissible goal [] 0 (walk_here graph goal)) as Hh.
    rewrite Hn, Ht in Hp. lra.
  - subst t.
    destruct (Hfront n x Hx) as [(e & He & Hn & Hle)|[_ Hsettled]].
    + exists e. split; [exact He|].
      rewrite Forall_forall in Hitems. destruct (Hitems e He) as (_ & Hp & _).
      pose proof (h_admissible n (m :: rest) (w + c')
                    (walk_step graph n m rest goal w c' Hedge Hwalk)) as Hh.
      rewrite Hn in Hp. lra.
    + destruct (Hsettled m w Hedge) as (y & Hy & Hle).
      destruct (IH eq_refl y Hy) as (e & He & Hp).
      exists e. split; [exact He | lra].
Qed.

Lemma pop_members (q rest : pq) (state : Entry) (e : Entry) :
  pq_items q ≡ₚ state :: pq_items rest ->
  e ∈ pq_items q -> e = state \/ e ∈ pq_items rest.
Proof. intros Hperm He. rewrite Hperm in He. now apply elem_of_cons in He. Qed.

Lemma iteration_continue s s' :
  Inv s -> iteration s = Continue s' ->
  Inv s' /\ (measure (costs s') (queue s') < measure (costs s) (queue s))%nat.
Proof.
  intros (Hitems & Hstart & Hfront). unfold core_iteration.
  pose proof (pq_pop_spec (queue s)) as Hpop.
  destruct (pq_pop (queue s)) as [[state rest]|]; [|discriminate].
  destruct Hpop as [Hperm _].
  assert (Hlen : length (pq_items (queue s)) = S (length (pq_items rest))).
  { now rewrite Hperm. }
  pose proof Hitems as Hitems'. rewrite Hperm in Hitems'.
  apply Forall_cons in Hitems' as [Hstate Hrest].
  destruct (lazy && stale (e_cost state) (costs s !! e_node state)) eqn:Hstale.
  - intros [= <-]. cbn [costs queue]. split.
    + split; [exact Hrest|]. split; [exact Hstart|].
      intros n x Hx. cbn [costs queue] in Hx |- *.
      destruct (Hfront n x Hx) as [(e & He & Hn & Hle)|Hsettled]; [|now right].
      destruct (pop_members _ _ _ _ Hperm He) as [->|He']; [|left; eauto].
      apply andb_true_iff in Hstale as [_ Hstale].
      apply stale_true in Hstale as (c & Hc & Hlt).
      rewrite Hn, Hx in Hc. injection Hc as <-. lra.
    + unfold measure. lia.
  - unfold notify.
    assert (Hcb : forall made,
      (match callback with
       | Some f => (f (e_node state, e_cost state), made ++ [(e_node state, e_cost state)])
       | None => (Ok tt, made)
       end).1 = Ok tt).
    { intros made. destruct callback as [f|] eqn:Hf; [|reflexivity].
      cbn. now apply callback_returns. }
    specialize (Hcb (calls s)).
    destruct (match callback with Some f => _ | None => _ end) as [r made].
    cbn in Hcb. subst r.
    destruct (decide (e_node state = goal)) as [|Hgoal]; [discriminate|].
    destruct (graph !! e_node state) as [nb|] eqn:Hnb; [|discriminate].
    rewrite relax_pure.
    destruct (relax_all state nb (map_to_list nb) (costs s, rest) Hnb
                (fun n w Hin => proj1 (elem_of_map_to_list nb n w) Hin)
                Hstate Hrest) as (Hm & Hp & Hs & Hc & Hi & Hmu).
    destruct (fold_left (relaxPure state) (map_to_list nb) (costs s, rest))
      as [costs' queue'].
    cbn [fst snd] in *. intros [= <-]. cbn [costs queue]. split.
    + split; [exact Hi|]. split.
      { destruct Hstart as (x & Hx & Hle). destruct (Hm start x Hx) as (y & Hy & Hyx).
        exists y. split; [exact Hy | lra]. }
      intros n x Hx. cbn [costs queue] in Hx |- *.
      destruct (Hc n) as [Heq|(e & He & Hn & y & Hy & Hle)].
      * rewrite Heq in Hx.
        destruct (Hfront n x Hx) as [(e & He & Hn & Hle)|[Hne Hsettled]].
        -- destruct (pop_members _ _ _ _ Hperm He) as [->|He'].
           ++ right. split; [congruence|]. intros m w Hedge.
              assert (Hin : (m, w) ∈ map_to_list nb).
              { apply elem_of_map_to_list. unfold edgeWeight in Hedge.
                rewrite <- Hn, Hnb in Hedge. exact Hedge. }
              destruct (Hs m w Hin) as (y & Hy & Hyle).
              exists y. split; [exact Hy | lra].
           ++ left. exists e. auto.
        -- right. split; [exact Hne|]. intros m w Hedge.
           destruct (Hsettled m w Hedge) as (y & Hy & Hyle).
           destruct (Hm m y Hy) as (z & Hz & Hzy). exists z. split; [exact Hz | lra].
      * left. exists e. split; [exact He|]. split; [exact Hn|].
        rewrite Hx in Hy. injection Hy as <-. exact Hle.
    + unfold measure in *. lia.
Qed.

Lemma EntryOk_walk c e :
  EntryOk c e ->
  exists rest cw,
    e_path e = start :: rest /\ Walk graph start rest (e_node e) cw /\ e_cost e == cw.
Proof.
  intros ((rest & ws & bs & Hp & Hl & Hr) & _).
  exists rest, ws. split; [exact Hp|]. rewrite Hp in Hl. split.
  - exact (replay_walk _ _ _ _ _ _ _ _ _ Hr Hl).
  - pose proof (replay_total _ _ _ _ _ _ _ _ _ _ Hr).
    pose proof (replay_no_bias _ _ _ _ _ _ _ _ _ Hr). lra.
Qed.

Lemma iteration_return s r made :
  Inv s -> iteration s = Return r made -> Answer graph start goal r.
Proof.
  intros (Hitems & (x0 & Hx0 & Hle0) & Hfront). unfold core_iteration.
  pose proof (pq_pop_spec (queue s)) as Hpop.
  destruct (pq_pop (queue s)) as [[state rest]|].
  - destruct Hpop as [Hperm Hmin].
    pose proof Hitems as Hitems'. rewrite Hperm in Hitems'.
    apply Forall_cons in Hitems' as [Hstate Hrest].
    destruct (lazy && stale (e_cost state) (costs s !! e_node state));
      [discriminate|].
    unfold notify.
    assert (Hcb : forall made,
      (match callback with
       | Some f => (f (e_node state, e_cost state), made ++ [(e_node state, e_cost state)])
       | None => (Ok tt, made)
       end).1 = Ok tt).
    { intros made'. destruct callback as [f|] eqn:Hf; [|reflexivity].
      cbn. now apply callback_returns. }
    specialize (Hcb (calls s)).
    destruct (match callback with Some f => _ | None => _ end) as [r' made'].
    cbn in Hcb. subst r'.
    destruct (decide (e_node state = goal)) as [Hgoal|Hgoal].
    + intros [= <- <-]. cbn. split.
      * destruct (EntryOk_walk _ _ Hstate) as (rest' & cw & Hp & Hw & Hc).
        exists rest', cw. rewrite Hgoal in Hw. auto.
      * intros rest' c Hwalk.
        destruct (front_walk _ _ _ _ _ _ Hitems Hfront Hwalk eq_refl x0 Hx0)
          as (e & He & Hp).
        rewrite Forall_forall in Hmin. specialize (Hmin e He).
        destruct Hstate as (_ & Hprio & _).
        pose proof (h_nonneg (e_node state)). lra.
    + destruct (graph !! e_node state) as [nb|] eqn:Hnb.
      * rewrite relax_pure.
        destruct (fold_left _ _ _) as [costs' queue']. discriminate.
      * exfalso. pose proof (EntryOk_node _ _ Hstate) as Hin.
        destruct Hstate as (_ & _ & _ & Hk).
        destruct (Hk (e_node state) Hin) as [[nb' Hnb'] _].
        congruence.
  - intros [= <- <-]. cbn. intros rest c Hwalk.
    destruct (front_walk _ _ _ _ _ _ Hitems Hfront Hwalk eq_refl x0 Hx0)
      as (e & He & _).
    rewrite Hpop in He. apply elem_of_nil in He. contradiction.
Qed.

Lemma loop_answer fuel s r made :
  Inv s -> loop iteration fuel s = Some (r, made) -> Answer graph start goal r.
Proof.
  revert s. induction fuel as [|fuel IH]; intros s Hinv Hrun; cbn in Hrun;
    [discriminate|].
  destruct (iteration s) as [s'|r' made'] eqn:Hstep.
  - destruct (iteration_continue s s' Hinv Hstep) as [Hinv' _]. eauto.
  - injection Hrun as <- <-. eapply iteration_return; eassumption.
Qed.

Lemma loop_terminates fuel s :
  Inv s -> (measure (costs s) (queue s) < fuel)%nat ->
  exists r made, loop iteration fuel s = Some (r, made).
Proof.
  revert s. induction fuel as [|fuel IH]; intros s Hinv Hfuel; [lia|].
  cbn. destruct (iteration s) as [s'|r made] eqn:Hstep; [|eauto].
  destruct (iteration_continue s s' Hinv Hstep) as [Hinv' Hless].
  apply IH; [exact Hinv' | lia].
Qed.

Lemma Inv_initial e0 :
  e_cost e0 = 0 -> e_path e0 = [start] -> e_node e0 = start ->
  e_prio e0 == 0 + h start ->
  Inv (mkSearch {[start := 0]} (pq_new [e0]) []).
Proof.
  intros Hc Hp Hn Hprio. unfold Inv. cbn [costs queue].
  pose proof (pq_new_items [e0]) as Hnew.
  apply Permutation_singleton_r in Hnew. rewrite Hnew. repeat split.
  - constructor; [|constructor]. repeat split.
    + exists [], 0, 0. rewrite Hp, Hn, Hc. repeat split.
    + rewrite Hc, Hn. exact Hprio.
    + rewrite Hp. apply NoDup_singleton.
    + rewrite Hp in H. apply list_elem_of_singleton in H. subst k. exact start_vertex.
    + rewrite Hp in H. apply list_elem_of_singleton in H. subst k.
      exists 0. rewrite lookup_singleton_eq, Hc. split; [reflexivity | lra].
  - exists 0. rewrite lookup_singleton_eq. split; [reflexivity | lra].
  - intros n x Hx. apply lookup_singleton_Some in Hx as [<- <-].
    left. exists e0. split; [apply list_elem_of_here|]. split; [exact Hn|].
    rewrite Hc. lra.
Qed.

Lemma measure_initial e0 :
  (measure {[start := 0%Q]} (pq_new [e0]) <= 1 + 2 * length candidates)%nat.
Proof.
  unfold measure, pending. rewrite pq_new_items. cbn [length].
  pose proof (List.filter_length_le (fresh {[start := 0]}) candidates). lia.
Qed.

Lemma core_decides e0 fuel :
  e_cost e0 = 0 -> e_path e0 = [start] -> e_node e0 = start ->
  e_prio e0 == 0 + h start ->
  (2 + 2 * length candidates <= fuel)%nat ->
  exists r made,
    loop iteration fuel (mkSearch {[start := 0]} (pq_new [e0]) []) = Some (r, made) /\
    Answer graph start goal r.
Proof.
  intros Hc Hp Hn Hprio Hfuel.
  pose proof (Inv_initial e0 Hc Hp Hn Hprio) as Hinv.
  destruct (loop_terminates fuel _ Hinv) as (r & made & Hrun).
  { cbn [costs queue]. pose proof (measure_initial e0). lia. }
  exists r, made. split; [exact Hrun|]. eapply loop_answer; eassumption.
Qed.
End CoreOptimal.

(** Two answers to the same question weigh the same. *)
Lemma Answer_agree graph start goal r1 r2 :
  Answer graph start goal r1 -> Answer graph start goal r2 ->
  match r1, r2 with
  | Ok None, Ok None => True
  | Ok (Some (w1, _)), Ok (Some (w2, _)) => w1 == w2
  | _, _ => False
  end.
Proof.
  destruct r1 as [[[w1 p1]|]|e1], r2 as [[[w2 p2]|]|e2]; cbn; try tauto.
  - intros [(rest1 & c1 & _ & Hw1 & Hc1) Hmin1] [(rest2 & c2 & _ & Hw2 & Hc2) Hmin2].
    pose proof (Hmin1 _ _ Hw2). pose proof (Hmin2 _ _ Hw1). lra.
  - intros [(rest1 & c1 & _ & Hw1 & _) _] Hnone. exact (Hnone _ _ Hw1).
  - intros Hnone [(rest2 & c2 & _ & Hw2 & _) _]. exact (Hnone _ _ Hw2).
Qed.

Lemma candidatePaths_complete (graph : Vertices) p :
  NoDup p -> (forall k, k ∈ p -> is_Some (graph !! k)) -> p ∈ candidatePaths graph.
Proof.
  intros Hnd Hin.
  assert (Hkeys : forall k, k ∈ p -> k ∈ keysOf graph).
  { intros k Hk. destruct (Hin k Hk) as [row Hrow].
    unfold keysOf. apply list_elem_of_fmap. exists (k, row).
    split; [reflexivity | now apply elem_of_map_to_list]. }
  apply sequences_complete; [|exact Hkeys].
  now apply NoDup_within_length.
Qed.

(** ** The two searches find the same weight *)

Lemma positiveClosed_spec graph n m w :
  positiveClosed graph = true -> edgeWeight graph n m = Some w ->
  0 < w /\ is_Some (graph !! m).
Proof.
  unfold positiveClosed, edgeWeight. intros Hall Hedge.
  destruct (graph !! n) as [row|] eqn:Hrow; [|discriminate]. cbn in Hedge.
  rewrite forallb_forall in Hall.
  specialize (Hall (n, row)). cbn in Hall.
  rewrite forallb_forall in Hall.
  assert (Hin : In (m, w) (map_to_list row)).
  { apply list_elem_of_In. now apply elem_of_map_to_list. }
  assert (Hrow' : In (n, row) (map_to_list graph)).
  { apply list_elem_of_In. now apply elem_of_map_to_list. }
  specialize (Hall Hrow' (m, w) Hin). cbn in Hall.
  apply andb_true_iff in Hall as [Hpos Hkey].
  destruct (Qlt_le_dec 0 w); [|discriminate].
  now apply bool_decide_eq_true in Hkey.
Qed.

Lemma Walk_nonneg graph n rest t c :
  positiveClosed graph = true -> Walk graph n rest t c -> 0 <= c.
Proof.
  intros Hpc Hwalk. induction Hwalk as [n|n m rest t w c Hedge Hwalk IH]; [lra|].
  destruct (positiveClosed_spec _ _ _ _ Hpc Hedge). lra.
Qed.

Lemma dijkstra_decides `{PQ : PriorityQueue Dijkstra.State Dijkstra.cost}
    graph start goal userExpanded fuel :
  (forall f x, userExpanded = Some f -> f x = Ok tt) ->
  positiveClosed graph = true ->
  is_Some (graph !! start) ->
  (searchBound graph <= fuel)%nat ->
  exists r made,
    Dijkstra.findPath fuel graph start goal (Dijkstra.mkOptions None None userExpanded)
    = Some (r, made) /\
    Answer graph start goal r.
Proof.
  intros Hcb Hpc Hstart Hfuel.
  assert (Hpos : forall n m w, edgeWeight graph n m = Some w -> 0 < w).
  { intros n m w Hedge. now destruct (positiveClosed_spec _ _ _ _ Hpc Hedge). }
  assert (Hclosed : forall n m w, edgeWeight graph n m = Some w -> is_Some (graph !! m)).
  { intros n m w Hedge. now destruct (positiveClosed_spec _ _ _ _ Hpc Hedge). }
  refine (core_decides Dijkstra.cost Dijkstra.path Dijkstra.node Dijkstra.cost
            Dijkstra.mkState (fun _ _ _ => eq_refl) (fun _ _ _ => eq_refl)
            (fun _ _ _ => eq_refl) (fun _ => 0) _ false userExpanded Hcb
            graph start goal Hpos Hclosed Hstart _ _
            (candidatePaths graph) (candidatePaths_complete graph)
            (Dijkstra.mkState 0 [start] start) fuel eq_refl eq_refl eq_refl _ Hfuel).
  - intros c p n. cbn. lra.
  - intros n. lra.
  - intros n rest c Hwalk. eapply Walk_nonneg; eassumption.
  - cbn. lra.
Qed.

Lemma astar_decides `{PQ : PriorityQueue AStar.State AStar.estimate}
    distance graph start goal coordinates userExpanded fuel :
  (forall f x, userExpanded = Some f -> f x = Ok tt) ->
  positiveClosed graph = true ->
  is_Some (graph !! start) ->
  (forall n, 0 <= AStar.heuristic distance n goal coordinates) ->
  (forall n rest c, Walk graph n rest goal c ->
     AStar.heuristic distance n goal coordinates <= c) ->
  (searchBound graph <= fuel)%nat ->
  exists r made,
    AStar.findPath distance fuel graph start goal
      (AStar.mkOptions None coordinates userExpanded)
    = Some (r, made) /\
    Answer graph start goal r.
Proof.
  intros Hcb Hpc Hstart Hnonneg Hadm Hfuel.
  assert (Hpos : forall n m w, edgeWeight graph n m = Some w -> 0 < w).
  { intros n m w Hedge. now destruct (positiveClosed_spec _ _ _ _ Hpc Hedge). }
  assert (Hclosed : forall n m w, edgeWeight graph n m = Some w -> is_Some (graph !! m)).
  { intros n m w Hedge. now destruct (positiveClosed_spec _ _ _ _ Hpc Hedge). }
  refine (core_decides AStar.cost AStar.path AStar.node AStar.estimate
            (fun c p n => AStar.mkState c
               (c + AStar.heuristic distance n goal coordinates) p n)
            (fun _ _ _ => eq_refl) (fun _ _ _ => eq_refl) (fun _ _ _ => eq_refl)
            (fun n => AStar.heuristic distance n goal coordinates) _
            true userExpanded Hcb
            graph start goal Hpos Hclosed Hstart Hnonneg Hadm
            (candidatePaths graph) (candidatePaths_complete graph)
            (AStar.mkState 0 (AStar.heuristic distance start goal coordinates)
               [start] start)
            fuel eq_refl eq_refl eq_refl _ Hfuel).
  - intros c p n. cbn. lra.
  - cbn. lra.
Qed.

Lemma consistent_admissible distance graph goal coordinates :
  consistent distance graph goal coordinates = true ->
  forall n rest c, Walk graph n rest goal c ->
    AStar.heuristic distance n goal coordinates <= c.
Proof.
  unfold consistent. intros Hcons n rest c Hwalk.
  apply andb_true_iff in Hcons as [Hgoal Hedges].
  remember goal as t eqn:Ht in Hwalk.
  induction Hwalk as [n|n m rest t w c Hedge Hwalk IH]; subst.
  - destruct (Qlt_le_dec 0 (AStar.heuristic distance goal goal coordinates));
      [discriminate | assumption].
  - specialize (IH eq_refl).
    unfold edgeWeight in Hedge.
    destruct (graph !! n) as [row|] eqn:Hrow; [|discriminate]. cbn in Hedge.
    rewrite forallb_forall in Hedges.
    assert (Hrow' : In (n, row) (map_to_list graph)).
    { apply list_elem_of_In. now apply elem_of_map_to_list. }
    specialize (Hedges _ Hrow'). cbn in Hedges.
    rewrite forallb_forall in Hedges.
    assert (Hin : In (m, w) (map_to_list row)).
    { apply list_elem_of_In. now apply elem_of_map_to_list. }
    specialize (Hedges _ Hin). cbn in Hedges.
    destruct (Qlt_le_dec (w + _) _) as [|Hle]; [discriminate|].
    revert IH Hle.
    generalize (AStar.heuristic distance n goal coordinates).
    generalize (AStar.heuristic distance m goal coordinates).
    intros hm hn IH Hle. lra.
Qed.


Lemma equatorKm_nonneg a b : 0 <= equatorKm a b.
Proof.
  unfold equatorKm. pose proof (Qabs_nonneg (lon a - lon b)).
  generalize dependent (Qabs (lon a - lon b)). intros q Hq. lra.
Qed.

Lemma heuristic_equatorKm_nonneg n goal coordinates :
  0 <= AStar.heuristic equatorKm n goal coordinates.
Proof.
  unfold AStar.heuristic.
  destruct coordinates as [coords|]; [|apply Qle_refl].
  destruct (coords !! n); [|apply Qle_refl].
  destruct (coords !! goal); [|apply Qle_refl].
  apply equatorKm_nonneg.
Qed.

(** ** The chain *)

(** C1. The compacted graph after a call is not the graph before it.
    On the chain, with no edge-data reducer, a search from [N] to [B]
    finds the path and leaves [compactedEdges[A][N]] and
    [compactedEdges[B][N]] behind: the injector writes them whenever the
    table exists, the removal deletes them only when a reducer is
    configured.  And whatever the tables, a neighbour the phantom is
    reached from but does not reach keeps its edge to the phantom: on the
    one-way chain the edge from [U] to [N] survives a search from [N] to
    [V], and the search from [U] to [V], which returned the weight 3
    before, then runs into the missing row of [N]. *)
Theorem phantom_residue :
  (exists g',
     Chain.find Chain.noSearchOptions Chain.pN Chain.pB
     = Some (Ok (Some (mkPath [Some Chain.pN; Some Chain.pB] 2 None)), g', []) /\
     compactedVertices g' = compactedVertices Chain.graph /\
     compactedCoordinates g' = compactedCoordinates Chain.graph /\
     compactedEdges Chain.graph = ∅ /\
     compactedEdges g' = {[ "A" := {[ "N" := None ]}; "B" := {[ "N" := None ]} ]}) /\
  (forall (EdgeData : Type) compactNode hasEdgeDataReducer
          (g g1 g3 : PathFinderGraph EdgeData) (n u : Key) (w : Q),
     n <> "" -> u <> n ->
     incomingEdges (phantomOf compactNode n g) !! u = Some w ->
     edges (phantomOf compactNode n g) !! u = None ->
     _createPhantom compactNode hasEdgeDataReducer n g = (Ok (Some n), g1) ->
     _removePhantom hasEdgeDataReducer (Some n) g1 = (Ok tt, g3) ->
     cellOf g3 u n = Some w) /\
  (exists g',
     OneWay.fromKeys "N" "V" OneWay.graph
     = Some (Ok (Some (mkPath [Some OneWay.pN; Some OneWay.pV] 2 (Some [Some tt]))),
             g', []) /\
     cellOf OneWay.graph "U" "N" = None /\
     cellOf g' "U" "N" = Some 1 /\
     compactedVertices g' !! "N" = None /\
     (exists g0,
        OneWay.fromKeys "U" "V" OneWay.graph
        = Some (Ok (Some (mkPath [Some OneWay.pU; Some OneWay.pN; Some OneWay.pV] 3
                            (Some [Some tt]))),
                g0, [])) /\
     (exists g'',
        OneWay.fromKeys "U" "V" g' = Some (Throw TypeError, g'', []))).
Proof.
  split; [|split].
  - eexists. split; [vm_compute; reflexivity|].
    repeat split; vm_compute; reflexivity.
  - intros EdgeData compactNode hasEdgeDataReducer g g1 g3 n u w.
    apply incoming_only_neighbour_kept.
  - eexists. split; [vm_compute; reflexivity|].
    split; [vm_compute; reflexivity|].
    split; [vm_compute; reflexivity|].
    split; [vm_compute; reflexivity|].
    split; eexists; vm_compute; reflexivity.
Qed.


Lemma same_endpoint_witness :
  exists g3,
    Chain.find Chain.noSearchOptions Chain.pN Chain.pN
    = Some (Ok (Some (mkPath [Some Chain.pN] 0 None)), g3, []).
Proof.
  assert (Hresolve :
    _resolveVertexKey Chain.graph
      (roundCoord Chain.pN (toleranceOf Chain.pathFinderOptions))
      (keyOf Chain.chainKey Chain.pathFinderOptions)
      (toleranceOf Chain.pathFinderOptions) = Ok "N")
    by (vm_compute; reflexivity).
  assert (Hsource : sourceCoordinates Chain.graph !! "N" = Some Chain.pN)
    by (vm_compute; reflexivity).
  destruct (same_endpoint (PQD := ListQueue Dijkstra.cost)
              (PQA := ListQueue AStar.estimate)
              Chain.chainKey equatorKm Chain.chainCompactNode
              Chain.pathFinderOptions false
              Chain.graph "N" Chain.noSearchOptions 9)
    as (g3 & _ & Hfind).
  - eexists. vm_compute. reflexivity.
  - intros f Hf. discriminate Hf.
  - intros _. compute_done.
  - exists g3. specialize (Hfind Chain.pN Chain.pN Hresolve Hresolve).
    rewrite Hsource in Hfind. exact Hfind.
Defined.

(** On the chain, from [N] to [N] with a callback that throws: both
    points resolve to the vertex key [N], and the call throws. *)
Lemma same_endpoint_callback_throws :
  _resolveVertexKey Chain.graph
    (roundCoord Chain.pN (toleranceOf Chain.pathFinderOptions))
    (keyOf Chain.chainKey Chain.pathFinderOptions)
    (toleranceOf Chain.pathFinderOptions) = Ok "N" /\
  is_Some (vertices Chain.graph !! "N") /\
  exists g3,
    Chain.find
      (mkSearchOptions None None None (Some (fun _ => Throw (UserError "stop"))))
      Chain.pN Chain.pN
    = Some (Throw (UserError "stop"), g3, [("N", 0)]).
Proof.
  split; [vm_compute; reflexivity|].
  split; [eexists; vm_compute; reflexivity|].
  eexists. vm_compute. reflexivity.
Qed.

Lemma compacted_endpoints_keep_graph_witness :
  Chain.graph = Chain.graph.
Proof.
  refine (compacted_endpoints_keep_graph (PQD := ListQueue Dijkstra.cost)
            (PQA := ListQueue AStar.estimate)
            equatorKm Chain.chainCompactNode false
            Chain.graph Chain.graph 10 "A" "B" Chain.noSearchOptions
            (Ok (Some (mkPath [Some Chain.pA; Some Chain.pN; Some Chain.pB] 3 None))) []
            _ _ _).
  - eexists. vm_compute. reflexivity.
  - eexists. vm_compute. reflexivity.
  - vm_compute. reflexivity.
Defined.

(** On the chain with payloads the phantom [N] is injected and removed
    without a trace, and so a search from [N] to [B] leaves the graph as
    it was. *)
Lemma phantom_round_trip_witness :
  (exists g1,
     _createPhantom Chain.taggedCompactNode true "N" Chain.taggedGraph
     = (Ok (Some "N"), g1) /\
     _removePhantom true (Some "N") g1 = (Ok tt, Chain.taggedGraph)) /\
  findPathFromVertexKeys (PQD := ListQueue Dijkstra.cost)
    (PQA := ListQueue AStar.estimate)
    equatorKm Chain.taggedCompactNode true 10 "N" "B" Chain.noSearchOptions
    Chain.taggedGraph
  = Some (Ok (Some (mkPath [Some Chain.pN; Some Chain.pB] 2 (Some [Some tt]))),
          Chain.taggedGraph, []).
Proof.
  split.
  - apply (phantom_round_trip Chain.taggedCompactNode "N" Chain.taggedGraph).
    + discriminate.
    + compute_done.
    + compute_done.
  - vm_compute. reflexivity.
Defined.

(** C2. The searches never see the transition guard: whatever guard the
    caller configures, the call does what it does without one.  On the
    chain a guard that returns [false] for every transition does not stop
    the path from [A] to [B], and a guard that throws raises nothing. *)
Theorem transitionGuard_never_consulted :
  (forall (EdgeData : Type)
          (PQD : PriorityQueue Dijkstra.State Dijkstra.cost)
          (PQA : PriorityQueue AStar.State AStar.estimate)
          distance compactNode hasEdgeDataReducer
          (g : PathFinderGraph EdgeData) fuel start finish
          userBias userGuard userGuard' chosen userExpanded,
     findPathFromVertexKeys distance compactNode hasEdgeDataReducer fuel start finish
       (mkSearchOptions userBias userGuard chosen userExpanded) g
     = findPathFromVertexKeys distance compactNode hasEdgeDataReducer fuel start finish
         (mkSearchOptions userBias userGuard' chosen userExpanded) g) /\
  (forall chosen,
     Chain.find (mkSearchOptions None (Some (fun _ => Ok (Some false))) chosen None)
       Chain.pA Chain.pB
     = Some (Ok (Some (mkPath [Some Chain.pA; Some Chain.pN; Some Chain.pB] 3 None)),
             Chain.graph, [])) /\
  (forall chosen,
     Chain.find (mkSearchOptions None (Some (fun _ => Throw (UserError "blocked")))
                   chosen None)
       Chain.pA Chain.pB
     = Some (Ok (Some (mkPath [Some Chain.pA; Some Chain.pN; Some Chain.pB] 3 None)),
             Chain.graph, [])).
Proof.
  split; [reflexivity|].
  split; intros [[|]|]; vm_compute; reflexivity.
Qed.



(** On the chain, a direction bias of 5 on every transition makes the
    weight of the path from [A] to [B] 8, while the key sequence the
    search found is [A, B] and the compacted edge it takes weighs 3. *)
Lemma biased_weight_exceeds_edge_sum :
  Chain.find (mkSearchOptions (Some (fun _ => Ok (Finite 5))) None None None)
    Chain.pA Chain.pB
  = Some (Ok (Some (mkPath [Some Chain.pA; Some Chain.pN; Some Chain.pB] 8 None)),
          Chain.graph, []) /\
  runSearch (PQD := ListQueue Dijkstra.cost) (PQA := ListQueue AStar.estimate)
    equatorKm 10 Chain.graph "A" "B"
    (mkSearchOptions (Some (fun _ => Ok (Finite 5))) None None None)
  = Some (Ok (Some (8, ["A"; "B"])), []) /\
  edgeWeightSum (compactedVertices Chain.graph) ["A"; "B"] = Some 3 /\
  ~ 8 == 3.
Proof.
  split; [vm_compute; reflexivity|].
  split; [vm_compute; reflexivity|].
  split; [vm_compute; reflexivity|].
  intros H. discriminate H.
Qed.

(** On the chain, from [N] to [B] with a bias of 5: the search runs on the
    graph with the phantom [N] in it and the weight 7 is the edge weight 2
    plus the bias 5. *)
Lemma returned_weight_witness :
  exists start finish phantomStart g1 phantomEnd g2 keys rest ws bs,
    _resolveVertexKey Chain.graph
      (roundCoord Chain.pN (toleranceOf Chain.pathFinderOptions))
      (keyOf Chain.chainKey Chain.pathFinderOptions)
      (toleranceOf Chain.pathFinderOptions) = Ok start /\
    _resolveVertexKey Chain.graph
      (roundCoord Chain.pB (toleranceOf Chain.pathFinderOptions))
      (keyOf Chain.chainKey Chain.pathFinderOptions)
      (toleranceOf Chain.pathFinderOptions) = Ok finish /\
    _createPhantom Chain.chainCompactNode false start Chain.graph
      = (Ok phantomStart, g1) /\
    _createPhantom Chain.chainCompactNode false finish g1 = (Ok phantomEnd, g2) /\
    runSearch (PQD := ListQueue Dijkstra.cost) (PQA := ListQueue AStar.estimate)
      equatorKm 10 g2 start finish
      (mkSearchOptions (Some (fun _ => Ok (Finite 5))) None None None)
      = Some (Ok (Some (7, keys)), []) /\
    keys = start :: rest /\ last keys = Some finish /\
    replay (compactedVertices g2) None
      (shared_directionBias
         (sharedOptionsOf g2 finish
            (mkSearchOptions (Some (fun _ => Ok (Finite 5))) None None None)))
      0 [start] start rest = Some (7, ws, bs) /\
    edgeWeightSum (compactedVertices g2) keys = Some ws /\
    7 == ws + bs /\
    (directionBias (mkSearchOptions (Some (fun _ => Ok (Finite 5))) None None None)
       = None -> 7 == ws).
Proof.
  refine (returned_weight (PQD := ListQueue Dijkstra.cost)
            (PQA := ListQueue AStar.estimate)
            Chain.chainKey equatorKm Chain.chainCompactNode
            Chain.pathFinderOptions false
            Chain.graph _ 10 Chain.pN Chain.pB
            (mkSearchOptions (Some (fun _ => Ok (Finite 5))) None None None)
            (mkPath [Some Chain.pN; Some Chain.pB] 7 None) [] _).
  vm_compute. reflexivity.
Defined.

(** ** Dispatch to the worker pool *)



(** X2. In the earlier facade a request can go to the workers exactly when
    [concurrency] is a finite number of at least 2, no custom key function
    and no edge-data reducer are configured, and the request supplies
    neither [directionBias] nor [onNodeExpanded]; [transitionGuard] plays
    no part. *)
Theorem earlier_worker_eligibility concurrency options hasEdgeDataReducer searchOptions :
  Earlier._shouldUseWorker concurrency options hasEdgeDataReducer searchOptions = true <->
  (exists q, concurrency = Some (Finite q) /\ 2 <= q) /\
  key options = None /\
  hasEdgeDataReducer = false /\
  directionBias searchOptions = None /\
  onNodeExpanded searchOptions = None.
Proof.
  unfold Earlier._shouldUseWorker, Earlier._normaliseConcurrency,
    Earlier._createThreadSafeOptions, Earlier._searchOptionsContainCallbacks.
  split.
  - destruct concurrency as [[q|]|]; cbn; try discriminate.
    destruct (Qlt_le_dec q 2) as [Hlt|Hle]; cbn; [discriminate|].
    destruct (Z.max 1 (Qfloor q) <=? 1)%Z; cbn; [discriminate|].
    destruct (key options); cbn; [discriminate|].
    destruct hasEdgeDataReducer; cbn; [discriminate|].
    destruct (directionBias searchOptions); cbn; [discriminate|].
    destruct (onNodeExpanded searchOptions); cbn; [discriminate|].
    intros _. repeat split. exists q. split; [reflexivity | exact Hle].
  - intros ((q & -> & Hq) & -> & -> & -> & ->). cbn.
    destruct (Qlt_le_dec q 2) as [Hlt|_]; [lra|].
    assert (Hfloor : (2 <= Qfloor q)%Z).
    { change 2%Z with (Qfloor 2). now apply Qfloor_resp_le. }
    destruct (Z.leb_spec (Z.max 1 (Qfloor q)) 1) as [Hmax|_]; [lia|].
    reflexivity.
Qed.

(** ** Stale entries and the [onNodeExpanded] callback *)






(** ** What the searches report *)

Section CoreCalls.
Context {Entry : Type}.
Variables (e_cost : Entry -> Q) (e_path : Entry -> list Key) (e_node : Entry -> Key).
Variable e_prio : Entry -> Q.
Context `{PQ : PriorityQueue Entry e_prio}.
Variable make : Q -> list Key -> Key -> Entry.
Variable lazy : bool.
Variable guard : option (TurnInput -> Result bool).
Variable bias : option (BiasInput -> Result jsnum).
Variable callback : option (Expansion -> Result unit).
Variable graph : Vertices.
Variable goal : Key.

Local Abbreviation iteration :=
  (core_iteration e_cost e_path e_node e_prio make lazy guard bias callback graph goal).

(** A turn of the loop only adds invocations, at the end. *)
Lemma core_iteration_calls s :
  exists extra, callsAfter (iteration s) = calls s ++ extra.
Proof.
  unfold core_iteration.
  destruct (pq_pop (queue s)) as [[state rest]|]; [|exists []; cbn; now rewrite app_nil_r].
  destruct (lazy && stale _ _); [exists []; cbn; now rewrite app_nil_r|].
  assert (Hn : exists extra,
             (notify callback (calls s) (e_node state) (e_cost state)).2
             = calls s ++ extra).
  { unfold notify. destruct callback; cbn; eauto. exists []. now rewrite app_nil_r. }
  destruct (notify callback (calls s) (e_node state) (e_cost state)) as [[[]|e] made];
    cbn in Hn; [|exact Hn].
  destruct (decide _); [exact Hn|].
  destruct (graph !! e_node state); [|exact Hn].
  destruct (forEach _ _ _) as [[? ?]|?]; exact Hn.
Qed.

Lemma core_loop_calls fuel s r made :
  loop iteration fuel s = Some (r, made) -> exists extra, made = calls s ++ extra.
Proof.
  revert s. induction fuel as [|fuel IH]; intros s Hrun; cbn in Hrun; [discriminate|].
  destruct (core_iteration_calls s) as (extra & Hextra).
  destruct (iteration s) as [s'|r' made']; cbn in Hextra.
  - destruct (IH s' Hrun) as (extra' & ->). rewrite Hextra.
    exists (extra ++ extra'). now rewrite app_assoc.
  - injection Hrun as <- <-. eauto.
Qed.

(** The invocation that precedes the return of a path reports the goal
    and the weight returned. *)
Lemma core_loop_last_call fuel s f w p made :
  callback = Some f ->
  loop iteration fuel s = Some (Ok (Some (w, p)), made) ->
  exists before, made = before ++ [(goal, w)].
Proof.
  intros Hcb. revert s. induction fuel as [|fuel IH]; intros s Hrun; cbn in Hrun;
    [discriminate|].
  destruct (iteration s) as [s'|r' made'] eqn:Hstep; [exact (IH s' Hrun)|].
  injection Hrun as -> ->.
  unfold core_iteration in Hstep.
  destruct (pq_pop (queue s)) as [[state rest]|]; [|discriminate].
  destruct (lazy && stale _ _); [discriminate|].
  unfold notify in Hstep. rewrite Hcb in Hstep.
  destruct (f (e_node state, e_cost state)) as [[]|e]; [|discriminate].
  destruct (decide (e_node state = goal)) as [Hgoal|_].
  - injection Hstep as <- <- <-. rewrite Hgoal. eauto.
  - destruct (graph !! e_node state); [|discriminate].
    destruct (forEach _ _ _) as [[? ?]|?]; discriminate.
Qed.

(** The first turn pops the start entry and reports it. *)
Lemma core_loop_first_call fuel (e0 : Entry) start f r made :
  callback = Some f ->
  e_cost e0 == 0 -> e_node e0 = start ->
  loop iteration fuel (mkSearch {[start := 0]} (pq_new [e0]) []) = Some (r, made) ->
  exists extra, made = (start, e_cost e0) :: extra.
Proof.
  intros Hcb Hc Hn Hrun. destruct fuel as [|fuel]; [discriminate|].
  cbn [loop] in Hrun.
  destruct (iteration (mkSearch {[start := 0]} (pq_new [e0]) [])) as [s'|r' made'] eqn:Hstep.
  - assert (Hcalls : calls s' = [(start, e_cost e0)]).
    { unfold core_iteration in Hstep. cbn [queue costs calls] in Hstep.
      destruct (pq_pop_singleton e0) as (q' & Hpop & _). rewrite Hpop in Hstep.
      rewrite Hn, lookup_singleton_eq in Hstep. cbn [stale] in Hstep.
      destruct (Qlt_le_dec 0 (e_cost e0)) as [Hlt|_]; [lra|].
      rewrite andb_false_r in Hstep.
      unfold notify in Hstep. rewrite Hcb in Hstep.
      destruct (f (start, e_cost e0)) as [[]|e]; [|discriminate].
      destruct (decide (start = goal)); [discriminate|].
      destruct (graph !! start); [|discriminate].
      destruct (forEach _ _ _) as [[? ?]|?]; [|discriminate].
      now injection Hstep as <-. }
    destruct (core_loop_calls fuel s' r made Hrun) as (extra & ->).
    rewrite Hcalls. eauto.
  - injection Hrun as <- <-.
    unfold core_iteration in Hstep. cbn [queue costs calls] in Hstep.
    destruct (pq_pop_singleton e0) as (q' & Hpop & _). rewrite Hpop in Hstep.
    rewrite Hn, lookup_singleton_eq in Hstep. cbn [stale] in Hstep.
    destruct (Qlt_le_dec 0 (e_cost e0)) as [Hlt|_]; [lra|].
    rewrite andb_false_r in Hstep.
    unfold notify in Hstep. rewrite Hcb in Hstep.
    destruct (f (start, e_cost e0)) as [[]|e].
    + destruct (decide (start = goal)).
      * injection Hstep as <- <-. eauto.
      * destruct (graph !! start).
        -- destruct (forEach _ _ _) as [[? ?]|?]; [discriminate|].
           injection Hstep as <- <-. eauto.
        -- injection Hstep as <- <-. eauto.
    + injection Hstep as <- <-. eauto.
Qed.

(** Without a callback nothing is recorded. *)
Lemma core_loop_no_callback fuel s r made :
  callback = None -> loop iteration fuel s = Some (r, made) -> made = calls s.
Proof.
  intros Hcb. revert s. induction fuel as [|fuel IH]; intros s Hrun; cbn in Hrun;
    [discriminate|].
  destruct (iteration s) as [s'|r' made'] eqn:Hstep.
  - rewrite (IH s' Hrun).
    unfold core_iteration in Hstep.
    destruct (pq_pop (queue s)) as [[state rest]|]; [|discriminate].
    destruct (lazy && stale _ _); [now injection Hstep as <-|].
    unfold notify in Hstep. rewrite Hcb in Hstep.
    destruct (decide _); [discriminate|].
    destruct (graph !! e_node state); [|discriminate].
    destruct (forEach _ _ _) as [[? ?]|?]; [|discriminate].
    now injection Hstep as <-.
  - injection Hrun as <- <-.
    unfold core_iteration in Hstep.
    destruct (pq_pop (queue s)) as [[state rest]|]; [|now injection Hstep as <- <-].
    destruct (lazy && stale _ _); [discriminate|].
    unfold notify in Hstep. rewrite Hcb in Hstep.
    destruct (decide _); [now injection Hstep as <- <-|].
    destruct (graph !! e_node state); [|now injection Hstep as <- <-].
    destruct (forEach _ _ _) as [[? ?]|?]; [discriminate|].
    now injection Hstep as <- <-.
Qed.
End CoreCalls.

(** ** The order of expansion when the priority is the cost *)

Section CoreOrder.
Context {Entry : Type}.
Variables (e_cost : Entry -> Q) (e_path : Entry -> list Key) (e_node : Entry -> Key).
Variable e_prio : Entry -> Q.
Context `{PQ : PriorityQueue Entry e_prio}.
Variable make : Q -> list Key -> Key -> Entry.
Hypothesis make_cost : forall c p n, e_cost (make c p n) = c.
Hypothesis make_prio : forall c p n, e_prio (make c p n) == c.
Variable lazy : bool.
Variable guard : option (TurnInput -> Result bool).
Variable callback : option (Expansion -> Result unit).
Variable graph : Vertices.
Variable goal : Key.
Hypothesis nonnegative : forall n m w, edgeWeight graph n m = Some w -> 0 <= w.

Local Abbreviation relax := (core_relax e_cost e_path e_node e_prio make guard None).
Local Abbreviation iteration :=
  (core_iteration e_cost e_path e_node e_prio make lazy guard None callback graph goal).

(** Every queue entry is ordered by its cost and costs no less than
    anything reported so far. *)
Definition Later (reported : list Q) (e : Entry) : Prop :=
  e_prio e == e_cost e /\ Forall (fun x => x <= e_cost e) reported.

Definition ReportedInOrder (s : Search pq) : Prop :=
  StronglySorted Qle (calls s).*2 /\ Forall (Later (calls s).*2) (pq_items (queue s)).

Lemma StronglySorted_snoc (l : list Q) (x : Q) :
  StronglySorted Qle l -> Forall (fun y => y <= x) l -> StronglySorted Qle (l ++ [x]).
Proof.
  induction l as [|a l IH]; intros Hs Hle; cbn.
  - repeat constructor.
  - apply StronglySorted_inv in Hs as [Hs Ha].
    apply Forall_cons in Hle as [Hax Hle].
    constructor; [now apply IH|].
    apply Forall_app. split; [exact Ha|]. repeat constructor. exact Hax.
Qed.

Lemma relax_later reported state nb acc nw acc' :
  Later reported state ->
  graph !! e_node state = Some nb ->
  nw ∈ map_to_list nb ->
  Forall (Later reported) (pq_items acc.2) ->
  relax state acc nw = Ok acc' ->
  Forall (Later reported) (pq_items acc'.2).
Proof.
  intros [Hprio Hrep] Hnb Hin Hacc Hrun.
  destruct nw as [n w]. apply elem_of_map_to_list in Hin.
  unfold core_relax in Hrun.
  destruct (allowedAt guard (e_path state) (e_node state) n) as [[|]|];
    cbn in Hrun; try congruence.
  destruct (improves (e_cost state + w + 0) (acc.1 !! n)); [|congruence].
  injection Hrun as <-. cbn [snd].
  rewrite pq_push_items. constructor; [|exact Hacc].
  assert (Hw : 0 <= w).
  { apply (nonnegative (e_node state) n). unfold edgeWeight. rewrite Hnb. exact Hin. }
  split.
  - rewrite make_prio, make_cost. reflexivity.
  - rewrite make_cost. eapply Forall_impl; [exact Hrep|].
    cbn. intros x Hx. lra.
Qed.

Lemma Later_more reported state e :
  Later reported state -> Later reported e -> e_prio state <= e_prio e ->
  Later (reported ++ [e_cost state]) e.
Proof.
  intros [Hps _] [Hpe Hrep] Hle. split; [exact Hpe|].
  apply Forall_app. split; [exact Hrep|].
  repeat constructor. rewrite Hps, Hpe in Hle. exact Hle.
Qed.

Lemma core_iteration_ordered s :
  ReportedInOrder s ->
  match iteration s with
  | Continue s' => ReportedInOrder s'
  | Return _ made => StronglySorted Qle made.*2
  end.
Proof.
  intros [Hsorted Hitems]. unfold core_iteration.
  pose proof (pq_pop_spec (queue s)) as Hpop.
  destruct (pq_pop (queue s)) as [[state rest]|]; [|exact Hsorted].
  destruct Hpop as [Hperm Hmin]. rewrite Hperm in Hitems, Hmin.
  apply Forall_cons in Hitems as [Hstate Hrest].
  apply Forall_cons in Hmin as [_ Hmin].
  destruct (lazy && stale _ _); [split; assumption|].
  (* what is reported after the invocation *)
  set (reported' := (notify callback (calls s) (e_node state) (e_cost state)).2.*2).
  assert (Hsorted' : StronglySorted Qle reported').
  { unfold reported', notify. destruct callback; cbn; [|exact Hsorted].
    rewrite fmap_app. cbn. apply StronglySorted_snoc; [exact Hsorted|].
    now destruct Hstate. }
  assert (Hstate' : Later reported' state).
  { unfold reported', notify. destruct callback; cbn; [|exact Hstate].
    rewrite fmap_app. cbn. destruct Hstate as [Hp Hrep]. split; [exact Hp|].
    apply Forall_app. split; [exact Hrep|]. repeat constructor. lra. }
  assert (Hrest' : Forall (Later reported') (pq_items rest)).
  { unfold reported', notify. destruct callback; cbn; [|exact Hrest].
    rewrite fmap_app. cbn.
    rewrite Forall_forall in Hrest, Hmin. apply Forall_forall. intros e He.
    apply Later_more; auto. }
  destruct (notify callback (calls s) (e_node state) (e_cost state)) as [[[]|e] made];
    cbn in reported'; [|exact Hsorted'].
  destruct (decide _); [exact Hsorted'|].
  destruct (graph !! e_node state) as [nb|] eqn:Hnb; [|exact Hsorted'].
  destruct (forEach (relax state) (map_to_list nb) (costs s, rest))
    as [[costs' queue']|e] eqn:Hrun; [|exact Hsorted'].
  split; [exact Hsorted'|]. cbn [queue calls].
  change queue' with (costs', queue').2.
  eapply (forEach_invariant (fun acc => Forall (Later reported') (pq_items acc.2))
            _ _ (costs s, rest)); [|exact Hrest'|exact Hrun].
  intros acc nw acc' Hin Hacc Hb.
  exact (relax_later reported' state nb acc nw acc' Hstate' Hnb Hin Hacc Hb).
Qed.

Lemma core_loop_ordered fuel s r made :
  ReportedInOrder s -> loop iteration fuel s = Some (r, made) -> StronglySorted Qle made.*2.
Proof.
  revert s. induction fuel as [|fuel IH]; intros s Hs Hrun; cbn in Hrun; [discriminate|].
  pose proof (core_iteration_ordered s Hs) as Hstep.
  destruct (iteration s) as [s'|r' made'].
  - exact (IH s' Hstep Hrun).
  - now injection Hrun as <- <-.
Qed.

Lemma core_ordered fuel (e0 : Entry) c0 r made :
  e_prio e0 == e_cost e0 ->
  loop iteration fuel (mkSearch c0 (pq_new [e0]) []) = Some (r, made) ->
  StronglySorted Qle made.*2.
Proof.
  intros He0. apply core_loop_ordered. split; cbn; [constructor|].
  rewrite pq_new_items. repeat constructor. exact He0.
Qed.
End CoreOrder.

Section CoreMissing.
Context {Entry : Type}.
Variables (e_cost : Entry -> Q) (e_path : Entry -> list Key) (e_node : Entry -> Key).
Variable e_prio : Entry -> Q.
Context `{PQ : PriorityQueue Entry e_prio}.
Variable make : Q -> list Key -> Key -> Entry.
Variable lazy : bool.
Variable guard : option (TurnInput -> Result bool).
Variable bias : option (BiasInput -> Result jsnum).
Variable callback : option (Expansion -> Result unit).
Variable graph : Vertices.
Variable goal : Key.

Local Abbreviation iteration :=
  (core_iteration e_cost e_path e_node e_prio make lazy guard bias callback graph goal).

Lemma core_missing_row fuel (e0 : Entry) start made :
  e_cost e0 = 0 -> e_node e0 = start ->
  graph !! start = None -> start <> goal ->
  notify callback [] start 0 = (Ok tt, made) ->
  loop iteration (S fuel) (mkSearch {[start := 0]} (pq_new [e0]) [])
  = Some (Throw TypeError, made).
Proof.
  intros Hc Hn Hrow Hgoal Hcb. cbn [loop].
  unfold core_iteration. cbn [queue costs calls].
  destruct (pq_pop_singleton e0) as (q' & Hpop & _). rewrite Hpop.
  rewrite Hn, Hc, lookup_singleton_eq. cbn [stale].
  destruct (Qlt_le_dec 0 0) as [Hlt|_]; [lra|].
  rewrite andb_false_r, Hcb.
  rewrite decide_False by exact Hgoal. rewrite Hrow. reflexivity.
Qed.
End CoreMissing.

Section SearchReports.
Context {EdgeData : Type}.
Context `{PQD : PriorityQueue Dijkstra.State Dijkstra.cost}.
Context `{PQA : PriorityQueue AStar.State AStar.estimate}.
Variable distance : Position -> Position -> Q.
Local Abbreviation Graph := (PathFinderGraph EdgeData).

(** X5. What a search reports to [onNodeExpanded]: without a callback
    nothing; with one, the first report is the start key at cost 0, and
    when a path is returned the last report is the goal key at the weight
    of that path. *)
Theorem expansion_reports fuel (g : Graph) start finish searchOptions r made :
  runSearch distance fuel g start finish searchOptions = Some (r, made) ->
  match onNodeExpanded searchOptions with
  | None => made = []
  | Some _ =>
      (exists later, made = (start, 0) :: later) /\
      (forall w keys, r = Ok (Some (w, keys)) ->
         exists earlier, made = earlier ++ [(finish, w)])
  end.
Proof.
  unfold runSearch. intros Hrun.
  set (dO := dijkstraOptions (sharedOptionsOf g finish searchOptions)) in *.
  set (aO := astarOptions (sharedOptionsOf g finish searchOptions) (sourceCoordinates g)) in *.
  destruct (onNodeExpanded searchOptions) as [f|] eqn:Hcb.
  - split.
    + destruct (algorithm searchOptions) as [[|]|].
      * refine (core_loop_first_call Dijkstra.cost Dijkstra.path Dijkstra.node Dijkstra.cost
                  Dijkstra.mkState false (Dijkstra.isTurnAllowed dO) (Dijkstra.directionBias dO)
                  (Dijkstra.onNodeExpanded dO) (compactedVertices g) finish fuel
                  (Dijkstra.mkState 0 [start] start) start f r made _ _ _ Hrun);
          [exact Hcb|reflexivity|reflexivity].
      * refine (core_loop_first_call AStar.cost AStar.path AStar.node AStar.estimate
                  (fun c p n => AStar.mkState c
                     (c + AStar.heuristic distance n finish (Some (sourceCoordinates g))) p n)
                  true None (AStar.directionBias aO) (AStar.onNodeExpanded aO)
                  (compactedVertices g) finish fuel
                  (AStar.mkState 0 _ [start] start) start f r made _ _ _ Hrun);
          [exact Hcb|reflexivity|reflexivity].
      * refine (core_loop_first_call Dijkstra.cost Dijkstra.path Dijkstra.node Dijkstra.cost
                  Dijkstra.mkState false (Dijkstra.isTurnAllowed dO) (Dijkstra.directionBias dO)
                  (Dijkstra.onNodeExpanded dO) (compactedVertices g) finish fuel
                  (Dijkstra.mkState 0 [start] start) start f r made _ _ _ Hrun);
          [exact Hcb|reflexivity|reflexivity].
    + intros w keys ->.
      destruct (algorithm searchOptions) as [[|]|].
      * refine (core_loop_last_call Dijkstra.cost Dijkstra.path Dijkstra.node Dijkstra.cost
                  Dijkstra.mkState false (Dijkstra.isTurnAllowed dO) (Dijkstra.directionBias dO)
                  (Dijkstra.onNodeExpanded dO) (compactedVertices g) finish fuel _ f w keys made _ Hrun).
        exact Hcb.
      * refine (core_loop_last_call AStar.cost AStar.path AStar.node AStar.estimate
                  (fun c p n => AStar.mkState c
                     (c + AStar.heuristic distance n finish (Some (sourceCoordinates g))) p n)
                  true None (AStar.directionBias aO) (AStar.onNodeExpanded aO)
                  (compactedVertices g) finish fuel _ f w keys made _ Hrun).
        exact Hcb.
      * refine (core_loop_last_call Dijkstra.cost Dijkstra.path Dijkstra.node Dijkstra.cost
                  Dijkstra.mkState false (Dijkstra.isTurnAllowed dO) (Dijkstra.directionBias dO)
                  (Dijkstra.onNodeExpanded dO) (compactedVertices g) finish fuel _ f w keys made _ Hrun).
        exact Hcb.
  - destruct (algorithm searchOptions) as [[|]|].
    + refine (core_loop_no_callback Dijkstra.cost Dijkstra.path Dijkstra.node Dijkstra.cost
                Dijkstra.mkState false (Dijkstra.isTurnAllowed dO) (Dijkstra.directionBias dO)
                  (Dijkstra.onNodeExpanded dO) (compactedVertices g) finish fuel _ r made _ Hrun).
      exact Hcb.
    + refine (core_loop_no_callback AStar.cost AStar.path AStar.node AStar.estimate
                (fun c p n => AStar.mkState c
                   (c + AStar.heuristic distance n finish (Some (sourceCoordinates g))) p n)
                true None (AStar.directionBias aO) (AStar.onNodeExpanded aO)
                  (compactedVertices g) finish fuel _ r made _ Hrun).
      exact Hcb.
    + refine (core_loop_no_callback Dijkstra.cost Dijkstra.path Dijkstra.node Dijkstra.cost
                Dijkstra.mkState false (Dijkstra.isTurnAllowed dO) (Dijkstra.directionBias dO)
                  (Dijkstra.onNodeExpanded dO) (compactedVertices g) finish fuel _ r made _ Hrun).
      exact Hcb.
Qed.
End SearchReports.

(** X4. Without a direction bias and with no negative edge weight,
    Dijkstra reports the expanded nodes to [onNodeExpanded] in order of
    non-decreasing cost, whatever [isTurnAllowed] rejects and however
    the search ends. *)
Theorem dijkstra_reports_in_cost_order
    `{PQ : PriorityQueue Dijkstra.State Dijkstra.cost}
    fuel graph start goal guard callback r made :
  (forall n m w, edgeWeight graph n m = Some w -> 0 <= w) ->
  Dijkstra.findPath fuel graph start goal (Dijkstra.mkOptions None guard callback)
  = Some (r, made) ->
  StronglySorted Qle made.*2.
Proof.
  intros Hnonneg Hrun.
  refine (core_ordered Dijkstra.cost Dijkstra.path Dijkstra.node Dijkstra.cost
            Dijkstra.mkState (fun _ _ _ => eq_refl) _ false guard callback graph goal
            Hnonneg fuel (Dijkstra.mkState 0 [start] start) {[start := 0]} r made _ Hrun).
  - intros c p n. reflexivity.
  - reflexivity.
Qed.


Lemma expansion_reports_witness :
  (exists later, [("A", 0); ("B", 3)] = ("A", 0) :: later) /\
  (forall w keys, Ok (Some (3, ["A"; "B"])) = Ok (Some (w, keys)) ->
     exists earlier, [("A", 0); ("B", 3)] = earlier ++ [("B", w)]).
Proof.
  refine (expansion_reports (PQD := ListQueue Dijkstra.cost)
            (PQA := ListQueue AStar.estimate) equatorKm 10 Chain.graph "A" "B"
            (mkSearchOptions None None (Some astar) observer)
            (Ok (Some (3, ["A"; "B"]))) [("A", 0); ("B", 3)] _).
  vm_compute. reflexivity.
Defined.

Lemma dijkstra_reports_in_cost_order_witness :
  StronglySorted Qle [0; 1; 2; 5; 12].
Proof.
  refine (dijkstra_reports_in_cost_order (PQ := ListQueue Dijkstra.cost)
            10 Detour.graph "s" "t" None observer
            (Ok (Some (12, ["s"; "b"; "a"; "t"])))
            [("s", 0); ("b", 1); ("a", 2); ("a", 5); ("t", 12)] _ _).
  - intros n m w Hedge.
    assert (Hpc : positiveClosed Detour.graph = true) by (vm_compute; reflexivity).
    destruct (positiveClosed_spec _ _ _ _ Hpc Hedge) as [Hlt _].
    apply Qlt_le_weak. exact Hlt.
  - vm_compute. reflexivity.
Defined.


(** ** How far rounding moves a coordinate *)

Lemma Math_round_near (x t : Q) :
  0 < t ->
  Qabs (inject_Z (Math_round (x / t)) * t - x) <= t / 2.
Proof.
  intros Ht. unfold Math_round.
  pose proof (Qfloor_le (x / t + (1 # 2))) as Hlo.
  pose proof (Qlt_floor (x / t + (1 # 2))) as Hhi.
  rewrite inject_Z_plus in Hhi. change (inject_Z 1) with 1 in Hhi.
  assert (E : inject_Z (Qfloor (x / t + (1 # 2))) * t - x
              == (inject_Z (Qfloor (x / t + (1 # 2))) - x / t) * t) by (field; lra).
  rewrite E. clear E.
  set (k := inject_Z (Qfloor (x / t + (1 # 2)))) in *.
  set (y := x / t) in *.
  assert (Hhalf : t / 2 == (1 # 2) * t) by field.
  rewrite Hhalf.
  apply Qabs_Qle_condition. split.
  - assert (E : - ((1 # 2) * t) == (- (1 # 2)) * t) by ring.
    rewrite E. apply Qmult_le_compat_r; lra.
  - apply Qmult_le_compat_r; lra.
Qed.



(** ** What a call leaves alone *)

Section RawTables.
Context {EdgeData : Type}.
Local Abbreviation Graph := (PathFinderGraph EdgeData).

(** The tables no method writes: the raw graph and the source
    coordinates. *)
Definition SameRaw (g g' : Graph) : Prop :=
  vertices g' = vertices g /\ edgeData g' = edgeData g /\
  sourceCoordinates g' = sourceCoordinates g.

Lemma SameRaw_refl (g : Graph) : SameRaw g g.
Proof. repeat split. Qed.

Lemma SameRaw_trans (g1 g2 g3 : Graph) : SameRaw g1 g2 -> SameRaw g2 g3 -> SameRaw g1 g3.
Proof. intros (A1 & A2 & A3) (B1 & B2 & B3). repeat split; congruence. Qed.

Definition KeepsRaw {A} (m : M EdgeData A) : Prop :=
  forall g r g', m g = (r, g') -> SameRaw g g'.

Lemma KeepsRaw_bind {A B} (m : M EdgeData A) (k : A -> M EdgeData B) :
  KeepsRaw m -> (forall a, KeepsRaw (k a)) -> KeepsRaw (mbind m k).
Proof.
  intros Hm Hk g r g'. unfold mbind.
  destruct (m g) as [[a|e] g1] eqn:Hrun.
  - intros Hrest. eapply SameRaw_trans; [exact (Hm _ _ _ Hrun)|exact (Hk a _ _ _ Hrest)].
  - intros [= <- <-]. exact (Hm _ _ _ Hrun).
Qed.

Lemma KeepsRaw_ret {A} (a : A) : KeepsRaw (mret (EdgeData := EdgeData) a).
Proof. intros g r g' [= <- <-]. apply SameRaw_refl. Qed.

Lemma KeepsRaw_throw {A} e : KeepsRaw (mthrow (EdgeData := EdgeData) (A := A) e).
Proof. intros g r g' [= <- <-]. apply SameRaw_refl. Qed.

Lemma KeepsRaw_get_bind {B} (k : Graph -> M EdgeData B) :
  (forall a, KeepsRaw (k a)) -> KeepsRaw (mbind mget k).
Proof. intros Hk. apply KeepsRaw_bind; [|exact Hk]. intros g r g' [= <- <-]. apply SameRaw_refl. Qed.

Lemma KeepsRaw_forEach {A} (body : A -> M EdgeData unit) (l : list A) :
  (forall a, KeepsRaw (body a)) -> KeepsRaw (mforEach body l).
Proof.
  intros Hbody. induction l as [|a l IH]; cbn [mforEach].
  - apply KeepsRaw_ret.
  - apply KeepsRaw_bind; [apply Hbody|intros _; exact IH].
Qed.

Lemma KeepsRaw_vertices f : KeepsRaw (update_compactedVertices (EdgeData := EdgeData) f).
Proof. intros g r g' [= <- <-]. repeat split. Qed.

Lemma KeepsRaw_coordinates f :
  KeepsRaw (update_compactedCoordinates (EdgeData := EdgeData) f).
Proof. intros g r g' [= <- <-]. repeat split. Qed.

Lemma KeepsRaw_edges f : KeepsRaw (update_compactedEdges (EdgeData := EdgeData) f).
Proof. intros g r g' [= <- <-]. repeat split. Qed.

Lemma KeepsRaw_unlink {V} (table : Graph -> gmap Key (gmap Key V)) update n :
  (forall f, KeepsRaw (update f)) -> KeepsRaw (unlink table update n).
Proof.
  intros Hupdate. unfold unlink. apply KeepsRaw_get_bind. intros g.
  destruct (table g !! n); [|apply KeepsRaw_throw].
  apply KeepsRaw_forEach. intros neighbor. apply KeepsRaw_get_bind. intros h.
  destruct (table h !! neighbor); [apply Hupdate|apply KeepsRaw_throw].
Qed.

Lemma KeepsRaw_removePhantom hasEdgeDataReducer n :
  KeepsRaw (_removePhantom (EdgeData := EdgeData) hasEdgeDataReducer n).
Proof.
  unfold _removePhantom. destruct n as [k|]; [|apply KeepsRaw_ret].
  destruct (falsy (Some k)); [apply KeepsRaw_ret|].
  repeat (apply KeepsRaw_bind; [|intros _]);
    auto using KeepsRaw_unlink, KeepsRaw_vertices, KeepsRaw_coordinates, KeepsRaw_edges.
  destruct hasEdgeDataReducer;
    auto using KeepsRaw_unlink, KeepsRaw_edges, KeepsRaw_ret.
Qed.

Lemma KeepsRaw_createPhantom compactNode hasEdgeDataReducer n :
  KeepsRaw (_createPhantom (EdgeData := EdgeData) compactNode hasEdgeDataReducer n).
Proof.
  intros g r g' Hrun.
  destruct (createPhantom_frame compactNode hasEdgeDataReducer n g g' r Hrun)
    as ((H1 & H2 & H3 & _) & _).
  repeat split; assumption.
Qed.
End RawTables.

Section AfterCall.
Context {EdgeData : Type}.
Context `{PQD : PriorityQueue Dijkstra.State Dijkstra.cost}.
Context `{PQA : PriorityQueue AStar.State AStar.estimate}.
Variable distance : Position -> Position -> Q.
Variable compactNode :
  Key -> Vertices -> Vertices -> Coordinates ->
  gmap Key (gmap Key (option EdgeData)) -> CompactedNode EdgeData.
Variable hasEdgeDataReducer : bool.
Local Abbreviation Graph := (PathFinderGraph EdgeData).
Local Abbreviation fromKeys :=
  (findPathFromVertexKeys distance compactNode hasEdgeDataReducer).

(** X8. Whatever a call of [findPathFromVertexKeys] does (return a path,
    return absent, throw), it leaves the raw graph, the edge data and the
    source coordinates as they were; so every endpoint resolves after the
    call as it did before. *)
Theorem call_keeps_raw_graph (g g' : Graph) fuel start finish searchOptions r made :
  fromKeys fuel start finish searchOptions g = Some (r, g', made) ->
  vertices g' = vertices g /\ edgeData g' = edgeData g /\
  sourceCoordinates g' = sourceCoordinates g /\
  forall coordinate keyFn tolerance,
    _resolveVertexKey g' coordinate keyFn tolerance
    = _resolveVertexKey g coordinate keyFn tolerance.
Proof.
  intros Hrun.
  assert (Hraw : SameRaw g g').
  { unfold findPathFromVertexKeys in Hrun.
    destruct (decide _) as [_|_]; [|injection Hrun as <- <- <-; apply SameRaw_refl].
    destruct (_createPhantom compactNode hasEdgeDataReducer start g)
      as [[phantomStart|e] g1] eqn:H1.
    2:{ injection Hrun as <- <- <-. exact (KeepsRaw_createPhantom _ _ _ _ _ _ H1). }
    destruct (_createPhantom compactNode hasEdgeDataReducer finish g1)
      as [[phantomEnd|e] g2] eqn:H2.
    2:{ injection Hrun as <- <- <-.
        eapply SameRaw_trans; [exact (KeepsRaw_createPhantom _ _ _ _ _ _ H1)|].
        exact (KeepsRaw_createPhantom _ _ _ _ _ _ H2). }
    destruct (runSearch distance fuel g2 start finish searchOptions)
      as [[searched made']|]; [|discriminate].
    match type of Hrun with
    | context [mbind ?m ?k g2] => destruct (mbind m k g2) as [removed g3] eqn:H3
    end.
    assert (Hremove : SameRaw g2 g3).
    { revert H3. apply KeepsRaw_bind; [apply KeepsRaw_removePhantom|].
      intros _. apply KeepsRaw_removePhantom. }
    assert (Hall : SameRaw g g3).
    { eapply SameRaw_trans; [exact (KeepsRaw_createPhantom _ _ _ _ _ _ H1)|].
      eapply SameRaw_trans; [exact (KeepsRaw_createPhantom _ _ _ _ _ _ H2)|].
      exact Hremove. }
    destruct removed as [[]|e]; injection Hrun as <- <- <-; exact Hall. }
  destruct Hraw as (Hv & He & Hs). repeat split; try assumption.
  intros coordinate keyFn tolerance.
  unfold _resolveVertexKey, matchesOf. rewrite Hv, Hs. reflexivity.
Qed.

(** X9. The graph a call leaves behind depends on the graph before it and
    on the two keys only: two calls from the same graph with the same
    keys leave the same graph, whatever algorithm and callbacks they are
    given, and whether the search returns, finds nothing or throws. *)
Theorem graph_after_call_ignores_search (g g1 g2 : Graph) fuel1 fuel2 start finish
    options1 options2 r1 r2 made1 made2 :
  fromKeys fuel1 start finish options1 g = Some (r1, g1, made1) ->
  fromKeys fuel2 start finish options2 g = Some (r2, g2, made2) ->
  g1 = g2.
Proof.
  unfold findPathFromVertexKeys.
  destruct (decide _) as [_|_]; [|congruence].
  destruct (_createPhantom compactNode hasEdgeDataReducer start g)
    as [[phantomStart|e] h1]; [|congruence].
  destruct (_createPhantom compactNode hasEdgeDataReducer finish h1)
    as [[phantomEnd|e] h2]; [|congruence].
  destruct (runSearch distance fuel1 h2 start finish options1)
    as [[searched1 made1']|]; [|discriminate].
  destruct (runSearch distance fuel2 h2 start finish options2)
    as [[searched2 made2']|]; [|discriminate].
  match goal with
  | |- context [mbind ?m ?k h2] => destruct (mbind m k h2) as [[[]|e] h3]
  end; congruence.
Qed.
End AfterCall.

Lemma call_keeps_raw_graph_witness :
  exists r g' made,
    findPathFromVertexKeys (PQD := ListQueue Dijkstra.cost)
      (PQA := ListQueue AStar.estimate)
      equatorKm Chain.chainCompactNode false 10 "N" "B"
      (mkSearchOptions None None None refuser) Chain.graph = Some (r, g', made) /\
    vertices g' = vertices Chain.graph /\ edgeData g' = edgeData Chain.graph /\
    sourceCoordinates g' = sourceCoordinates Chain.graph /\
    forall coordinate keyFn tolerance,
      _resolveVertexKey g' coordinate keyFn tolerance
      = _resolveVertexKey Chain.graph coordinate keyFn tolerance.
Proof.
  assert (Hrun : exists x,
    findPathFromVertexKeys (PQD := ListQueue Dijkstra.cost)
      (PQA := ListQueue AStar.estimate)
      equatorKm Chain.chainCompactNode false 10 "N" "B"
      (mkSearchOptions None None None refuser) Chain.graph = Some x)
    by (vm_compute; eexists; reflexivity).
  destruct Hrun as ([[r g'] made] & Hrun).
  exists r, g', made. split; [exact Hrun|].
  exact (call_keeps_raw_graph equatorKm Chain.chainCompactNode false
           Chain.graph g' 10 "N" "B" _ r made Hrun).
Defined.

Lemma graph_after_call_ignores_search_witness :
  exists r1 g1 made1 r2 g2 made2,
    findPathFromVertexKeys (PQD := ListQueue Dijkstra.cost)
      (PQA := ListQueue AStar.estimate)
      equatorKm Chain.chainCompactNode false 10 "N" "B"
      (mkSearchOptions None None None refuser) Chain.graph = Some (r1, g1, made1) /\
    findPathFromVertexKeys (PQD := ListQueue Dijkstra.cost)
      (PQA := ListQueue AStar.estimate)
      equatorKm Chain.chainCompactNode false 10 "N" "B"
      (mkSearchOptions None None (Some astar) None) Chain.graph = Some (r2, g2, made2) /\
    g1 = g2.
Proof.
  assert (Hrun1 : exists x,
    findPathFromVertexKeys (PQD := ListQueue Dijkstra.cost)
      (PQA := ListQueue AStar.estimate)
      equatorKm Chain.chainCompactNode false 10 "N" "B"
      (mkSearchOptions None None None refuser) Chain.graph = Some x)
    by (vm_compute; eexists; reflexivity).
  assert (Hrun2 : exists x,
    findPathFromVertexKeys (PQD := ListQueue Dijkstra.cost)
      (PQA := ListQueue AStar.estimate)
      equatorKm Chain.chainCompactNode false 10 "N" "B"
      (mkSearchOptions None None (Some astar) None) Chain.graph = Some x)
    by (vm_compute; eexists; reflexivity).
  destruct Hrun1 as ([[r1 g1] made1] & Hrun1).
  destruct Hrun2 as ([[r2 g2] made2] & Hrun2).
  exists r1, g1, made1, r2, g2, made2. split; [exact Hrun1|]. split; [exact Hrun2|].
  exact (graph_after_call_ignores_search equatorKm Chain.chainCompactNode false
           Chain.graph g1 g2 10 10 "N" "B" _ _ r1 r2 made1 made2 Hrun1 Hrun2).
Defined.

Section ReturnedPath.
Context {EdgeData : Type}.
Context `{PQD : PriorityQueue Dijkstra.State Dijkstra.cost}.
Context `{PQA : PriorityQueue AStar.State AStar.estimate}.
Variable distance : Position -> Position -> Q.
Variable compactNode :
  Key -> Vertices -> Vertices -> Coordinates ->
  gmap Key (gmap Key (option EdgeData)) -> CompactedNode EdgeData.
Variable hasEdgeDataReducer : bool.
Local Abbreviation Graph := (PathFinderGraph EdgeData).
Local Abbreviation fromKeys :=
  (findPathFromVertexKeys distance compactNode hasEdgeDataReducer).

Lemma consecutive_length (keys : list Key) :
  length (consecutive keys) = (length keys - 1)%nat.
Proof.
  induction keys as [|a [|b rest] IH]; [reflexivity..|].
  change (consecutive (a :: b :: rest)) with ((a, b) :: consecutive (b :: rest)).
  cbn [length] in *. rewrite IH. lia.
Qed.

Lemma edgeDatasOf_length (g : Graph) keys datas :
  edgeDatasOf g keys = Ok datas -> length datas = length (consecutive keys).
Proof.
  unfold edgeDatasOf.
  assert (Hgen : forall l (acc : list (option EdgeData)) datas,
            forEach (fun edges '(previous, vertexKey) =>
                       match compactedEdges g !! previous with
                       | None => Throw TypeError
                       | Some row => Ok (edges ++ [mjoin (row !! vertexKey)])
                       end) l acc = Ok datas ->
            length datas = (length acc + length l)%nat).
  { induction l as [|[previous vertexKey] l IH]; intros acc out Hrun; cbn in Hrun.
    - injection Hrun as <-. cbn. lia.
    - destruct (compactedEdges g !! previous) as [row|]; cbn in Hrun; [|discriminate].
      apply IH in Hrun. rewrite Hrun, length_app. cbn. lia. }
  intros Hrun. apply Hgen in Hrun. exact Hrun.
Qed.

End ReturnedPath.


(** ** The turn rule of the earlier facade *)

Lemma replay_allowed graph f bias c q from rest out :
  replay graph (Some f) bias c (q ++ [from]) from rest = Some out ->
  forall before from' to after,
    from :: rest = before ++ from' :: to :: after ->
    f {| ti_path := q ++ before ++ [from']; ti_from := from'; ti_to := to |} = Ok true.
Proof.
  revert c q from out. induction rest as [|next rest IH]; intros c q from out Hrun
    before from' to after Hsplit.
  - destruct before as [|? [|? ?]]; discriminate.
  - cbn [replay] in Hrun.
    destruct (edgeWeight graph from next) as [w|]; [|discriminate].
    destruct (allowedAt (Some f) (q ++ [from]) from next) as [[|]|] eqn:Hallowed;
      try discriminate.
    destruct (biasAt bias c (q ++ [from]) from next) as [[b|]|]; try discriminate.
    destruct (replay graph (Some f) bias (c + w + b) ((q ++ [from]) ++ [next]) next rest)
      as [out'|] eqn:Hrest; [|discriminate].
    destruct before as [|first before].
    + injection Hsplit as <- <- <-. exact Hallowed.
    + injection Hsplit as <- Hsplit.
      specialize (IH _ _ _ _ Hrest before from' to after Hsplit).
      rewrite <- app_assoc in IH. exact IH.
Qed.

(** X10. In the earlier facade every step of a key sequence that Dijkstra
    returns passed the turn rule: [_isTurnObtuse] held for the step, given
    the keys that lead to it. *)
Theorem earlier_path_takes_allowed_turns {EdgeData : Type}
    `{PQ : PriorityQueue Dijkstra.State Dijkstra.cost}
    tolerance (g : PathFinderGraph EdgeData) fuel start finish
    directionBias onNodeExpanded w p made :
  Dijkstra.findPath fuel (compactedVertices g) start finish
    (EarlierTurn.sharedOptions tolerance g directionBias onNodeExpanded)
  = Some (Ok (Some (w, p)), made) ->
  forall before from to after,
    p = before ++ from :: to :: after ->
    EarlierTurn._isTurnObtuse tolerance g (before ++ [from]) from to = true.
Proof.
  intros Hrun before from to after Hsplit.
  destruct (dijkstra_found _ _ _ _ _ _ _ _ Hrun) as (rest & ws & bs & Hp & _ & Hreplay & _).
  cbn [Dijkstra.isTurnAllowed Dijkstra.directionBias EarlierTurn.sharedOptions] in Hreplay.
  rewrite Hp in Hsplit.
  pose proof (replay_allowed _ _ _ 0 [] start rest _ Hreplay before from to after Hsplit)
    as Hallowed.
  cbn in Hallowed. unfold EarlierTurn.isTurnAllowed in Hallowed. cbn in Hallowed.
  now injection Hallowed.
Qed.

Lemma earlier_path_takes_allowed_turns_witness :
  EarlierTurn._isTurnObtuse None Bend.graph ([] ++ ["A"]) "A" "C" = true.
Proof.
  refine (earlier_path_takes_allowed_turns (PQ := ListQueue Dijkstra.cost)
            None Bend.graph 10 "A" "C" None None 2 ["A"; "C"] [] _ [] "A" "C" [] eq_refl).
  vm_compute. reflexivity.
Defined.

(** The hairpin is refused: the only edge out of [A] fails the rule, and
    the search returns nothing. *)
Lemma hairpin_refused :
  EarlierTurn._isTurnObtuse None Hairpin.graph ["A"] "A" "C" = false /\
  Dijkstra.findPath (PQ := ListQueue Dijkstra.cost) 10
    (compactedVertices Hairpin.graph) "A" "C"
    (EarlierTurn.sharedOptions None Hairpin.graph None None)
  = Some (Ok None, []).
Proof. split; vm_compute; reflexivity. Qed.

Local Close Scope Q_scope.

(** ** The worker pool *)

Section PoolOrder.
Context {EdgeData : Type}.
Import Pool.
Local Abbreviation Pool := (Pool.Pool (EdgeData := EdgeData)).
Local Abbreviation World := (Pool.World (EdgeData := EdgeData)).

Definition idsOf (l : list WorkerRequest) : list nat := request_id <$> l.

(** Tasks leave the queue in the order they came, and none waits while a
    worker idles. *)
Record Ordered (p : Pool) : Prop := mkOrdered {
  conserving : queue p = [] \/ idleWorkers p = [];
  posted_sorted : StronglySorted lt (idsOf (posted p).*2);
  queue_sorted : StronglySorted lt (idsOf (queue p));
  posted_bound : Forall (fun i => i < nextId p)%nat (idsOf (posted p).*2);
  queue_bound : Forall (fun i => i < nextId p)%nat (idsOf (queue p));
  queue_after_posted :
    Forall (fun i => Forall (fun j => j < i)%nat (idsOf (posted p).*2)) (idsOf (queue p))
}.

Lemma StronglySorted_lt_snoc (l : list nat) (x : nat) :
  StronglySorted lt l -> Forall (fun y => y < x)%nat l -> StronglySorted lt (l ++ [x]).
Proof.
  induction l as [|a l IH]; intros Hs Hlt; cbn.
  - repeat constructor.
  - apply StronglySorted_inv in Hs as [Hs Ha]. apply Forall_cons in Hlt as [Hax Hlt].
    constructor; [now apply IH|].
    apply Forall_app. split; [exact Ha|]. repeat constructor. exact Hax.
Qed.

(** What the pool's own bookkeeping is: everything but the order. *)
Definition sameOrder (p p' : Pool) : Prop :=
  queue p' = queue p /\ idleWorkers p' = idleWorkers p /\
  posted p' = posted p /\ nextId p' = nextId p.

Lemma Ordered_same p p' : sameOrder p p' -> Ordered p -> Ordered p'.
Proof.
  intros (Hq & Hi & Hp & Hn) [H1 H2 H3 H4 H5 H6].
  split; rewrite ?Hq, ?Hi, ?Hp, ?Hn; assumption.
Qed.

(** Taking the head of the queue for a container. *)
Lemma Ordered_take container task rest (p : Pool) :
  queue p = task :: rest -> Ordered p ->
  Ordered (_dispatch container task (set_queue rest p)).
Proof.
  intros Hq [H1 H2 H3 H4 H5 H6]. rewrite Hq in *. unfold idsOf in *.
  cbn in H3, H5, H6.
  apply StronglySorted_inv in H3 as [H3 Hhead].
  apply Forall_cons in H5 as [Hb H5]. apply Forall_cons in H6 as [Ha H6].
  destruct H1 as [H1|H1]; [discriminate|].
  split; unfold idsOf; cbn.
  - now right.
  - rewrite !fmap_app. cbn. apply StronglySorted_lt_snoc; assumption.
  - exact H3.
  - rewrite !fmap_app. cbn. apply Forall_app. split; [exact H4|]. repeat constructor. exact Hb.
  - exact H5.
  - rewrite !fmap_app. cbn.
    rewrite Forall_forall in H6, Hhead. apply Forall_forall. intros i Hi.
    apply Forall_app. split; [now apply H6|]. repeat constructor. now apply Hhead.
Qed.

Lemma Ordered_idle container (p : Pool) :
  queue p = [] -> Ordered p -> Ordered (set_idleWorkers (idleWorkers p ++ [container]) p).
Proof.
  intros Hq [H1 H2 H3 H4 H5 H6]. split; cbn; try assumption. now left.
Qed.

Lemma Ordered_release container (p : Pool) :
  Ordered p -> Ordered (_release container p).
Proof.
  intros Hp. unfold _release. cbn [disposed set_currentTask].
  assert (Hp' : Ordered (set_currentTask (delete container (currentTask p)) p)).
  { eapply Ordered_same; [|exact Hp]. repeat split. }
  destruct (disposed p); [exact Hp'|].
  cbn [queue set_currentTask].
  destruct (queue p) as [|task rest] eqn:Hq.
  - apply Ordered_idle; [exact Hq|exact Hp'].
  - apply Ordered_take; [exact Hq|exact Hp'].
Qed.

Lemma Ordered_spawn given (p : Pool) :
  Ordered p -> Ordered (_spawnWorker given p).
Proof.
  intros Hp. unfold _spawnWorker. destruct (negb _); [exact Hp|].
  assert (Hp' : Ordered (set_workers (workers p ++ [created p])
                           (set_created (S (created p)) p))).
  { eapply Ordered_same; [|exact Hp]. repeat split. }
  cbn [queue set_workers set_created].
  destruct (queue p) as [|task rest] eqn:Hq.
  - apply Ordered_idle; [exact Hq|exact Hp'].
  - apply Ordered_take; [exact Hq|exact Hp'].
Qed.

Lemma spliceOut_nil container l : l = [] -> spliceOut container l = [].
Proof. now intros ->. Qed.

Lemma Ordered_remove container (p : Pool) :
  Ordered p -> Ordered (_removeWorker container p).
Proof.
  intros [H1 H2 H3 H4 H5 H6]. split; cbn; try assumption.
  destruct H1 as [H1|H1]; [now left|right]. now apply spliceOut_nil.
Qed.

Lemma Ordered_rejectCurrent container reason (p : Pool) :
  Ordered p -> Ordered (rejectCurrent container reason p).
Proof.
  intros Hp. unfold rejectCurrent. destruct (currentTask p !! container); [|exact Hp].
  eapply Ordered_same; [|exact Hp]. repeat split.
Qed.

Lemma Ordered_handleMessage container message (p : Pool) :
  Ordered p -> Ordered (_handleMessage container message p).
Proof.
  intros Hp. unfold _handleMessage.
  destruct (tasks p !! response_id message); [|now apply Ordered_release].
  apply Ordered_release.
  destruct (response_error message); (eapply Ordered_same; [|exact Hp]); repeat split.
Qed.

Lemma Ordered_handleError container error (p : Pool) :
  Ordered p -> Ordered (_handleError container error p).
Proof.
  intros Hp. unfold _handleError.
  pose proof (Ordered_remove container _ (Ordered_rejectCurrent container (WorkerFailed error) p Hp)) as Hr.
  destruct (disposed _); [exact Hr|]. now apply Ordered_spawn.
Qed.

Lemma Ordered_handleExit container code (p : Pool) :
  Ordered p -> Ordered (_handleExit container code p).
Proof.
  intros Hp. unfold _handleExit.
  pose proof (Ordered_remove container _ (Ordered_rejectCurrent container TerminatedUnexpectedly p Hp)) as Hr.
  destruct (_ && _); [|exact Hr]. now apply Ordered_spawn.
Qed.

Lemma Ordered_iter_spawn n (p : Pool) :
  Ordered p -> Ordered (Nat.iter n (_spawnWorker true) p).
Proof.
  intros Hp. induction n as [|n IH]; [exact Hp|].
  change (Ordered (_spawnWorker true (Nat.iter n (_spawnWorker true) p))).
  now apply Ordered_spawn.
Qed.

Lemma Ordered_onWorkerThreads loaded (p : Pool) :
  Ordered p -> Ordered (onWorkerThreads loaded p).
Proof.
  intros Hp. unfold onWorkerThreads.
  destruct (negb loaded); [eapply Ordered_same; [|exact Hp]; repeat split|].
  destruct (disposed p); [eapply Ordered_same; [|exact Hp]; repeat split|].
  eapply Ordered_same; [|apply (Ordered_iter_spawn (poolSize p))].
  - repeat split.
  - eapply Ordered_same; [|exact Hp]. repeat split.
Qed.

Lemma last_None_nil {A} (l : list A) : last l = None -> l = [].
Proof. destruct l as [|a l] using rev_ind; [reflexivity|]. rewrite last_snoc. discriminate. Qed.

Lemma Ordered_schedule start finish searchOptions (p p' : Pool) outcome :
  schedule start finish searchOptions p = Some (outcome, p') ->
  Ordered p -> Ordered p'.
Proof.
  unfold schedule. intros Hrun Hp.
  destruct (disposed p); [now injection Hrun as <- <-|].
  destruct (readyPromise p); try discriminate; [|now injection Hrun as <- <-].
  destruct Hp as [H1 H2 H3 H4 H5 H6]. cbn in Hrun.
  destruct (last (idleWorkers p)) as [worker|] eqn:Hlast; injection Hrun as <- <-.
  - destruct H1 as [H1|H1]; [|rewrite H1 in Hlast; discriminate].
    split; unfold idsOf in *; cbn; rewrite ?H1 in *; cbn.
    + now left.
    + rewrite !fmap_app. cbn. apply StronglySorted_lt_snoc; assumption.
    + constructor.
    + rewrite !fmap_app. cbn. apply Forall_app. split.
      * eapply Forall_impl; [exact H4|]. cbn. lia.
      * repeat constructor.
    + constructor.
    + constructor.
  - apply last_None_nil in Hlast.
    split; unfold idsOf in *; cbn.
    + now right.
    + exact H2.
    + rewrite fmap_app. cbn. apply StronglySorted_lt_snoc; assumption.
    + eapply Forall_impl; [exact H4|]. cbn. lia.
    + rewrite fmap_app. cbn. apply Forall_app. split.
      * eapply Forall_impl; [exact H5|]. cbn. lia.
      * repeat constructor.
    + rewrite fmap_app. cbn. apply Forall_app. split; [exact H6|].
      repeat constructor. exact H4.
Qed.

Lemma sameOrder_refl (p : Pool) : sameOrder p p.
Proof. repeat split. Qed.

Lemma sameOrder_trans (p1 p2 p3 : Pool) :
  sameOrder p1 p2 -> sameOrder p2 p3 -> sameOrder p1 p3.
Proof. intros (A1 & A2 & A3 & A4) (B1 & B2 & B3 & B4). repeat split; congruence. Qed.

Lemma sameOrder_fold {A} (f : Pool -> A -> Pool) (l : list A) (p : Pool) :
  (forall p a, sameOrder p (f p a)) -> sameOrder p (fold_left f l p).
Proof.
  intros Hf. revert p. induction l as [|a l IH]; intros p; cbn.
  - apply sameOrder_refl.
  - eapply sameOrder_trans; [apply Hf|apply IH].
Qed.

Lemma sameOrder_rejectQueued (p : Pool) : sameOrder (set_queue [] p) (rejectQueued p).
Proof. unfold rejectQueued. apply sameOrder_fold. intros q a. repeat split. Qed.

Lemma sameOrder_rejectRunning (p : Pool) : sameOrder p (rejectRunning p).
Proof.
  unfold rejectRunning. apply sameOrder_fold. intros q a. unfold rejectRunningAt.
  destruct (currentTask q !! a); repeat split.
Qed.

Lemma Ordered_close_ready (p : Pool) : Ordered p -> Ordered (close_ready p).
Proof.
  intros [H1 H2 H3 H4 H5 H6].
  assert (Hempty : Ordered (set_queue [] p)).
  { split; cbn; [now left|assumption|constructor|assumption|constructor|constructor]. }
  unfold close_ready.
  pose proof (Ordered_same _ _ (sameOrder_rejectQueued p) Hempty) as Hq.
  pose proof (Ordered_same _ _ (sameOrder_rejectRunning _) Hq) as Hr.
  eapply Ordered_same; [|exact Hr]. repeat split.
Qed.

Lemma Ordered_close_terminated (p : Pool) : Ordered p -> Ordered (close_terminated p).
Proof. intros [H1 H2 H3 H4 H5 H6]. split; cbn; try assumption. now right. Qed.

Lemma Ordered_fire event (x x' : World) :
  fire event x = Some x' -> Ordered (pool x) -> Ordered (pool x').
Proof.
  intros Hfire Hp.
  destruct event as [loaded|from to opts| | | |container message|container error|container code];
    cbn in Hfire.
  - destruct (readyPromise (pool x)); try discriminate.
    injection Hfire as <-. now apply Ordered_onWorkerThreads.
  - destruct (schedule from to opts (pool x)) as [[outcome p']|] eqn:Hs;
      [|discriminate].
    injection Hfire as <-. exact (Ordered_schedule _ _ _ _ _ _ Hs Hp).
  - unfold close_enter in Hfire. destruct (disposed (pool x)); injection Hfire as <-;
      [exact Hp|].
    eapply Ordered_same; [|exact Hp]. repeat split.
  - destruct (closing x) as [|[|?]]; try discriminate.
    destruct (readyPromise (pool x)); try discriminate; injection Hfire as <-;
      now apply Ordered_close_ready.
  - destruct (closing x) as [|[|[|?]]]; try discriminate.
    injection Hfire as <-. now apply Ordered_close_terminated.
  - destruct (inboxOf (pool x) container) as [|request rest]; [discriminate|].
    destruct (bool_decide _); [|discriminate]. injection Hfire as <-.
    apply Ordered_handleMessage. eapply Ordered_same; [|exact Hp]. repeat split.
  - destruct (bool_decide _); [|discriminate]. injection Hfire as <-.
    now apply Ordered_handleError.
  - destruct (bool_decide _); [|discriminate]. injection Hfire as <-.
    now apply Ordered_handleExit.
Qed.

Lemma Ordered_run events (x x' : World) :
  run events x = Some x' -> Ordered (pool x) -> Ordered (pool x').
Proof.
  revert x. induction events as [|event later IH]; intros x Hrun Hp; cbn in Hrun.
  - now injection Hrun as <-.
  - destruct (fire event x) as [x1|] eqn:Hfire; [|discriminate].
    exact (IH x1 Hrun (Ordered_fire _ _ _ Hfire Hp)).
Qed.

Lemma Ordered_initial options cpus : Ordered (pool (initial options cpus)).
Proof. split; cbn; [now left|constructor..]. Qed.
End PoolOrder.

(** X11. At no moment does a task wait in the queue of the pool while a
    worker is idle. *)
Theorem pool_never_idles_with_work {EdgeData : Type} options cpus events
    (x : Pool.World (EdgeData := EdgeData)) :
  Pool.run events (Pool.initial options cpus) = Some x ->
  Pool.queue (Pool.pool x) = [] \/ Pool.idleWorkers (Pool.pool x) = [].
Proof.
  intros Hrun. exact (conserving _ (Ordered_run _ _ _ Hrun (Ordered_initial options cpus))).
Qed.

(** X12. Requests are posted to the workers in the order in which
    [schedule] accepted them: the ids of the posted requests increase. *)
Theorem pool_posts_in_arrival_order {EdgeData : Type} options cpus events
    (x : Pool.World (EdgeData := EdgeData)) :
  Pool.run events (Pool.initial options cpus) = Some x ->
  StronglySorted lt (Pool.request_id <$> (Pool.posted (Pool.pool x)).*2).
Proof.
  intros Hrun. exact (posted_sorted _ (Ordered_run _ _ _ Hrun (Ordered_initial options cpus))).
Qed.

Section PoolTidy.
Context {EdgeData : Type}.
Import Pool.
Local Abbreviation Pool := (Pool.Pool (EdgeData := EdgeData)).
Local Abbreviation World := (Pool.World (EdgeData := EdgeData)).

(** An idle worker has nothing to do, and no worker has more than one
    request to handle. *)
Record Tidy (p : Pool) : Prop := mkTidy {
  idle_nodup : NoDup (idleWorkers p);
  idle_bound : forall w, w ∈ idleWorkers p -> (w < created p)%nat;
  fresh_inbox : forall w, (created p <= w)%nat -> inboxOf p w = [];
  idle_inbox : forall w, w ∈ idleWorkers p -> inboxOf p w = [];
  inbox_one : forall w, (length (inboxOf p w) <= 1)%nat
}.

Definition sameTidy (p p' : Pool) : Prop :=
  idleWorkers p' = idleWorkers p /\ created p' = created p /\ inbox p' = inbox p.

Lemma sameTidy_refl (p : Pool) : sameTidy p p.
Proof. repeat split. Qed.

Lemma sameTidy_trans (p1 p2 p3 : Pool) : sameTidy p1 p2 -> sameTidy p2 p3 -> sameTidy p1 p3.
Proof. intros (A1 & A2 & A3) (B1 & B2 & B3). repeat split; congruence. Qed.

Lemma sameTidy_fold {A} (f : Pool -> A -> Pool) (l : list A) (p : Pool) :
  (forall p a, sameTidy p (f p a)) -> sameTidy p (fold_left f l p).
Proof.
  intros Hf. revert p. induction l as [|a l IH]; intros p; cbn.
  - apply sameTidy_refl.
  - eapply sameTidy_trans; [apply Hf|apply IH].
Qed.

Lemma Tidy_same p p' : sameTidy p p' -> Tidy p -> Tidy p'.
Proof.
  intros (Hi & Hc & Hb) [H1 H2 H3 H4 H5].
  split; unfold inboxOf in *; rewrite ?Hi, ?Hc, ?Hb; assumption.
Qed.

Lemma inboxOf_insert (p : Pool) w l w' :
  inboxOf (set_inbox (<[w := l]> (inbox p)) p) w' = if decide (w = w') then l else inboxOf p w'.
Proof.
  unfold inboxOf. cbn. destruct (decide (w = w')) as [->|Hne].
  - now rewrite lookup_insert_eq.
  - now rewrite lookup_insert_ne.
Qed.

Lemma inboxOf_dispatch container task (p : Pool) w :
  inboxOf (_dispatch container task p) w
  = if decide (container = w) then inboxOf p container ++ [task] else inboxOf p w.
Proof.
  unfold _dispatch, inboxOf. cbn. destruct (decide (container = w)) as [->|Hne].
  - now rewrite lookup_insert_eq.
  - now rewrite lookup_insert_ne.
Qed.

Lemma Tidy_dispatch container task (p : Pool) :
  inboxOf p container = [] -> container ∉ idleWorkers p -> (container < created p)%nat ->
  Tidy p -> Tidy (_dispatch container task p).
Proof.
  intros Hempty Hidle Hbound [H1 H2 H3 H4 H5]. split.
  - exact H1.
  - exact H2.
  - intros w Hw. rewrite inboxOf_dispatch. destruct (decide _) as [->|_].
    + cbn in Hw. lia.
    + now apply H3.
  - intros w Hw. rewrite inboxOf_dispatch. destruct (decide _) as [->|_].
    + now destruct Hidle.
    + now apply H4.
  - intros w. rewrite inboxOf_dispatch. destruct (decide _) as [->|_].
    + rewrite Hempty. cbn. lia.
    + apply H5.
Qed.

Lemma Tidy_idle container (p : Pool) :
  inboxOf p container = [] -> container ∉ idleWorkers p -> (container < created p)%nat ->
  Tidy p -> Tidy (set_idleWorkers (idleWorkers p ++ [container]) p).
Proof.
  intros Hempty Hidle Hbound [H1 H2 H3 H4 H5]. split; cbn.
  - apply NoDup_app. split; [exact H1|]. split; [|apply NoDup_singleton].
    intros w Hw Hin. apply list_elem_of_singleton in Hin as ->. contradiction.
  - intros w Hw. apply elem_of_app in Hw as [Hw|Hw]; [now apply H2|].
    apply list_elem_of_singleton in Hw as ->. exact Hbound.
  - exact H3.
  - intros w Hw. apply elem_of_app in Hw as [Hw|Hw]; [now apply H4|].
    apply list_elem_of_singleton in Hw as ->. exact Hempty.
  - exact H5.
Qed.

Lemma Tidy_release container (p : Pool) :
  inboxOf p container = [] -> container ∉ idleWorkers p -> (container < created p)%nat ->
  Tidy p -> Tidy (_release container p).
Proof.
  intros Hempty Hidle Hbound Hp. unfold _release. cbn [disposed set_currentTask].
  assert (Hp' : Tidy (set_currentTask (delete container (currentTask p)) p)).
  { eapply Tidy_same; [|exact Hp]. repeat split. }
  destruct (disposed p); [exact Hp'|].
  cbn [queue set_currentTask].
  destruct (queue p) as [|task rest] eqn:Hq.
  - now apply Tidy_idle.
  - apply Tidy_dispatch; try assumption.
    eapply Tidy_same; [|exact Hp']. repeat split.
Qed.

Lemma Tidy_spawn given (p : Pool) : Tidy p -> Tidy (_spawnWorker given p).
Proof.
  intros Hp. unfold _spawnWorker. destruct (negb _); [exact Hp|].
  destruct Hp as [H1 H2 H3 H4 H5].
  assert (Hp' : Tidy (set_workers (workers p ++ [created p])
                        (set_created (S (created p)) p))).
  { split; cbn; try assumption.
    - intros w Hw. specialize (H2 w Hw). lia.
    - intros w Hw. apply H3. lia. }
  assert (Hempty : inboxOf p (created p) = []) by (apply H3; lia).
  assert (Hidle : created p ∉ idleWorkers p).
  { intros Hin. specialize (H2 _ Hin). lia. }
  cbn [queue set_workers set_created].
  destruct (queue p) as [|task rest] eqn:Hq.
  - apply Tidy_idle; try assumption. cbn. lia.
  - apply Tidy_dispatch; try assumption; [cbn; lia|].
    eapply Tidy_same; [|exact Hp']. repeat split.
Qed.

Lemma elem_of_spliceOut container (l : list nat) x :
  x ∈ spliceOut container l -> x ∈ l.
Proof.
  induction l as [|y l IH]; cbn; [easy|].
  destruct (decide (y = container)); intros Hin.
  - now right.
  - apply elem_of_cons in Hin as [->|Hin]; [left|right; auto].
Qed.

Lemma NoDup_spliceOut container (l : list nat) : NoDup l -> NoDup (spliceOut container l).
Proof.
  induction l as [|y l IH]; cbn; [easy|]. intros Hnd.
  apply NoDup_cons in Hnd as [Hy Hnd].
  destruct (decide (y = container)); [exact Hnd|].
  apply NoDup_cons. split; [|auto]. intros Hin. apply Hy. eapply elem_of_spliceOut, Hin.
Qed.

Lemma Tidy_remove container (p : Pool) : Tidy p -> Tidy (_removeWorker container p).
Proof.
  intros [H1 H2 H3 H4 H5]. split; cbn; try assumption.
  - now apply NoDup_spliceOut.
  - intros w Hw. apply H2. eapply elem_of_spliceOut, Hw.
  - intros w Hw. apply H4. eapply elem_of_spliceOut, Hw.
Qed.

Lemma Tidy_rejectCurrent container reason (p : Pool) :
  Tidy p -> Tidy (rejectCurrent container reason p).
Proof.
  intros Hp. unfold rejectCurrent. destruct (currentTask p !! container); [|exact Hp].
  eapply Tidy_same; [|exact Hp]. repeat split.
Qed.

(** A message from a container that had one request to handle. *)
Lemma Tidy_handleMessage container message request rest (p : Pool) :
  inboxOf p container = request :: rest ->
  Tidy p ->
  Tidy (_handleMessage container message (set_inbox (<[container := rest]> (inbox p)) p)).
Proof.
  intros Hinbox Hp.
  assert (Hrest : rest = []).
  { pose proof (inbox_one _ Hp container) as Hlen. rewrite Hinbox in Hlen.
    destruct rest; [reflexivity|cbn in Hlen; lia]. }
  subst rest.
  assert (Hidle : container ∉ idleWorkers p).
  { intros Hin. rewrite (idle_inbox _ Hp _ Hin) in Hinbox. discriminate. }
  assert (Hbound : (container < created p)%nat).
  { destruct (decide (container < created p)%nat) as [|Hge]; [assumption|].
    rewrite (fresh_inbox _ Hp container) in Hinbox by lia. discriminate. }
  set (p0 := set_inbox (<[container := []]> (inbox p)) p).
  assert (Hp0 : Tidy p0).
  { destruct Hp as [H1 H2 H3 H4 H5]. split; try assumption.
    - intros w Hw. unfold p0. rewrite inboxOf_insert. destruct (decide _); auto.
    - intros w Hw. unfold p0. rewrite inboxOf_insert. destruct (decide _); auto.
    - intros w. unfold p0. rewrite inboxOf_insert. destruct (decide _); [cbn; lia|auto]. }
  assert (Hempty : inboxOf p0 container = []).
  { unfold p0. rewrite inboxOf_insert. now rewrite decide_True. }
  unfold _handleMessage.
  destruct (tasks p0 !! response_id message).
  - destruct (response_error message);
      (apply Tidy_release; [exact Hempty|exact Hidle|exact Hbound|]);
      (eapply Tidy_same; [|exact Hp0]); repeat split.
  - now apply Tidy_release.
Qed.

Lemma Tidy_handleError container error (p : Pool) :
  Tidy p -> Tidy (_handleError container error p).
Proof.
  intros Hp. unfold _handleError.
  pose proof (Tidy_remove container _ (Tidy_rejectCurrent container (WorkerFailed error) p Hp)) as Hr.
  destruct (disposed _); [exact Hr|]. now apply Tidy_spawn.
Qed.

Lemma Tidy_handleExit container code (p : Pool) :
  Tidy p -> Tidy (_handleExit container code p).
Proof.
  intros Hp. unfold _handleExit.
  pose proof (Tidy_remove container _ (Tidy_rejectCurrent container TerminatedUnexpectedly p Hp)) as Hr.
  destruct (_ && _); [|exact Hr]. now apply Tidy_spawn.
Qed.

Lemma Tidy_onWorkerThreads loaded (p : Pool) : Tidy p -> Tidy (onWorkerThreads loaded p).
Proof.
  intros Hp. unfold onWorkerThreads.
  destruct (negb loaded); [eapply Tidy_same; [|exact Hp]; repeat split|].
  destruct (disposed p); [eapply Tidy_same; [|exact Hp]; repeat split|].
  apply (Tidy_same (Nat.iter (poolSize p) (_spawnWorker true) (set_workerThreads true p)));
    [repeat split|].
  assert (Hp' : Tidy (set_workerThreads true p)) by (eapply Tidy_same; [|exact Hp]; repeat split).
  generalize (poolSize p). intros n. induction n as [|n IH]; [exact Hp'|].
  change (Tidy (_spawnWorker true (Nat.iter n (_spawnWorker true) (set_workerThreads true p)))).
  now apply Tidy_spawn.
Qed.

Lemma Tidy_schedule from to opts (p p' : Pool) outcome :
  schedule from to opts p = Some (outcome, p') -> Tidy p -> Tidy p'.
Proof.
  unfold schedule. intros Hrun Hp.
  destruct (disposed p); [now injection Hrun as <- <-|].
  destruct (readyPromise p); try discriminate; [|now injection Hrun as <- <-].
  cbn in Hrun.
  destruct (last (idleWorkers p)) as [worker|] eqn:Hlast; injection Hrun as <- <-.
  - apply last_Some in Hlast as [idle' Hidle].
    destruct Hp as [H1 H2 H3 H4 H5]. rewrite Hidle in *.
    rewrite removelast_last.
    apply NoDup_app in H1 as (Hnd & Hnot & _).
    apply Tidy_dispatch.
    + cbn. apply (H4 worker). apply elem_of_app. right. now left.
    + cbn. intros Hin. apply (Hnot _ Hin). now left.
    + cbn. apply H2. apply elem_of_app. right. now left.
    + split; cbn; try assumption.
      * intros w Hw. apply H2. apply elem_of_app. now left.
      * intros w Hw. apply (H4 w). apply elem_of_app. now left.
  - eapply Tidy_same; [|exact Hp]. repeat split.
Qed.

Lemma Tidy_close_ready (p : Pool) : Tidy p -> Tidy (close_ready p).
Proof.
  intros Hp. unfold close_ready. eapply Tidy_same; [|exact Hp].
  eapply sameTidy_trans; [|repeat split].
  eapply (sameTidy_trans _ (rejectQueued p)).
  - unfold rejectQueued.
    eapply (sameTidy_trans _ (set_queue [] p)); [repeat split|].
    apply sameTidy_fold. intros q a. repeat split.
  - unfold rejectRunning. apply sameTidy_fold. intros q a. unfold rejectRunningAt.
    destruct (currentTask q !! a); repeat split.
Qed.

Lemma Tidy_close_terminated (p : Pool) : Tidy p -> Tidy (close_terminated p).
Proof.
  intros [H1 H2 H3 H4 H5]. split; cbn; try assumption.
  - constructor.
  - intros w Hw. inversion Hw.
  - intros w Hw. inversion Hw.
Qed.

Lemma Tidy_fire event (x x' : World) :
  fire event x = Some x' -> Tidy (pool x) -> Tidy (pool x').
Proof.
  intros Hfire Hp.
  destruct event as [loaded|from to opts| | | |container message|container error|container code];
    cbn in Hfire.
  - destruct (readyPromise (pool x)); try discriminate.
    injection Hfire as <-. now apply Tidy_onWorkerThreads.
  - destruct (schedule from to opts (pool x)) as [[outcome p']|] eqn:Hs; [|discriminate].
    injection Hfire as <-. exact (Tidy_schedule _ _ _ _ _ _ Hs Hp).
  - unfold close_enter in Hfire. destruct (disposed (pool x)); injection Hfire as <-;
      [exact Hp|].
    eapply Tidy_same; [|exact Hp]. repeat split.
  - destruct (closing x) as [|[|?]]; try discriminate.
    destruct (readyPromise (pool x)); try discriminate; injection Hfire as <-;
      now apply Tidy_close_ready.
  - destruct (closing x) as [|[|[|?]]]; try discriminate.
    injection Hfire as <-. now apply Tidy_close_terminated.
  - destruct (inboxOf (pool x) container) as [|request rest] eqn:Hinbox; [discriminate|].
    destruct (bool_decide _); [|discriminate]. injection Hfire as <-.
    exact (Tidy_handleMessage _ _ _ _ _ Hinbox Hp).
  - destruct (bool_decide _); [|discriminate]. injection Hfire as <-.
    now apply Tidy_handleError.
  - destruct (bool_decide _); [|discriminate]. injection Hfire as <-.
    now apply Tidy_handleExit.
Qed.

Lemma Tidy_run events (x x' : World) :
  run events x = Some x' -> Tidy (pool x) -> Tidy (pool x').
Proof.
  revert x. induction events as [|event later IH]; intros x Hrun Hp; cbn in Hrun.
  - now injection Hrun as <-.
  - destruct (fire event x) as [x1|] eqn:Hfire; [|discriminate].
    exact (IH x1 Hrun (Tidy_fire _ _ _ Hfire Hp)).
Qed.

Lemma Tidy_initial options cpus : Tidy (pool (initial options cpus)).
Proof.
  split; cbn.
  - constructor.
  - intros w Hw. inversion Hw.
  - reflexivity.
  - reflexivity.
  - intros w. unfold inboxOf. cbn. rewrite lookup_empty. cbn. lia.
Qed.
End PoolTidy.

(** X13. No worker is ever sent a request while it has one to handle: its
    inbox never holds more than one request, and that of an idle worker
    is empty. *)
Theorem pool_one_request_per_worker {EdgeData : Type} options cpus events
    (x : Pool.World (EdgeData := EdgeData)) :
  Pool.run events (Pool.initial options cpus) = Some x ->
  forall w,
    (length (Pool.inboxOf (Pool.pool x) w) <= 1)%nat /\
    (w ∈ Pool.idleWorkers (Pool.pool x) -> Pool.inboxOf (Pool.pool x) w = []).
Proof.
  intros Hrun w.
  pose proof (Tidy_run _ _ _ Hrun (Tidy_initial options cpus)) as Hp.
  split; [apply (inbox_one _ Hp)|apply (idle_inbox _ Hp)].
Qed.

Section PoolKept.
Context {EdgeData : Type}.
Import Pool.
Local Abbreviation Pool := (Pool.Pool (EdgeData := EdgeData)).
Local Abbreviation World := (Pool.World (EdgeData := EdgeData)).

(** Where a task can be: waiting in the queue, with a worker of the pool,
    or settled. *)
Definition queued (p : Pool) (i : nat) : Prop :=
  exists task, task ∈ queue p /\ request_id task = i.

Definition running (p : Pool) (i : nat) : Prop :=
  exists w task, w ∈ workers p /\ currentTask p !! w = Some task /\ request_id task = i.

Definition isSettled (p : Pool) (i : nat) : Prop :=
  exists s, (i, s) ∈ settled p.

Record Kept (x : World) : Prop := mkKept {
  workers_bound : forall w, w ∈ workers (pool x) -> (w < created (pool x))%nat;
  idle_listed : forall w, w ∈ idleWorkers (pool x) -> w ∈ workers (pool x);
  idle_current : forall w, w ∈ idleWorkers (pool x) -> currentTask (pool x) !! w = None;
  fresh_current : forall w, (created (pool x) <= w)%nat -> currentTask (pool x) !! w = None;
  current_inbox : forall w task,
    w ∈ workers (pool x) -> currentTask (pool x) !! w = Some task ->
    inboxOf (pool x) w = [task];
  accounted : forall task,
    task ∈ queue (pool x) \/
    (exists w, w ∈ workers (pool x) /\ currentTask (pool x) !! w = Some task) ->
    tasks (pool x) !! request_id task = Some task \/ isSettled (pool x) (request_id task);
  tasks_id : forall i task, tasks (pool x) !! i = Some task -> request_id task = i;
  current_bound : forall w task,
    currentTask (pool x) !! w = Some task -> (request_id task < nextId (pool x))%nat;
  live_listed : closing x = 0%nat ->
    forall w, (w < created (pool x))%nat -> w ∉ failed x -> w ∉ exited x ->
              w ∈ workers (pool x);
  closed : (2 <= closing x)%nat ->
    queue (pool x) = [] /\ forall w, w ∈ workers (pool x) -> currentTask (pool x) !! w = None;
  disposed_closing : disposed (pool x) = true <-> (1 <= closing x)%nat;
  kept : forall i, (i < nextId (pool x))%nat ->
    queued (pool x) i \/ running (pool x) i \/ isSettled (pool x) i
}.

Definition Good (x : World) : Prop :=
  Ordered (pool x) /\ Tidy (pool x) /\ Kept x.

(** *** The end of [_release] and [_spawnWorker] *)

Lemma not_disposed_closing (x : World) :
  Kept x -> disposed (pool x) = false -> closing x = 0%nat.
Proof.
  intros Hk Hd. destruct (closing x) eqn:Hc; [reflexivity|].
  assert (disposed (pool x) = true) by (apply (disposed_closing _ Hk); lia). congruence.
Qed.

Lemma Kept_take container task rest p c f e :
  queue p = task :: rest ->
  container ∈ workers p -> container ∉ idleWorkers p ->
  currentTask p !! container = None ->
  inboxOf p container = [] -> disposed p = false ->
  Ordered p ->
  Kept (mkWorld p c f e) ->
  Kept (mkWorld (_dispatch container task (set_queue rest p)) c f e).
Proof.
  intros Hq Hlisted Hidle Hcurrent Hinbox Hdisposed Hord Hk.
  pose proof (not_disposed_closing _ Hk Hdisposed) as Hclosing.
  destruct Hk as [K1 K2 K3 K4 K5 K6 K7 K8 K9 K10 K11 K12].
  cbn [pool closing failed exited] in *.
  split; cbn [pool closing failed exited].
  - exact K1.
  - exact K2.
  - intros w Hw. cbn in *. rewrite lookup_insert_ne; [now apply K3|]. now intros <-.
  - intros w Hw. cbn in *. rewrite lookup_insert_ne; [now apply K4|].
    intros <-. specialize (K1 _ Hlisted). lia.
  - intros w t Hw Hc. rewrite inboxOf_dispatch. cbn in Hw, Hc.
    apply lookup_insert_Some in Hc as [[<- <-]|[Hne Hc]].
    + rewrite decide_True by reflexivity.
      change (inboxOf (set_queue rest p) container) with (inboxOf p container).
      now rewrite Hinbox.
    + rewrite decide_False by exact Hne. exact (K5 w t Hw Hc).
  - intros t Ht. cbn in Ht |- *.
    change (isSettled (_dispatch container task (set_queue rest p)) (request_id t))
      with (isSettled p (request_id t)).
    apply K6. rewrite Hq. destruct Ht as [Ht|(w & Hw & Hc)].
    + left. now right.
    + apply lookup_insert_Some in Hc as [[<- <-]|[Hne Hc]].
      * left. now left.
      * right. eauto.
  - exact K7.
  - intros w t Hc. cbn in Hc |- *.
    apply lookup_insert_Some in Hc as [[<- <-]|[Hne Hc]]; [|exact (K8 w t Hc)].
    pose proof (queue_bound _ Hord) as Hb. rewrite Hq in Hb. unfold idsOf in Hb. cbn in Hb.
    now apply Forall_cons in Hb as [Hb _].
  - exact K9.
  - intros Hc. lia.
  - exact K11.
  - intros i Hi. cbn in Hi.
    destruct (K12 i Hi) as [(t & Ht & Hid)|[(w & t & Hw & Hc & Hid)|Hs]].
    + rewrite Hq in Ht. apply elem_of_cons in Ht as [->|Ht].
      * right. left. exists container, task. cbn. rewrite lookup_insert_eq. auto.
      * left. exists t. cbn. auto.
    + right. left. exists w, t. cbn. rewrite lookup_insert_ne; [auto|].
      intros <-. congruence.
    + right. right. exact Hs.
Qed.

Lemma Kept_idle container p c f e :
  container ∈ workers p -> currentTask p !! container = None ->
  Kept (mkWorld p c f e) ->
  Kept (mkWorld (set_idleWorkers (idleWorkers p ++ [container]) p) c f e).
Proof.
  intros Hlisted Hcurrent [K1 K2 K3 K4 K5 K6 K7 K8 K9 K10 K11 K12].
  cbn [pool closing failed exited] in *.
  split; cbn [pool closing failed exited]; try assumption.
  - intros w Hw. cbn in Hw |- *. apply elem_of_app in Hw as [Hw|Hw]; [now apply K2|].
    now apply list_elem_of_singleton in Hw as ->.
  - intros w Hw. cbn in Hw |- *. apply elem_of_app in Hw as [Hw|Hw]; [now apply K3|].
    now apply list_elem_of_singleton in Hw as ->.
Qed.

Lemma Kept_spawn given p c f e :
  disposed p = false -> Ordered p -> Tidy p ->
  Kept (mkWorld p c f e) ->
  Kept (mkWorld (_spawnWorker given p) c f e).
Proof.
  intros Hdisposed Hord Htidy Hk. unfold _spawnWorker.
  destruct (negb _); [exact Hk|].
  pose proof (not_disposed_closing _ Hk Hdisposed) as Hclosing.
  set (p' := set_workers (workers p ++ [created p]) (set_created (S (created p)) p)).
  assert (Hk' : Kept (mkWorld p' c f e)).
  { destruct Hk as [K1 K2 K3 K4 K5 K6 K7 K8 K9 K10 K11 K12].
    cbn [pool closing failed exited] in *.
    split; cbn [pool closing failed exited]; try assumption.
    - intros w Hw. cbn in Hw |- *. apply elem_of_app in Hw as [Hw|Hw].
      + specialize (K1 _ Hw). lia.
      + apply list_elem_of_singleton in Hw as ->. lia.
    - intros w Hw. cbn in Hw |- *. apply elem_of_app. left. now apply K2.
    - intros w Hw. cbn in Hw |- *. apply K4. lia.
    - intros w t Hw Hc. cbn in Hw, Hc.
      change (inboxOf p' w) with (inboxOf p w).
      apply elem_of_app in Hw as [Hw|Hw]; [exact (K5 w t Hw Hc)|].
      apply list_elem_of_singleton in Hw as ->. rewrite K4 in Hc by lia. discriminate.
    - intros t Ht. change (isSettled p' (request_id t)) with (isSettled p (request_id t)).
      cbn in Ht |- *. apply K6. destruct Ht as [Ht|(w & Hw & Hc)]; [now left|right].
      apply elem_of_app in Hw as [Hw|Hw]; [eauto|].
      apply list_elem_of_singleton in Hw as ->. rewrite K4 in Hc by lia. discriminate.
    - intros _ w Hw Hf He. cbn in Hw |- *. apply elem_of_app.
      destruct (decide (w = created p)) as [->|Hne]; [right; now left|left].
      apply K9; auto. lia.
    - intros Hc. lia.
    - intros i Hi. cbn in Hi.
      destruct (K12 i Hi) as [Hq|[(w & t & Hw & Hc & Hid)|Hs]]; [now left| |now right; right].
      right. left. exists w, t. cbn. split; [|auto]. apply elem_of_app. now left. }
  assert (Hord' : Ordered p') by (eapply Ordered_same; [|exact Hord]; repeat split).
  assert (Hlisted : created p ∈ workers p').
  { cbn. apply elem_of_app. right. now left. }
  assert (Hidle : created p ∉ idleWorkers p').
  { cbn. intros Hin. pose proof (idle_bound _ Htidy _ Hin). lia. }
  assert (Hcurrent : currentTask p' !! created p = None).
  { cbn. apply (fresh_current _ Hk). cbn. lia. }
  assert (Hinbox : inboxOf p' (created p) = []).
  { change (inboxOf p' (created p)) with (inboxOf p (created p)).
    apply (fresh_inbox _ Htidy). lia. }
  change (queue (set_workers (workers p ++ [created p]) (set_created (S (created p)) p)))
    with (queue p').
  destruct (queue p') as [|task rest] eqn:Hq.
  - now apply Kept_idle.
  - now apply Kept_take.
Qed.

Lemma isSettled_more (p p' : Pool) i extra :
  settled p' = settled p ++ extra -> isSettled p i -> isSettled p' i.
Proof. intros Hs (s & Hin). exists s. rewrite Hs. apply elem_of_app. now left. Qed.

(** *** A message from a worker *)

Lemma Kept_handleMessage container message request rest (x : World) :
  inboxOf (pool x) container = request :: rest ->
  container ∉ failed x -> container ∉ exited x ->
  response_id message = request_id request ->
  Good x ->
  Kept (mkWorld
          (_handleMessage container message
             (set_inbox (<[container := rest]> (inbox (pool x))) (pool x)))
          (closing x) (failed x) (exited x)).
Proof.
  intros Hinbox Hfailed Hexited Hid (Hord & Htidy & Hk).
  destruct x as [p c f e]. cbn [pool closing failed exited] in *.
  assert (Hrest : rest = []).
  { pose proof (inbox_one _ Htidy container) as Hlen. rewrite Hinbox in Hlen.
    destruct rest; [reflexivity|cbn in Hlen; lia]. }
  subst rest.
  assert (Hidle : container ∉ idleWorkers p).
  { intros Hin. rewrite (idle_inbox _ Htidy _ Hin) in Hinbox. discriminate. }
  assert (Hbound : (container < created p)%nat).
  { destruct (decide (container < created p)%nat) as [|Hge]; [assumption|].
    rewrite (fresh_inbox _ Htidy container) in Hinbox by lia. discriminate. }
  set (p0 := set_inbox (<[container := []]> (inbox p)) p).
  (* the pool once the task is settled and the container has let go of it *)
  set (p1 := match tasks p0 !! response_id message with
             | None => p0
             | Some task =>
                 match response_error message with
                 | Some text =>
                     settle task (Reject (WorkerReported text))
                       (set_tasks (delete (response_id message) (tasks p0)) p0)
                 | None =>
                     settle task (Resolve (response_path message))
                       (set_tasks (delete (response_id message) (tasks p0)) p0)
                 end
             end).
  set (p2 := set_currentTask (delete container (currentTask p1)) p1).
  assert (Hrelease : _handleMessage container message p0
                     = if disposed p2 then p2 else
                       match queue p2 with
                       | nextTask :: rest => _dispatch container nextTask (set_queue rest p2)
                       | [] => set_idleWorkers (idleWorkers p2 ++ [container]) p2
                       end).
  { unfold _handleMessage, p2, p1.
    destruct (tasks p0 !! response_id message); [|reflexivity].
    destruct (response_error message); reflexivity. }
  rewrite Hrelease. clear Hrelease.
  assert (Hsame : workers p2 = workers p /\ idleWorkers p2 = idleWorkers p /\
                  queue p2 = queue p /\ nextId p2 = nextId p /\
                  disposed p2 = disposed p /\ created p2 = created p /\
                  posted p2 = posted p /\
                  currentTask p2 = delete container (currentTask p) /\
                  inbox p2 = <[container := []]> (inbox p)).
  { unfold p2, p1. destruct (tasks p0 !! response_id message); [|repeat split].
    destruct (response_error message); repeat split. }
  destruct Hsame as (Ew & Ei & Eq & En & Ed & Ec & Ep & Ecur & Einbox).
  assert (Hsettled : forall i, isSettled p i -> isSettled p2 i).
  { intros i. unfold p2, p1. destruct (tasks p0 !! response_id message); [|easy].
    destruct (response_error message); intros Hs;
      (eapply (isSettled_more p); [|exact Hs]); reflexivity. }
  assert (Htasks : forall t,
             tasks p !! request_id t = Some t \/ isSettled p (request_id t) ->
             tasks p2 !! request_id t = Some t \/ isSettled p2 (request_id t)).
  { intros t [Ht|Hs]; [|right; now apply Hsettled].
    unfold p2, p1. change (tasks p0) with (tasks p).
    destruct (tasks p !! response_id message) as [task|] eqn:Hlookup; [|now left].
    assert (Htask : request_id task = response_id message)
      by exact (tasks_id _ Hk _ _ Hlookup).
    destruct (decide (request_id t = response_id message)) as [Heq|Hne].
    - right. exists (match response_error message with
                     | Some text => Reject (WorkerReported text)
                     | None => Resolve (response_path message)
                     end).
      destruct (response_error message); cbn; apply elem_of_app; right;
        rewrite Htask, <- Heq; now left.
    - left. destruct (response_error message); cbn; now rewrite lookup_delete_ne. }
  assert (Hinbox2 : forall w, w <> container -> inboxOf p2 w = inboxOf p w).
  { intros w Hne. unfold inboxOf. rewrite Einbox. now rewrite lookup_insert_ne. }
  assert (Hk2 : Kept (mkWorld p2 c f e)).
  { destruct Hk as [K1 K2 K3 K4 K5 K6 K7 K8 K9 K10 K11 K12].
    cbn [pool closing failed exited] in *.
    split; cbn [pool closing failed exited]; rewrite ?Ew, ?Ei, ?Eq, ?En, ?Ed, ?Ec, ?Ecur.
    - exact K1.
    - exact K2.
    - intros w Hw. apply lookup_delete_None. right. now apply K3.
    - intros w Hw. apply lookup_delete_None. right. now apply K4.
    - intros w t Hw Hc. apply lookup_delete_Some in Hc as [Hne Hc].
      rewrite Hinbox2 by congruence. exact (K5 w t Hw Hc).
    - intros t Ht. apply Htasks, K6. destruct Ht as [Ht|(w & Hw & Hc)]; [now left|right].
      apply lookup_delete_Some in Hc as [Hne Hc]. eauto.
    - intros i t. unfold p2, p1. change (tasks p0) with (tasks p).
      destruct (tasks p !! response_id message); [|apply K7].
      destruct (response_error message); cbn; intros Hl;
        apply lookup_delete_Some in Hl as [_ Hl]; exact (K7 _ _ Hl).
    - intros w t Hc. apply lookup_delete_Some in Hc as [_ Hc]. exact (K8 w t Hc).
    - exact K9.
    - intros Hc. destruct (K10 Hc) as [Hq Hnone]. split; [exact Hq|].
      intros w Hw. apply lookup_delete_None. right. now apply Hnone.
    - exact K11.
    - intros i Hi.
      destruct (K12 i Hi) as [Hq|[(w & t & Hw & Hc & Hidt)|Hs]].
      + left. destruct Hq as (t & Ht & Hidt). exists t. now rewrite Eq.
      + destruct (decide (w = container)) as [->|Hne].
        * right. right.
          pose proof (K5 _ _ Hw Hc) as Hone. rewrite Hinbox in Hone.
          injection Hone as <-.
          assert (Hacc : tasks p !! request_id request = Some request \/
                         isSettled p (request_id request)).
          { apply K6. right. eauto. }
          apply Htasks in Hacc. destruct Hacc as [Hl|Hs]; [|now rewrite <- Hidt].
          exfalso. revert Hl. unfold p2, p1. change (tasks p0) with (tasks p).
          rewrite <- Hid.
          destruct (tasks p !! response_id message) as [task|] eqn:Hlookup.
          -- destruct (response_error message); cbn; rewrite lookup_delete_eq; discriminate.
          -- change (tasks p !! response_id message = Some request -> False).
             rewrite Hlookup. discriminate.
        * right. left. exists w, t. rewrite Ew, Ecur.
          split; [exact Hw|]. split; [|exact Hidt]. now rewrite lookup_delete_ne.
      + right. right. now apply Hsettled. }
  destruct (disposed p2) eqn:Hdisposed; [exact Hk2|].
  assert (Hclosing : c = 0%nat) by exact (not_disposed_closing _ Hk2 Hdisposed).
  assert (Hlisted : container ∈ workers p2).
  { rewrite Ew. apply (live_listed _ Hk); auto. }
  assert (Hcurrent : currentTask p2 !! container = None).
  { rewrite Ecur. apply lookup_delete_eq. }
  assert (Hempty : inboxOf p2 container = []).
  { unfold inboxOf. rewrite Einbox. now rewrite lookup_insert_eq. }
  assert (Hidle2 : container ∉ idleWorkers p2) by now rewrite Ei.
  assert (Hord2 : Ordered p2).
  { eapply Ordered_same; [|exact Hord]. repeat split; assumption. }
  destruct (queue p2) as [|task rest] eqn:Hq.
  - now apply Kept_idle.
  - exact (Kept_take _ _ _ _ _ _ _ Hq Hlisted Hidle2 Hcurrent Hempty Hdisposed Hord2 Hk2).
Qed.

(** *** A worker that fails or exits *)

Lemma Kept_rejectCurrent container reason p c f e :
  Kept (mkWorld p c f e) ->
  Kept (mkWorld (rejectCurrent container reason p) c f e) /\
  (forall task, currentTask p !! container = Some task ->
                isSettled (rejectCurrent container reason p) (request_id task)).
Proof.
  intros Hk. unfold rejectCurrent.
  destruct (currentTask p !! container) as [task|] eqn:Hcurrent; [|split; [exact Hk|easy]].
  set (p' := settle task (Reject reason) (set_tasks (delete (request_id task) (tasks p)) p)).
  assert (Hmine : isSettled p' (request_id task)).
  { exists (Reject reason). cbn. apply elem_of_app. right. now left. }
  split; [|now intros ? [= <-]].
  assert (Hsettled : forall i, isSettled p i -> isSettled p' i).
  { intros i Hs. eapply (isSettled_more p); [|exact Hs]. reflexivity. }
  destruct Hk as [K1 K2 K3 K4 K5 K6 K7 K8 K9 K10 K11 K12].
  cbn [pool closing failed exited] in *.
  split; cbn [pool closing failed exited]; try assumption.
  - intros t Ht. destruct (K6 t Ht) as [Hl|Hs]; [|right; now apply Hsettled].
    destruct (decide (request_id t = request_id task)) as [Heq|Hne].
    + right. now rewrite Heq.
    + left. cbn. now rewrite lookup_delete_ne.
  - intros i t Hl. cbn in Hl. apply lookup_delete_Some in Hl as [_ Hl]. exact (K7 _ _ Hl).
  - intros i Hi. destruct (K12 i Hi) as [Hq|[Hr|Hs]]; [now left|now right; left|].
    right. right. now apply Hsettled.
Qed.

Lemma elem_of_spliceOut_ne container (l : list nat) x :
  x ∈ l -> x <> container -> x ∈ spliceOut container l.
Proof.
  induction l as [|y l IH]; cbn; [easy|]. intros Hin Hne.
  apply elem_of_cons in Hin as [->|Hin].
  - rewrite decide_False by exact Hne. now left.
  - destruct (decide (y = container)); [exact Hin|right; auto].
Qed.

Lemma not_elem_of_spliceOut container (l : list nat) :
  NoDup l -> container ∉ spliceOut container l.
Proof.
  induction l as [|y l IH]; cbn; [intros _ Hin; inversion Hin|]. intros Hnd.
  apply NoDup_cons in Hnd as [Hy Hnd].
  destruct (decide (y = container)) as [->|Hne]; [exact Hy|].
  intros Hin. apply elem_of_cons in Hin as [Heq|Hin]; [congruence|]. now apply IH.
Qed.

Lemma Kept_remove container p c f e f' e' :
  (forall task, currentTask p !! container = Some task -> isSettled p (request_id task)) ->
  f ⊆ f' -> e ⊆ e' -> container ∈ f' \/ container ∈ e' ->
  Tidy p ->
  Kept (mkWorld p c f e) ->
  Kept (mkWorld (_removeWorker container p) c f' e').
Proof.
  intros Hmine Hf He Hdead Htidy [K1 K2 K3 K4 K5 K6 K7 K8 K9 K10 K11 K12].
  cbn [pool closing failed exited] in *.
  split; cbn [pool closing failed exited]; try assumption.
  - intros w Hw. cbn in Hw |- *. apply K1. eapply elem_of_spliceOut, Hw.
  - intros w Hw. cbn in Hw |- *.
    assert (Hne : w <> container).
    { intros ->. revert Hw. apply not_elem_of_spliceOut. apply (idle_nodup _ Htidy). }
    apply elem_of_spliceOut_ne; [|exact Hne]. apply K2. eapply elem_of_spliceOut, Hw.
  - intros w Hw. cbn in Hw |- *. apply K3. eapply elem_of_spliceOut, Hw.
  - intros w t Hw Hc. cbn in Hw, Hc.
    change (inboxOf (_removeWorker container p) w) with (inboxOf p w).
    apply (K5 w t); [|exact Hc]. eapply elem_of_spliceOut, Hw.
  - intros t Ht.
    change (isSettled (_removeWorker container p) (request_id t))
      with (isSettled p (request_id t)).
    cbn in Ht |- *. apply K6. destruct Ht as [Ht|(w & Hw & Hc)]; [now left|right].
    exists w. split; [|exact Hc]. eapply elem_of_spliceOut, Hw.
  - intros Hc w Hw Hwf Hwe. cbn in Hw |- *.
    assert (Hne : w <> container) by (intros ->; destruct Hdead; contradiction).
    apply elem_of_spliceOut_ne; [|exact Hne]. apply (K9 Hc); [exact Hw| |]; set_solver.
  - intros Hc. destruct (K10 Hc) as [Hq Hnone]. split; [exact Hq|].
    intros w Hw. cbn in Hw |- *. apply Hnone. eapply elem_of_spliceOut, Hw.
  - intros i Hi. cbn in Hi.
    destruct (K12 i Hi) as [Hq|[(w & t & Hw & Hc & Hid)|Hs]];
      [now left| |now right; right].
    destruct (decide (w = container)) as [->|Hne].
    + right. right. rewrite <- Hid. now apply Hmine.
    + right. left. exists w, t. cbn. split; [|auto]. now apply elem_of_spliceOut_ne.
Qed.

Lemma Good_handleError container error (x : World) :
  Good x ->
  Kept (mkWorld (_handleError container error (pool x)) (closing x)
          ({[container]} ∪ failed x) (exited x)).
Proof.
  intros (Hord & Htidy & Hk). destruct x as [p c f e]. cbn [pool closing failed exited] in *.
  unfold _handleError.
  destruct (Kept_rejectCurrent container (WorkerFailed error) p c f e Hk) as [Hk1 Hmine].
  set (p1 := rejectCurrent container (WorkerFailed error) p) in *.
  assert (Hcur : currentTask p1 = currentTask p).
  { unfold p1, rejectCurrent. now destruct (currentTask p !! container). }
  assert (Hk2 : Kept (mkWorld (_removeWorker container p1) c ({[container]} ∪ f) e)).
  { apply (Kept_remove container p1 c f e); auto.
    - intros task Ht. apply Hmine. now rewrite <- Hcur.
    - set_solver.
    - left. set_solver.
    - now apply Tidy_rejectCurrent. }
  destruct (disposed (_removeWorker container p1)) eqn:Hd; [exact Hk2|].
  apply Kept_spawn; auto.
  - apply Ordered_remove, Ordered_rejectCurrent, Hord.
  - apply Tidy_remove, Tidy_rejectCurrent, Htidy.
Qed.

Lemma Good_handleExit container code (x : World) :
  Good x ->
  Kept (mkWorld (_handleExit container code (pool x)) (closing x)
          (failed x) ({[container]} ∪ exited x)).
Proof.
  intros (Hord & Htidy & Hk). destruct x as [p c f e]. cbn [pool closing failed exited] in *.
  unfold _handleExit.
  destruct (Kept_rejectCurrent container TerminatedUnexpectedly p c f e Hk) as [Hk1 Hmine].
  set (p1 := rejectCurrent container TerminatedUnexpectedly p) in *.
  assert (Hcur : currentTask p1 = currentTask p).
  { unfold p1, rejectCurrent. now destruct (currentTask p !! container). }
  assert (Hk2 : Kept (mkWorld (_removeWorker container p1) c f ({[container]} ∪ e))).
  { apply (Kept_remove container p1 c f e); auto.
    - intros task Ht. apply Hmine. now rewrite <- Hcur.
    - set_solver.
    - right. set_solver.
    - now apply Tidy_rejectCurrent. }
  destruct (disposed (_removeWorker container p1)) eqn:Hd; cbn [negb andb]; [exact Hk2|].
  destruct (negb (code =? 0)%Z); [|exact Hk2].
  apply Kept_spawn; auto.
  - apply Ordered_remove, Ordered_rejectCurrent, Hord.
  - apply Tidy_remove, Tidy_rejectCurrent, Htidy.
Qed.

(** *** [schedule] *)

Lemma Kept_schedule from to opts (x : World) outcome p' :
  schedule from to opts (pool x) = Some (outcome, p') ->
  Good x ->
  Kept (mkWorld p' (closing x) (failed x) (exited x)).
Proof.
  intros Hrun (Hord & Htidy & Hk). destruct x as [p c f e].
  cbn [pool closing failed exited] in *. unfold schedule in Hrun.
  destruct (disposed p) eqn:Hdisposed; [now injection Hrun as <- <-|].
  destruct (readyPromise p); try discriminate; [|now injection Hrun as <- <-].
  pose proof (not_disposed_closing _ Hk Hdisposed) as Hclosing. cbn in Hclosing.
  set (request := mkRequest (nextId p) from to opts) in *.
  assert (Hold : forall t,
            t ∈ queue p \/ (exists w, w ∈ workers p /\ currentTask p !! w = Some t) ->
            request_id t <> nextId p).
  { intros t [Ht|(w & _ & Hc)].
    - pose proof (queue_bound _ Hord) as Hb. unfold idsOf in Hb.
      rewrite Forall_forall in Hb.
      assert (request_id t < nextId p)%nat; [|lia].
      apply Hb. apply list_elem_of_fmap. eauto.
    - pose proof (current_bound _ Hk _ _ Hc) as Hb. cbn in Hb. lia. }
  destruct Hk as [K1 K2 K3 K4 K5 K6 K7 K8 K9 K10 K11 K12].
  cbn [pool closing failed exited] in *. cbn in Hrun.
  destruct (last (idleWorkers p)) as [worker|] eqn:Hlast; injection Hrun as <- <-.
  - apply last_Some in Hlast as [idle' Hidle].
    pose proof (idle_nodup _ Htidy) as Hnd. rewrite Hidle in Hnd.
    apply NoDup_app in Hnd as (_ & Hnot & _).
    assert (Hin : worker ∈ idleWorkers p).
    { rewrite Hidle. apply elem_of_app. right. now left. }
    assert (Hsub : forall w, w ∈ idle' -> w ∈ idleWorkers p).
    { intros w Hw. rewrite Hidle. apply elem_of_app. now left. }
    rewrite Hidle, removelast_last.
    split; cbn [pool closing failed exited].
    + exact K1.
    + intros w Hw. cbn in Hw |- *. auto.
    + intros w Hw. cbn in Hw |- *. rewrite lookup_insert_ne; [auto|].
      intros <-. apply (Hnot _ Hw). now left.
    + intros w Hw. cbn in Hw |- *. rewrite lookup_insert_ne; [auto|].
      intros <-. specialize (K1 _ (K2 _ Hin)). lia.
    + intros w t Hw Hc. rewrite inboxOf_dispatch. cbn in Hw, Hc.
      apply lookup_insert_Some in Hc as [[<- <-]|[Hne Hc]].
      * rewrite decide_True by reflexivity.
        match goal with |- inboxOf ?q worker ++ _ = _ =>
          change (inboxOf q worker) with (inboxOf p worker) end.
        now rewrite (idle_inbox _ Htidy _ Hin).
      * rewrite decide_False by exact Hne. exact (K5 w t Hw Hc).
    + intros t Ht. cbn in Ht |- *.
      match goal with |- _ \/ isSettled ?q _ =>
        change (isSettled q (request_id t)) with (isSettled p (request_id t)) end.
      destruct Ht as [Ht|(w & Hw & Hc)].
      * rewrite lookup_insert_ne by (apply not_eq_sym, Hold; now left).
        apply K6. now left.
      * apply lookup_insert_Some in Hc as [[<- <-]|[Hne Hc]].
        -- left. cbn. apply lookup_insert_eq.
        -- rewrite lookup_insert_ne by (apply not_eq_sym, Hold; right; eauto).
           apply K6. right. eauto.
    + intros i t Hl. cbn in Hl. apply lookup_insert_Some in Hl as [[<- <-]|[_ Hl]];
        [reflexivity|exact (K7 _ _ Hl)].
    + intros w t Hc. cbn in Hc |- *.
      apply lookup_insert_Some in Hc as [[<- <-]|[_ Hc]]; [cbn; lia|].
      specialize (K8 _ _ Hc). lia.
    + exact K9.
    + intros Hc. lia.
    + exact K11.
    + intros i Hi. cbn in Hi.
      destruct (decide (i = nextId p)) as [->|Hne].
      * right. left. exists worker, request. cbn. rewrite lookup_insert_eq. auto.
      * destruct (K12 i ltac:(lia)) as [Hq|[(w & t & Hw & Hc & Hid)|Hs]];
          [now left| |now right; right].
        right. left. exists w, t. cbn. rewrite lookup_insert_ne; [auto|].
        intros <-. rewrite (K3 _ Hin) in Hc. discriminate.
  - split; cbn [pool closing failed exited]; try assumption.
    + intros t Ht. cbn in Ht |- *.
      match goal with |- _ \/ isSettled ?q _ =>
        change (isSettled q (request_id t)) with (isSettled p (request_id t)) end.
      destruct Ht as [Ht|Hr].
      * apply elem_of_app in Ht as [Ht|Ht].
        -- rewrite lookup_insert_ne by (apply not_eq_sym, Hold; now left).
           apply K6. now left.
        -- apply list_elem_of_singleton in Ht as ->. left. cbn. apply lookup_insert_eq.
      * rewrite lookup_insert_ne by (apply not_eq_sym, Hold; now right).
        apply K6. now right.
    + intros i t Hl. cbn in Hl. apply lookup_insert_Some in Hl as [[<- <-]|[_ Hl]];
        [reflexivity|exact (K7 _ _ Hl)].
    + intros w t Hc. cbn in Hc |- *. specialize (K8 _ _ Hc). lia.
    + intros Hc. lia.
    + intros i Hi. cbn in Hi.
      destruct (decide (i = nextId p)) as [->|Hne].
      * left. exists request. cbn. split; [|reflexivity]. apply elem_of_app. right. now left.
      * destruct (K12 i ltac:(lia)) as [(t & Ht & Hid)|[Hr|Hs]];
          [|now right; left|now right; right].
        left. exists t. cbn. split; [|exact Hid]. apply elem_of_app. now left.
Qed.

(** *** [close] *)

(** What rejecting tasks leaves alone. *)
Definition sameShape (p p' : Pool) : Prop :=
  workers p' = workers p /\ idleWorkers p' = idleWorkers p /\ queue p' = queue p /\
  nextId p' = nextId p /\ disposed p' = disposed p /\ created p' = created p /\
  inbox p' = inbox p /\
  (forall i, isSettled p i -> isSettled p' i) /\
  (forall i t, tasks p' !! i = Some t -> tasks p !! i = Some t) /\
  (forall w t, currentTask p' !! w = Some t -> currentTask p !! w = Some t).

Lemma sameShape_refl (p : Pool) : sameShape p p.
Proof. repeat split; auto. Qed.

Lemma sameShape_trans (p1 p2 p3 : Pool) :
  sameShape p1 p2 -> sameShape p2 p3 -> sameShape p1 p3.
Proof.
  intros (A1 & A2 & A3 & A4 & A5 & A6 & A7 & A8 & A9 & A10)
         (B1 & B2 & B3 & B4 & B5 & B6 & B7 & B8 & B9 & B10).
  repeat split; try congruence; auto.
Qed.

Lemma rejectTask_shape (p : Pool) task :
  sameShape p (rejectTask p task) /\ isSettled (rejectTask p task) (request_id task).
Proof.
  split.
  - repeat split; auto.
    + intros i Hs. eapply (isSettled_more p); [|exact Hs]. reflexivity.
    + intros i t Hl. cbn in Hl. now apply lookup_delete_Some in Hl as [_ Hl].
  - exists (Reject PoolClosed). cbn. apply elem_of_app. right. now left.
Qed.

Lemma rejectAll_shape (l : list WorkerRequest) (p : Pool) :
  sameShape p (fold_left rejectTask l p) /\
  forall task, task ∈ l -> isSettled (fold_left rejectTask l p) (request_id task).
Proof.
  revert p. induction l as [|t l IH]; intros p; cbn [fold_left].
  - split; [apply sameShape_refl|]. intros task Hin. inversion Hin.
  - destruct (rejectTask_shape p t) as [Hshape Hmine].
    destruct (IH (rejectTask p t)) as [Hshape' Hall]. split.
    + eapply sameShape_trans; eassumption.
    + intros task Hin. apply elem_of_cons in Hin as [->|Hin]; [|now apply Hall].
      destruct Hshape' as (_ & _ & _ & _ & _ & _ & _ & Hmono & _). now apply Hmono.
Qed.

Lemma rejectAll_current (l : list WorkerRequest) (p : Pool) :
  currentTask (fold_left rejectTask l p) = currentTask p.
Proof.
  revert p. induction l as [|t l IH]; intros p; [reflexivity|].
  cbn [fold_left]. now rewrite IH.
Qed.

Lemma rejectRunningAt_shape (p : Pool) container :
  sameShape p (rejectRunningAt p container) /\
  currentTask (rejectRunningAt p container) !! container = None /\
  (forall t, currentTask p !! container = Some t ->
             isSettled (rejectRunningAt p container) (request_id t)).
Proof.
  unfold rejectRunningAt.
  destruct (currentTask p !! container) as [current|] eqn:Hc.
  - split; [|split].
    + repeat split; auto.
      * intros i Hs. eapply (isSettled_more p); [|exact Hs]. reflexivity.
      * intros i t Hl. cbn in Hl. now apply lookup_delete_Some in Hl as [_ Hl].
      * intros w t Hl. cbn in Hl. now apply lookup_delete_Some in Hl as [_ Hl].
    + cbn. apply lookup_delete_eq.
    + intros t [= <-]. exists (Reject PoolClosed). cbn. apply elem_of_app. right. now left.
  - split; [apply sameShape_refl|]. split; [exact Hc|]. intros t Ht. discriminate.
Qed.

Lemma rejectRunningAll_shape (l : list nat) (p : Pool) :
  sameShape p (fold_left rejectRunningAt l p) /\
  (forall w, w ∈ l -> currentTask (fold_left rejectRunningAt l p) !! w = None) /\
  (forall w t, w ∈ l -> currentTask p !! w = Some t ->
               isSettled (fold_left rejectRunningAt l p) (request_id t)).
Proof.
  revert p. induction l as [|c l IH]; intros p; cbn [fold_left].
  - split; [apply sameShape_refl|].
    split; [intros w Hin; inversion Hin|intros w t Hin; inversion Hin].
  - destruct (rejectRunningAt_shape p c) as (Hshape & Hnone & Hmine).
    destruct (IH (rejectRunningAt p c)) as (Hshape' & Hnone' & Hall).
    pose proof Hshape' as (_ & _ & _ & _ & _ & _ & _ & Hmono & _ & Hcur).
    split; [eapply sameShape_trans; eassumption|]. split.
    + intros w Hin. apply elem_of_cons in Hin as [->|Hin]; [|now apply Hnone'].
      destruct (currentTask (fold_left rejectRunningAt l (rejectRunningAt p c)) !! c)
        as [t|] eqn:Hl; [|reflexivity].
      apply Hcur in Hl. congruence.
    + intros w t Hin Hc.
      destruct (decide (w = c)) as [->|Hne]; [now apply Hmono, Hmine|].
      apply elem_of_cons in Hin as [->|Hin]; [congruence|].
      apply (Hall w t Hin).
      unfold rejectRunningAt. destruct (currentTask p !! c); [|exact Hc].
      cbn. now rewrite lookup_delete_ne.
Qed.

Lemma Kept_close_ready p f e :
  Kept (mkWorld p 1 f e) -> Kept (mkWorld (close_ready p) 2 f e).
Proof.
  intros Hk.
  destruct (rejectAll_shape (queue p) (set_queue [] p)) as [Hshape1 Hall1].
  fold (rejectQueued p) in Hshape1, Hall1.
  destruct (rejectRunningAll_shape (workers (rejectQueued p)) (rejectQueued p))
    as (Hshape2 & Hnone & Hall2).
  fold (rejectRunning (rejectQueued p)) in Hshape2, Hnone, Hall2.
  set (q := rejectRunning (rejectQueued p)) in *.
  pose proof (sameShape_trans _ _ _ Hshape1 Hshape2)
    as (Ew & Ei & Eq & En & Ed & Ec & Einbox & Hmono & Htasks & Hcur).
  cbn in Ew, Ei, Eq, En, Ed, Ec, Einbox, Htasks, Hcur.
  assert (Hmono' : forall i, isSettled p i -> isSettled q i) by exact Hmono.
  assert (Hworkers1 : workers (rejectQueued p) = workers p).
  { now destruct Hshape1 as (H & _). }
  destruct Hk as [K1 K2 K3 K4 K5 K6 K7 K8 K9 K10 K11 K12].
  cbn [pool closing failed exited] in *.
  unfold close_ready. fold q.
  assert (Hnone' : forall w, w ∈ workers p -> currentTask q !! w = None).
  { intros w Hw. apply Hnone. now rewrite Hworkers1. }
  split; cbn [pool closing failed exited]; cbn; rewrite ?Ew, ?Ei, ?Eq, ?En, ?Ed, ?Ec.
  - exact K1.
  - exact K2.
  - intros w Hw. destruct (currentTask q !! w) as [t|] eqn:Hl; [|reflexivity].
    apply Hcur in Hl. rewrite (K3 _ Hw) in Hl. discriminate.
  - intros w Hw. destruct (currentTask q !! w) as [t|] eqn:Hl; [|reflexivity].
    apply Hcur in Hl. rewrite (K4 _ Hw) in Hl. discriminate.
  - intros w t Hw Hl. rewrite (Hnone' _ Hw) in Hl. discriminate.
  - intros t [Ht|(w & Hw & Hl)]; [inversion Ht|].
    rewrite (Hnone' _ Hw) in Hl. discriminate.
  - intros i t Hl. rewrite lookup_empty in Hl. discriminate.
  - intros w t Hl. apply Hcur in Hl. exact (K8 _ _ Hl).
  - intros Hc. discriminate.
  - intros _. split; [reflexivity|exact Hnone'].
  - split; [intros _; lia|intros _]. apply K11. lia.
  - intros i Hi. right. right.
    assert (Hq : isSettled q i).
    { destruct (K12 i Hi) as [(t & Ht & Hid)|[(w & t & Hw & Hc & Hid)|Hs]].
      - rewrite <- Hid. destruct Hshape2 as (_ & _ & _ & _ & _ & _ & _ & Hm & _).
        apply Hm. now apply Hall1.
      - rewrite <- Hid. apply (Hall2 w t); [now rewrite Hworkers1|].
        assert (Hsame : currentTask (rejectQueued p) = currentTask p)
          by exact (rejectAll_current (queue p) (set_queue [] p)).
        rewrite Hsame. exact Hc.
      - now apply Hmono'. }
    destruct Hq as (s & Hs). exists s. exact Hs.
Qed.

Lemma Kept_close_terminated p f e :
  Kept (mkWorld p 2 f e) -> Kept (mkWorld (close_terminated p) 3 f e).
Proof.
  intros [K1 K2 K3 K4 K5 K6 K7 K8 K9 K10 K11 K12].
  cbn [pool closing failed exited] in *.
  destruct (K10 ltac:(lia)) as [Hq Hnone].
  split; cbn [pool closing failed exited]; cbn; try assumption.
  - intros w Hw. inversion Hw.
  - intros w Hw. inversion Hw.
  - intros w Hw. inversion Hw.
  - intros w t Hw. inversion Hw.
  - intros t [Ht|(w & Hw & _)]; [rewrite Hq in Ht; inversion Ht|inversion Hw].
  - intros Hc. discriminate.
  - intros _. split; [exact Hq|]. intros w Hw. inversion Hw.
  - split; [intros _; lia|intros _]. apply K11. lia.
  - intros i Hi. right. right.
    destruct (K12 i Hi) as [(t & Ht & _)|[(w & t & Hw & Hc & _)|Hs]].
    + rewrite Hq in Ht. inversion Ht.
    + rewrite (Hnone _ Hw) in Hc. discriminate.
    + exact Hs.
Qed.

Lemma Kept_close_enter p f e :
  disposed p = false ->
  Kept (mkWorld p 0 f e) -> Kept (mkWorld (set_disposed true p) 1 f e).
Proof.
  intros Hd [K1 K2 K3 K4 K5 K6 K7 K8 K9 K10 K11 K12].
  cbn [pool closing failed exited] in *.
  split; cbn [pool closing failed exited]; try assumption.
  - intros Hc. discriminate.
  - intros Hc. lia.
  - cbn. split; [intros _; lia|reflexivity].
Qed.

(** *** The module arrives *)

Definition sameKept (p p' : Pool) : Prop :=
  workers p' = workers p /\ idleWorkers p' = idleWorkers p /\ queue p' = queue p /\
  tasks p' = tasks p /\ currentTask p' = currentTask p /\ nextId p' = nextId p /\
  disposed p' = disposed p /\ created p' = created p /\ inbox p' = inbox p /\
  settled p' = settled p.

Lemma Kept_same p p' c f e :
  sameKept p p' -> Kept (mkWorld p c f e) -> Kept (mkWorld p' c f e).
Proof.
  intros (E1 & E2 & E3 & E4 & E5 & E6 & E7 & E8 & E9 & E10)
         [K1 K2 K3 K4 K5 K6 K7 K8 K9 K10 K11 K12].
  cbn [pool closing failed exited] in *.
  split; cbn [pool closing failed exited];
    unfold queued, running, isSettled, inboxOf in *;
    rewrite ?E1, ?E2, ?E3, ?E4, ?E5, ?E6, ?E7, ?E8, ?E9, ?E10; assumption.
Qed.

Lemma spawn_disposed given (p : Pool) : disposed (_spawnWorker given p) = disposed p.
Proof.
  unfold _spawnWorker. destruct (negb _); [reflexivity|].
  cbn [queue set_workers set_created]. destruct (queue p); reflexivity.
Qed.

Lemma Good_iter_spawn n p c f e :
  disposed p = false ->
  Ordered p -> Tidy p -> Kept (mkWorld p c f e) ->
  Kept (mkWorld (Nat.iter n (_spawnWorker true) p) c f e).
Proof.
  intros Hd Hord Htidy Hk.
  assert (Hall : disposed (Nat.iter n (_spawnWorker true) p) = false /\
                 Ordered (Nat.iter n (_spawnWorker true) p) /\
                 Tidy (Nat.iter n (_spawnWorker true) p) /\
                 Kept (mkWorld (Nat.iter n (_spawnWorker true) p) c f e));
    [|now destruct Hall as (_ & _ & _ & H)].
  induction n as [|n (IHd & IHo & IHt & IHk)]; [auto|].
  change (Nat.iter (S n) (_spawnWorker true) p)
    with (_spawnWorker true (Nat.iter n (_spawnWorker true) p)).
  split; [|split; [|split]].
  - now rewrite spawn_disposed.
  - now apply Ordered_spawn.
  - now apply Tidy_spawn.
  - now apply Kept_spawn.
Qed.

Lemma Good_onWorkerThreads loaded p c f e :
  Ordered p -> Tidy p -> Kept (mkWorld p c f e) ->
  Kept (mkWorld (onWorkerThreads loaded p) c f e).
Proof.
  intros Hord Htidy Hk. unfold onWorkerThreads.
  destruct (negb loaded); [eapply Kept_same; [|exact Hk]; repeat split|].
  destruct (disposed p) eqn:Hd; [eapply Kept_same; [|exact Hk]; repeat split|].
  apply (Kept_same (Nat.iter (poolSize p) (_spawnWorker true) (set_workerThreads true p)));
    [repeat split|].
  apply Good_iter_spawn.
  - exact Hd.
  - eapply Ordered_same; [|exact Hord]. repeat split.
  - eapply Tidy_same; [|exact Htidy]. repeat split.
  - eapply Kept_same; [|exact Hk]. repeat split.
Qed.

(** *** Every event *)

Lemma Good_fire event (x x' : World) :
  fire event x = Some x' -> Good x -> Good x'.
Proof.
  intros Hfire Hgood.
  pose proof Hgood as (Hord & Htidy & Hk).
  split; [exact (Ordered_fire _ _ _ Hfire Hord)|].
  split; [exact (Tidy_fire _ _ _ Hfire Htidy)|].
  destruct event as [loaded|from to opts| | | |container message|container error|container code];
    cbn in Hfire.
  - destruct (readyPromise (pool x)); try discriminate.
    injection Hfire as <-. apply Good_onWorkerThreads; auto. now destruct x.
  - destruct (schedule from to opts (pool x)) as [[outcome p']|] eqn:Hs; [|discriminate].
    injection Hfire as <-. exact (Kept_schedule _ _ _ _ _ _ Hs Hgood).
  - unfold close_enter in Hfire. destruct (disposed (pool x)) eqn:Hd;
      injection Hfire as <-; [exact Hk|].
    pose proof (not_disposed_closing _ Hk Hd) as Hc.
    destruct x as [p c f e]. cbn in *. subst c. now apply Kept_close_enter.
  - destruct x as [p c f e]. cbn in *.
    destruct c as [|[|?]]; try discriminate.
    destruct (readyPromise p); try discriminate; injection Hfire as <-;
      now apply Kept_close_ready.
  - destruct x as [p c f e]. cbn in *.
    destruct c as [|[|[|?]]]; try discriminate.
    injection Hfire as <-. now apply Kept_close_terminated.
  - destruct (inboxOf (pool x) container) as [|request rest] eqn:Hinbox; [discriminate|].
    destruct (bool_decide _) eqn:Hdec; [|discriminate]. injection Hfire as <-.
    apply bool_decide_eq_true in Hdec as (Hf & He & Hid).
    exact (Kept_handleMessage _ _ _ _ _ Hinbox Hf He Hid Hgood).
  - destruct (bool_decide _); [|discriminate]. injection Hfire as <-.
    now apply Good_handleError.
  - destruct (bool_decide _); [|discriminate]. injection Hfire as <-.
    now apply Good_handleExit.
Qed.

Lemma Good_run events (x x' : World) :
  run events x = Some x' -> Good x -> Good x'.
Proof.
  revert x. induction events as [|event later IH]; intros x Hrun Hp; cbn in Hrun.
  - now injection Hrun as <-.
  - destruct (fire event x) as [x1|] eqn:Hfire; [|discriminate].
    exact (IH x1 Hrun (Good_fire _ _ _ Hfire Hp)).
Qed.

Lemma Good_initial options cpus : Good (initial options cpus).
Proof.
  split; [apply Ordered_initial|]. split; [apply Tidy_initial|].
  split; cbn.
  - intros w Hw. inversion Hw.
  - intros w Hw. inversion Hw.
  - intros w Hw. inversion Hw.
  - intros w Hw. apply lookup_empty.
  - intros w t Hw. inversion Hw.
  - intros t [Ht|(w & Hw & _)]; [inversion Ht|inversion Hw].
  - intros i t Hl. rewrite lookup_empty in Hl. discriminate.
  - intros w t Hl. rewrite lookup_empty in Hl. discriminate.
  - intros _ w Hw. lia.
  - intros Hc. lia.
  - split; [discriminate|lia].
  - intros i Hi. lia.
Qed.
End PoolKept.

(** X14. The pool loses no task: every task [schedule] has accepted is in
    the queue, is the current task of a worker of the pool, or has been
    settled; and once [close] has rejected the pending tasks, every task
    is settled. *)
Theorem pool_loses_no_task {EdgeData : Type} options cpus events
    (x : Pool.World (EdgeData := EdgeData)) :
  Pool.run events (Pool.initial options cpus) = Some x ->
  forall i, (i < Pool.nextId (Pool.pool x))%nat ->
    ((exists task, task ∈ Pool.queue (Pool.pool x) /\ Pool.request_id task = i) \/
     (exists w task, w ∈ Pool.workers (Pool.pool x) /\
                     Pool.currentTask (Pool.pool x) !! w = Some task /\
                     Pool.request_id task = i) \/
     (exists s, (i, s) ∈ Pool.settled (Pool.pool x))) /\
    ((2 <= Pool.closing x)%nat -> exists s, (i, s) ∈ Pool.settled (Pool.pool x)).
Proof.
  intros Hrun i Hi.
  destruct (Good_run _ _ _ Hrun (Good_initial options cpus)) as (_ & _ & Hk).
  pose proof (kept _ Hk i Hi) as Hkept. split; [exact Hkept|].
  intros Hc. destruct (closed _ Hk Hc) as [Hq Hnone].
  destruct Hkept as [(t & Ht & _)|[(w & t & Hw & Hcur & _)|Hs]].
  - rewrite Hq in Ht. inversion Ht.
  - rewrite (Hnone _ Hw) in Hcur. discriminate.
  - exact Hs.
Qed.

Section PoolClosed.
Context {EdgeData : Type}.
Import Pool.
Local Abbreviation Pool := (Pool.Pool (EdgeData := EdgeData)).
Local Abbreviation World := (Pool.World (EdgeData := EdgeData)).

(** What a closed pool no longer does: post a request, create a worker,
    accept a task. *)
Definition inert (p p' : Pool) : Prop :=
  disposed p' = true /\ posted p' = posted p /\ created p' = created p /\
  nextId p' = nextId p.

Lemma inert_trans (p1 p2 p3 : Pool) : inert p1 p2 -> inert p2 p3 -> inert p1 p3.
Proof.
  intros (A1 & A2 & A3 & A4) (B1 & B2 & B3 & B4). repeat split; congruence.
Qed.

Lemma inert_fold {A} (f : Pool -> A -> Pool) (l : list A) (p : Pool) :
  disposed p = true ->
  (forall p a, disposed p = true -> inert p (f p a)) -> inert p (fold_left f l p).
Proof.
  intros Hd Hf. revert p Hd. induction l as [|a l IH]; intros p Hd; cbn.
  - repeat split. exact Hd.
  - pose proof (Hf p a Hd) as Hstep. eapply inert_trans; [exact Hstep|].
    apply IH. now destruct Hstep.
Qed.

Lemma inert_rejectCurrent container reason (p : Pool) :
  disposed p = true -> inert p (rejectCurrent container reason p).
Proof.
  intros Hd. unfold rejectCurrent. destruct (currentTask p !! container); now repeat split.
Qed.

Lemma inert_fire event (x x' : World) :
  disposed (pool x) = true -> fire event x = Some x' -> inert (pool x) (pool x').
Proof.
  intros Hd Hfire.
  destruct event as [loaded|from to opts| | | |container message|container error|container code];
    cbn in Hfire.
  - destruct (readyPromise (pool x)); try discriminate. injection Hfire as <-.
    cbn. unfold onWorkerThreads. destruct (negb loaded); [now repeat split|].
    rewrite Hd. now repeat split.
  - unfold schedule in Hfire. rewrite Hd in Hfire. injection Hfire as <-. now repeat split.
  - unfold close_enter in Hfire. rewrite Hd in Hfire. injection Hfire as <-. now repeat split.
  - destruct (closing x) as [|[|?]]; try discriminate.
    assert (Hclose : inert (pool x) (close_ready (pool x))).
    { unfold close_ready.
      assert (H1 : inert (pool x) (rejectQueued (pool x))).
      { unfold rejectQueued. apply (inert_trans _ (set_queue [] (pool x))); [now repeat split|].
        apply inert_fold; [exact Hd|]. intros q a Hq. now repeat split. }
      assert (H2 : inert (rejectQueued (pool x)) (rejectRunning (rejectQueued (pool x)))).
      { unfold rejectRunning. apply inert_fold; [now destruct H1|].
        intros q a Hq. unfold rejectRunningAt. destruct (currentTask q !! a); now repeat split. }
      eapply inert_trans; [exact H1|]. eapply inert_trans; [exact H2|].
      destruct H2 as (H2 & _). now repeat split. }
    destruct (readyPromise (pool x)); try discriminate; injection Hfire as <-; exact Hclose.
  - destruct (closing x) as [|[|[|?]]]; try discriminate.
    injection Hfire as <-. now repeat split.
  - destruct (inboxOf (pool x) container) as [|request rest] eqn:Hinbox; [discriminate|].
    destruct (bool_decide _); [|discriminate]. injection Hfire as <-. cbn.
    unfold _handleMessage. cbn [tasks set_inbox].
    destruct (tasks (pool x) !! response_id message) as [task|].
    + destruct (response_error message); unfold _release; cbn; rewrite Hd; now repeat split.
    + unfold _release; cbn; rewrite Hd; now repeat split.
  - destruct (bool_decide _); [|discriminate]. injection Hfire as <-. cbn.
    unfold _handleError.
    destruct (inert_rejectCurrent container (WorkerFailed error) _ Hd) as (H1 & H2 & H3 & H4).
    cbn [disposed _removeWorker set_idleWorkers set_workers]. rewrite H1.
    now repeat split.
  - destruct (bool_decide _); [|discriminate]. injection Hfire as <-. cbn.
    unfold _handleExit.
    destruct (inert_rejectCurrent container TerminatedUnexpectedly _ Hd) as (H1 & H2 & H3 & H4).
    cbn [disposed _removeWorker set_idleWorkers set_workers]. rewrite H1.
    now repeat split.
Qed.
End PoolClosed.

(** X15. A pool that has been closed stays closed and does nothing more:
    whatever happens to it, it posts no request, creates no worker and
    accepts no task, and [schedule] is rejected with the closing error. *)
Theorem closed_pool_is_inert {EdgeData : Type} events
    (x x' : Pool.World (EdgeData := EdgeData)) :
  Pool.disposed (Pool.pool x) = true ->
  Pool.run events x = Some x' ->
  Pool.disposed (Pool.pool x') = true /\
  Pool.posted (Pool.pool x') = Pool.posted (Pool.pool x) /\
  Pool.created (Pool.pool x') = Pool.created (Pool.pool x) /\
  Pool.nextId (Pool.pool x') = Pool.nextId (Pool.pool x) /\
  forall from to searchOptions,
    Pool.schedule from to searchOptions (Pool.pool x')
    = Some (inl Pool.PoolClosed, Pool.pool x').
Proof.
  intros Hd Hrun.
  assert (Hinert : inert (Pool.pool x) (Pool.pool x')).
  { revert x Hd Hrun. induction events as [|event later IH]; intros x Hd Hrun; cbn in Hrun.
    - injection Hrun as <-. now repeat split.
    - destruct (Pool.fire event x) as [x1|] eqn:Hfire; [|discriminate].
      pose proof (inert_fire _ _ _ Hd Hfire) as Hstep.
      eapply inert_trans; [exact Hstep|]. apply IH; [now destruct Hstep|exact Hrun]. }
  destruct Hinert as (H1 & H2 & H3 & H4). repeat split; try assumption.
  intros from to searchOptions. unfold Pool.schedule. now rewrite H1.
Qed.

Section PoolStaff.
Context {EdgeData : Type}.
Import Pool.
Local Abbreviation Pool := (Pool.Pool (EdgeData := EdgeData)).
Local Abbreviation World := (Pool.World (EdgeData := EdgeData)).

(** The workers of the pool are distinct containers, created once the
    module had arrived. *)
Record Staffed (p : Pool) : Prop := mkStaffed {
  staff_nodup : NoDup (workers p);
  staff_bound : forall w, w ∈ workers p -> (w < created p)%nat;
  staff_threads : created p = 0%nat \/ workerThreads p = true
}.

Definition sameStaff (p p' : Pool) : Prop :=
  workers p' = workers p /\ created p' = created p /\ workerThreads p' = workerThreads p.

Lemma sameStaff_refl (p : Pool) : sameStaff p p.
Proof. repeat split. Qed.

Lemma sameStaff_trans (p1 p2 p3 : Pool) :
  sameStaff p1 p2 -> sameStaff p2 p3 -> sameStaff p1 p3.
Proof. intros (A1 & A2 & A3) (B1 & B2 & B3). repeat split; congruence. Qed.

Lemma sameStaff_fold {A} (f : Pool -> A -> Pool) (l : list A) (p : Pool) :
  (forall p a, sameStaff p (f p a)) -> sameStaff p (fold_left f l p).
Proof.
  intros Hf. revert p. induction l as [|a l IH]; intros p; cbn.
  - apply sameStaff_refl.
  - eapply sameStaff_trans; [apply Hf|apply IH].
Qed.

Lemma Staffed_same p p' : sameStaff p p' -> Staffed p -> Staffed p'.
Proof.
  intros (Hw & Hc & Ht) [H1 H2 H3]. split; rewrite ?Hw, ?Hc, ?Ht; assumption.
Qed.

Lemma sameStaff_dispatch container task (p : Pool) : sameStaff p (_dispatch container task p).
Proof. repeat split. Qed.

Lemma sameStaff_release container (p : Pool) : sameStaff p (_release container p).
Proof.
  unfold _release. cbn [disposed set_currentTask]. destruct (disposed p); [repeat split|].
  cbn [queue set_currentTask]. destruct (queue p); repeat split.
Qed.

Lemma sameStaff_rejectCurrent container reason (p : Pool) :
  sameStaff p (rejectCurrent container reason p).
Proof. unfold rejectCurrent. destruct (currentTask p !! container); repeat split. Qed.

Lemma spawn_workers given (p : Pool) :
  given || workerThreads p = true ->
  workers (_spawnWorker given p) = workers p ++ [created p] /\
  created (_spawnWorker given p) = S (created p) /\
  workerThreads (_spawnWorker given p) = workerThreads p /\
  disposed (_spawnWorker given p) = disposed p.
Proof.
  intros Hthreads. unfold _spawnWorker. rewrite Hthreads. cbn [negb].
  cbn [queue set_workers set_created]. destruct (queue p); repeat split.
Qed.

Lemma Staffed_spawn given (p : Pool) :
  workerThreads p = true -> Staffed p -> Staffed (_spawnWorker given p).
Proof.
  intros Hthreads [H1 H2 H3].
  destruct (spawn_workers given p) as (Ew & Ec & Et & _).
  { rewrite Hthreads. apply orb_true_r. }
  split; rewrite ?Ew, ?Ec, ?Et.
  - apply NoDup_app. split; [exact H1|]. split; [|apply NoDup_singleton].
    intros w Hw Hin. apply list_elem_of_singleton in Hin as ->. specialize (H2 _ Hw). lia.
  - intros w Hw. apply elem_of_app in Hw as [Hw|Hw].
    + specialize (H2 _ Hw). lia.
    + apply list_elem_of_singleton in Hw as ->. lia.
  - now right.
Qed.

Lemma Staffed_spawn_any given (p : Pool) :
  given = false -> Staffed p -> Staffed (_spawnWorker given p).
Proof.
  intros -> Hp. destruct (workerThreads p) eqn:Ht; [now apply Staffed_spawn|].
  unfold _spawnWorker. rewrite Ht. exact Hp.
Qed.

Lemma Staffed_remove container (p : Pool) : Staffed p -> Staffed (_removeWorker container p).
Proof.
  intros [H1 H2 H3]. split; cbn; try assumption.
  - now apply NoDup_spliceOut.
  - intros w Hw. apply H2. eapply elem_of_spliceOut, Hw.
Qed.

Lemma Staffed_fire event (x x' : World) :
  fire event x = Some x' -> Staffed (pool x) -> Staffed (pool x').
Proof.
  intros Hfire Hp.
  destruct event as [loaded|from to opts| | | |container message|container error|container code];
    cbn in Hfire.
  - destruct (readyPromise (pool x)); try discriminate. injection Hfire as <-. cbn.
    unfold onWorkerThreads.
    destruct (negb loaded); [eapply Staffed_same; [|exact Hp]; repeat split|].
    destruct (disposed (pool x)); [eapply Staffed_same; [|exact Hp]; repeat split|].
    apply (Staffed_same (Nat.iter (poolSize (pool x)) (_spawnWorker true)
                           (set_workerThreads true (pool x)))); [repeat split|].
    assert (Hstart : Staffed (set_workerThreads true (pool x)) /\
                     workerThreads (set_workerThreads true (pool x)) = true).
    { split; [|reflexivity]. destruct Hp as [H1 H2 H3]. split; cbn; auto. }
    generalize (poolSize (pool x)). intros n.
    assert (Hall : Staffed (Nat.iter n (_spawnWorker true) (set_workerThreads true (pool x))) /\
                   workerThreads (Nat.iter n (_spawnWorker true)
                                    (set_workerThreads true (pool x))) = true);
      [|now destruct Hall].
    induction n as [|n [IH1 IH2]]; [exact Hstart|].
    change (Nat.iter (S n) (_spawnWorker true) (set_workerThreads true (pool x)))
      with (_spawnWorker true (Nat.iter n (_spawnWorker true)
                                 (set_workerThreads true (pool x)))).
    split; [now apply Staffed_spawn|].
    destruct (spawn_workers true
                (Nat.iter n (_spawnWorker true) (set_workerThreads true (pool x))) eq_refl)
      as (_ & _ & -> & _).
    exact IH2.
  - unfold schedule in Hfire.
    destruct (disposed (pool x)); [now injection Hfire as <-|].
    destruct (readyPromise (pool x)); try discriminate; [|now injection Hfire as <-].
    cbn in Hfire. destruct (last (idleWorkers (pool x))); injection Hfire as <-;
      (eapply Staffed_same; [|exact Hp]); repeat split.
  - unfold close_enter in Hfire. destruct (disposed (pool x)); injection Hfire as <-;
      [exact Hp|].
    eapply Staffed_same; [|exact Hp]. repeat split.
  - destruct (closing x) as [|[|?]]; try discriminate.
    assert (Hclose : Staffed (close_ready (pool x))).
    { eapply Staffed_same; [|exact Hp]. unfold close_ready.
      eapply sameStaff_trans; [|repeat split].
      eapply (sameStaff_trans _ (rejectQueued (pool x))).
      - unfold rejectQueued.
        eapply (sameStaff_trans _ (set_queue [] (pool x))); [repeat split|].
        apply sameStaff_fold. intros q a. repeat split.
      - unfold rejectRunning. apply sameStaff_fold. intros q a. unfold rejectRunningAt.
        destruct (currentTask q !! a); repeat split. }
    destruct (readyPromise (pool x)); try discriminate; injection Hfire as <-; exact Hclose.
  - destruct (closing x) as [|[|[|?]]]; try discriminate.
    injection Hfire as <-. destruct Hp as [H1 H2 H3]. split; cbn; auto.
    + constructor.
    + intros w Hw. inversion Hw.
  - destruct (inboxOf (pool x) container) as [|request rest]; [discriminate|].
    destruct (bool_decide _); [|discriminate]. injection Hfire as <-. cbn.
    eapply Staffed_same; [|exact Hp]. unfold _handleMessage. cbn [tasks set_inbox].
    destruct (tasks (pool x) !! response_id message).
    + destruct (response_error message);
        (eapply sameStaff_trans; [|apply sameStaff_release]); repeat split.
    + eapply sameStaff_trans; [|apply sameStaff_release]. repeat split.
  - destruct (bool_decide _); [|discriminate]. injection Hfire as <-. cbn.
    unfold _handleError.
    pose proof (Staffed_remove container _
                  (Staffed_same _ _ (sameStaff_rejectCurrent container (WorkerFailed error) _) Hp))
      as Hr.
    destruct (disposed _); [exact Hr|]. now apply Staffed_spawn_any.
  - destruct (bool_decide _); [|discriminate]. injection Hfire as <-. cbn.
    unfold _handleExit.
    pose proof (Staffed_remove container _
                  (Staffed_same _ _ (sameStaff_rejectCurrent container TerminatedUnexpectedly _) Hp))
      as Hr.
    destruct (_ && _); [|exact Hr]. now apply Staffed_spawn_any.
Qed.

Lemma Staffed_run events (x x' : World) :
  run events x = Some x' -> Staffed (pool x) -> Staffed (pool x').
Proof.
  revert x. induction events as [|event later IH]; intros x Hrun Hp; cbn in Hrun.
  - now injection Hrun as <-.
  - destruct (fire event x) as [x1|] eqn:Hfire; [|discriminate].
    exact (IH x1 Hrun (Staffed_fire _ _ _ Hfire Hp)).
Qed.

Lemma Staffed_initial options cpus : Staffed (pool (initial options cpus)).
Proof.
  split; cbn.
  - constructor.
  - intros w Hw. inversion Hw.
  - now left.
Qed.

Lemma spliceOut_length container (l : list nat) :
  container ∈ l -> S (length (spliceOut container l)) = length l.
Proof.
  induction l as [|y l IH]; cbn; [intros Hin; inversion Hin|]. intros Hin.
  destruct (decide (y = container)) as [->|Hne]; [reflexivity|].
  apply elem_of_cons in Hin as [->|Hin]; [congruence|]. cbn. now rewrite IH.
Qed.

Lemma spliceOut_absent container (l : list nat) :
  container ∉ l -> spliceOut container l = l.
Proof.
  induction l as [|y l IH]; cbn; [reflexivity|]. intros Hin.
  apply not_elem_of_cons in Hin as [Hne Hin].
  rewrite decide_False by congruence. now rewrite IH.
Qed.
End PoolStaff.

(** X16. A worker that raises an error is replaced by one new worker; when
    the same worker then exits with a code other than 0 a second one is
    created, and the pool has one worker more than before. *)
Theorem failed_worker_is_replaced_twice {EdgeData : Type} options cpus events
    (x : Pool.World (EdgeData := EdgeData)) container error code :
  Pool.run events (Pool.initial options cpus) = Some x ->
  Pool.disposed (Pool.pool x) = false ->
  container ∈ Pool.workers (Pool.pool x) ->
  code <> 0%Z ->
  let afterError := Pool._handleError container error (Pool.pool x) in
  let afterExit := Pool._handleExit container code afterError in
  length (Pool.workers afterError) = length (Pool.workers (Pool.pool x)) /\
  length (Pool.workers afterExit) = S (length (Pool.workers (Pool.pool x))).
Proof.
  intros Hrun Hd Hin Hcode.
  pose proof (Staffed_run _ _ _ Hrun (Staffed_initial options cpus)) as [H1 H2 H3].
  set (p := Pool.pool x) in *.
  assert (Hthreads : Pool.workerThreads p = true).
  { destruct H3 as [H3|H3]; [|exact H3]. specialize (H2 _ Hin). lia. }
  cbn zeta.
  (* the error *)
  set (p1 := Pool._removeWorker container
               (Pool.rejectCurrent container (Pool.WorkerFailed error) p)).
  assert (E1 : Pool.workers p1 = Pool.spliceOut container (Pool.workers p) /\
               Pool.created p1 = Pool.created p /\ Pool.workerThreads p1 = true /\
               Pool.disposed p1 = false).
  { unfold p1, Pool.rejectCurrent. destruct (Pool.currentTask p !! container); now repeat split. }
  destruct E1 as (Ew1 & Ec1 & Et1 & Ed1).
  assert (Herror : Pool._handleError container error p = Pool._spawnWorker false p1).
  { unfold Pool._handleError. fold p1. now rewrite Ed1. }
  destruct (spawn_workers false p1) as (Ew2 & Ec2 & Et2 & Ed2); [now rewrite Et1|].
  rewrite Herror.
  set (p2 := Pool._spawnWorker false p1) in *.
  assert (Hlen2 : length (Pool.workers p2) = length (Pool.workers p)).
  { rewrite Ew2, Ew1, length_app. cbn.
    pose proof (spliceOut_length container _ Hin). lia. }
  split; [exact Hlen2|].
  (* the exit *)
  set (p3 := Pool._removeWorker container
               (Pool.rejectCurrent container Pool.TerminatedUnexpectedly p2)).
  assert (Hgone : container ∉ Pool.workers p2).
  { rewrite Ew2, Ew1, Ec1. intros Hw. apply elem_of_app in Hw as [Hw|Hw].
    - revert Hw. now apply not_elem_of_spliceOut.
    - apply list_elem_of_singleton in Hw. specialize (H2 _ Hin). lia. }
  assert (E3 : Pool.workers p3 = Pool.workers p2 /\ Pool.workerThreads p3 = true /\
               Pool.disposed p3 = false).
  { unfold p3, Pool.rejectCurrent.
    destruct (Pool.currentTask p2 !! container); cbn;
      rewrite (spliceOut_absent _ _ Hgone), ?Et2, ?Ed2; now repeat split. }
  destruct E3 as (Ew3 & Et3 & Ed3).
  assert (Hexit : Pool._handleExit container code p2 = Pool._spawnWorker false p3).
  { unfold Pool._handleExit. fold p3. rewrite Ed3.
    destruct (Z.eqb_spec code 0) as [->|_]; [contradiction|reflexivity]. }
  rewrite Hexit.
  destruct (spawn_workers false p3) as (Ew4 & _); [now rewrite Et3|].
  rewrite Ew4, Ew3, length_app. cbn. lia.
Qed.

(** X17. Scheduling a task while a worker is idle and receiving that
    worker's answer: the request is posted to the worker that became idle
    last, the answer settles exactly this task, with the path or with the
    message of the error the worker reported, and the worker is idle
    again. *)
Theorem pool_settles_answered_task {EdgeData : Type} options cpus events
    (x x1 x2 : Pool.World (EdgeData := EdgeData)) w from to searchOptions message :
  Pool.run events (Pool.initial options cpus) = Some x ->
  last (Pool.idleWorkers (Pool.pool x)) = Some w ->
  Pool.fire (Pool.Schedule from to searchOptions) x = Some x1 ->
  Pool.fire (Pool.Message w message) x1 = Some x2 ->
  Pool.posted (Pool.pool x1)
  = Pool.posted (Pool.pool x)
    ++ [(w, Pool.mkRequest (Pool.nextId (Pool.pool x)) from to searchOptions)] /\
  Pool.settled (Pool.pool x2)
  = Pool.settled (Pool.pool x)
    ++ [(Pool.nextId (Pool.pool x),
         match Pool.response_error message with
         | Some text => Pool.Reject (Pool.WorkerReported text)
         | None => Pool.Resolve (Pool.response_path message)
         end)] /\
  Pool.posted (Pool.pool x2) = Pool.posted (Pool.pool x1) /\
  Pool.idleWorkers (Pool.pool x2) = Pool.idleWorkers (Pool.pool x).
Proof.
  intros Hrun Hlast Hschedule Hmessage.
  destruct (Good_run _ _ _ Hrun (Good_initial options cpus)) as (Hord & Htidy & Hk).
  destruct x as [p c f e]. cbn [Pool.pool] in *.
  pose proof Hlast as Hidle. apply last_Some in Hidle as [idle' Hidle].
  assert (Hin : w ∈ Pool.idleWorkers p).
  { rewrite Hidle. apply elem_of_app. right. now left. }
  pose proof (idle_inbox _ Htidy _ Hin) as Hinbox.
  assert (Hqueue : Pool.queue p = []).
  { destruct (conserving _ Hord) as [Hq|Hi]; [exact Hq|]. rewrite Hi in Hin. inversion Hin. }
  cbn in Hschedule. unfold Pool.schedule in Hschedule.
  assert (Hstuck : Pool.fire (Pool.Message w message) (Pool.mkWorld p c f e) = None).
  { cbn. now rewrite Hinbox. }
  destruct (Pool.disposed p) eqn:Hd.
  { injection Hschedule as <-. congruence. }
  destruct (Pool.readyPromise p); try discriminate.
  2:{ injection Hschedule as <-. congruence. }
  cbn in Hschedule. rewrite Hlast in Hschedule. injection Hschedule as <-.
  set (request := Pool.mkRequest (Pool.nextId p) from to searchOptions) in *.
  set (p0 := Pool.set_idleWorkers (removelast (Pool.idleWorkers p))
               (Pool.set_tasks (<[Pool.nextId p := request]> (Pool.tasks p))
                  (Pool.set_nextId (S (Pool.nextId p)) p))) in *.
  assert (Hinbox1 : Pool.inboxOf (Pool._dispatch w request p0) w = [request]).
  { rewrite inboxOf_dispatch, decide_True by reflexivity.
    change (Pool.inboxOf p0 w) with (Pool.inboxOf p w). now rewrite Hinbox. }
  unfold Pool.fire in Hmessage. cbn [Pool.pool Pool.closing Pool.failed Pool.exited] in Hmessage.
  rewrite Hinbox1 in Hmessage.
  destruct (bool_decide _) eqn:Hdec; [|discriminate].
  apply bool_decide_eq_true in Hdec as (_ & _ & Hid). cbn in Hid.
  injection Hmessage as <-. cbn [Pool.pool].
  split; [reflexivity|].
  unfold Pool._handleMessage. cbn [Pool.tasks Pool.set_inbox Pool._dispatch Pool.set_posted
    Pool.set_currentTask Pool.set_idleWorkers Pool.set_tasks Pool.set_nextId p0].
  rewrite Hid, lookup_insert_eq.
  unfold Pool._release.
  destruct (Pool.response_error message); cbn; rewrite Hd, Hqueue; cbn;
    rewrite Hidle, removelast_last; repeat split.
Qed.

Section PoolSettling.
Context {EdgeData : Type}.
Import Pool.
Local Abbreviation Pool := (Pool.Pool (EdgeData := EdgeData)).
Local Abbreviation World := (Pool.World (EdgeData := EdgeData)).

(** A settled task is no longer in the table of tasks, and a task is
    resolved only if nothing settled it before. *)
Record Settling (p : Pool) : Prop := mkSettling {
  settled_gone : forall i s, (i, s) ∈ settled p -> tasks p !! i = None;
  settled_bound : forall i s, (i, s) ∈ settled p -> (i < nextId p)%nat;
  tasks_bound : forall i t, tasks p !! i = Some t -> (i < nextId p)%nat;
  resolve_first : forall before after i path,
    settled p = before ++ (i, Resolve path) :: after ->
    forall s, (i, s) ∉ before
}.

Definition sameSettling (p p' : Pool) : Prop :=
  tasks p' = tasks p /\ settled p' = settled p /\ nextId p' = nextId p.

Lemma sameSettling_refl (p : Pool) : sameSettling p p.
Proof. repeat split. Qed.

Lemma sameSettling_trans (p1 p2 p3 : Pool) :
  sameSettling p1 p2 -> sameSettling p2 p3 -> sameSettling p1 p3.
Proof. intros (A1 & A2 & A3) (B1 & B2 & B3). repeat split; congruence. Qed.

Lemma Settling_same p p' : sameSettling p p' -> Settling p -> Settling p'.
Proof.
  intros (Ht & Hs & Hn) [H1 H2 H3 H4]. split; rewrite ?Ht, ?Hs, ?Hn; assumption.
Qed.

Lemma sameSettling_release container (p : Pool) : sameSettling p (_release container p).
Proof.
  unfold _release. cbn [disposed set_currentTask]. destruct (disposed p); [repeat split|].
  cbn [queue set_currentTask]. destruct (queue p); repeat split.
Qed.

Lemma sameSettling_spawn given (p : Pool) : sameSettling p (_spawnWorker given p).
Proof.
  unfold _spawnWorker. destruct (negb _); [repeat split|].
  cbn [queue set_workers set_created]. destruct (queue p); repeat split.
Qed.

(** One call of [resolve] or [reject], with the task taken out of the
    table. *)
Lemma Settling_settle task s (p : Pool) :
  (request_id task < nextId p)%nat ->
  (forall path, s = Resolve path -> is_Some (tasks p !! request_id task)) ->
  Settling p ->
  Settling (settle task s (set_tasks (delete (request_id task) (tasks p)) p)).
Proof.
  intros Hbound Hresolve [H1 H2 H3 H4]. split; cbn.
  - intros i s' Hin. apply lookup_delete_None.
    apply elem_of_app in Hin as [Hin|Hin]; [right; eauto|].
    apply list_elem_of_singleton in Hin as [= -> ->]. now left.
  - intros i s' Hin. apply elem_of_app in Hin as [Hin|Hin]; [eauto|].
    now apply list_elem_of_singleton in Hin as [= -> ->].
  - intros i t Hl. apply lookup_delete_Some in Hl as [_ Hl]. eauto.
  - intros before after i path Hsplit s' Hin.
    destruct after as [|last after] using rev_ind.
    + apply app_inj_tail in Hsplit as [<- [= <- ->]].
      destruct (Hresolve path eq_refl) as [t Ht].
      rewrite (H1 _ _ Hin) in Ht. discriminate.
    + clear IHafter. rewrite app_comm_cons, app_assoc in Hsplit.
      apply app_inj_tail in Hsplit as [Hsplit _].
      exact (H4 _ _ _ _ Hsplit s' Hin).
Qed.

Lemma Settling_rejectTask (p : Pool) task :
  (request_id task < nextId p)%nat -> Settling p -> Settling (rejectTask p task).
Proof.
  intros Hbound Hp. unfold rejectTask. apply Settling_settle; [exact Hbound| |exact Hp].
  intros path Hr. discriminate.
Qed.

Lemma Settling_rejectCurrent container reason (p : Pool) :
  (forall w t, currentTask p !! w = Some t -> (request_id t < nextId p)%nat) ->
  Settling p -> Settling (rejectCurrent container reason p).
Proof.
  intros Hbound Hp. unfold rejectCurrent.
  destruct (currentTask p !! container) as [task|] eqn:Hc; [|exact Hp].
  apply Settling_settle; [exact (Hbound _ _ Hc)| |exact Hp].
  intros path Hr. discriminate.
Qed.

Lemma Settling_rejectAll (l : list WorkerRequest) (p : Pool) :
  (forall t, t ∈ l -> (request_id t < nextId p)%nat) ->
  Settling p -> Settling (fold_left rejectTask l p).
Proof.
  revert p. induction l as [|t l IH]; intros p Hbound Hp; cbn [fold_left]; [exact Hp|].
  apply IH.
  - intros t' Hin. cbn. apply Hbound. now right.
  - apply Settling_rejectTask; [apply Hbound; now left|exact Hp].
Qed.

Lemma Settling_rejectRunningAll (l : list nat) (p : Pool) :
  (forall w t, currentTask p !! w = Some t -> (request_id t < nextId p)%nat) ->
  Settling p -> Settling (fold_left rejectRunningAt l p).
Proof.
  revert p. induction l as [|c l IH]; intros p Hbound Hp; cbn [fold_left]; [exact Hp|].
  apply IH.
  - intros w t. unfold rejectRunningAt.
    destruct (currentTask p !! c) as [current|]; [|apply Hbound].
    cbn. intros Hl. apply lookup_delete_Some in Hl as [_ Hl]. exact (Hbound _ _ Hl).
  - unfold rejectRunningAt. destruct (currentTask p !! c) as [current|] eqn:Hc; [|exact Hp].
    eapply Settling_same; [|apply (Settling_rejectTask p current (Hbound _ _ Hc) Hp)].
    repeat split.
Qed.

Lemma Settling_fire event (x x' : World) :
  fire event x = Some x' -> Good x -> Settling (pool x) -> Settling (pool x').
Proof.
  intros Hfire (Hord & Htidy & Hk) Hp.
  pose proof (current_bound _ Hk) as Hcurrent.
  destruct event as [loaded|from to opts| | | |container message|container error|container code];
    cbn in Hfire.
  - destruct (readyPromise (pool x)); try discriminate. injection Hfire as <-. cbn.
    eapply Settling_same; [|exact Hp]. unfold onWorkerThreads.
    destruct (negb loaded); [repeat split|]. destruct (disposed (pool x)); [repeat split|].
    eapply (sameSettling_trans _ (Nat.iter (poolSize (pool x)) (_spawnWorker true)
                                    (set_workerThreads true (pool x)))); [|repeat split].
    generalize (poolSize (pool x)). intros n. induction n as [|n IH]; [repeat split|].
    change (Nat.iter (S n) (_spawnWorker true) (set_workerThreads true (pool x)))
      with (_spawnWorker true (Nat.iter n (_spawnWorker true)
                                 (set_workerThreads true (pool x)))).
    eapply sameSettling_trans; [exact IH|apply sameSettling_spawn].
  - unfold schedule in Hfire.
    destruct (disposed (pool x)); [now injection Hfire as <-|].
    destruct (readyPromise (pool x)); try discriminate; [|now injection Hfire as <-].
    cbn in Hfire.
    assert (Hnew : Settling (set_tasks (<[nextId (pool x) :=
                                mkRequest (nextId (pool x)) from to opts]> (tasks (pool x)))
                               (set_nextId (S (nextId (pool x))) (pool x)))).
    { destruct Hp as [H1 H2 H3 H4]. split; cbn.
      - intros i s Hin. rewrite lookup_insert_ne; [eauto|].
        specialize (H2 _ _ Hin). lia.
      - intros i s Hin. specialize (H2 _ _ Hin). lia.
      - intros i t Hl. apply lookup_insert_Some in Hl as [[<- _]|[_ Hl]]; [lia|].
        specialize (H3 _ _ Hl). lia.
      - exact H4. }
    destruct (last (idleWorkers (pool x))); injection Hfire as <-;
      (eapply Settling_same; [|exact Hnew]); repeat split.
  - unfold close_enter in Hfire. destruct (disposed (pool x)); injection Hfire as <-;
      [exact Hp|].
    eapply Settling_same; [|exact Hp]. repeat split.
  - destruct (closing x) as [|[|?]]; try discriminate.
    assert (Hclose : Settling (close_ready (pool x))).
    { unfold close_ready.
      assert (H1 : Settling (rejectQueued (pool x))).
      { unfold rejectQueued. apply Settling_rejectAll.
        - intros t Ht. cbn. pose proof (queue_bound _ Hord) as Hb. unfold idsOf in Hb.
          rewrite Forall_forall in Hb. apply Hb. apply list_elem_of_fmap. eauto.
        - eapply Settling_same; [|exact Hp]. repeat split. }
      assert (Hcur : forall w t, currentTask (rejectQueued (pool x)) !! w = Some t ->
                                 (request_id t < nextId (rejectQueued (pool x)))%nat).
      { intros w t. unfold rejectQueued. rewrite rejectAll_current.
        destruct (rejectAll_shape (queue (pool x)) (set_queue [] (pool x)))
          as ((_ & _ & _ & -> & _) & _).
        apply Hcurrent. }
      pose proof (Settling_rejectRunningAll (workers (rejectQueued (pool x))) _ Hcur H1)
        as [J1 J2 J3 J4].
      fold (rejectRunning (rejectQueued (pool x))) in J1, J2, J3, J4.
      split; cbn.
      - intros i s _. apply lookup_empty.
      - exact J2.
      - intros i t Hl. rewrite lookup_empty in Hl. discriminate.
      - exact J4. }
    destruct (readyPromise (pool x)); try discriminate; injection Hfire as <-; exact Hclose.
  - destruct (closing x) as [|[|[|?]]]; try discriminate.
    injection Hfire as <-. eapply Settling_same; [|exact Hp]. repeat split.
  - destruct (inboxOf (pool x) container) as [|request rest]; [discriminate|].
    destruct (bool_decide _); [|discriminate]. injection Hfire as <-. cbn.
    unfold _handleMessage. cbn [tasks set_inbox].
    destruct (tasks (pool x) !! response_id message) as [task|] eqn:Hl.
    + pose proof (tasks_id _ Hk _ _ Hl) as Hid.
      assert (Hstep : forall s,
                Settling (settle task s
                            (set_tasks (delete (request_id task) (tasks (pool x))) (pool x)))).
      { intros s. apply Settling_settle; [|intros _ _; rewrite Hid; eauto|exact Hp].
        rewrite Hid. exact (tasks_bound _ Hp _ _ Hl). }
      rewrite <- Hid.
      destruct (response_error message);
        (eapply Settling_same; [apply sameSettling_release|]);
        (eapply Settling_same; [|apply Hstep]); repeat split.
    + eapply Settling_same; [apply sameSettling_release|].
      eapply Settling_same; [|exact Hp]. repeat split.
  - destruct (bool_decide _); [|discriminate]. injection Hfire as <-. cbn.
    unfold _handleError.
    pose proof (Settling_rejectCurrent container (WorkerFailed error) _ Hcurrent Hp) as Hr.
    assert (Hm : Settling (_removeWorker container
                             (rejectCurrent container (WorkerFailed error) (pool x))))
      by (eapply Settling_same; [|exact Hr]; repeat split).
    destruct (disposed _); [exact Hm|].
    eapply Settling_same; [apply sameSettling_spawn|exact Hm].
  - destruct (bool_decide _); [|discriminate]. injection Hfire as <-. cbn.
    unfold _handleExit.
    pose proof (Settling_rejectCurrent container TerminatedUnexpectedly _ Hcurrent Hp) as Hr.
    assert (Hm : Settling (_removeWorker container
                             (rejectCurrent container TerminatedUnexpectedly (pool x))))
      by (eapply Settling_same; [|exact Hr]; repeat split).
    destruct (_ && _); [|exact Hm].
    eapply Settling_same; [apply sameSettling_spawn|exact Hm].
Qed.

Lemma Settling_run events (x x' : World) :
  run events x = Some x' -> Good x -> Settling (pool x) -> Settling (pool x').
Proof.
  revert x. induction events as [|event later IH]; intros x Hrun Hgood Hp; cbn in Hrun.
  - now injection Hrun as <-.
  - destruct (fire event x) as [x1|] eqn:Hfire; [|discriminate].
    exact (IH x1 Hrun (Good_fire _ _ _ Hfire Hgood) (Settling_fire _ _ _ Hfire Hgood Hp)).
Qed.

Lemma Settling_initial options cpus : Settling (pool (initial options cpus)).
Proof.
  split; cbn.
  - intros i s Hin. inversion Hin.
  - intros i s Hin. inversion Hin.
  - intros i t Hl. rewrite lookup_empty in Hl. discriminate.
  - intros before after i path Hsplit. destruct before; discriminate.
Qed.
End PoolSettling.

(** X19. The pool resolves a task only if nothing has settled it before:
    in the sequence of calls to [resolve] and [reject], a call of
    [resolve] for a task is the first call for that task.  So a task
    that [close], a worker error or a worker exit has rejected is never
    resolved afterwards, and no task is resolved twice. *)
Theorem pool_resolves_fresh_tasks_only {EdgeData : Type} options cpus events
    (x : Pool.World (EdgeData := EdgeData)) :
  Pool.run events (Pool.initial options cpus) = Some x ->
  forall before after i path,
    Pool.settled (Pool.pool x) = before ++ (i, Pool.Resolve path) :: after ->
    forall s, (i, s) ∉ before.
Proof.
  intros Hrun.
  exact (resolve_first _ (Settling_run _ _ _ Hrun (Good_initial options cpus)
                            (Settling_initial options cpus))).
Qed.

(** ** The worker and the facade *)

Section WorkerAgrees.
Context {EdgeData : Type}.
Context `{PQD : PriorityQueue Dijkstra.State Dijkstra.cost}.
Context `{PQA : PriorityQueue AStar.State AStar.estimate}.
Variable distance : Position -> Position -> Q.
Local Abbreviation Graph := (PathFinderGraph EdgeData).

Lemma createPhantom_ext compactNode1 compactNode2 hasEdgeDataReducer n (g : Graph) :
  (forall n v cv sc ed, compactNode1 n v cv sc ed = compactNode2 n v cv sc ed) ->
  _createPhantom compactNode1 hasEdgeDataReducer n g
  = _createPhantom compactNode2 hasEdgeDataReducer n g.
Proof.
  intros Hsame. unfold _createPhantom, mbind, mget.
  destruct (decide _); [reflexivity|]. now rewrite Hsame.
Qed.

Lemma fromKeys_ext compactNode1 compactNode2 hasEdgeDataReducer fuel start finish
    searchOptions (g : Graph) :
  (forall n v cv sc ed, compactNode1 n v cv sc ed = compactNode2 n v cv sc ed) ->
  findPathFromVertexKeys distance compactNode1 hasEdgeDataReducer fuel start finish
    searchOptions g
  = findPathFromVertexKeys distance compactNode2 hasEdgeDataReducer fuel start finish
      searchOptions g.
Proof.
  intros Hsame. unfold findPathFromVertexKeys.
  destruct (decide _); [|reflexivity].
  rewrite (createPhantom_ext compactNode1 compactNode2 _ start g Hsame).
  destruct (_createPhantom compactNode2 hasEdgeDataReducer start g) as [[phantomStart|e] g1];
    [|reflexivity].
  rewrite (createPhantom_ext compactNode1 compactNode2 _ finish g1 Hsame).
  reflexivity.
Qed.
End WorkerAgrees.

(** X18. A request that [findPathAsync] hands to the pool is answered by a
    worker as [findPath] would answer it: on a copy of the same graph, and
    with options that compact a node as the empty options do, the worker
    posts the path [findPath] returns, or the message of the error it
    throws, and leaves its graph as [findPath] leaves the facade's. *)
Theorem worker_answers_as_findPath {EdgeData : Type}
    `{PQD : PriorityQueue Dijkstra.State Dijkstra.cost}
    `{PQA : PriorityQueue AStar.State AStar.estimate}
    defaultKey distance compactNode workerCompactNode options hasEdgeDataReducer
    runtime messageOf fuel a b searchOptions workerPool workerPool'
    (g : PathFinderGraph EdgeData) start finish workerSearchOptions id :
  (forall n v cv sc ed, workerCompactNode n v cv sc ed = compactNode n v cv sc ed) ->
  findPathAsync defaultKey distance compactNode options hasEdgeDataReducer runtime
    fuel a b searchOptions workerPool g
  = (Scheduled start finish workerSearchOptions, workerPool') ->
  Worker.onMessage distance workerCompactNode hasEdgeDataReducer messageOf fuel
    (Pool.mkRequest id start finish workerSearchOptions) g
  = match findPath defaultKey distance compactNode options hasEdgeDataReducer
            fuel a b searchOptions g with
    | None => None
    | Some (Ok result, g', _) => Some (Pool.mkResponse id result None, g')
    | Some (Throw e, g', _) => Some (Pool.mkResponse id None (Some (messageOf e)), g')
    end.
Proof.
  intros Hsame Hasync. unfold findPathAsync in Hasync.
  destruct (_ensureWorkerPool options hasEdgeDataReducer runtime workerPool) as [pool field].
  destruct (negb pool || _hasWorkerSearchCallbacks searchOptions) eqn:Hsync; [discriminate|].
  apply orb_false_elim in Hsync as [_ Hcallbacks].
  unfold findPath.
  destruct (_resolveVertexKey g (roundCoord a _) _ _) as [start'|e]; [|discriminate].
  destruct (_resolveVertexKey g (roundCoord b _) _ _) as [finish'|e]; [|discriminate].
  destruct (decide _) as [_|_]; [|discriminate].
  injection Hasync as <- <- <- <-.
  unfold Worker.onMessage, Worker.searchOptionsOf. cbn.
  rewrite (fromKeys_ext distance workerCompactNode compactNode _ _ _ _ _ g Hsame).
  unfold _hasWorkerSearchCallbacks in Hcallbacks.
  destruct searchOptions as [[bias|] [guard|] algorithm [callback|]]; try discriminate.
  unfold _toWorkerSearchOptions. cbn.
  destruct (findPathFromVertexKeys _ _ _ _ _ _ _ _) as [[[[result|e] g'] made]|]; reflexivity.
Qed.

Lemma pool_never_idles_with_work_witness :
  exists x, Pool.run TwoWorkers.busy TwoWorkers.born = Some x /\
            (Pool.queue (Pool.pool x) = [] \/ Pool.idleWorkers (Pool.pool x) = []).
Proof.
  assert (Hrun : exists x, Pool.run TwoWorkers.busy TwoWorkers.born = Some x)
    by (vm_compute; eexists; reflexivity).
  destruct Hrun as [x Hrun]. exists x. split; [exact Hrun|].
  exact (pool_never_idles_with_work TwoWorkers.options None TwoWorkers.busy x Hrun).
Defined.

Lemma pool_posts_in_arrival_order_witness :
  exists x, Pool.run TwoWorkers.eventful TwoWorkers.born = Some x /\
            StronglySorted lt (Pool.request_id <$> (Pool.posted (Pool.pool x)).*2).
Proof.
  assert (Hrun : exists x, Pool.run TwoWorkers.eventful TwoWorkers.born = Some x)
    by (vm_compute; eexists; reflexivity).
  destruct Hrun as [x Hrun]. exists x. split; [exact Hrun|].
  exact (pool_posts_in_arrival_order TwoWorkers.options None TwoWorkers.eventful x Hrun).
Defined.

Lemma pool_one_request_per_worker_witness :
  exists x, Pool.run TwoWorkers.busy TwoWorkers.born = Some x /\
    forall w,
      (length (Pool.inboxOf (Pool.pool x) w) <= 1)%nat /\
      (w ∈ Pool.idleWorkers (Pool.pool x) -> Pool.inboxOf (Pool.pool x) w = []).
Proof.
  assert (Hrun : exists x, Pool.run TwoWorkers.busy TwoWorkers.born = Some x)
    by (vm_compute; eexists; reflexivity).
  destruct Hrun as [x Hrun]. exists x. split; [exact Hrun|].
  exact (pool_one_request_per_worker TwoWorkers.options None TwoWorkers.busy x Hrun).
Defined.

Lemma pool_loses_no_task_witness :
  exists x, Pool.run TwoWorkers.eventful TwoWorkers.born = Some x /\
    forall i, (i < Pool.nextId (Pool.pool x))%nat ->
      ((exists task, task ∈ Pool.queue (Pool.pool x) /\ Pool.request_id task = i) \/
       (exists w task, w ∈ Pool.workers (Pool.pool x) /\
                       Pool.currentTask (Pool.pool x) !! w = Some task /\
                       Pool.request_id task = i) \/
       (exists s, (i, s) ∈ Pool.settled (Pool.pool x))) /\
      ((2 <= Pool.closing x)%nat -> exists s, (i, s) ∈ Pool.settled (Pool.pool x)).
Proof.
  assert (Hrun : exists x, Pool.run TwoWorkers.eventful TwoWorkers.born = Some x)
    by (vm_compute; eexists; reflexivity).
  destruct Hrun as [x Hrun]. exists x. split; [exact Hrun|].
  exact (pool_loses_no_task TwoWorkers.options None TwoWorkers.eventful x Hrun).
Defined.

Lemma closed_pool_is_inert_witness :
  exists x',
    Pool.run [Pool.Schedule "A" "B" None; Pool.CloseReady; Pool.WorkerExit 1%nat 1;
              Pool.CloseTerminated] TwoWorkers.closing = Some x' /\
    Pool.disposed (Pool.pool x') = true /\
    Pool.posted (Pool.pool x') = Pool.posted (Pool.pool TwoWorkers.closing) /\
    Pool.created (Pool.pool x') = Pool.created (Pool.pool TwoWorkers.closing) /\
    Pool.nextId (Pool.pool x') = Pool.nextId (Pool.pool TwoWorkers.closing) /\
    forall from to searchOptions,
      Pool.schedule from to searchOptions (Pool.pool x')
      = Some (inl Pool.PoolClosed, Pool.pool x').
Proof.
  assert (Hrun : exists x',
    Pool.run [Pool.Schedule "A" "B" None; Pool.CloseReady; Pool.WorkerExit 1%nat 1;
              Pool.CloseTerminated] TwoWorkers.closing = Some x')
    by (vm_compute; eexists; reflexivity).
  destruct Hrun as (x' & Hrun). exists x'. split; [exact Hrun|].
  exact (closed_pool_is_inert _ TwoWorkers.closing x' eq_refl Hrun).
Defined.

Lemma failed_worker_is_replaced_twice_witness :
  let afterError := Pool._handleError 0%nat "out of memory" (Pool.pool TwoWorkers.staffed) in
  let afterExit := Pool._handleExit 0%nat 1 afterError in
  length (Pool.workers afterError) = length (Pool.workers (Pool.pool TwoWorkers.staffed)) /\
  length (Pool.workers afterExit) = S (length (Pool.workers (Pool.pool TwoWorkers.staffed))).
Proof.
  refine (failed_worker_is_replaced_twice TwoWorkers.options None [Pool.WorkerThreads true]
            TwoWorkers.staffed 0%nat "out of memory" 1%Z _ _ _ _).
  - vm_compute. reflexivity.
  - reflexivity.
  - left.
  - discriminate.
Defined.

Lemma pool_settles_answered_task_witness :
  exists x2,
    Pool.fire (Pool.Message 1%nat (Pool.mkResponse 0 None (Some "no row")))
      TwoWorkers.working = Some x2 /\
    Pool.posted (Pool.pool TwoWorkers.working)
    = Pool.posted (Pool.pool TwoWorkers.staffed)
      ++ [(1%nat, Pool.mkRequest (Pool.nextId (Pool.pool TwoWorkers.staffed)) "A" "B" None)] /\
    Pool.settled (Pool.pool x2)
    = Pool.settled (Pool.pool TwoWorkers.staffed)
      ++ [(Pool.nextId (Pool.pool TwoWorkers.staffed),
           match Pool.response_error
                   (Pool.mkResponse (EdgeData := unit) 0 None (Some "no row")) with
           | Some text => Pool.Reject (Pool.WorkerReported text)
           | None => Pool.Resolve None
           end)] /\
    Pool.posted (Pool.pool x2) = Pool.posted (Pool.pool TwoWorkers.working) /\
    Pool.idleWorkers (Pool.pool x2) = Pool.idleWorkers (Pool.pool TwoWorkers.staffed).
Proof.
  assert (H1 : Pool.fire (Pool.Schedule "A" "B" None) TwoWorkers.staffed
               = Some TwoWorkers.working) by (vm_compute; reflexivity).
  assert (H2 : exists x2,
    Pool.fire (Pool.Message 1%nat (Pool.mkResponse 0 None (Some "no row")))
      TwoWorkers.working = Some x2)
    by (vm_compute; eexists; reflexivity).
  destruct H2 as (x2 & H2). exists x2. split; [exact H2|].
  refine (pool_settles_answered_task TwoWorkers.options None [Pool.WorkerThreads true]
            TwoWorkers.staffed TwoWorkers.working x2 1%nat "A" "B" None _ _ _ H1 H2).
  - vm_compute. reflexivity.
  - reflexivity.
Defined.

(** A facade on the chain with the pool enabled: the request for the way
    from [A] to [B] goes to a worker, whose answer is the path the facade
    itself finds. *)
Lemma worker_answers_as_findPath_witness :
  Worker.onMessage (PQD := ListQueue Dijkstra.cost) (PQA := ListQueue AStar.estimate)
    equatorKm Chain.chainCompactNode false (fun _ => "error"%string) 10
    (Pool.mkRequest 7 "A" "B" None) Chain.graph
  = Some (Pool.mkResponse 7
            (Some (mkPath [Some Chain.pA; Some Chain.pN; Some Chain.pB] 3 None)) None,
          Chain.graph).
Proof.
  refine (worker_answers_as_findPath (PQD := ListQueue Dijkstra.cost)
            (PQA := ListQueue AStar.estimate)
            Chain.chainKey equatorKm Chain.chainCompactNode Chain.chainCompactNode
            (mkPathFinderOptions None (Some Chain.chainKey) (Some (mkWorkerOptions true None)))
            false (mkRuntime true true) (fun _ => "error"%string) 10
            Chain.pA Chain.pB Chain.noSearchOptions PoolUndefined PoolObject
            Chain.graph "A" "B" None 7%nat _ _).
  - reflexivity.
  - vm_compute. reflexivity.
Defined.

Lemma pool_resolves_fresh_tasks_only_witness :
  exists x, Pool.run TwoWorkers.eventful TwoWorkers.born = Some x /\
    forall before after i path,
      Pool.settled (Pool.pool x) = before ++ (i, Pool.Resolve path) :: after ->
      forall s, (i, s) ∉ before.
Proof.
  assert (Hrun : exists x, Pool.run TwoWorkers.eventful TwoWorkers.born = Some x)
    by (vm_compute; eexists; reflexivity).
  destruct Hrun as [x Hrun]. exists x. split; [exact Hrun|].
  exact (pool_resolves_fresh_tasks_only TwoWorkers.options None TwoWorkers.eventful x Hrun).
Defined.
